(** * GQL graph-pattern analysis: a shallow embedding and its properties

    The development follows the sources
      - [src/syntax_analyzer/graph_pattern_context.{h,cpp}]  (the scope and
        exposure engine, [GraphPatternContext]),
      - [src/syntax_analyzer/path_pattern.cpp]  (the traversal of a path
        pattern expression),
      - [src/syntax_analyzer/reference.cpp]  (resolution of a binding
        variable reference),
      - [src/syntax_analyzer/match_utils.cpp]  (the output columns of a
        MATCH statement),
      - [src/syntax_analyzer/value_type.cpp]  (the checks of a value type),
      - [src/ast/output_stream.cpp]  (the printing of a quoted string),
      - [src/rewrite/element_pattern_where.cpp] and
        [src/rewrite/element_property_predicate.cpp]  (two of the
        pre-analysis rewrites).
    The two other rewrites and the tree walk of [gql/ast/algorithm.h] are
    not among the sources: they are modelled after section 4.1 of the
    specification and the expectations of [src/rewrite/rewrite_unittest.cpp],
    and are marked as such where they are defined.

    Conventions.
      - [std::unordered_map<std::string, T>] is [gmap string T]; a loop over
        such a map visits [map_to_list] of it.
      - [std::stack<T>] is [list T], the head being the top.
      - [int] is [Z] reduced to 32 bits in two's complement after every
        arithmetic operation ([wrap32]).
      - A C++ function that may throw returns [Result]: [Ok], [Throw code],
        or [Abort] when an [assert] fails or a stack is read while empty. *)

From Stdlib Require Import ZArith String List Bool Lia DecimalString.
From Stdlib Require DecimalPos DecimalZ.
From stdpp Require Import base option gmap strings list fin_maps.

Local Open Scope Z_scope.
Local Open Scope string_scope.

(** ** Outcomes *)

(** The error codes of [gql/error.h] that the modelled functions raise. *)
Inductive ErrorCode : Type :=
  | E0001 | E0002 | E0003 | E0004 | E0005 | E0006 | E0007 | E0008 | E0009
  | E0051 | E0052 | E0053 | E0054 | E0060 | E0109 | E0110 | E0111 | E0113
  | FeatureNotSupported.

Inductive Result (A : Type) : Type :=
  | Ok (a : A)
  | Throw (e : ErrorCode)
  | Abort.
Arguments Ok {A} a.
Arguments Throw {A} e.
Arguments Abort {A}.

#[global] Instance Result_ret : MRet Result := fun A a => Ok a.
#[global] Instance Result_bind : MBind Result := fun A B k r =>
  match r with
  | Ok a => k a
  | Throw e => Throw e
  | Abort => Abort
  end.

(** [assert(b)] *)
Definition assert (b : bool) : Result unit := if b then Ok tt else Abort.

(** [for (auto& x : xs) body(x)] over a state [S], stopping at the first
    throw. *)
Definition forEach {A S : Type} (body : A -> S -> Result S)
  : list A -> S -> Result S :=
  fix go (xs : list A) (s : S) : Result S :=
    match xs with
    | [] => Ok s
    | x :: rest => s' ← body x s; go rest s'
    end.

(** ** Machine integers *)

Definition wrap32 (z : Z) : Z := (z + 2^31) mod 2^32 - 2^31.
Definition int_add (x y : Z) : Z := wrap32 (x + y).
Definition int_mul (x y : Z) : Z := wrap32 (x * y).
Definition INT_MAX : Z := 2^31 - 1.

(** ** Domain types ([gql/syntax_analyzer/defs.h], [aux_data.h]) *)

Inductive GraphPatternVariableType : Type := Node | Edge | Path | Subpath.

Inductive VariableDegreeOfExposure : Type :=
  | UnconditionalSingleton
  | ConditionalSingleton
  | EffectivelyBoundedGroup
  | EffectivelyUnboundedGroup.

#[global] Instance GraphPatternVariableType_eq_dec : EqDecision GraphPatternVariableType.
Proof. solve_decision. Defined.
#[global] Instance VariableDegreeOfExposure_eq_dec : EqDecision VariableDegreeOfExposure.
Proof. solve_decision. Defined.
#[global] Instance ErrorCode_eq_dec : EqDecision ErrorCode.
Proof. solve_decision. Defined.

(** [ast::InputPosition]: a (line, column) pair that may be unset. *)
Definition InputPosition : Type := option (nat * nat).

Definition IsSet (p : InputPosition) : bool := bool_decide (is_Some p).

(** [operator>] on two set positions, lexicographic. *)
Definition pos_gt (p q : InputPosition) : bool :=
  match p, q with
  | Some (l1, c1), Some (l2, c2) =>
      (l2 <? l1)%nat || ((l1 =? l2)%nat && (c2 <? c1)%nat)
  | _, _ => false
  end.


(** ** The abstract syntax tree ([gql/ast])

    Only the node kinds that the modelled functions read or build are
    represented.  Input positions are kept on the nodes whose position the
    sources read or assign (element patterns, variable declarations,
    parenthesized expressions and their WHERE clauses). *)

Inductive PathMode : Type := WALK | TRAIL | SIMPLE | ACYCLIC.
#[global] Instance PathMode_eq_dec : EqDecision PathMode.
Proof. solve_decision. Defined.

(** [ast::PathPatternExpression::Op] *)
Inductive Op : Type := Union | MultisetAlternation.
#[global] Instance Op_eq_dec : EqDecision Op.
Proof. solve_decision. Defined.

(** [ast::PathFactor::quantifier]: a variant of [NoQuantifier], [Optional]
    and [GraphPatternQuantifier {lower, upper}]. *)
Inductive Quantifier : Type :=
  | NoQuantifier
  | Optional
  | GraphPatternQuantifier (lower : N) (upper : option N).

Inductive LabelExpression : Type :=
  | LabelName (label : string)
  | Wildcard
  | Negation (e : LabelExpression)
  | Conjunction (l r : LabelExpression)
  | Disjunction (l r : LabelExpression).

Record ElementVariableDeclaration : Type := {
  evd_name : string;
  evd_isTemp : bool;
  evd_pos : InputPosition
}.

(** [ast::SubpathVariable] and [ast::PathVariable] *)
Record NamedVariable : Type := {
  nv_name : string;
  nv_pos : InputPosition
}.

Inductive CompOp : Type := Equals | NotEquals | LessThan | GreaterThan.
Inductive BinaryOp : Type := BoolAnd | BoolOr.

Inductive EdgeDirection : Type :=
  | Left_ | Undirected | Right_ | LeftOrUndirected | UndirectedOrRight
  | LeftOrRight | AnyDirection.

Section Shells.
(** The node kinds that do not recurse by themselves, over the type [V] of
    value expressions and [E] of path pattern expressions. *)
Context {V E P : Type}.

Record PropertyKeyValuePair_ : Type := {
  prop_name : string;
  prop_value : V
}.

(** [ast::ElementPatternPredicate] *)
Inductive ElementPatternPredicate_ : Type :=
  | ElementPatternWhereClause (wpos : InputPosition) (condition : V)
  | ElementPropertySpecification (props : list PropertyKeyValuePair_).

Record ElementPatternFiller_ : Type := {
  var : option ElementVariableDeclaration;
  labelExpr : option LabelExpression;
  predicate : option ElementPatternPredicate_
}.

(** [ast::ElementPattern] = variant of [NodePattern] and [EdgePattern] *)
Inductive ElementPattern_ : Type :=
  | NodePattern (pos : InputPosition) (filler : ElementPatternFiller_)
  | EdgePattern (pos : InputPosition) (direction : EdgeDirection)
                (filler : ElementPatternFiller_).

(** [ast::ParenthesizedPathPatternWhereClause], [ast::GraphPatternWhereClause] *)
Record WhereClause_ : Type := {
  where_pos : InputPosition;
  where_condition : V
}.

Record ParenthesizedPathPatternExpression_ : Type := {
  pppe_pos : InputPosition;
  pppe_var : option NamedVariable;
  pathMode : PathMode;
  pppe_pattern : E;
  pppe_where : option WhereClause_
}.

Record PathFactor_ : Type := {
  quantifier : Quantifier;
  pattern : P
}.

Record PathPattern_ : Type := {
  pp_var : option NamedVariable;
  pp_selective : bool;
  pp_expr : E
}.

Record GraphPattern_ : Type := {
  paths : list PathPattern_;
  gp_where : option WhereClause_
}.
End Shells.
Arguments PropertyKeyValuePair_ : clear implicits.
Arguments ElementPatternPredicate_ : clear implicits.
Arguments ElementPatternFiller_ : clear implicits.
Arguments ElementPattern_ : clear implicits.
Arguments WhereClause_ : clear implicits.
Arguments ParenthesizedPathPatternExpression_ : clear implicits.
Arguments PathFactor_ : clear implicits.
Arguments PathPattern_ : clear implicits.
Arguments GraphPattern_ : clear implicits.

Scheme All for list.

(** [ast::SimplifiedPathPatternExpression].  The analyzer only tests its
    presence.  Modelled from the spec: its contents (the declarations are in
    [gql/ast], which is not among the sources) follow the forms named in
    section 4.1, R1: a label expression standing for one labeled edge, a
    directedness marker, a quantification, a concatenation and an
    alternation. *)
Inductive SimplifiedContents : Type :=
  | SimplifiedLabel (l : LabelExpression)
  | SimplifiedDirection (d : EdgeDirection) (c : SimplifiedContents)
  | SimplifiedQuantified (q : Quantifier) (c : SimplifiedContents)
  | SimplifiedConcatenation (cs : list SimplifiedContents)
  | SimplifiedAlternation (op : Op) (cs : list SimplifiedContents).

Record SimplifiedPathPatternExpression : Type := {
  simplified_direction : EdgeDirection;
  simplified_contents : SimplifiedContents
}.

Scheme All for option.
Scheme All for PropertyKeyValuePair_.
Scheme All for ElementPatternPredicate_.
Scheme All for ElementPatternFiller_.
Scheme All for ElementPattern_.
Scheme All for WhereClause_.
Scheme All for ParenthesizedPathPatternExpression_.
Scheme All for PathFactor_.
Scheme All for PathPattern_.
Scheme All for GraphPattern_.

Inductive ValueExpression : Type :=
  | Literal (text : string)
  | BindingVariableReference (name : string)
  | PropertyReference (element : ValueExpression) (property : string)
  | Comparison (op : CompOp) (left right : ValueExpression)
  | Binary (op : BinaryOp) (left right : ValueExpression)
  | Exists (g : GraphPattern_ ValueExpression PathPatternExpression)
with PathPatternExpression : Type :=
  | mkPathPatternExpression (op : Op)
      (terms : list (list (PathFactor_ PathPrimary)))
with PathPrimary : Type :=
  | Element (e : ElementPattern_ ValueExpression)
  | Parenthesized
      (p : ParenthesizedPathPatternExpression_ ValueExpression PathPatternExpression)
  | Simplified (s : SimplifiedPathPatternExpression).

Abbreviation PropertyKeyValuePair := (PropertyKeyValuePair_ ValueExpression).
Abbreviation ElementPatternPredicate := (ElementPatternPredicate_ ValueExpression).
Abbreviation ElementPatternFiller := (ElementPatternFiller_ ValueExpression).
Abbreviation ElementPattern := (ElementPattern_ ValueExpression).
Abbreviation WhereClause := (WhereClause_ ValueExpression).
Abbreviation ParenthesizedPathPatternExpression :=
  (ParenthesizedPathPatternExpression_ ValueExpression PathPatternExpression).
Abbreviation PathFactor := (PathFactor_ PathPrimary).
Abbreviation PathPattern := (PathPattern_ PathPatternExpression).
Abbreviation GraphPattern := (GraphPattern_ ValueExpression PathPatternExpression).

Definition op_of (e : PathPatternExpression) : Op :=
  match e with mkPathPatternExpression o _ => o end.
Definition terms (e : PathPatternExpression) : list (list PathFactor) :=
  match e with mkPathPatternExpression _ ts => ts end.

(** ** Auxiliary data ([gql/syntax_analyzer/aux_data.h]) *)

(** [GraphPatternAuxData::Variable] *)
Record AuxVariable : Type := {
  aux_type : GraphPatternVariableType;
  degreeOfExposure : VariableDegreeOfExposure;
  aux_isTemp : bool
}.

Record PathPatternAuxData : Type := {
  joinableVariables : gset string
}.

(** [PathVariableReferenceScopeAuxData], reduced to its only member
    [declaredVariables]. *)
Record PathVariableReferenceScopeAuxData : Type := {
  declaredVariables : gmap string AuxVariable
}.

(** ** The state of [GraphPatternContext] ([graph_pattern_context.h]) *)

(** [GraphPatternContext::Variable] *)
Record Variable_ : Type := {
  type : GraphPatternVariableType;
  declarationPosition_ : InputPosition;
  isTemp : bool;
  degree : VariableDegreeOfExposure
}.

(** [GraphPatternContext::ExposedVariable], which derives from [Variable] and
    adds [isStrictInterior_]. *)
Record ExposedVariable : Type := {
  base : Variable_;
  isStrictInterior_ : bool
}.

Definition set_degree (d : VariableDegreeOfExposure) (v : ExposedVariable)
  : ExposedVariable :=
  {| base := {| type := type (base v);
                declarationPosition_ := declarationPosition_ (base v);
                isTemp := isTemp (base v);
                degree := d |};
     isStrictInterior_ := isStrictInterior_ v |}.

Definition set_isStrictInterior (b : bool) (v : ExposedVariable)
  : ExposedVariable :=
  {| base := base v; isStrictInterior_ := b |}.

Abbreviation ExposedVariables := (gmap string ExposedVariable).
Abbreviation CountedVariableDeclarations := (gmap string Z).

(** [GraphPatternContext::VariableScope]; the [parent] pointer is an index
    into [variableScopes_]. *)
Record VariableScope : Type := {
  parent : option nat;
  localVariables : gmap string Variable_
}.

Record VariableDeclaration : Type := {
  type_ : GraphPatternVariableType;
  declarationOrder_ : Z;
  firstDeclarationPosition_ : InputPosition
}.

(** [GraphPatternContext::SearchConditionScope].  [condition] is the
    expression the C++ pointer refers to; the [auxData] back pointer is not
    used by the modelled functions and is left out. *)
Record SearchConditionScope : Type := {
  condition : ValueExpression;
  variableScope : option nat;
  scope : option (gset string);
  inaccessibleVariables : CountedVariableDeclarations
}.

(** [GraphPatternContext::Union] *)
Record Union_ : Type := {
  indexOfFirstSearchConditionScopeInOperands_ : list nat;
  declarationsInOperands_ : list CountedVariableDeclarations
}.

Definition isFirstOperand (u : Union_) : bool :=
  bool_decide (declarationsInOperands_ u = []).

(** The members of the class, and [auxStore]: the
    [PathVariableReferenceScopeAuxData] objects owned by the path factors and
    path pattern expressions of the tree, in the order in which
    [VariableReferenceScope] creates them.  [currentVariableReferenceScope_]
    points into it. *)
Record GraphPatternContext : Type := {
  isInsideQuantifiedPathPrimary_ : bool;
  isInsideSelectivePattern_ : bool;
  differentEdgesMatchMode_ : bool;
  isRestrictivePathMode_ : list bool;
  variableScopes_ : list VariableScope;
  variableScopeStack_ : list nat;
  exposedVariables_ : list ExposedVariables;
  variableDeclarations_ : gmap string VariableDeclaration;
  lastVariableDeclarationPosition_ : InputPosition;
  declarationsInUnions_ : list CountedVariableDeclarations;
  searchConditionScopes_ : list SearchConditionScope;
  indexOfFirstSearchConditionScopeInPathPattern_ : nat;
  expectingLeftBoundaryVariable_ : bool;
  leftBoundaryVariable_ : option string;
  possibleRightBoundaryVariable_ : option string;
  pathPatternUnion_ : list Union_;
  minimumPathLength_ : list Z;
  nonZeroNodeCount_ : list bool;
  currentVariableReferenceScope_ : option nat;
  auxStore : list PathVariableReferenceScopeAuxData
}.

Definition set_isInsideQuantifiedPathPrimary_ (v : bool) (c : GraphPatternContext)
  : GraphPatternContext :=
  Build_GraphPatternContext
    v (isInsideSelectivePattern_ c) (differentEdgesMatchMode_ c)
    (isRestrictivePathMode_ c) (variableScopes_ c) (variableScopeStack_ c)
    (exposedVariables_ c) (variableDeclarations_ c)
    (lastVariableDeclarationPosition_ c) (declarationsInUnions_ c)
    (searchConditionScopes_ c)
    (indexOfFirstSearchConditionScopeInPathPattern_ c)
    (expectingLeftBoundaryVariable_ c) (leftBoundaryVariable_ c)
    (possibleRightBoundaryVariable_ c) (pathPatternUnion_ c)
    (minimumPathLength_ c) (nonZeroNodeCount_ c)
    (currentVariableReferenceScope_ c) (auxStore c).
Definition set_isInsideSelectivePattern_ (v : bool) (c : GraphPatternContext)
  : GraphPatternContext :=
  Build_GraphPatternContext
    (isInsideQuantifiedPathPrimary_ c) v (differentEdgesMatchMode_ c)
    (isRestrictivePathMode_ c) (variableScopes_ c) (variableScopeStack_ c)
    (exposedVariables_ c) (variableDeclarations_ c)
    (lastVariableDeclarationPosition_ c) (declarationsInUnions_ c)
    (searchConditionScopes_ c)
    (indexOfFirstSearchConditionScopeInPathPattern_ c)
    (expectingLeftBoundaryVariable_ c) (leftBoundaryVariable_ c)
    (possibleRightBoundaryVariable_ c) (pathPatternUnion_ c)
    (minimumPathLength_ c) (nonZeroNodeCount_ c)
    (currentVariableReferenceScope_ c) (auxStore c).
Definition set_differentEdgesMatchMode_ (v : bool) (c : GraphPatternContext)
  : GraphPatternContext :=
  Build_GraphPatternContext
    (isInsideQuantifiedPathPrimary_ c) (isInsideSelectivePattern_ c) v
    (isRestrictivePathMode_ c) (variableScopes_ c) (variableScopeStack_ c)
    (exposedVariables_ c) (variableDeclarations_ c)
    (lastVariableDeclarationPosition_ c) (declarationsInUnions_ c)
    (searchConditionScopes_ c)
    (indexOfFirstSearchConditionScopeInPathPattern_ c)
    (expectingLeftBoundaryVariable_ c) (leftBoundaryVariable_ c)
    (possibleRightBoundaryVariable_ c) (pathPatternUnion_ c)
    (minimumPathLength_ c) (nonZeroNodeCount_ c)
    (currentVariableReferenceScope_ c) (auxStore c).
Definition set_isRestrictivePathMode_ (v : list bool) (c : GraphPatternContext)
  : GraphPatternContext :=
  Build_GraphPatternContext
    (isInsideQuantifiedPathPrimary_ c) (isInsideSelectivePattern_ c)
    (differentEdgesMatchMode_ c) v (variableScopes_ c) (variableScopeStack_ c)
    (exposedVariables_ c) (variableDeclarations_ c)
    (lastVariableDeclarationPosition_ c) (declarationsInUnions_ c)
    (searchConditionScopes_ c)
    (indexOfFirstSearchConditionScopeInPathPattern_ c)
    (expectingLeftBoundaryVariable_ c) (leftBoundaryVariable_ c)
    (possibleRightBoundaryVariable_ c) (pathPatternUnion_ c)
    (minimumPathLength_ c) (nonZeroNodeCount_ c)
    (currentVariableReferenceScope_ c) (auxStore c).
Definition set_variableScopes_ (v : list VariableScope) (c : GraphPatternContext)
  : GraphPatternContext :=
  Build_GraphPatternContext
    (isInsideQuantifiedPathPrimary_ c) (isInsideSelectivePattern_ c)
    (differentEdgesMatchMode_ c) (isRestrictivePathMode_ c) v
    (variableScopeStack_ c) (exposedVariables_ c) (variableDeclarations_ c)
    (lastVariableDeclarationPosition_ c) (declarationsInUnions_ c)
    (searchConditionScopes_ c)
    (indexOfFirstSearchConditionScopeInPathPattern_ c)
    (expectingLeftBoundaryVariable_ c) (leftBoundaryVariable_ c)
    (possibleRightBoundaryVariable_ c) (pathPatternUnion_ c)
    (minimumPathLength_ c) (nonZeroNodeCount_ c)
    (currentVariableReferenceScope_ c) (auxStore c).
Definition set_variableScopeStack_ (v : list nat) (c : GraphPatternContext)
  : GraphPatternContext :=
  Build_GraphPatternContext
    (isInsideQuantifiedPathPrimary_ c) (isInsideSelectivePattern_ c)
    (differentEdgesMatchMode_ c) (isRestrictivePathMode_ c)
    (variableScopes_ c) v (exposedVariables_ c) (variableDeclarations_ c)
    (lastVariableDeclarationPosition_ c) (declarationsInUnions_ c)
    (searchConditionScopes_ c)
    (indexOfFirstSearchConditionScopeInPathPattern_ c)
    (expectingLeftBoundaryVariable_ c) (leftBoundaryVariable_ c)
    (possibleRightBoundaryVariable_ c) (pathPatternUnion_ c)
    (minimumPathLength_ c) (nonZeroNodeCount_ c)
    (currentVariableReferenceScope_ c) (auxStore c).
Definition set_exposedVariables_ (v : list ExposedVariables) (c : GraphPatternContext)
  : GraphPatternContext :=
  Build_GraphPatternContext
    (isInsideQuantifiedPathPrimary_ c) (isInsideSelectivePattern_ c)
    (differentEdgesMatchMode_ c) (isRestrictivePathMode_ c)
    (variableScopes_ c) (variableScopeStack_ c) v (variableDeclarations_ c)
    (lastVariableDeclarationPosition_ c) (declarationsInUnions_ c)
    (searchConditionScopes_ c)
    (indexOfFirstSearchConditionScopeInPathPattern_ c)
    (expectingLeftBoundaryVariable_ c) (leftBoundaryVariable_ c)
    (possibleRightBoundaryVariable_ c) (pathPatternUnion_ c)
    (minimumPathLength_ c) (nonZeroNodeCount_ c)
    (currentVariableReferenceScope_ c) (auxStore c).
Definition set_variableDeclarations_ (v : gmap string VariableDeclaration) (c : GraphPatternContext)
  : GraphPatternContext :=
  Build_GraphPatternContext
    (isInsideQuantifiedPathPrimary_ c) (isInsideSelectivePattern_ c)
    (differentEdgesMatchMode_ c) (isRestrictivePathMode_ c)
    (variableScopes_ c) (variableScopeStack_ c) (exposedVariables_ c) v
    (lastVariableDeclarationPosition_ c) (declarationsInUnions_ c)
    (searchConditionScopes_ c)
    (indexOfFirstSearchConditionScopeInPathPattern_ c)
    (expectingLeftBoundaryVariable_ c) (leftBoundaryVariable_ c)
    (possibleRightBoundaryVariable_ c) (pathPatternUnion_ c)
    (minimumPathLength_ c) (nonZeroNodeCount_ c)
    (currentVariableReferenceScope_ c) (auxStore c).
Definition set_lastVariableDeclarationPosition_ (v : InputPosition) (c : GraphPatternContext)
  : GraphPatternContext :=
  Build_GraphPatternContext
    (isInsideQuantifiedPathPrimary_ c) (isInsideSelectivePattern_ c)
    (differentEdgesMatchMode_ c) (isRestrictivePathMode_ c)
    (variableScopes_ c) (variableScopeStack_ c) (exposedVariables_ c)
    (variableDeclarations_ c) v (declarationsInUnions_ c)
    (searchConditionScopes_ c)
    (indexOfFirstSearchConditionScopeInPathPattern_ c)
    (expectingLeftBoundaryVariable_ c) (leftBoundaryVariable_ c)
    (possibleRightBoundaryVariable_ c) (pathPatternUnion_ c)
    (minimumPathLength_ c) (nonZeroNodeCount_ c)
    (currentVariableReferenceScope_ c) (auxStore c).
Definition set_declarationsInUnions_ (v : list CountedVariableDeclarations) (c : GraphPatternContext)
  : GraphPatternContext :=
  Build_GraphPatternContext
    (isInsideQuantifiedPathPrimary_ c) (isInsideSelectivePattern_ c)
    (differentEdgesMatchMode_ c) (isRestrictivePathMode_ c)
    (variableScopes_ c) (variableScopeStack_ c) (exposedVariables_ c)
    (variableDeclarations_ c) (lastVariableDeclarationPosition_ c) v
    (searchConditionScopes_ c)
    (indexOfFirstSearchConditionScopeInPathPattern_ c)
    (expectingLeftBoundaryVariable_ c) (leftBoundaryVariable_ c)
    (possibleRightBoundaryVariable_ c) (pathPatternUnion_ c)
    (minimumPathLength_ c) (nonZeroNodeCount_ c)
    (currentVariableReferenceScope_ c) (auxStore c).
Definition set_searchConditionScopes_ (v : list SearchConditionScope) (c : GraphPatternContext)
  : GraphPatternContext :=
  Build_GraphPatternContext
    (isInsideQuantifiedPathPrimary_ c) (isInsideSelectivePattern_ c)
    (differentEdgesMatchMode_ c) (isRestrictivePathMode_ c)
    (variableScopes_ c) (variableScopeStack_ c) (exposedVariables_ c)
    (variableDeclarations_ c) (lastVariableDeclarationPosition_ c)
    (declarationsInUnions_ c) v
    (indexOfFirstSearchConditionScopeInPathPattern_ c)
    (expectingLeftBoundaryVariable_ c) (leftBoundaryVariable_ c)
    (possibleRightBoundaryVariable_ c) (pathPatternUnion_ c)
    (minimumPathLength_ c) (nonZeroNodeCount_ c)
    (currentVariableReferenceScope_ c) (auxStore c).
Definition set_indexOfFirstSearchConditionScopeInPathPattern_ (v : nat) (c : GraphPatternContext)
  : GraphPatternContext :=
  Build_GraphPatternContext
    (isInsideQuantifiedPathPrimary_ c) (isInsideSelectivePattern_ c)
    (differentEdgesMatchMode_ c) (isRestrictivePathMode_ c)
    (variableScopes_ c) (variableScopeStack_ c) (exposedVariables_ c)
    (variableDeclarations_ c) (lastVariableDeclarationPosition_ c)
    (declarationsInUnions_ c) (searchConditionScopes_ c) v
    (expectingLeftBoundaryVariable_ c) (leftBoundaryVariable_ c)
    (possibleRightBoundaryVariable_ c) (pathPatternUnion_ c)
    (minimumPathLength_ c) (nonZeroNodeCount_ c)
    (currentVariableReferenceScope_ c) (auxStore c).
Definition set_expectingLeftBoundaryVariable_ (v : bool) (c : GraphPatternContext)
  : GraphPatternContext :=
  Build_GraphPatternContext
    (isInsideQuantifiedPathPrimary_ c) (isInsideSelectivePattern_ c)
    (differentEdgesMatchMode_ c) (isRestrictivePathMode_ c)
    (variableScopes_ c) (variableScopeStack_ c) (exposedVariables_ c)
    (variableDeclarations_ c) (lastVariableDeclarationPosition_ c)
    (declarationsInUnions_ c) (searchConditionScopes_ c)
    (indexOfFirstSearchConditionScopeInPathPattern_ c) v
    (leftBoundaryVariable_ c) (possibleRightBoundaryVariable_ c)
    (pathPatternUnion_ c) (minimumPathLength_ c) (nonZeroNodeCount_ c)
    (currentVariableReferenceScope_ c) (auxStore c).
Definition set_leftBoundaryVariable_ (v : option string) (c : GraphPatternContext)
  : GraphPatternContext :=
  Build_GraphPatternContext
    (isInsideQuantifiedPathPrimary_ c) (isInsideSelectivePattern_ c)
    (differentEdgesMatchMode_ c) (isRestrictivePathMode_ c)
    (variableScopes_ c) (variableScopeStack_ c) (exposedVariables_ c)
    (variableDeclarations_ c) (lastVariableDeclarationPosition_ c)
    (declarationsInUnions_ c) (searchConditionScopes_ c)
    (indexOfFirstSearchConditionScopeInPathPattern_ c)
    (expectingLeftBoundaryVariable_ c) v (possibleRightBoundaryVariable_ c)
    (pathPatternUnion_ c) (minimumPathLength_ c) (nonZeroNodeCount_ c)
    (currentVariableReferenceScope_ c) (auxStore c).
Definition set_possibleRightBoundaryVariable_ (v : option string) (c : GraphPatternContext)
  : GraphPatternContext :=
  Build_GraphPatternContext
    (isInsideQuantifiedPathPrimary_ c) (isInsideSelectivePattern_ c)
    (differentEdgesMatchMode_ c) (isRestrictivePathMode_ c)
    (variableScopes_ c) (variableScopeStack_ c) (exposedVariables_ c)
    (variableDeclarations_ c) (lastVariableDeclarationPosition_ c)
    (declarationsInUnions_ c) (searchConditionScopes_ c)
    (indexOfFirstSearchConditionScopeInPathPattern_ c)
    (expectingLeftBoundaryVariable_ c) (leftBoundaryVariable_ c) v
    (pathPatternUnion_ c) (minimumPathLength_ c) (nonZeroNodeCount_ c)
    (currentVariableReferenceScope_ c) (auxStore c).
Definition set_pathPatternUnion_ (v : list Union_) (c : GraphPatternContext)
  : GraphPatternContext :=
  Build_GraphPatternContext
    (isInsideQuantifiedPathPrimary_ c) (isInsideSelectivePattern_ c)
    (differentEdgesMatchMode_ c) (isRestrictivePathMode_ c)
    (variableScopes_ c) (variableScopeStack_ c) (exposedVariables_ c)
    (variableDeclarations_ c) (lastVariableDeclarationPosition_ c)
    (declarationsInUnions_ c) (searchConditionScopes_ c)
    (indexOfFirstSearchConditionScopeInPathPattern_ c)
    (expectingLeftBoundaryVariable_ c) (leftBoundaryVariable_ c)
    (possibleRightBoundaryVariable_ c) v (minimumPathLength_ c)
    (nonZeroNodeCount_ c) (currentVariableReferenceScope_ c) (auxStore c).
Definition set_minimumPathLength_ (v : list Z) (c : GraphPatternContext)
  : GraphPatternContext :=
  Build_GraphPatternContext
    (isInsideQuantifiedPathPrimary_ c) (isInsideSelectivePattern_ c)
    (differentEdgesMatchMode_ c) (isRestrictivePathMode_ c)
    (variableScopes_ c) (variableScopeStack_ c) (exposedVariables_ c)
    (variableDeclarations_ c) (lastVariableDeclarationPosition_ c)
    (declarationsInUnions_ c) (searchConditionScopes_ c)
    (indexOfFirstSearchConditionScopeInPathPattern_ c)
    (expectingLeftBoundaryVariable_ c) (leftBoundaryVariable_ c)
    (possibleRightBoundaryVariable_ c) (pathPatternUnion_ c) v
    (nonZeroNodeCount_ c) (currentVariableReferenceScope_ c) (auxStore c).
Definition set_nonZeroNodeCount_ (v : list bool) (c : GraphPatternContext)
  : GraphPatternContext :=
  Build_GraphPatternContext
    (isInsideQuantifiedPathPrimary_ c) (isInsideSelectivePattern_ c)
    (differentEdgesMatchMode_ c) (isRestrictivePathMode_ c)
    (variableScopes_ c) (variableScopeStack_ c) (exposedVariables_ c)
    (variableDeclarations_ c) (lastVariableDeclarationPosition_ c)
    (declarationsInUnions_ c) (searchConditionScopes_ c)
    (indexOfFirstSearchConditionScopeInPathPattern_ c)
    (expectingLeftBoundaryVariable_ c) (leftBoundaryVariable_ c)
    (possibleRightBoundaryVariable_ c) (pathPatternUnion_ c)
    (minimumPathLength_ c) v (currentVariableReferenceScope_ c) (auxStore c).
Definition set_currentVariableReferenceScope_ (v : option nat) (c : GraphPatternContext)
  : GraphPatternContext :=
  Build_GraphPatternContext
    (isInsideQuantifiedPathPrimary_ c) (isInsideSelectivePattern_ c)
    (differentEdgesMatchMode_ c) (isRestrictivePathMode_ c)
    (variableScopes_ c) (variableScopeStack_ c) (exposedVariables_ c)
    (variableDeclarations_ c) (lastVariableDeclarationPosition_ c)
    (declarationsInUnions_ c) (searchConditionScopes_ c)
    (indexOfFirstSearchConditionScopeInPathPattern_ c)
    (expectingLeftBoundaryVariable_ c) (leftBoundaryVariable_ c)
    (possibleRightBoundaryVariable_ c) (pathPatternUnion_ c)
    (minimumPathLength_ c) (nonZeroNodeCount_ c) v (auxStore c).
Definition set_auxStore (v : list PathVariableReferenceScopeAuxData) (c : GraphPatternContext)
  : GraphPatternContext :=
  Build_GraphPatternContext
    (isInsideQuantifiedPathPrimary_ c) (isInsideSelectivePattern_ c)
    (differentEdgesMatchMode_ c) (isRestrictivePathMode_ c)
    (variableScopes_ c) (variableScopeStack_ c) (exposedVariables_ c)
    (variableDeclarations_ c) (lastVariableDeclarationPosition_ c)
    (declarationsInUnions_ c) (searchConditionScopes_ c)
    (indexOfFirstSearchConditionScopeInPathPattern_ c)
    (expectingLeftBoundaryVariable_ c) (leftBoundaryVariable_ c)
    (possibleRightBoundaryVariable_ c) (pathPatternUnion_ c)
    (minimumPathLength_ c) (nonZeroNodeCount_ c)
    (currentVariableReferenceScope_ c) v.

(** ** Stack helpers *)

(** [s.top()]; reading an empty stack is undefined. *)
Definition top {A : Type} (s : list A) : Result A :=
  match s with
  | x :: _ => Ok x
  | [] => Abort
  end.

(** [s.pop()] *)
Definition pop {A : Type} (s : list A) : Result (list A) :=
  match s with
  | _ :: rest => Ok rest
  | [] => Abort
  end.

(** [s.top() = f(s.top())] *)
Definition updTop {A : Type} (f : A -> A) (s : list A) : Result (list A) :=
  match s with
  | x :: rest => Ok (f x :: rest)
  | [] => Abort
  end.

(** [m[k]] read on a counting map: a missing key reads as [0]. *)
Definition count_of (m : CountedVariableDeclarations) (k : string) : Z :=
  default 0 (m !! k).

(** [for (auto& v : src) dst[v.first] += v.second;] *)
Definition addCounts (src dst : CountedVariableDeclarations)
  : CountedVariableDeclarations :=
  foldl (fun m kv => <[kv.1 := int_add (count_of m kv.1) kv.2]> m) dst
        (map_to_list src).

(** ** GraphPatternContext: the member functions
       ([graph_pattern_context.cpp]) *)

Definition IsInsideRestrictiveSearch (c : GraphPatternContext) : Result bool :=
  top (isRestrictivePathMode_ c).

(** [GraphPatternContext::ExposeVariable] *)
Definition ExposeVariable (name : string) (variable : ExposedVariable)
    (c : GraphPatternContext) : Result GraphPatternContext :=
  currentExposedVariables ← top (exposedVariables_ c);
  match currentExposedVariables !! name with
  | None =>
      frames ← updTop (fun m => <[name := variable]> m) (exposedVariables_ c);
      Ok (set_exposedVariables_ frames c)
  | Some existingVar =>
      assert (bool_decide (isTemp (base variable) = isTemp (base existingVar)));;
      if negb (bool_decide (degree (base variable) = UnconditionalSingleton))
         || negb (bool_decide (degree (base existingVar) = UnconditionalSingleton))
      then Throw E0008
      else if isStrictInterior_ variable || isStrictInterior_ existingVar
      then Throw E0009
      else Ok c
  end.

Definition isElementType (t : GraphPatternVariableType) : bool :=
  match t with
  | Node | Edge => true
  | Path | Subpath => false
  end.

(** [currentVariableReferenceScope_->declaredVariables[name] = v], the pointer
    being an index into [auxStore]. *)
Definition writeDeclaredVariable (name : string) (v : AuxVariable)
    (c : GraphPatternContext) : Result GraphPatternContext :=
  match currentVariableReferenceScope_ c with
  | None => Abort
  | Some p =>
      match auxStore c !! p with
      | None => Abort
      | Some aux =>
          Ok (set_auxStore
                (<[p := {| declaredVariables :=
                             <[name := v]> (declaredVariables aux) |}]>
                   (auxStore c)) c)
      end
  end.

(** [GraphPatternContext::ExposeNewVariable] *)
Definition ExposeNewVariable (name : string) (variable : ExposedVariable)
    (c : GraphPatternContext) : Result GraphPatternContext :=
  c ← ExposeVariable name variable c;
  if isElementType (type (base variable))
  then writeDeclaredVariable name
         {| aux_type := type (base variable);
            degreeOfExposure := degree (base variable);
            aux_isTemp := false |} c
  else Ok c.

(** [GraphPatternContext::AppendExposedVariables] *)
Definition AppendExposedVariables (c : GraphPatternContext)
  : Result GraphPatternContext :=
  newExposedVariables ← top (exposedVariables_ c);
  frames ← pop (exposedVariables_ c);
  forEach (fun v => ExposeVariable v.1 v.2) (map_to_list newExposedVariables)
          (set_exposedVariables_ frames c).

(** [GraphPatternContext::EnterVariableScope] *)
Definition EnterVariableScope (c : GraphPatternContext) : GraphPatternContext :=
  let c := set_exposedVariables_ (∅ :: exposedVariables_ c) c in
  let newScope :=
    {| parent := match variableScopeStack_ c with
                 | p :: _ => Some p
                 | [] => None
                 end;
       localVariables := ∅ |} in
  let addr := length (variableScopes_ c) in
  let c := set_variableScopes_ (variableScopes_ c ++ [newScope]) c in
  set_variableScopeStack_ (addr :: variableScopeStack_ c) c.

(** [for (auto& [var, def] : exposed) scope.localVariables[var] = def;] where
    the assignment slices the [ExposedVariable] to its [Variable] base. *)
Definition storeLocals (exposed : ExposedVariables) (s : VariableScope)
  : VariableScope :=
  {| parent := parent s;
     localVariables := (base <$> exposed) ∪ localVariables s |}.

(** [GraphPatternContext::ExitVariableScope] *)
Definition ExitVariableScope (c : GraphPatternContext)
  : Result GraphPatternContext :=
  exposed ← top (exposedVariables_ c);
  addr ← top (variableScopeStack_ c);
  assert (bool_decide (addr < length (variableScopes_ c))%nat);;
  let c := set_variableScopes_
             (alter (storeLocals exposed) addr (variableScopes_ c)) c in
  stack ← pop (variableScopeStack_ c);
  AppendExposedVariables (set_variableScopeStack_ stack c).

(** The constructor [GraphPatternContext(bool differentEdgesMatchMode)] *)
Definition newGraphPatternContext (differentEdgesMatchMode : bool)
  : GraphPatternContext :=
  EnterVariableScope
    {| isInsideQuantifiedPathPrimary_ := false;
       isInsideSelectivePattern_ := false;
       differentEdgesMatchMode_ := differentEdgesMatchMode;
       isRestrictivePathMode_ := [false];
       variableScopes_ := [];
       variableScopeStack_ := [];
       exposedVariables_ := [∅];
       variableDeclarations_ := ∅;
       lastVariableDeclarationPosition_ := None;
       declarationsInUnions_ := [∅];
       searchConditionScopes_ := [];
       indexOfFirstSearchConditionScopeInPathPattern_ := 0%nat;
       expectingLeftBoundaryVariable_ := false;
       leftBoundaryVariable_ := None;
       possibleRightBoundaryVariable_ := None;
       pathPatternUnion_ := [];
       minimumPathLength_ := [0];
       nonZeroNodeCount_ := [false];
       currentVariableReferenceScope_ := None;
       auxStore := [] |}.

(** [GraphPatternContext::variables] *)
Definition variables (c : GraphPatternContext) : Result (gmap string Variable_) :=
  frame ← top (exposedVariables_ c);
  forEach
    (fun (d : string * VariableDeclaration) (result : gmap string Variable_) =>
       match frame !! d.1 with
       | None => Abort
       | Some varDef =>
           Ok (<[d.1 := {| type := type_ d.2;
                           declarationPosition_ := firstDeclarationPosition_ d.2;
                           isTemp := isTemp (base varDef);
                           degree := degree (base varDef) |}]> result)
       end)
    (map_to_list (variableDeclarations_ c)) ∅.

(** The erase loop of [Finalize] on one search condition: an entry goes when
    its count is below the total in [declarationsInUnions_.top()]. *)
Definition finalizeScope (total : CountedVariableDeclarations)
    (cond : SearchConditionScope) : SearchConditionScope :=
  {| condition := condition cond;
     variableScope := variableScope cond;
     scope := scope cond;
     inaccessibleVariables :=
       filter (fun kv => ¬ (kv.2 < count_of total kv.1))
              (inaccessibleVariables cond) |}.

(** [declarationsInUnions_.top()[name]] default-inserts the names it reads. *)
Definition touchCounts (read total : CountedVariableDeclarations)
  : CountedVariableDeclarations :=
  total ∪ ((fun _ => 0) <$> read).

(** [GraphPatternContext::Finalize] *)
Definition Finalize (c : GraphPatternContext) : Result GraphPatternContext :=
  total ← top (declarationsInUnions_ c);
  let conds := finalizeScope total <$> searchConditionScopes_ c in
  let total' := foldl (fun t cond => touchCounts (inaccessibleVariables cond) t)
                      total (searchConditionScopes_ c) in
  counts ← updTop (fun _ => total') (declarationsInUnions_ c);
  ExitVariableScope
    (set_declarationsInUnions_ counts (set_searchConditionScopes_ conds c)).

(** [GraphPatternContext::DeclareVariable] *)
Definition DeclareVariable (name : string) (pos : InputPosition)
    (ty : GraphPatternVariableType) (isTemp : bool) (c : GraphPatternContext)
  : Result GraphPatternContext :=
  (if bool_decide (variableDeclarations_ c = ∅) then Ok tt
   else assert (negb (IsSet pos)
                || negb (IsSet (lastVariableDeclarationPosition_ c))
                || pos_gt pos (lastVariableDeclarationPosition_ c)));;
  let c := if IsSet (lastVariableDeclarationPosition_ c) then c
           else set_lastVariableDeclarationPosition_ pos c in
  c ← match variableDeclarations_ c !! name with
      | None =>
          let newVar :=
            {| type_ := ty;
               declarationOrder_ := Z.of_nat (size (variableDeclarations_ c));
               firstDeclarationPosition_ := pos |} in
          Ok (set_variableDeclarations_
                (<[name := newVar]> (variableDeclarations_ c)) c)
      | Some it =>
          if negb (bool_decide (type_ it = ty)) then Throw E0001
          else match ty with
               | Path => Throw E0002
               | Subpath => Throw E0003
               | Node | Edge => Ok c
               end
      end;
  c ← ExposeNewVariable name
        {| base := {| type := ty; declarationPosition_ := pos;
                      isTemp := isTemp; degree := UnconditionalSingleton |};
           isStrictInterior_ := false |} c;
  counts ← updTop (fun m => <[name := int_add (count_of m name) 1]> m)
                  (declarationsInUnions_ c);
  Ok (set_declarationsInUnions_ counts c).

Definition DeclarePathVariable (v : NamedVariable) :=
  DeclareVariable (nv_name v) (nv_pos v) Path false.

Definition DeclareSubpathVariable (v : NamedVariable) :=
  DeclareVariable (nv_name v) (nv_pos v) Subpath false.

Definition DeclareNodeVariable (v : ElementVariableDeclaration)
    (c : GraphPatternContext) : Result GraphPatternContext :=
  c ← DeclareVariable (evd_name v) (evd_pos v) Node (evd_isTemp v) c;
  let c := if expectingLeftBoundaryVariable_ c && negb (evd_isTemp v)
           then set_expectingLeftBoundaryVariable_ false
                  (set_leftBoundaryVariable_ (Some (evd_name v)) c)
           else c in
  Ok (set_possibleRightBoundaryVariable_ (Some (evd_name v)) c).

Definition DeclareEdgeVariable (v : ElementVariableDeclaration) :=
  DeclareVariable (evd_name v) (evd_pos v) Edge (evd_isTemp v).

(** [GraphPatternContext::EnterPathPattern] *)
Definition EnterPathPattern (isSelectivePattern : bool)
    (c : GraphPatternContext) : GraphPatternContext :=
  let c := set_isInsideSelectivePattern_ isSelectivePattern c in
  let c := set_expectingLeftBoundaryVariable_ isSelectivePattern c in
  let c := set_leftBoundaryVariable_ None c in
  let c := set_possibleRightBoundaryVariable_ None c in
  let c := set_exposedVariables_ (∅ :: exposedVariables_ c) c in
  let c := if isInsideSelectivePattern_ c
           then let c := EnterVariableScope c in
                set_indexOfFirstSearchConditionScopeInPathPattern_
                  (length (searchConditionScopes_ c)) c
           else c in
  set_nonZeroNodeCount_ (false :: nonZeroNodeCount_ c) c.

(** [searchConditionScopes_[i].scope = varSet] for every [i] from [first]. *)
Definition setScopeFrom (first : nat) (varSet : gset string)
    (conds : list SearchConditionScope) : list SearchConditionScope :=
  imap (fun i cond =>
          if bool_decide (first ≤ i)%nat
          then {| condition := condition cond;
                  variableScope := variableScope cond;
                  scope := Some varSet;
                  inaccessibleVariables := inaccessibleVariables cond |}
          else cond) conds.

Definition isBoundaryVariable (c : GraphPatternContext) (name : string) : bool :=
  bool_decide (leftBoundaryVariable_ c = Some name)
  || bool_decide (possibleRightBoundaryVariable_ c = Some name).

(** The loop for 16.6 Syntax Rule 5 in [ExitPathPattern]: a boundary variable
    is asserted to be an unconditional singleton, every other variable of the
    frame becomes a strict interior variable. *)
Definition markStrictInterior (c : GraphPatternContext)
    (frame : ExposedVariables) : Result ExposedVariables :=
  assert (forallb
            (fun v => implb (isBoundaryVariable c v.1)
                        (bool_decide (degree (base v.2) = UnconditionalSingleton)))
            (map_to_list frame));;
  Ok (map_imap
        (fun name v => Some (if isBoundaryVariable c name then v
                             else set_isStrictInterior true v)) frame).

(** The names of a frame whose degree is [UnconditionalSingleton]. *)
Definition unconditionalSingletons (frame : ExposedVariables) : gset string :=
  dom (filter (fun v => degree (base v.2) = UnconditionalSingleton) frame).

(** 16.7 Syntax Rule 22.h *)
Definition boundGroup (v : ExposedVariable) : ExposedVariable :=
  if bool_decide (degree (base v) = EffectivelyUnboundedGroup)
  then set_degree EffectivelyBoundedGroup v
  else v.

(** [GraphPatternContext::ExitPathPattern]; the auxiliary data assigned to
    [node.auxData] is returned with the new state. *)
Definition ExitPathPattern (c : GraphPatternContext)
  : Result (GraphPatternContext * PathPatternAuxData) :=
  c ← (if isInsideSelectivePattern_ c
       then
         frame ← top (exposedVariables_ c);
         let varSet := dom frame in
         c ← ExitVariableScope c;
         let c := set_searchConditionScopes_
                    (setScopeFrom
                       (indexOfFirstSearchConditionScopeInPathPattern_ c)
                       varSet (searchConditionScopes_ c)) c in
         frame ← top (exposedVariables_ c);
         marked ← markStrictInterior c frame;
         frames ← updTop (fun _ => marked) (exposedVariables_ c);
         Ok (set_exposedVariables_ frames c)
       else Ok c);
  frame ← top (exposedVariables_ c);
  let auxData := {| joinableVariables := unconditionalSingletons frame |} in
  frames ← pop (exposedVariables_ c);
  c ← forEach (fun v => ExposeVariable v.1 (boundGroup v.2)) (map_to_list frame)
              (set_exposedVariables_ frames c);
  nonZero ← top (nonZeroNodeCount_ c);
  if negb nonZero then Throw E0109
  else
    counts ← pop (nonZeroNodeCount_ c);
    Ok (set_nonZeroNodeCount_ counts c, auxData).

(** [GraphPatternContext::EnterParenthesizedPathPatternExpression] *)
Definition EnterParenthesizedPathPatternExpression (c : GraphPatternContext)
  : GraphPatternContext :=
  let c := EnterVariableScope c in
  set_nonZeroNodeCount_ (false :: nonZeroNodeCount_ c) c.

(** [x = s.top(); s.pop(); s.top() = f(s.top(), x)] *)
Definition popMerge {A : Type} (f : A -> A -> A) (s : list A) : Result (list A) :=
  x ← top s;
  rest ← pop s;
  updTop (fun outer => f outer x) rest.

(** [GraphPatternContext::ExitParenthesizedPathPatternExpression] *)
Definition ExitParenthesizedPathPatternExpression (hasSubpathVariable : bool)
    (c : GraphPatternContext) : Result GraphPatternContext :=
  c ← ExitVariableScope c;
  nonZero ← top (nonZeroNodeCount_ c);
  if hasSubpathVariable && negb nonZero then Throw E0110
  else
    counts ← popMerge orb (nonZeroNodeCount_ c);
    Ok (set_nonZeroNodeCount_ counts c).

(** [GraphPatternContext::EnterPathMode] *)
Definition EnterPathMode (mode : PathMode) (c : GraphPatternContext)
  : Result GraphPatternContext :=
  outer ← top (isRestrictivePathMode_ c);
  Ok (set_isRestrictivePathMode_
        ((outer || negb (bool_decide (mode = WALK))) :: isRestrictivePathMode_ c)
        c).

(** [GraphPatternContext::ExitPathMode] *)
Definition ExitPathMode (c : GraphPatternContext) : Result GraphPatternContext :=
  modes ← pop (isRestrictivePathMode_ c);
  Ok (set_isRestrictivePathMode_ modes c).

(** [GraphPatternContext::EnterQuantifiedPathPrimary] *)
Definition EnterQuantifiedPathPrimary (bounded : bool) (c : GraphPatternContext)
  : Result GraphPatternContext :=
  if isInsideQuantifiedPathPrimary_ c then Throw E0004
  else
    let c := set_isInsideQuantifiedPathPrimary_ true c in
    unboundedOutside ←
      (if bounded then Ok false
       else restrictive ← IsInsideRestrictiveSearch c;
            Ok (negb restrictive && negb (isInsideSelectivePattern_ c)
                && negb (differentEdgesMatchMode_ c)));
    if (unboundedOutside : bool) then Throw E0005
    else
      let c := set_expectingLeftBoundaryVariable_ false c in
      let c := set_minimumPathLength_ (0 :: minimumPathLength_ c) c in
      let c := set_nonZeroNodeCount_ (false :: nonZeroNodeCount_ c) c in
      Ok (set_exposedVariables_ (∅ :: exposedVariables_ c) c).

(** 16.7 Syntax Rule 22.e: the degree given to a variable that leaves a
    quantified path primary. *)
Definition quantifiedDegree (bounded : bool) (v : ExposedVariable)
    (c : GraphPatternContext) : Result ExposedVariable :=
  if negb (bool_decide (degree (base v) = EffectivelyUnboundedGroup))
  then
    boundedGroup ← (if bounded then Ok true else IsInsideRestrictiveSearch c);
    if (boundedGroup : bool)
    then Ok (set_degree EffectivelyBoundedGroup v)
    else Ok (set_degree EffectivelyUnboundedGroup v)
  else Ok v.

(** [GraphPatternContext::ExitQuantifiedPathPrimary] *)
Definition ExitQuantifiedPathPrimary (bounded : bool) (lowerBound : Z)
    (c : GraphPatternContext) : Result GraphPatternContext :=
  let c := set_isInsideQuantifiedPathPrimary_ false c in
  localExposedVariables ← top (exposedVariables_ c);
  frames ← pop (exposedVariables_ c);
  c ← forEach
        (fun v c =>
           v' ← quantifiedDegree bounded v.2 c;
           ExposeNewVariable v.1 v' c)
        (map_to_list localExposedVariables)
        (set_exposedVariables_ frames c);
  let c := set_possibleRightBoundaryVariable_ None c in
  minimumPathLength ← top (minimumPathLength_ c);
  if bool_decide (minimumPathLength = 0) then Throw E0006
  else
    lengths ← popMerge
                (fun outer popped => int_add outer (int_mul popped lowerBound))
                (minimumPathLength_ c);
    let c := set_minimumPathLength_ lengths c in
    counts ← popMerge
               (fun outer nonZeroNodeCount =>
                  outer || (nonZeroNodeCount && bool_decide (0 < lowerBound)))
               (nonZeroNodeCount_ c);
    Ok (set_nonZeroNodeCount_ counts c).

(** [GraphPatternContext::EnterQuestionedPathPrimary] *)
Definition EnterQuestionedPathPrimary (c : GraphPatternContext)
  : GraphPatternContext :=
  let c := set_expectingLeftBoundaryVariable_ false c in
  let c := set_minimumPathLength_ (0 :: minimumPathLength_ c) c in
  let c := set_nonZeroNodeCount_ (false :: nonZeroNodeCount_ c) c in
  set_exposedVariables_ (∅ :: exposedVariables_ c) c.

Definition questionedDegree (v : ExposedVariable) : ExposedVariable :=
  match degree (base v) with
  | EffectivelyBoundedGroup | EffectivelyUnboundedGroup
  | ConditionalSingleton => v
  | UnconditionalSingleton => set_degree ConditionalSingleton v
  end.

(** [GraphPatternContext::ExitQuestionedPathPrimary] *)
Definition ExitQuestionedPathPrimary (c : GraphPatternContext)
  : Result GraphPatternContext :=
  localExposedVariables ← top (exposedVariables_ c);
  frames ← pop (exposedVariables_ c);
  c ← forEach (fun v => ExposeNewVariable v.1 (questionedDegree v.2))
              (map_to_list localExposedVariables)
              (set_exposedVariables_ frames c);
  let c := set_possibleRightBoundaryVariable_ None c in
  minimumPathLength ← top (minimumPathLength_ c);
  if bool_decide (minimumPathLength = 0) then Throw E0007
  else
    lengths ← pop (minimumPathLength_ c);
    counts ← pop (nonZeroNodeCount_ c);
    Ok (set_nonZeroNodeCount_ counts (set_minimumPathLength_ lengths c)).

(** [GraphPatternContext::EnterPathPatternUnion] *)
Definition EnterPathPatternUnion (c : GraphPatternContext) : GraphPatternContext :=
  let c := set_exposedVariables_ (∅ :: exposedVariables_ c) c in
  let c := set_expectingLeftBoundaryVariable_ false c in
  let c := set_minimumPathLength_ (INT_MAX :: minimumPathLength_ c) c in
  let c := set_nonZeroNodeCount_ (true :: nonZeroNodeCount_ c) c in
  set_pathPatternUnion_
    ({| indexOfFirstSearchConditionScopeInOperands_ :=
          [length (searchConditionScopes_ c)];
        declarationsInOperands_ := [] |} :: pathPatternUnion_ c) c.

(** [searchConditionScopes_[k].inaccessibleVariables[var.first] += var.second]
    for every [var] of [declarations]. *)
Definition addInaccessible (declarations : CountedVariableDeclarations)
    (k : nat) (conds : list SearchConditionScope)
  : Result (list SearchConditionScope) :=
  match conds !! k with
  | None => Abort
  | Some cond =>
      Ok (<[k := {| condition := condition cond;
                    variableScope := variableScope cond;
                    scope := scope cond;
                    inaccessibleVariables :=
                      addCounts declarations (inaccessibleVariables cond) |}]>
            conds)
  end.

(** The three nested loops at the end of [ExitPathPatternUnion]. *)
Definition fillInaccessible (u : Union_) (conds : list SearchConditionScope)
  : Result (list SearchConditionScope) :=
  let n := length (declarationsInOperands_ u) in
  forEach
    (fun i conds =>
       match declarationsInOperands_ u !! i with
       | None => Abort
       | Some declarations =>
           forEach
             (fun j conds =>
                if bool_decide (i = j) then Ok conds
                else
                  match indexOfFirstSearchConditionScopeInOperands_ u !! j,
                        indexOfFirstSearchConditionScopeInOperands_ u !! S j with
                  | Some first, Some last =>
                      forEach (addInaccessible declarations)
                              (seq first (last - first)) conds
                  | _, _ => Abort
                  end)
             (seq 0 n) conds
       end)
    (seq 0 n) conds.

(** [GraphPatternContext::ExitPathPatternUnion] *)
Definition ExitPathPatternUnion (c : GraphPatternContext)
  : Result GraphPatternContext :=
  c ← AppendExposedVariables c;
  let c := set_possibleRightBoundaryVariable_ None c in
  lengths ← popMerge int_add (minimumPathLength_ c);
  let c := set_minimumPathLength_ lengths c in
  counts ← popMerge orb (nonZeroNodeCount_ c);
  let c := set_nonZeroNodeCount_ counts c in
  currentUnion ← top (pathPatternUnion_ c);
  conds ← fillInaccessible currentUnion (searchConditionScopes_ c);
  unions ← pop (pathPatternUnion_ c);
  Ok (set_pathPatternUnion_ unions (set_searchConditionScopes_ conds c)).

(** [GraphPatternContext::EnterPathPatternUnionOperand] *)
Definition EnterPathPatternUnionOperand (c : GraphPatternContext)
  : GraphPatternContext :=
  let c := set_exposedVariables_ (∅ :: exposedVariables_ c) c in
  let c := set_minimumPathLength_ (0 :: minimumPathLength_ c) c in
  let c := set_nonZeroNodeCount_ (false :: nonZeroNodeCount_ c) c in
  set_declarationsInUnions_ (∅ :: declarationsInUnions_ c) c.

(** First loop of [ExitPathPatternUnionOperand]: a variable of the union that
    is an unconditional singleton and that the operand does not expose
    becomes a conditional singleton. *)
Definition demoteMissing (exposedVariables : ExposedVariables)
    (unionExposedVariables : ExposedVariables) : ExposedVariables :=
  map_imap
    (fun name v =>
       Some (if bool_decide (degree (base v) = UnconditionalSingleton)
                && bool_decide (exposedVariables !! name = None)
             then set_degree ConditionalSingleton v
             else v))
    unionExposedVariables.

(** The if / else-if chain that merges the degree [v] of the operand into the
    degree [it] of the union. *)
Definition mergedDegree (v it : VariableDegreeOfExposure)
  : VariableDegreeOfExposure :=
  if bool_decide (v = EffectivelyUnboundedGroup)
     || bool_decide (it = EffectivelyUnboundedGroup)
  then EffectivelyUnboundedGroup
  else if bool_decide (v = EffectivelyBoundedGroup)
          || bool_decide (it = EffectivelyBoundedGroup)
  then EffectivelyBoundedGroup
  else if bool_decide (v = ConditionalSingleton)
          || bool_decide (it = ConditionalSingleton)
  then ConditionalSingleton
  else it.

(** Body of the second loop of [ExitPathPatternUnionOperand]. *)
Definition mergeOperandVariable (unions : list Union_)
    (v : string * ExposedVariable) (unionExposedVariables : ExposedVariables)
  : Result ExposedVariables :=
  match unionExposedVariables !! v.1 with
  | None =>
      currentUnion ← top unions;
      let varCopy :=
        if negb (isFirstOperand currentUnion)
           && bool_decide (degree (base v.2) = UnconditionalSingleton)
        then set_degree ConditionalSingleton v.2
        else v.2 in
      Ok (<[v.1 := varCopy]> unionExposedVariables)
  | Some it =>
      Ok (<[v.1 := set_degree (mergedDegree (degree (base v.2)) (degree (base it)))
                              it]> unionExposedVariables)
  end.

(** [GraphPatternContext::ExitPathPatternUnionOperand] *)
Definition ExitPathPatternUnionOperand (c : GraphPatternContext)
  : Result GraphPatternContext :=
  exposedVariables ← top (exposedVariables_ c);
  frames ← pop (exposedVariables_ c);
  unionExposedVariables ← top frames;
  let unionExposedVariables :=
    demoteMissing exposedVariables unionExposedVariables in
  unionExposedVariables ←
    forEach (mergeOperandVariable (pathPatternUnion_ c))
            (map_to_list exposedVariables) unionExposedVariables;
  frames ← updTop (fun _ => unionExposedVariables) frames;
  let c := set_exposedVariables_ frames c in
  lengths ← popMerge Z.min (minimumPathLength_ c);
  let c := set_minimumPathLength_ lengths c in
  counts ← popMerge (fun outer nonZeroNodeCount => nonZeroNodeCount && outer)
                    (nonZeroNodeCount_ c);
  let c := set_nonZeroNodeCount_ counts c in
  localVariables ← top (declarationsInUnions_ c);
  unions ← updTop
             (fun u =>
                {| indexOfFirstSearchConditionScopeInOperands_ :=
                     indexOfFirstSearchConditionScopeInOperands_ u
                     ++ [length (searchConditionScopes_ c)];
                   declarationsInOperands_ :=
                     declarationsInOperands_ u ++ [localVariables] |})
             (pathPatternUnion_ c);
  let c := set_pathPatternUnion_ unions c in
  counts ← popMerge (fun outer popped => addCounts popped outer)
                    (declarationsInUnions_ c);
  Ok (set_declarationsInUnions_ counts c).

(** [GraphPatternContext::EnterNodePattern] *)
Definition EnterNodePattern (c : GraphPatternContext) : Result GraphPatternContext :=
  counts ← updTop (fun _ => true) (nonZeroNodeCount_ c);
  Ok (set_nonZeroNodeCount_ counts c).

Definition ExitNodePattern (c : GraphPatternContext) : GraphPatternContext := c.

(** [GraphPatternContext::EnterEdgePattern] *)
Definition EnterEdgePattern (c : GraphPatternContext) : Result GraphPatternContext :=
  let c := set_expectingLeftBoundaryVariable_ false c in
  let c := set_possibleRightBoundaryVariable_ None c in
  lengths ← updTop (fun n => int_add n 1) (minimumPathLength_ c);
  Ok (set_minimumPathLength_ lengths c).

Definition ExitEdgePattern (c : GraphPatternContext) : GraphPatternContext := c.

(** [GraphPatternContext::AddSearchCondition], both overloads *)
Definition AddSearchCondition (where_ : WhereClause) (c : GraphPatternContext)
  : Result GraphPatternContext :=
  current ← top (variableScopeStack_ c);
  Ok (set_searchConditionScopes_
        (searchConditionScopes_ c
         ++ [{| condition := where_condition where_;
                variableScope := Some current;
                scope := None;
                inaccessibleVariables := ∅ |}]) c).

(** The constructors of [VariableReferenceScope]: a fresh auxiliary record is
    attached to the path factor or path pattern expression and becomes the
    current one; the result carries [parentScopeAuxData_]. *)
Definition VariableReferenceScope_enter (c : GraphPatternContext)
  : GraphPatternContext * option nat :=
  let parentScopeAuxData := currentVariableReferenceScope_ c in
  let addr := length (auxStore c) in
  let c := set_auxStore (auxStore c ++ [{| declaredVariables := ∅ |}]) c in
  (set_currentVariableReferenceScope_ (Some addr) c, parentScopeAuxData).

(** [VariableReferenceScope::~VariableReferenceScope] *)
Definition VariableReferenceScope_exit (parentScopeAuxData : option nat)
    (c : GraphPatternContext) : GraphPatternContext :=
  set_currentVariableReferenceScope_ parentScopeAuxData c.

(** ** The traversal of a path pattern expression ([path_pattern.cpp]) *)

(** The features of [standard::Feature] that the traversal tests. *)
Inductive Feature : Type :=
  | G011 | G012 | G013 | G030 | G032 | G048 | G049 | G050 | G060 | G061 | G074.

Section Driver.
(** The feature gate and the generic [ProcessFallback] are external to the
    modelled sources. *)
Variable featureSupported : Feature -> bool.
Variable ProcessFallback : LabelExpression -> Result unit.

Definition ThrowIfFeatureNotSupported (f : Feature) : Result unit :=
  if featureSupported f then Ok tt else Throw FeatureNotSupported.

(** [SyntaxAnalyzer::Process(ast::PathMode, ...)] *)
Definition ProcessPathMode (mode : PathMode) : Result unit :=
  match mode with
  | WALK => Ok tt
  | TRAIL => ThrowIfFeatureNotSupported G011
  | SIMPLE => ThrowIfFeatureNotSupported G012
  | ACYCLIC => ThrowIfFeatureNotSupported G013
  end.

(** The lambda [processFiller] *)
Definition processFiller (filler : ElementPatternFiller) : Result unit :=
  match labelExpr filler with
  | Some l => ProcessFallback l
  | None => Ok tt
  end;;
  match predicate filler with
  | Some _ => Throw E0111
  | None => Ok tt
  end.

(** The element-pattern alternative of the switch on [factor.pattern] *)
Definition ProcessElementPattern (value : ElementPattern)
    (c : GraphPatternContext) : Result GraphPatternContext :=
  match value with
  | NodePattern _ filler =>
      c ← EnterNodePattern c;
      c ← match var filler with
          | Some v => DeclareNodeVariable v c
          | None => Ok c
          end;
      processFiller filler;;
      Ok (ExitNodePattern c)
  | EdgePattern _ _ filler =>
      c ← EnterEdgePattern c;
      c ← match var filler with
          | Some v => DeclareEdgeVariable v c
          | None => Ok c
          end;
      processFiller filler;;
      Ok (ExitEdgePattern c)
  end.

(** What [Activate] did at the head of a loop iteration, for the
    destructors at its end. *)
Inductive Activated : Type :=
  | NotActive
  | QuestionedActive
  | QuantifiedActive (bounded : bool) (lowerBound : Z).

(** The switch on [factor.quantifier] *)
Definition ActivateQuantifier (q : Quantifier) (c : GraphPatternContext)
  : Result (GraphPatternContext * Activated) :=
  match q with
  | NoQuantifier => Ok (c, NotActive)
  | Optional => Ok (EnterQuestionedPathPrimary c, QuestionedActive)
  | GraphPatternQuantifier lower upper =>
      ThrowIfFeatureNotSupported
        (if bool_decide (is_Some upper) then G060 else G061);;
      let bounded := bool_decide (is_Some upper) in
      c ← EnterQuantifiedPathPrimary bounded c;
      Ok (c, QuantifiedActive bounded (wrap32 (Z.of_N lower)))
  end.

(** [~QuestionedPathPrimaryScope] followed by [~QuantifiedPathPrimaryScope] *)
Definition DeactivateQuantifier (a : Activated) (c : GraphPatternContext)
  : Result GraphPatternContext :=
  match a with
  | NotActive => Ok c
  | QuestionedActive => ExitQuestionedPathPrimary c
  | QuantifiedActive bounded lowerBound =>
      ExitQuantifiedPathPrimary bounded lowerBound c
  end.

(** The parenthesized alternative of the switch on [factor.pattern];
    [Process] is the enclosing function, called on the inner pattern. *)
Definition ProcessParenthesized
    (Process : PathPatternExpression -> GraphPatternContext ->
               Result GraphPatternContext)
    (value : ParenthesizedPathPatternExpression) (c : GraphPatternContext)
  : Result GraphPatternContext :=
  (if bool_decide (is_Some (pppe_var value))
   then ThrowIfFeatureNotSupported G048 else Ok tt);;
  (if negb (bool_decide (pathMode value = WALK))
   then ThrowIfFeatureNotSupported G049 else Ok tt);;
  (if bool_decide (is_Some (pppe_where value))
   then ThrowIfFeatureNotSupported G050 else Ok tt);;
  let c := EnterParenthesizedPathPatternExpression c in
  ProcessPathMode (pathMode value);;
  c ← match pppe_var value with
      | Some v => DeclareSubpathVariable v c
      | None => Ok c
      end;
  c ← EnterPathMode (pathMode value) c;
  c ← Process (pppe_pattern value) c;
  c ← match pppe_where value with
      | Some w => AddSearchCondition w c
      | None => Ok c
      end;
  c ← ExitPathMode c;
  ExitParenthesizedPathPatternExpression
    (bool_decide (is_Some (pppe_var value))) c.

(** The body of the loop over the factors of a term *)
Definition ProcessFactor
    (Process : PathPatternExpression -> GraphPatternContext ->
               Result GraphPatternContext)
    (factor : PathFactor) (c : GraphPatternContext)
  : Result GraphPatternContext :=
  let '(c, factorParent) := VariableReferenceScope_enter c in
  '(c, active) ← ActivateQuantifier (quantifier factor) c;
  c ← match pattern factor with
      | Element value => ProcessElementPattern value c
      | Parenthesized value => ProcessParenthesized Process value c
      | Simplified _ => Throw E0060
      end;
  c ← DeactivateQuantifier active c;
  Ok (VariableReferenceScope_exit factorParent c).

(** The body of the loop over the terms *)
Definition ProcessTerm
    (Process : PathPatternExpression -> GraphPatternContext ->
               Result GraphPatternContext)
    (unionActive : bool) (term : list PathFactor) (c : GraphPatternContext)
  : Result GraphPatternContext :=
  let c := if unionActive then EnterPathPatternUnionOperand c else c in
  c ← forEach (ProcessFactor Process) term c;
  if unionActive then ExitPathPatternUnionOperand c else Ok c.

(** [SyntaxAnalyzer::Process(ast::PathPatternExpression&, ...)] *)
Fixpoint Process (pathPattern : PathPatternExpression)
    (c : GraphPatternContext) {struct pathPattern}
  : Result GraphPatternContext :=
  match pathPattern with
  | mkPathPatternExpression op terms =>
      (if bool_decide (1 < length terms)%nat
       then ThrowIfFeatureNotSupported
              (if bool_decide (op = Union) then G032 else G030)
       else Ok tt);;
      let '(c, unionParent) := VariableReferenceScope_enter c in
      let unionActive := bool_decide (1 < length terms)%nat in
      let c := if unionActive then EnterPathPatternUnion c else c in
      c ← forEach (ProcessTerm Process unionActive) terms c;
      c ← (if unionActive then ExitPathPatternUnion c else Ok c);
      Ok (VariableReferenceScope_exit unionParent c)
  end.
End Driver.

(** ** Statements about the operations *)

(** The condition under which [ExposeVariable] accepts a variable that the
    frame already holds. *)
Definition compatible (variable existingVar : ExposedVariable) : Prop :=
  isTemp (base variable) = isTemp (base existingVar)
  /\ degree (base variable) = UnconditionalSingleton
  /\ degree (base existingVar) = UnconditionalSingleton
  /\ isStrictInterior_ variable = false
  /\ isStrictInterior_ existingVar = false.

(** ** Sample patterns and states *)
Definition sampleFiller (n : string) (col : nat) : ElementPatternFiller :=
  {| var := Some {| evd_name := n; evd_isTemp := false;
                    evd_pos := Some (1, col)%nat |};
     labelExpr := None;
     predicate := None |}.

(** [(n)] at column [col] *)
Definition sampleNode (n : string) (col : nat) : PathFactor :=
  {| quantifier := NoQuantifier;
     pattern := Element (NodePattern (Some (1, col)%nat) (sampleFiller n col)) |}.

(** [-[n]->] at column [col] *)
Definition sampleEdge (n : string) (col : nat) : PathFactor :=
  {| quantifier := NoQuantifier;
     pattern := Element (EdgePattern (Some (1, col)%nat) Right_
                           (sampleFiller n col)) |}.

(** [(term) q] and [(term WHERE w) q] *)
Definition sampleParen (q : Quantifier) (term : list PathFactor)
    (w : option ValueExpression) : PathFactor :=
  {| quantifier := q;
     pattern :=
       Parenthesized
         {| pppe_pos := None; pppe_var := None; pathMode := WALK;
            pppe_pattern := mkPathPatternExpression Union [term];
            pppe_where :=
              (fun cond => {| where_pos := None; where_condition := cond |})
                <$> w |} |}.

Definition allFeatures : Feature -> bool := fun _ => true.

Definition acceptLabels : LabelExpression -> Result unit := fun _ => Ok tt.

(** The value of a computation known to succeed. *)
Definition orElse {A : Type} (r : Result A) (d : A) : A :=
  match r with
  | Ok a => a
  | _ => d
  end.

(** The state in which a non-selective path pattern starts, in the default
    matching mode. *)
Definition startOfPathPattern : GraphPatternContext :=
  EnterPathPattern false (newGraphPatternContext false).

(** The state inside [( ... ){1,2}], a bounded quantified path primary. *)
Definition insideBoundedQuantifier : GraphPatternContext :=
  orElse (EnterQuantifiedPathPrimary true startOfPathPattern)
         startOfPathPattern.

(** [((a) (-[b]->)+){1,2}]: an unbounded quantifier nested in a bounded one. *)
Definition nestedUnboundedQuantifier : PathPatternExpression :=
  mkPathPatternExpression Union
    [[sampleParen (GraphPatternQuantifier 1 (Some 2%N))
        [sampleNode "a" 1;
         sampleParen (GraphPatternQuantifier 1 None) [sampleEdge "b" 2] None]
        None]].

(** The variables a path pattern exposes when it is left: the top frame, and
    for a selective pattern the frame of its variable scope merged into the
    frame of the pattern. *)
Definition patternFrame (c : GraphPatternContext) : option ExposedVariables :=
  match exposedVariables_ c with
  | [] => None
  | f :: rest =>
      if isInsideSelectivePattern_ c
      then match rest with
           | [] => None
           | p :: _ => Some (p ∪ f)
           end
      else Some f
  end.

(** [a (b)-[c]->+ (d)] in different-edges-match mode, analysed up to the exit
    of the path pattern: [b] and [c] are unbounded groups there. *)
Definition unboundedGroupPattern : PathPatternExpression :=
  mkPathPatternExpression Union
    [[sampleNode "a" 1;
      sampleParen (GraphPatternQuantifier 1 None)
        [sampleNode "b" 2; sampleEdge "c" 3] None;
      sampleNode "d" 4]].

Definition beforeExitPathPattern : GraphPatternContext :=
  orElse (Process allFeatures acceptLabels unboundedGroupPattern
            (EnterPathPattern false (newGraphPatternContext true)))
         (newGraphPatternContext true).

Definition afterExitPathPattern : GraphPatternContext * PathPatternAuxData :=
  orElse (ExitPathPattern beforeExitPathPattern)
         (beforeExitPathPattern, {| joinableVariables := ∅ |}).

(** The degrees of exposure recorded in a frame. *)
Definition degreesOf (f : ExposedVariables)
  : gmap string VariableDegreeOfExposure :=
  (fun v => degree (base v)) <$> f.

Definition degreesOfList (l : list (string * VariableDegreeOfExposure))
  : gmap string VariableDegreeOfExposure := list_to_map l.

(** The order US < CS < EBG < EUG. *)
Definition degreeRank (d : VariableDegreeOfExposure) : nat :=
  match d with
  | UnconditionalSingleton => 0
  | ConditionalSingleton => 1
  | EffectivelyBoundedGroup => 2
  | EffectivelyUnboundedGroup => 3
  end.

(** What the second loop of [ExitPathPatternUnionOperand] stores for a
    variable [v] of the operand, [it] being the entry of the union. *)
Definition mergeOne (first : bool) (it : option ExposedVariable)
    (v : ExposedVariable) : ExposedVariable :=
  match it with
  | None =>
      if negb first && bool_decide (degree (base v) = UnconditionalSingleton)
      then set_degree ConditionalSingleton v else v
  | Some it => set_degree (mergedDegree (degree (base v)) (degree (base it))) it
  end.

(** [((a)-[b]->){2,3} | ((c)-[d]->){2,3}], analysed up to the exit of the
    second operand. *)
Definition boundedOperand (n e : string) (col : nat) : list PathFactor :=
  [sampleParen (GraphPatternQuantifier 2 (Some 3%N))
     [sampleNode n col; sampleEdge e (S col)] None].

Definition beforeSecondOperandExit : GraphPatternContext :=
  orElse
    (let P := Process allFeatures acceptLabels in
     let c := (VariableReferenceScope_enter startOfPathPattern).1 in
     let c := EnterPathPatternUnion c in
     c ← ProcessTerm allFeatures acceptLabels P true (boundedOperand "a" "b" 1) c;
     let c := EnterPathPatternUnionOperand c in
     forEach (ProcessFactor allFeatures acceptLabels P)
             (boundedOperand "c" "d" 3) c)
    startOfPathPattern.

Definition afterSecondOperandExit : GraphPatternContext :=
  orElse (ExitPathPatternUnionOperand beforeSecondOperandExit)
         startOfPathPattern.

(** The degree chosen by [quantifiedDegree], as a function of the flag read
    from [isRestrictivePathMode_]. *)
Definition quantifiedDegreeOf (bounded restrictive : bool)
    (d : VariableDegreeOfExposure) : VariableDegreeOfExposure :=
  if bool_decide (d = EffectivelyUnboundedGroup) then EffectivelyUnboundedGroup
  else if bounded || restrictive then EffectivelyBoundedGroup
  else EffectivelyUnboundedGroup.

(** [(a) ((a)){2}], analysed up to the exit of the quantified path primary:
    the primary has minimum path length zero and exposes [a], which the
    enclosing frame already holds. *)
Definition beforeQuantifiedExit : GraphPatternContext :=
  orElse
    (let P := Process allFeatures acceptLabels in
     let c := (VariableReferenceScope_enter startOfPathPattern).1 in
     c ← ProcessFactor allFeatures acceptLabels P (sampleNode "a" 1) c;
     let c := (VariableReferenceScope_enter c).1 in
     c ← EnterQuantifiedPathPrimary true c;
     ProcessFactor allFeatures acceptLabels P
       (sampleParen NoQuantifier [sampleNode "a" 2] None) c)
    startOfPathPattern.

Definition repeatedNodeQuantified : PathPatternExpression :=
  mkPathPatternExpression Union
    [[sampleNode "a" 1;
      sampleParen (GraphPatternQuantifier 2 (Some 2%N))
        [sampleParen NoQuantifier [sampleNode "a" 2] None] None]].

(** [((a)-[b]->){2,3}], analysed up to the exit of the quantified primary. *)
Definition beforeBoundedExit : GraphPatternContext :=
  orElse
    (let P := Process allFeatures acceptLabels in
     let c := (VariableReferenceScope_enter startOfPathPattern).1 in
     let c := (VariableReferenceScope_enter c).1 in
     c ← EnterQuantifiedPathPrimary true c;
     ProcessFactor allFeatures acceptLabels P
       (sampleParen NoQuantifier [sampleNode "a" 1; sampleEdge "b" 2] None) c)
    startOfPathPattern.

(** ** Resolving a binding variable reference ([reference.cpp]) *)

(** [ast::ValueType], reduced to the shapes a pattern variable can have. *)
Inductive ValueType : Type :=
  | NodeReferenceType
  | EdgeReferenceType
  | PathValueType
  | ListType (element : ValueType)
  | OtherType (description : string).

(** [ast::FieldType] and [ast::FieldTypeList] *)
Record FieldType : Type := {
  field_name : string;
  field_type : ValueType
}.

(** [ExecutionContext::InaccessibleReason] *)
Inductive InaccessibleReason : Type :=
  | ReferenceToTheAdjacentUnionOperand
  | NonLocalReferenceWithGroupDegreeOfReference
  | ReferenceFromSelectivePathPattern.

(** The members of [ExecutionContext] that reference resolution reads. *)
Record ExecutionContext : Type := {
  workingRecord : list FieldType;
  workingTable : list FieldType;
  ec_inaccessibleVariables : gmap string InaccessibleReason
}.

(** Modelled from the spec: [HasField] (declared in [type_helpers.h], which
    is not among the sources) returns the field of the list that carries the
    given name, or null. *)
Definition HasField (fields : list FieldType) (name : string)
  : option FieldType :=
  List.find (fun f => bool_decide (field_name f = name)) fields.

Definition reasonCode (r : InaccessibleReason) : ErrorCode :=
  match r with
  | ReferenceToTheAdjacentUnionOperand => E0051
  | NonLocalReferenceWithGroupDegreeOfReference => E0052
  | ReferenceFromSelectivePathPattern => E0053
  end.

(** [SyntaxAnalyzer::ProcessBindingVariableReference] *)
Definition ProcessBindingVariableReference (name : string)
    (context : ExecutionContext) : Result ValueType :=
  match HasField (workingRecord context) name with
  | Some field => Ok (field_type field)
  | None =>
      match ec_inaccessibleVariables context !! name with
      | Some ReferenceToTheAdjacentUnionOperand => Throw E0051
      | Some NonLocalReferenceWithGroupDegreeOfReference => Throw E0052
      | Some ReferenceFromSelectivePathPattern => Throw E0053
      | None =>
          if bool_decide (is_Some (HasField (workingTable context) name))
          then Throw E0113
          else Throw E0054
      end
  end.

(** A context in which [x] is a field of the working record and is also
    recorded as inaccessible. *)
Definition shadowedContext : ExecutionContext :=
  {| workingRecord := [{| field_name := "x"; field_type := NodeReferenceType |}];
     workingTable := [];
     ec_inaccessibleVariables :=
       {["x" := ReferenceToTheAdjacentUnionOperand]} |}.

(** A context in which [d] is not a field of the working record and is
    recorded as declared in an adjacent union operand. *)
Definition adjacentContext : ExecutionContext :=
  {| workingRecord := [{| field_name := "a"; field_type := NodeReferenceType |}];
     workingTable := [];
     ec_inaccessibleVariables :=
       {["d" := ReferenceToTheAdjacentUnionOperand]} |}.

(** ** The context of a search condition *)

(** The walk over the [variableScope] chain, from the innermost scope
    outward, looking for [localVariables[name]]. *)
Fixpoint lookupInScopes (fuel : nat) (scopes : list VariableScope)
    (s : option nat) (name : string) : option Variable_ :=
  match fuel with
  | O => None
  | S fuel =>
      match s with
      | None => None
      | Some addr =>
          match scopes !! addr with
          | None => None
          | Some sc =>
              match localVariables sc !! name with
              | Some v => Some v
              | None => lookupInScopes fuel scopes (parent sc) name
              end
          end
      end
  end.

(** The type under which a pattern variable is referenced. *)
Definition referenceType (v : Variable_) : ValueType :=
  let elementType :=
    match type v with
    | Node => NodeReferenceType
    | Edge => EdgeReferenceType
    | Path | Subpath => PathValueType
    end in
  match degree v with
  | UnconditionalSingleton | ConditionalSingleton => elementType
  | EffectivelyBoundedGroup | EffectivelyUnboundedGroup => ListType elementType
  end.

(** Modelled from the spec: the construction of the [ExecutionContext] in
    which the condition of a search-condition scope is checked.  It belongs
    to the graph-pattern part of the analyzer, which is not among the
    sources.  Following section 4.3 of the specification, the finalized
    [inaccessibleVariables] of the scope is the visibility oracle: a name in
    it is reported with the reason [ReferenceToTheAdjacentUnionOperand] and
    is not a field of the working record; every other declared name is
    resolved by the walk over the [variableScope] chain. *)
Definition searchConditionContext (c : GraphPatternContext)
    (cond : SearchConditionScope) : ExecutionContext :=
  {| workingRecord :=
       omap (fun name =>
               if bool_decide (is_Some (inaccessibleVariables cond !! name))
               then None
               else (fun v => {| field_name := name;
                                 field_type := referenceType v |})
                      <$> lookupInScopes (length (variableScopes_ c))
                            (variableScopes_ c) (variableScope cond) name)
            (map_to_list (variableDeclarations_ c)).*1;
     workingTable := [];
     ec_inaccessibleVariables :=
       (fun _ => ReferenceToTheAdjacentUnionOperand)
         <$> inaccessibleVariables cond |}.

(** [((a)-[b]->(c) WHERE ...) | (a)-[d]->(e)]: a search condition in the
    first operand of a union whose second operand declares [d] and [e]. *)
Definition unionWithCondition : PathPatternExpression :=
  mkPathPatternExpression Union
    [[sampleParen NoQuantifier
        [sampleNode "a" 1; sampleEdge "b" 2; sampleNode "c" 3]
        (Some (Comparison Equals
                 (PropertyReference (BindingVariableReference "d") "weight")
                 (Literal "1")))];
     [sampleNode "a" 4; sampleEdge "d" 5; sampleNode "e" 6]].

Definition beforeFinalize : GraphPatternContext :=
  orElse
    (c ← Process allFeatures acceptLabels unionWithCondition startOfPathPattern;
     r ← ExitPathPattern c;
     Ok (r : GraphPatternContext * PathPatternAuxData).1)
    startOfPathPattern.

Definition afterFinalize : GraphPatternContext :=
  orElse (Finalize beforeFinalize) startOfPathPattern.

(** The scope registered for the WHERE of [unionWithCondition], before and
    after [Finalize]. *)
Definition conditionScopeBefore : option SearchConditionScope :=
  searchConditionScopes_ beforeFinalize !! 0%nat.

Definition conditionScopeAfter : option SearchConditionScope :=
  searchConditionScopes_ afterFinalize !! 0%nat.

Definition countsOfList (l : list (string * Z)) : CountedVariableDeclarations :=
  list_to_map l.

(** ** The invariant of the declared-variable records *)

(** [name] is a key of the [declaredVariables] of some record of the store. *)
Definition declaredIn (A : list PathVariableReferenceScopeAuxData)
    (name : string) : Prop :=
  exists rec, rec ∈ A /\ is_Some (declaredVariables rec !! name).

(** The kind under which [name] was first declared is [ty]. *)
Definition declaredAs (D : gmap string VariableDeclaration) (name : string)
    (ty : GraphPatternVariableType) : Prop :=
  exists d, D !! name = Some d /\ type_ d = ty.

(** An entry of an exposure frame agrees with the declaration of its name
    and, when it is a node or an edge, is recorded in the store. *)
Definition entryOk (D : gmap string VariableDeclaration)
    (A : list PathVariableReferenceScopeAuxData) (name : string)
    (ev : ExposedVariable) : Prop :=
  declaredAs D name (type (base ev))
  /\ (isElementType (type (base ev)) = true -> declaredIn A name).

(** An entry of a [declaredVariables] map is not temporary, is a node or an
    edge, and agrees with the declaration of its name. *)
Definition auxOk (D : gmap string VariableDeclaration) (name : string)
    (v : AuxVariable) : Prop :=
  aux_isTemp v = false
  /\ isElementType (aux_type v) = true
  /\ declaredAs D name (aux_type v).

Definition InvT (F : list ExposedVariables)
    (A : list PathVariableReferenceScopeAuxData)
    (D : gmap string VariableDeclaration) : Prop :=
  (forall frame name ev,
     frame ∈ F -> frame !! name = Some ev -> entryOk D A name ev)
  /\ (forall rec name v,
        rec ∈ A -> declaredVariables rec !! name = Some v -> auxOk D name v).

Definition Inv (c : GraphPatternContext) : Prop :=
  InvT (exposedVariables_ c) (auxStore c) (variableDeclarations_ c).

(** The store only grows: a name recorded in [A] is recorded in [A']. *)
Definition storeGrows (A A' : list PathVariableReferenceScopeAuxData) : Prop :=
  forall name, declaredIn A name -> declaredIn A' name.

(** An operation keeps the invariant. *)
Definition Keeps (f : GraphPatternContext -> Result GraphPatternContext)
  : Prop :=
  forall c c', Inv c -> f c = Ok c' -> Inv c'.

(** What the switch on [factor.pattern] runs for a path primary. *)
Definition ProcessPrimary (featureSupported : Feature -> bool)
    (ProcessFallback : LabelExpression -> Result unit)
    (P : PathPatternExpression -> GraphPatternContext
         -> Result GraphPatternContext)
    (p : PathPrimary) (c : GraphPatternContext)
  : Result GraphPatternContext :=
  match p with
  | Element value => ProcessElementPattern ProcessFallback value c
  | Parenthesized value => ProcessParenthesized featureSupported P value c
  | Simplified _ => Throw E0060
  end.

(** ** Clients of the context *)

(** The calls a client of [GraphPatternContext] can make: its public member
    functions, the constructors and the destructor of
    [VariableReferenceScope], and the traversal of a whole path pattern
    expression. *)
Inductive Call : Type :=
  | CallDeclarePathVariable (v : NamedVariable)
  | CallDeclareSubpathVariable (v : NamedVariable)
  | CallDeclareNodeVariable (v : ElementVariableDeclaration)
  | CallDeclareEdgeVariable (v : ElementVariableDeclaration)
  | CallEnterPathPattern (isSelectivePattern : bool)
  | CallExitPathPattern
  | CallEnterParenthesizedPathPatternExpression
  | CallExitParenthesizedPathPatternExpression (hasSubpathVariable : bool)
  | CallEnterVariableScope
  | CallExitVariableScope
  | CallEnterPathMode (mode : PathMode)
  | CallExitPathMode
  | CallEnterPathPatternUnion
  | CallExitPathPatternUnion
  | CallEnterPathPatternUnionOperand
  | CallExitPathPatternUnionOperand
  | CallEnterQuantifiedPathPrimary (bounded : bool)
  | CallExitQuantifiedPathPrimary (bounded : bool) (lowerBound : Z)
  | CallEnterQuestionedPathPrimary
  | CallExitQuestionedPathPrimary
  | CallEnterNodePattern
  | CallExitNodePattern
  | CallEnterEdgePattern
  | CallExitEdgePattern
  | CallAddSearchCondition (where_ : WhereClause)
  | CallFinalize
  | CallEnterVariableReferenceScope
  | CallExitVariableReferenceScope (parentScopeAuxData : option nat)
  | CallProcess (pathPattern : PathPatternExpression).

Section Clients.
Variable featureSupported : Feature -> bool.
Variable ProcessFallback : LabelExpression -> Result unit.

Definition perform (call : Call) (c : GraphPatternContext)
  : Result GraphPatternContext :=
  match call with
  | CallDeclarePathVariable v => DeclarePathVariable v c
  | CallDeclareSubpathVariable v => DeclareSubpathVariable v c
  | CallDeclareNodeVariable v => DeclareNodeVariable v c
  | CallDeclareEdgeVariable v => DeclareEdgeVariable v c
  | CallEnterPathPattern sel => Ok (EnterPathPattern sel c)
  | CallExitPathPattern => r ← ExitPathPattern c; Ok r.1
  | CallEnterParenthesizedPathPatternExpression =>
      Ok (EnterParenthesizedPathPatternExpression c)
  | CallExitParenthesizedPathPatternExpression hasSubpathVariable =>
      ExitParenthesizedPathPatternExpression hasSubpathVariable c
  | CallEnterVariableScope => Ok (EnterVariableScope c)
  | CallExitVariableScope => ExitVariableScope c
  | CallEnterPathMode mode => EnterPathMode mode c
  | CallExitPathMode => ExitPathMode c
  | CallEnterPathPatternUnion => Ok (EnterPathPatternUnion c)
  | CallExitPathPatternUnion => ExitPathPatternUnion c
  | CallEnterPathPatternUnionOperand => Ok (EnterPathPatternUnionOperand c)
  | CallExitPathPatternUnionOperand => ExitPathPatternUnionOperand c
  | CallEnterQuantifiedPathPrimary bounded =>
      EnterQuantifiedPathPrimary bounded c
  | CallExitQuantifiedPathPrimary bounded lowerBound =>
      ExitQuantifiedPathPrimary bounded lowerBound c
  | CallEnterQuestionedPathPrimary => Ok (EnterQuestionedPathPrimary c)
  | CallExitQuestionedPathPrimary => ExitQuestionedPathPrimary c
  | CallEnterNodePattern => EnterNodePattern c
  | CallExitNodePattern => Ok (ExitNodePattern c)
  | CallEnterEdgePattern => EnterEdgePattern c
  | CallExitEdgePattern => Ok (ExitEdgePattern c)
  | CallAddSearchCondition where_ => AddSearchCondition where_ c
  | CallFinalize => Finalize c
  | CallEnterVariableReferenceScope => Ok (VariableReferenceScope_enter c).1
  | CallExitVariableReferenceScope parentScopeAuxData =>
      Ok (VariableReferenceScope_exit parentScopeAuxData c)
  | CallProcess pathPattern =>
      Process featureSupported ProcessFallback pathPattern c
  end.

(** The states an analysis can be in: those reached from a new context by
    a sequence of calls, none of which fails. *)
Definition Reachable (c : GraphPatternContext) : Prop :=
  exists (differentEdgesMatchMode : bool) (calls : list Call),
    forEach perform calls (newGraphPatternContext differentEdgesMatchMode)
    = Ok c.
End Clients.

(** [(a)-[b]->(a)] *)
Definition repeatedNode : PathPatternExpression :=
  mkPathPatternExpression Union
    [[sampleNode "a" 1; sampleEdge "b" 2; sampleNode "a" 3]].

Definition afterRepeatedNode : GraphPatternContext :=
  orElse (Process allFeatures acceptLabels repeatedNode startOfPathPattern)
         startOfPathPattern.

(** The names recorded in the [declaredVariables] of each record of the
    store, in the order of creation of the records. *)
Definition declaredNames (c : GraphPatternContext) : list (list string) :=
  (fun rec => (map_to_list (declaredVariables rec)).*1) <$> auxStore c.

(** ** The pre-analysis rewrites ([src/rewrite]) *)

(** [ast::GQLProgram], reduced to the graph patterns of its MATCH statements
    in source order. *)
Record GQLProgram : Type := {
  statements : list GraphPattern
}.

(** The effect of [SetInputPositionRecursive] ([rewrite/helpers.h]) on one
    node: a position that is set stays, an unset one becomes [position]. *)
Definition inheritPosition (own position : InputPosition) : InputPosition :=
  if IsSet own then own else position.

Section Walk.
(** Modelled from the spec: [ast::ForEachNodeOfType<ast::PathPrimary>]
    ([gql/ast/algorithm.h] is not among the sources), the full tree walk of
    section 4.1.  It calls the visitor on every path primary in pre-order
    and descends into the node unless the visitor answers
    [VisitorResult::kSkipChildren].  A visitor is a function that returns
    [Some (node', s')] when it answers [kSkipChildren], [node'] being the
    node as it leaves it, and [None] when it answers [kContinue] and has
    left the node as it was; [S] is the state the visitor captures. *)
Context {S : Type}.
Variable visit : PathPrimary -> S -> option (PathPrimary * S).

Definition mapS {A B : Type} (f : A -> S -> B * S)
  : list A -> S -> list B * S :=
  fix go (l : list A) (s : S) : list B * S :=
    match l with
    | [] => ([], s)
    | a :: l' =>
        let '(b, s) := f a s in
        let '(bs, s) := go l' s in
        (b :: bs, s)
    end.

Definition optS {A B : Type} (f : A -> S -> B * S) (o : option A) (s : S)
  : option B * S :=
  match o with
  | None => (None, s)
  | Some a => let '(b, s) := f a s in (Some b, s)
  end.

Definition walkWhere (walk : ValueExpression -> S -> ValueExpression * S)
    (w : WhereClause) (s : S) : WhereClause * S :=
  let '(c, s) := walk (where_condition w) s in
  ({| where_pos := where_pos w; where_condition := c |}, s).

Definition walkPredicate (walk : ValueExpression -> S -> ValueExpression * S)
    (p : ElementPatternPredicate) (s : S) : ElementPatternPredicate * S :=
  match p with
  | ElementPatternWhereClause wpos c =>
      let '(c, s) := walk c s in (ElementPatternWhereClause wpos c, s)
  | ElementPropertySpecification props =>
      let '(props, s) :=
        mapS (fun (kv : PropertyKeyValuePair) s =>
                let '(v, s) := walk (prop_value kv) s in
                ({| prop_name := prop_name kv; prop_value := v |}, s))
             props s in
      (ElementPropertySpecification props, s)
  end.

Definition walkFiller (walk : ValueExpression -> S -> ValueExpression * S)
    (f : ElementPatternFiller) (s : S) : ElementPatternFiller * S :=
  let '(p, s) := optS (walkPredicate walk) (predicate f) s in
  ({| var := var f; labelExpr := labelExpr f; predicate := p |}, s).

Definition walkElement (walk : ValueExpression -> S -> ValueExpression * S)
    (e : ElementPattern) (s : S) : ElementPattern * S :=
  match e with
  | NodePattern pos f =>
      let '(f, s) := walkFiller walk f s in (NodePattern pos f, s)
  | EdgePattern pos d f =>
      let '(f, s) := walkFiller walk f s in (EdgePattern pos d f, s)
  end.

Fixpoint walkValueExpression (e : ValueExpression) (s : S) {struct e}
  : ValueExpression * S :=
  match e with
  | Literal _ | BindingVariableReference _ => (e, s)
  | PropertyReference element property =>
      let '(element, s) := walkValueExpression element s in
      (PropertyReference element property, s)
  | Comparison op l r =>
      let '(l, s) := walkValueExpression l s in
      let '(r, s) := walkValueExpression r s in
      (Comparison op l r, s)
  | Binary op l r =>
      let '(l, s) := walkValueExpression l s in
      let '(r, s) := walkValueExpression r s in
      (Binary op l r, s)
  | Exists g =>
      let '(ps, s) :=
        mapS (fun (p : PathPattern) s =>
                let '(e, s) := walkPathPatternExpression (pp_expr p) s in
                ({| pp_var := pp_var p; pp_selective := pp_selective p;
                    pp_expr := e |}, s))
             (paths g) s in
      let '(w, s) := optS (walkWhere walkValueExpression) (gp_where g) s in
      (Exists {| paths := ps; gp_where := w |}, s)
  end
with walkPathPatternExpression (e : PathPatternExpression) (s : S)
    {struct e} : PathPatternExpression * S :=
  match e with
  | mkPathPatternExpression op ts =>
      let '(ts, s) :=
        mapS (mapS (fun (f : PathFactor) s =>
                      let '(p, s) := walkPathPrimary (pattern f) s in
                      ({| quantifier := quantifier f; pattern := p |}, s)))
             ts s in
      (mkPathPatternExpression op ts, s)
  end
with walkPathPrimary (p : PathPrimary) (s : S) {struct p} : PathPrimary * S :=
  match visit p s with
  | Some r => r
  | None =>
      match p with
      | Element e =>
          let '(e, s) := walkElement walkValueExpression e s in
          (Element e, s)
      | Parenthesized pp =>
          let '(e, s) := walkPathPatternExpression (pppe_pattern pp) s in
          let '(w, s) :=
            optS (walkWhere walkValueExpression) (pppe_where pp) s in
          (Parenthesized
             {| pppe_pos := pppe_pos pp; pppe_var := pppe_var pp;
                pathMode := pathMode pp; pppe_pattern := e;
                pppe_where := w |}, s)
      | Simplified _ => (p, s)
      end
  end.

Definition walkPathPattern (p : PathPattern) (s : S) : PathPattern * S :=
  let '(e, s) := walkPathPatternExpression (pp_expr p) s in
  ({| pp_var := pp_var p; pp_selective := pp_selective p; pp_expr := e |}, s).

Definition walkGraphPattern (g : GraphPattern) (s : S) : GraphPattern * S :=
  let '(ps, s) := mapS walkPathPattern (paths g) s in
  let '(w, s) := optS (walkWhere walkValueExpression) (gp_where g) s in
  ({| paths := ps; gp_where := w |}, s).

Definition ForEachPathPrimary (program : GQLProgram) (s : S)
  : GQLProgram * S :=
  let '(gs, s) := mapS walkGraphPattern (statements program) s in
  ({| statements := gs |}, s).
End Walk.

(** The filler and the position of an element pattern, as the lambda at the
    head of both visitors reads them. *)
Definition fillerOf (e : ElementPattern) : ElementPatternFiller :=
  match e with
  | NodePattern _ f => f
  | EdgePattern _ _ f => f
  end.

Definition inputPositionOf (e : ElementPattern) : InputPosition :=
  match e with
  | NodePattern pos _ => pos
  | EdgePattern pos _ _ => pos
  end.

Definition withFiller (e : ElementPattern) (f : ElementPatternFiller)
  : ElementPattern :=
  match e with
  | NodePattern pos _ => NodePattern pos f
  | EdgePattern pos d _ => EdgePattern pos d f
  end.

(** The operator of a value-initialised [PathPatternExpression]; it is not
    observable on an expression with a single term. *)
Definition defaultOp : Op := Union.

(** [node = parenthesizedExpr] where the expression holds the element [e] as
    its only factor and [where_] as its WHERE clause, followed by
    [SetInputPositionRecursive(node, elementInputPosition)]. *)
Definition wrapElement (e : ElementPattern) (where_ : WhereClause)
  : PathPrimary :=
  Parenthesized
    {| pppe_pos := inheritPosition None (inputPositionOf e);
       pppe_var := None;
       pathMode := WALK;
       pppe_pattern :=
         mkPathPatternExpression defaultOp
           [[{| quantifier := NoQuantifier; pattern := Element e |}]];
       pppe_where :=
         Some {| where_pos := inheritPosition (where_pos where_)
                                (inputPositionOf e);
                 where_condition := where_condition where_ |} |}.

(** The visitor of [RewriteElementPatternWhereClause]
    ([element_pattern_where.cpp]). *)
Definition visitElementPatternWhereClause (node : PathPrimary) (s : unit)
  : option (PathPrimary * unit) :=
  match node with
  | Element elementPattern =>
      let filler := fillerOf elementPattern in
      match predicate filler with
      | Some (ElementPatternWhereClause wpos condition) =>
          Some (wrapElement
                  (withFiller elementPattern
                     {| var := var filler; labelExpr := labelExpr filler;
                        predicate := None |})
                  {| where_pos := wpos; where_condition := condition |},
                s)
      | _ => Some (node, s)
      end
  | _ => None
  end.

(** [rewrite::RewriteElementPatternWhereClause] (R3) *)
Definition RewriteElementPatternWhereClause (program : GQLProgram)
  : GQLProgram :=
  (ForEachPathPrimary visitElementPatternWhereClause program tt).1.

(** [fmt::format("gql_gen_prop{}", ++lastGeneratedId)], given the incremented
    counter *)
Definition generatedName (id : Z) : string :=
  "gql_gen_prop" ++ NilZero.string_of_int (Z.to_int id).

(** [v.p = value], the comparison built for one property *)
Definition propertyEquals (variable : string) (prop : PropertyKeyValuePair)
  : ValueExpression :=
  Comparison Equals
    (PropertyReference (BindingVariableReference variable) (prop_name prop))
    (prop_value prop).

(** A default-constructed [ValueExpressionPtr], which is what the WHERE
    clause holds when the property list is empty. *)
Definition emptyValueExpression : ValueExpression := Literal "".

(** The loop over [props->props]: [acc] is [None] while [first] is true. *)
Definition conjoin (variable : string) (props : list PropertyKeyValuePair)
  : option ValueExpression :=
  foldl (fun (acc : option ValueExpression) prop =>
           match acc with
           | None => Some (propertyEquals variable prop)
           | Some expr =>
               Some (Binary BoolAnd expr (propertyEquals variable prop))
           end)
        None props.

(** The visitor of [RewriteElementPropertyPredicate]
    ([element_property_predicate.cpp]); the state is [lastGeneratedId]. *)
Definition visitElementPropertyPredicate (node : PathPrimary)
    (lastGeneratedId : Z) : option (PathPrimary * Z) :=
  match node with
  | Element elementPattern =>
      let filler := fillerOf elementPattern in
      match predicate filler with
      | Some (ElementPropertySpecification props) =>
          let '(v, lastGeneratedId) :=
            match var filler with
            | Some v => (v, lastGeneratedId)
            | None =>
                let id := int_add lastGeneratedId 1 in
                ({| evd_name := generatedName id;
                    evd_isTemp := true;
                    evd_pos := inheritPosition None
                                 (inputPositionOf elementPattern) |}, id)
            end in
          Some (wrapElement
                  (withFiller elementPattern
                     {| var := Some v; labelExpr := labelExpr filler;
                        predicate := None |})
                  {| where_pos := None;
                     where_condition :=
                       default emptyValueExpression
                         (conjoin (evd_name v) props) |},
                lastGeneratedId)
      | _ => Some (node, lastGeneratedId)
      end
  | _ => None
  end.

(** [rewrite::RewriteElementPropertyPredicate] (R4) *)
Definition RewriteElementPropertyPredicate (program : GQLProgram)
  : GQLProgram :=
  (ForEachPathPrimary visitElementPropertyPredicate program 0).1.

(** The parenthesized path pattern expression that holds the element [e],
    with the variable [v] and without its predicate, as its only factor, and
    [cond] as the condition of its WHERE clause. *)
Definition liftedElement (e : ElementPattern) (v : ElementVariableDeclaration)
    (wpos : InputPosition) (cond : ValueExpression) : PathPrimary :=
  Parenthesized
    {| pppe_pos := inputPositionOf e;
       pppe_var := None;
       pathMode := WALK;
       pppe_pattern :=
         mkPathPatternExpression defaultOp
           [[{| quantifier := NoQuantifier;
                pattern :=
                  Element
                    (withFiller e
                       {| var := Some v;
                          labelExpr := labelExpr (fillerOf e);
                          predicate := None |}) |}]];
       pppe_where := Some {| where_pos := wpos; where_condition := cond |} |}.

(** The left-associative conjunction [v.p1 = v1 AND ... AND v.pn = vn] of a
    non-empty property list, in the order of the list. *)
Inductive LeftConjunction (v : string)
  : list PropertyKeyValuePair -> ValueExpression -> Prop :=
  | LeftConjunction_one (p : PropertyKeyValuePair) :
      LeftConjunction v [p] (propertyEquals v p)
  | LeftConjunction_more (ps : list PropertyKeyValuePair)
      (p : PropertyKeyValuePair) (e : ValueExpression) :
      LeftConjunction v ps e ->
      LeftConjunction v (ps ++ [p]) (Binary BoolAnd e (propertyEquals v p)).

(** Sample programs, after [rewrite_unittest.cpp]. *)
Definition sampleProperty (n : string) (value : ValueExpression)
  : PropertyKeyValuePair :=
  {| prop_name := n; prop_value := value |}.

Definition nodeWith (v : option string) (p : option ElementPatternPredicate)
  : PathPrimary :=
  Element
    (NodePattern (Some (1, 7)%nat)
       {| var := (fun n => {| evd_name := n; evd_isTemp := false;
                              evd_pos := Some (1, 8)%nat |}) <$> v;
          labelExpr := None;
          predicate := p |}).

Definition matchPrimary (p : PathPrimary) : GraphPattern :=
  {| paths := [{| pp_var := None; pp_selective := false;
                  pp_expr :=
                    mkPathPatternExpression defaultOp
                      [[{| quantifier := NoQuantifier; pattern := p |}]] |}];
     gp_where := None |}.

Definition programOf (p : PathPrimary) : GQLProgram :=
  {| statements := [matchPrimary p] |}.

Definition xDot (x p : string) : ValueExpression :=
  PropertyReference (BindingVariableReference x) p.

(** [MATCH (a {prop1:x.p1, prop2:y.p2, prop3:z.p3})] *)
Definition threeProperties : PathPrimary :=
  nodeWith (Some "a")
    (Some (ElementPropertySpecification
             [sampleProperty "prop1" (xDot "x" "p1");
              sampleProperty "prop2" (xDot "y" "p2");
              sampleProperty "prop3" (xDot "z" "p3")])).

(** [MATCH ({prop:3})] *)
Definition anonymousProperty : PathPrimary :=
  nodeWith None
    (Some (ElementPropertySpecification [sampleProperty "prop" (Literal "3")])).

(** The WHERE condition of the parenthesized expression that the only factor
    of the only path of the first statement has become. *)
Definition conditionOfFirst (program : GQLProgram) : option ValueExpression :=
  match statements program with
  | g :: _ =>
      match paths g with
      | p :: _ =>
          match terms (pp_expr p) with
          | (f :: _) :: _ =>
              match pattern f with
              | Parenthesized pp => where_condition <$> pppe_where pp
              | _ => None
              end
          | _ => None
          end
      | _ => None
      end
  | _ => None
  end.

(** The variable declaration of the element which that parenthesized
    expression wraps. *)
Definition variableOfFirst (program : GQLProgram)
  : option ElementVariableDeclaration :=
  match statements program with
  | g :: _ =>
      match paths g with
      | p :: _ =>
          match terms (pp_expr p) with
          | (f :: _) :: _ =>
              match pattern f with
              | Parenthesized pp =>
                  match terms (pppe_pattern pp) with
                  | (f' :: _) :: _ =>
                      match pattern f' with
                      | Element e => var (fillerOf e)
                      | _ => None
                      end
                  | _ => None
                  end
              | _ => None
              end
          | _ => None
          end
      | _ => None
      end
  | _ => None
  end.

(** ** The analysis of a rewritten pattern *)

(** The path pattern expression of the first path of the first statement. *)
Definition firstExpression (program : GQLProgram) : PathPatternExpression :=
  match statements program with
  | g :: _ =>
      match paths g with
      | p :: _ => pp_expr p
      | [] => mkPathPatternExpression defaultOp []
      end
  | [] => mkPathPatternExpression defaultOp []
  end.

(** [MATCH ({prop:3})] after R4 *)
Definition anonymousRewritten : PathPatternExpression :=
  firstExpression (RewriteElementPropertyPredicate (programOf anonymousProperty)).

(** The calls of the analysis of a graph pattern with one path pattern. *)
Definition analysisOf (e : PathPatternExpression) : list Call :=
  [CallEnterPathPattern false; CallProcess e; CallExitPathPattern].

Definition afterAnonymous : GraphPatternContext :=
  orElse (forEach (perform allFeatures acceptLabels)
            (analysisOf anonymousRewritten) (newGraphPatternContext false))
         (newGraphPatternContext false).

(** The [isTemp] flags recorded in the [declaredVariables] of each record of
    the store. *)
Definition declaredFlags (c : GraphPatternContext)
  : list (list (string * bool)) :=
  (fun rec => map_to_list (aux_isTemp <$> declaredVariables rec))
    <$> auxStore c.

(** The [isTemp] flags of the result of [variables()]. *)
Definition variableFlags (c : GraphPatternContext)
  : Result (list (string * bool)) :=
  match variables c with
  | Ok vs => Ok (map_to_list (isTemp <$> vs))
  | Throw e => Throw e
  | Abort => Abort
  end.

(** ** Running a rewrite twice *)

(** Two path primaries hold the same alternative of the variant. *)
Definition sameKind (p q : PathPrimary) : bool :=
  match p, q with
  | Element _, Element _ => true
  | Parenthesized _, Parenthesized _ => true
  | Simplified _, Simplified _ => true
  | _, _ => false
  end.

Section Every.
(** [good] holds of every path primary of a tree, those below the
    predicates of element patterns included. *)
Variable good : PathPrimary -> bool.

Definition everyWhere (every : ValueExpression -> bool)
    (w : option WhereClause) : bool :=
  match w with
  | None => true
  | Some w => every (where_condition w)
  end.

Definition everyPredicate (every : ValueExpression -> bool)
    (p : option ElementPatternPredicate) : bool :=
  match p with
  | None => true
  | Some (ElementPatternWhereClause _ c) => every c
  | Some (ElementPropertySpecification props) =>
      forallb (fun kv : PropertyKeyValuePair => every (prop_value kv)) props
  end.

Fixpoint everyValueExpression (e : ValueExpression) : bool :=
  match e with
  | Literal _ | BindingVariableReference _ => true
  | PropertyReference element _ => everyValueExpression element
  | Comparison _ l r => everyValueExpression l && everyValueExpression r
  | Binary _ l r => everyValueExpression l && everyValueExpression r
  | Exists g =>
      forallb (fun p : PathPattern => everyPathPatternExpression (pp_expr p))
              (paths g)
      && everyWhere everyValueExpression (gp_where g)
  end
with everyPathPatternExpression (e : PathPatternExpression) : bool :=
  match e with
  | mkPathPatternExpression _ ts =>
      forallb (forallb (fun f : PathFactor => everyPathPrimary (pattern f)))
              ts
  end
with everyPathPrimary (p : PathPrimary) : bool :=
  good p
  && match p with
     | Element (NodePattern _ f) =>
         everyPredicate everyValueExpression (predicate f)
     | Element (EdgePattern _ _ f) =>
         everyPredicate everyValueExpression (predicate f)
     | Parenthesized pp =>
         everyPathPatternExpression (pppe_pattern pp)
         && everyWhere everyValueExpression (pppe_where pp)
     | Simplified _ => true
     end.

Definition everyGraphPattern (g : GraphPattern) : bool :=
  forallb (fun p : PathPattern => everyPathPatternExpression (pp_expr p))
          (paths g)
  && everyWhere everyValueExpression (gp_where g).

Definition everyProgram (program : GQLProgram) : bool :=
  forallb everyGraphPattern (statements program).
End Every.

(** A value expression without EXISTS, hence without a graph pattern. *)
Fixpoint existsFree (e : ValueExpression) : bool :=
  match e with
  | Literal _ | BindingVariableReference _ => true
  | PropertyReference element _ => existsFree element
  | Comparison _ l r => existsFree l && existsFree r
  | Binary _ l r => existsFree l && existsFree r
  | Exists _ => false
  end.

(** The predicate of an element pattern, if it has one, holds no graph
    pattern. *)
Definition flatPrimary (p : PathPrimary) : bool :=
  match p with
  | Element e => everyPredicate existsFree (predicate (fillerOf e))
  | _ => true
  end.

(** No predicate of an element pattern of the program holds a graph
    pattern. *)
Definition flatProgram : GQLProgram -> bool := everyProgram flatPrimary.

(** A second run of the walk [f] on what a first run made of [a] changes
    neither the tree nor the state of the visitor. *)
Definition Settles {S A : Type} (f : A -> S -> A * S) (a : A) : Prop :=
  forall s s', f (f a s).1 s' = ((f a s).1, s').

(** [MATCH (a WHERE EXISTS {MATCH (b WHERE b.x = 3)})] *)
Definition nestedWhere : PathPrimary :=
  nodeWith (Some "a")
    (Some (ElementPatternWhereClause (Some (1, 10)%nat)
             (Exists
                (matchPrimary
                   (Element
                      (NodePattern (Some (1, 30)%nat)
                         {| var := Some {| evd_name := "b";
                                           evd_isTemp := false;
                                           evd_pos := Some (1, 31)%nat |};
                            labelExpr := None;
                            predicate :=
                              Some (ElementPatternWhereClause
                                      (Some (1, 33)%nat)
                                      (Comparison Equals (xDot "b" "x")
                                         (Literal "3"))) |})))))).

(** [MATCH (a {p: EXISTS {MATCH ({x:3})}})] *)
Definition nestedProperty : PathPrimary :=
  nodeWith (Some "a")
    (Some (ElementPropertySpecification
             [sampleProperty "p"
                (Exists
                   (matchPrimary
                      (nodeWith None
                         (Some (ElementPropertySpecification
                                  [sampleProperty "x" (Literal "3")])))))])).

(** ** The rewrite of simplified path patterns (R1) *)

(** A parenthesized path pattern expression around [e], with nothing else
    set. *)
Definition group (e : PathPatternExpression) : PathPrimary :=
  Parenthesized
    {| pppe_pos := None; pppe_var := None; pathMode := WALK;
       pppe_pattern := e; pppe_where := None |}.

Definition unquantified (p : PathPrimary) : PathFactor :=
  {| quantifier := NoQuantifier; pattern := p |}.

(** The edge pattern [-[:l]-] of direction [d]. *)
Definition labeledEdge (d : EdgeDirection) (l : LabelExpression)
  : PathFactor :=
  unquantified
    (Element (EdgePattern None d
                {| var := None; labelExpr := Some l; predicate := None |})).

(** An expression as one factor, and as one term, of an enclosing
    expression: it is put in parentheses unless it is a single factor,
    respectively a single term, already. *)
Definition asFactor (e : PathPatternExpression) : PathFactor :=
  match e with
  | mkPathPatternExpression _ [[f]] => f
  | _ => unquantified (group e)
  end.

Definition asTerm (e : PathPatternExpression) : list PathFactor :=
  match e with
  | mkPathPatternExpression _ [t] => t
  | _ => [unquantified (group e)]
  end.

(** Modelled from the spec: the lowering of the contents of a simplified
    path pattern expression into labeled edge patterns (section 4.1, R1; the
    source of [RewriteSimplifiedPathPattern] is not among the sources).  A
    label expression becomes one labeled edge of the direction in force, a
    directedness marker changes the direction in force, a quantification
    becomes the quantifier of a factor that holds the lowered contents in
    parentheses, a concatenation becomes a term and an alternation an
    expression with the same operator. *)
Fixpoint lowerSimplified (d : EdgeDirection) (c : SimplifiedContents)
  : PathPatternExpression :=
  match c with
  | SimplifiedLabel l => mkPathPatternExpression defaultOp [[labeledEdge d l]]
  | SimplifiedDirection d' c' => lowerSimplified d' c'
  | SimplifiedQuantified q c' =>
      mkPathPatternExpression defaultOp
        [[{| quantifier := q; pattern := group (lowerSimplified d c') |}]]
  | SimplifiedConcatenation cs =>
      mkPathPatternExpression defaultOp
        [map (fun c' => asFactor (lowerSimplified d c')) cs]
  | SimplifiedAlternation op cs =>
      mkPathPatternExpression op
        (map (fun c' => asTerm (lowerSimplified d c')) cs)
  end.

(** Modelled from the spec: the visitor of R1, which replaces a simplified
    path pattern expression by the parenthesized expression it lowers to. *)
Definition visitSimplifiedPathPattern (node : PathPrimary) (s : unit)
  : option (PathPrimary * unit) :=
  match node with
  | Simplified x =>
      Some (group (lowerSimplified (simplified_direction x)
                     (simplified_contents x)), s)
  | _ => None
  end.

(** Modelled from the spec: [rewrite::RewriteSimplifiedPathPattern] (R1) *)
Definition RewriteSimplifiedPathPattern (program : GQLProgram) : GQLProgram :=
  (ForEachPathPrimary visitSimplifiedPathPattern program tt).1.

(** An empty node pattern [()]. *)
Definition emptyNode : PathFactor :=
  unquantified
    (Element (NodePattern None
                {| var := None; labelExpr := None; predicate := None |})).

Definition matchTerm (t : list PathFactor) : GQLProgram :=
  {| statements :=
       [{| paths := [{| pp_var := None; pp_selective := false;
                        pp_expr := mkPathPatternExpression defaultOp [t] |}];
           gp_where := None |}] |}.

(** [MATCH () ~/ LABEL1 | ((!LABEL2|LABEL3)? |+| (!LABEL5>){1,3}) /~> ()],
    from [rewrite_unittest.cpp] *)
Definition simplifiedSample : GQLProgram :=
  matchTerm
    [emptyNode;
     unquantified
       (Simplified
          {| simplified_direction := UndirectedOrRight;
             simplified_contents :=
               SimplifiedAlternation Union
                 [SimplifiedLabel (LabelName "LABEL1");
                  SimplifiedAlternation MultisetAlternation
                    [SimplifiedQuantified Optional
                       (SimplifiedAlternation Union
                          [SimplifiedLabel (Negation (LabelName "LABEL2"));
                           SimplifiedLabel (LabelName "LABEL3")]);
                     SimplifiedQuantified
                       (GraphPatternQuantifier 1 (Some 3%N))
                       (SimplifiedDirection Right_
                          (SimplifiedLabel
                             (Negation (LabelName "LABEL5"))))]] |});
     emptyNode].

(** [MATCH () (~[:LABEL1]~> | ((~[:!LABEL2]~> | ~[:LABEL3]~>) ? |+|
    (-[:!LABEL5]->) {1, 3})) ()] *)
Definition simplifiedExpected : GQLProgram :=
  matchTerm
    [emptyNode;
     unquantified
       (group
          (mkPathPatternExpression Union
             [[labeledEdge UndirectedOrRight (LabelName "LABEL1")];
              [unquantified
                 (group
                    (mkPathPatternExpression MultisetAlternation
                       [[{| quantifier := Optional;
                            pattern :=
                              group
                                (mkPathPatternExpression Union
                                   [[labeledEdge UndirectedOrRight
                                       (Negation (LabelName "LABEL2"))];
                                    [labeledEdge UndirectedOrRight
                                       (LabelName "LABEL3")]]) |}];
                        [{| quantifier :=
                              GraphPatternQuantifier 1 (Some 3%N);
                            pattern :=
                              group
                                (mkPathPatternExpression defaultOp
                                   [[labeledEdge Right_
                                       (Negation (LabelName "LABEL5"))]]) |}]
                       ]))]]));
     emptyNode].

(** The path primaries of the factors of an expression are left alone by
    the walk of R1. *)
Definition factorsStable (e : PathPatternExpression) : Prop :=
  Forall (Forall (fun f : PathFactor =>
                    forall s,
                      walkPathPrimary visitSimplifiedPathPattern (pattern f) s
                      = (pattern f, s))) (terms e).

(** ** The rewrite of bare edge patterns (R2) *)

Section MapTerms.
(** Modelled from the spec: the tree walk of a rewrite that works on path
    terms (section 4.1, R2).  [visitTerm] is applied to every path term of
    the tree, those of nested graph patterns included, once the path
    primaries of its factors have been walked. *)
Variable visitTerm : list PathFactor -> list PathFactor.

Definition mapWhere (rec : ValueExpression -> ValueExpression)
    (w : WhereClause) : WhereClause :=
  {| where_pos := where_pos w; where_condition := rec (where_condition w) |}.

Definition mapPredicate (rec : ValueExpression -> ValueExpression)
    (p : ElementPatternPredicate) : ElementPatternPredicate :=
  match p with
  | ElementPatternWhereClause wpos c => ElementPatternWhereClause wpos (rec c)
  | ElementPropertySpecification props =>
      ElementPropertySpecification
        (map (fun kv : PropertyKeyValuePair =>
                {| prop_name := prop_name kv;
                   prop_value := rec (prop_value kv) |}) props)
  end.

Definition mapFiller (rec : ValueExpression -> ValueExpression)
    (f : ElementPatternFiller) : ElementPatternFiller :=
  {| var := var f; labelExpr := labelExpr f;
     predicate := option_map (mapPredicate rec) (predicate f) |}.

Definition mapElement (rec : ValueExpression -> ValueExpression)
    (e : ElementPattern) : ElementPattern :=
  match e with
  | NodePattern pos f => NodePattern pos (mapFiller rec f)
  | EdgePattern pos d f => EdgePattern pos d (mapFiller rec f)
  end.

Fixpoint termsValueExpression (e : ValueExpression) : ValueExpression :=
  match e with
  | Literal _ | BindingVariableReference _ => e
  | PropertyReference element property =>
      PropertyReference (termsValueExpression element) property
  | Comparison op l r =>
      Comparison op (termsValueExpression l) (termsValueExpression r)
  | Binary op l r =>
      Binary op (termsValueExpression l) (termsValueExpression r)
  | Exists g =>
      Exists
        {| paths :=
             map (fun p : PathPattern =>
                    {| pp_var := pp_var p; pp_selective := pp_selective p;
                       pp_expr := termsPathPatternExpression (pp_expr p) |})
                 (paths g);
           gp_where :=
             option_map (mapWhere termsValueExpression) (gp_where g) |}
  end
with termsPathPatternExpression (e : PathPatternExpression)
  : PathPatternExpression :=
  match e with
  | mkPathPatternExpression op ts =>
      mkPathPatternExpression op
        (map (fun t =>
                visitTerm
                  (map (fun f : PathFactor =>
                          {| quantifier := quantifier f;
                             pattern := termsPathPrimary (pattern f) |}) t))
             ts)
  end
with termsPathPrimary (p : PathPrimary) : PathPrimary :=
  match p with
  | Element e => Element (mapElement termsValueExpression e)
  | Parenthesized pp =>
      Parenthesized
        {| pppe_pos := pppe_pos pp; pppe_var := pppe_var pp;
           pathMode := pathMode pp;
           pppe_pattern := termsPathPatternExpression (pppe_pattern pp);
           pppe_where :=
             option_map (mapWhere termsValueExpression) (pppe_where pp) |}
  | Simplified _ => p
  end.

Definition termsGraphPattern (g : GraphPattern) : GraphPattern :=
  {| paths :=
       map (fun p : PathPattern =>
              {| pp_var := pp_var p; pp_selective := pp_selective p;
                 pp_expr := termsPathPatternExpression (pp_expr p) |})
           (paths g);
     gp_where := option_map (mapWhere termsValueExpression) (gp_where g) |}.

Definition ForEachPathTerm (program : GQLProgram) : GQLProgram :=
  {| statements := map termsGraphPattern (statements program) |}.
End MapTerms.

Definition isEdge (f : PathFactor) : bool :=
  match pattern f with
  | Element (EdgePattern _ _ _) => true
  | _ => false
  end.

(** Modelled from the spec: an edge pattern that carries a quantifier is put
    between two empty node patterns, in parentheses that take the
    quantifier ([-?] becomes [(()-()) ?] in [rewrite_unittest.cpp]). *)
Definition wrapQuantifiedEdge (f : PathFactor) : PathFactor :=
  match quantifier f with
  | NoQuantifier => f
  | q =>
      if isEdge f
      then {| quantifier := q;
              pattern :=
                group (mkPathPatternExpression defaultOp
                         [[emptyNode; unquantified (pattern f); emptyNode]]) |}
      else f
  end.

(** Modelled from the spec: an empty node pattern is introduced between
    every pair of adjacent edge patterns and after a last one; [afterEdge]
    tells that the previous factor is an edge pattern. *)
Fixpoint separate (afterEdge : bool) (t : list PathFactor)
  : list PathFactor :=
  match t with
  | [] => if afterEdge then [emptyNode] else []
  | f :: t' =>
      if isEdge f
      then (if afterEdge then [emptyNode; f] else [f]) ++ separate true t'
      else f :: separate false t'
  end.

(** Modelled from the spec: the expansion of one path term by R2, with an
    empty node pattern before a first edge pattern as well. *)
Definition expandTerm (t : list PathFactor) : list PathFactor :=
  let t := map wrapQuantifiedEdge t in
  match t with
  | f :: _ => if isEdge f then emptyNode :: separate false t
              else separate false t
  | [] => []
  end.

(** Modelled from the spec: [rewrite::RewriteElementPatterns] (R2) *)
Definition RewriteElementPatterns (program : GQLProgram) : GQLProgram :=
  ForEachPathTerm expandTerm program.

Definition bareEdge : PathFactor :=
  unquantified
    (Element (EdgePattern None AnyDirection
                {| var := None; labelExpr := None; predicate := None |})).

Definition quantifiedEdge (q : Quantifier) : PathFactor :=
  {| quantifier := q; pattern := pattern bareEdge |}.

Definition quantifiedGroup (q : Quantifier) (t : list PathFactor)
  : PathFactor :=
  {| quantifier := q;
     pattern := group (mkPathPatternExpression defaultOp [t]) |}.

(** [MATCH - -{3} - (- (-)-?) - - (- -){2}], the term in the second pair of
    parentheses of the fifth program of [rewrite_unittest.cpp] for R2 *)
Definition dashesSample : GQLProgram :=
  matchTerm
    [bareEdge; quantifiedEdge (GraphPatternQuantifier 3 (Some 3%N)); bareEdge;
     quantifiedGroup NoQuantifier
       [bareEdge; quantifiedGroup NoQuantifier [bareEdge];
        quantifiedEdge Optional];
     bareEdge; bareEdge;
     quantifiedGroup (GraphPatternQuantifier 2 (Some 2%N))
       [bareEdge; bareEdge]].

(** [MATCH ()- (()-()) {3} - (()- (()-()) (()-()) ?) -()- (()-()-()) {2}] *)
Definition dashesExpected : GQLProgram :=
  matchTerm
    [emptyNode; bareEdge;
     quantifiedGroup (GraphPatternQuantifier 3 (Some 3%N))
       [emptyNode; bareEdge; emptyNode];
     bareEdge;
     quantifiedGroup NoQuantifier
       [emptyNode; bareEdge;
        quantifiedGroup NoQuantifier [emptyNode; bareEdge; emptyNode];
        quantifiedGroup Optional [emptyNode; bareEdge; emptyNode]];
     bareEdge; emptyNode; bareEdge;
     quantifiedGroup (GraphPatternQuantifier 2 (Some 2%N))
       [emptyNode; bareEdge; emptyNode; bareEdge; emptyNode]].

(** ** The depths of the stacks *)

(** From [c] to [c'] the seven stacks of the context have grown by the given
    numbers of entries. *)
Definition Deepens (exposed unions modes lengths counts scopes union : Z)
    (c c' : GraphPatternContext) : Prop :=
  Z.of_nat (length (exposedVariables_ c'))
  = Z.of_nat (length (exposedVariables_ c)) + exposed
  /\ Z.of_nat (length (declarationsInUnions_ c'))
     = Z.of_nat (length (declarationsInUnions_ c)) + unions
  /\ Z.of_nat (length (isRestrictivePathMode_ c'))
     = Z.of_nat (length (isRestrictivePathMode_ c)) + modes
  /\ Z.of_nat (length (minimumPathLength_ c'))
     = Z.of_nat (length (minimumPathLength_ c)) + lengths
  /\ Z.of_nat (length (nonZeroNodeCount_ c'))
     = Z.of_nat (length (nonZeroNodeCount_ c)) + counts
  /\ Z.of_nat (length (variableScopeStack_ c'))
     = Z.of_nat (length (variableScopeStack_ c)) + scopes
  /\ Z.of_nat (length (pathPatternUnion_ c'))
     = Z.of_nat (length (pathPatternUnion_ c)) + union.

(** The settings of the pattern are in [c'] as they are in [c]. *)
Definition SameSettings (c c' : GraphPatternContext) : Prop :=
  isInsideSelectivePattern_ c' = isInsideSelectivePattern_ c
  /\ differentEdgesMatchMode_ c' = differentEdgesMatchMode_ c.

(** The stacks are as deep in [c'] as in [c], the settings are the same, and
    the context is inside a quantified path primary in [c'] exactly when it
    is in [c]. *)
Definition Balanced (c c' : GraphPatternContext) : Prop :=
  Deepens 0 0 0 0 0 0 0 c c'
  /\ SameSettings c c'
  /\ isInsideQuantifiedPathPrimary_ c' = isInsideQuantifiedPathPrimary_ c.

(** An operation that leaves the stacks as deep as it found them. *)
Definition Balances (f : GraphPatternContext -> Result GraphPatternContext)
  : Prop :=
  forall c c', f c = Ok c' -> Balanced c c'.

(** The assertions of [~GraphPatternContext]. *)
Definition destructorAssertions (c : GraphPatternContext) : Prop :=
  length (exposedVariables_ c) = 1%nat
  /\ length (declarationsInUnions_ c) = 1%nat
  /\ length (isRestrictivePathMode_ c) = 1%nat
  /\ length (minimumPathLength_ c) = 1%nat
  /\ length (nonZeroNodeCount_ c) = 1%nat.

(** The calls of the analysis of the path patterns [patterns] of a graph
    pattern, each given with its selectivity, followed by [Finalize]. *)
Definition graphPatternCalls (patterns : list (bool * PathPatternExpression))
  : list Call :=
  concat ((fun p => [CallEnterPathPattern p.1; CallProcess p.2;
                     CallExitPathPattern]) <$> patterns)
  ++ [CallFinalize].

(** [(a)-[b]->(a), ANY (a)-[y]->(z)], the second path pattern being
    selective *)
Definition twoPathPatterns : list (bool * PathPatternExpression) :=
  [(false, repeatedNode);
   (true, mkPathPatternExpression Union
            [[sampleNode "a" 7; sampleEdge "y" 8; sampleNode "z" 9]])].

(** ** What the traversal accepts *)

(** The factor carries a quantifier [{m,n}], [{m,}], [*] or [+]. *)
Definition isQuantified (f : PathFactor) : bool :=
  match quantifier f with
  | GraphPatternQuantifier _ _ => true
  | NoQuantifier | Optional => false
  end.

(** No factor of the expression, at any depth of parentheses, carries such a
    quantifier. *)
Fixpoint quantifierFree (e : PathPatternExpression) : bool :=
  match e with
  | mkPathPatternExpression _ ts =>
      forallb (forallb (fun f : PathFactor =>
                          negb (isQuantified f)
                          && quantifierFreePrimary (pattern f))) ts
  end
with quantifierFreePrimary (p : PathPrimary) : bool :=
  match p with
  | Parenthesized pp => quantifierFree (pppe_pattern pp)
  | Element _ | Simplified _ => true
  end.

(** No factor that carries such a quantifier lies, at any depth, inside
    another one. *)
Fixpoint quantifiersNotNested (e : PathPatternExpression) : bool :=
  match e with
  | mkPathPatternExpression _ ts =>
      forallb (forallb (fun f : PathFactor =>
                          if isQuantified f
                          then quantifierFreePrimary (pattern f)
                          else quantifiersNotNestedPrimary (pattern f))) ts
  end
with quantifiersNotNestedPrimary (p : PathPrimary) : bool :=
  match p with
  | Parenthesized pp => quantifiersNotNested (pppe_pattern pp)
  | Element _ | Simplified _ => true
  end.

(** The expression is in the form the rewrites produce: at every depth of
    parentheses, no factor is a simplified path pattern expression and no
    element pattern carries a predicate. *)
Fixpoint rewritten (e : PathPatternExpression) : bool :=
  match e with
  | mkPathPatternExpression _ ts =>
      forallb (forallb (fun f : PathFactor => rewrittenPrimary (pattern f))) ts
  end
with rewrittenPrimary (p : PathPrimary) : bool :=
  match p with
  | Element (NodePattern _ f) => bool_decide (predicate f = None)
  | Element (EdgePattern _ _ f) => bool_decide (predicate f = None)
  | Parenthesized pp => rewritten (pppe_pattern pp)
  | Simplified _ => false
  end.

(** [(((a)){1,2}){3}] *)
Definition nestedQuantifiers : PathPatternExpression :=
  mkPathPatternExpression Union
    [[sampleParen (GraphPatternQuantifier 3 (Some 3%N))
        [sampleParen (GraphPatternQuantifier 1 (Some 2%N))
           [sampleNode "a" 1] None] None]].

(** ** The features a pattern uses *)

(** The feature [ActivateQuantifier] checks for a quantifier. *)
Definition quantifierFeatures (q : Quantifier) : list Feature :=
  match q with
  | GraphPatternQuantifier _ upper =>
      [if bool_decide (is_Some upper) then G060 else G061]
  | NoQuantifier | Optional => []
  end.

(** The feature [ProcessPathMode] checks for a path mode. *)
Definition pathModeFeatures (mode : PathMode) : list Feature :=
  match mode with
  | WALK => []
  | TRAIL => [G011]
  | SIMPLE => [G012]
  | ACYCLIC => [G013]
  end.

(** The features [ProcessParenthesized] checks before it descends. *)
Definition parenthesizedFeatures (value : ParenthesizedPathPatternExpression)
  : list Feature :=
  (if bool_decide (is_Some (pppe_var value)) then [G048] else [])
  ++ (if negb (bool_decide (pathMode value = WALK)) then [G049] else [])
  ++ (if bool_decide (is_Some (pppe_where value)) then [G050] else [])
  ++ pathModeFeatures (pathMode value).

(** The features [Process] checks for the alternation of a pattern. *)
Definition unionFeatures (op : Op) (terms : list (list PathFactor))
  : list Feature :=
  if bool_decide (1 < length terms)%nat
  then [if bool_decide (op = Union) then G032 else G030]
  else [].

(** Every argument of a call of [ThrowIfFeatureNotSupported] that [Process]
    can reach in a pattern. *)
Fixpoint featuresOf (e : PathPatternExpression) : list Feature :=
  match e with
  | mkPathPatternExpression op terms =>
      unionFeatures op terms
      ++ List.concat
           (List.map (fun term : list PathFactor =>
                        List.concat
                          (List.map (fun factor : PathFactor =>
                                       (quantifierFeatures (quantifier factor)
                                        ++ featuresOfPrimary (pattern factor))
                                       %list)
                                    term))
                     terms)
  end
with featuresOfPrimary (p : PathPrimary) : list Feature :=
  match p with
  | Parenthesized value =>
      parenthesizedFeatures value ++ featuresOf (pppe_pattern value)
  | Element _ | Simplified _ => []
  end.

(** A feature gate that lacks the quantifier [{m,n}] only. *)
Definition withoutBoundedQuantifier : Feature -> bool :=
  fun f => match f with G060 => false | _ => true end.

(** ** The declarations of a pattern *)

(** The operation leaves [variableDeclarations_] as it is. *)
Definition SameDeclarations (c c' : GraphPatternContext) : Prop :=
  variableDeclarations_ c' = variableDeclarations_ c.

(** ** The output columns of a MATCH statement ([match_utils.cpp]) *)

(** [ast::SimpleMatchStatement]: the names of its YIELD items, when it has a
    YIELD clause, and its graph pattern. *)
Record SimpleMatchStatement : Type := {
  yield : option (list string);
  match_pattern : GraphPattern
}.

(** [ast::MatchStatement] = variant of [SimpleMatchStatement] and
    [OptionalMatchStatement], the latter holding a block of statements. *)
Inductive MatchStatement : Type :=
  | SimpleMatch (statement : SimpleMatchStatement)
  | OptionalMatch (statements : list MatchStatement).

(** [cols.insert(name)] *)
Definition insertColumn (name : string) (cols : gset string) : gset string :=
  {[name]} ∪ cols.

(** [CollectMatchOutputColumns(const ast::PathPatternExpression&, cols)] *)
Fixpoint CollectPathPatternOutputColumns (expr : PathPatternExpression)
    (cols : gset string) : gset string :=
  match expr with
  | mkPathPatternExpression _ terms =>
      foldl (fun cols term =>
               foldl (fun cols (factor : PathFactor) =>
                        CollectPathPrimaryOutputColumns (pattern factor) cols)
                     cols term)
            cols terms
  end
with CollectPathPrimaryOutputColumns (p : PathPrimary) (cols : gset string)
  : gset string :=
  match p with
  | Element (NodePattern _ filler) | Element (EdgePattern _ _ filler) =>
      match var filler with
      | Some v => insertColumn (evd_name v) cols
      | None => cols
      end
  | Parenthesized value =>
      CollectPathPatternOutputColumns (pppe_pattern value) cols
  | Simplified _ => cols
  end.

(** [CollectMatchOutputColumns(const ast::SimpleMatchStatement&, cols)] *)
Definition CollectSimpleMatchOutputColumns (statement : SimpleMatchStatement)
    (cols : gset string) : gset string :=
  match yield statement with
  | Some items => foldl (fun cols name => insertColumn name cols) cols items
  | None =>
      foldl (fun cols (pathPattern : PathPattern) =>
               let cols := match pp_var pathPattern with
                           | Some v => insertColumn (nv_name v) cols
                           | None => cols
                           end in
               CollectPathPatternOutputColumns (pp_expr pathPattern) cols)
            cols (paths (match_pattern statement))
  end.

(** [CollectMatchOutputColumns(const ast::MatchStatement&, cols)] *)
Fixpoint CollectMatchOutputColumns (statement : MatchStatement)
    (cols : gset string) : gset string :=
  match statement with
  | SimpleMatch statement => CollectSimpleMatchOutputColumns statement cols
  | OptionalMatch statements =>
      foldl (fun cols stmt => CollectMatchOutputColumns stmt cols)
            cols statements
  end.

(** The names of the subpath variables that the parenthesized patterns of
    an expression declare. *)
Fixpoint subpathVariables (e : PathPatternExpression) : gset string :=
  match e with
  | mkPathPatternExpression _ terms =>
      ⋃ ((fun term : list PathFactor =>
            ⋃ ((fun factor : PathFactor =>
                  subpathVariablesOfPrimary (pattern factor)) <$> term))
           <$> terms)
  end
with subpathVariablesOfPrimary (p : PathPrimary) : gset string :=
  match p with
  | Parenthesized value =>
      match pppe_var value with
      | Some v => {[nv_name v]}
      | None => ∅
      end ∪ subpathVariables (pppe_pattern value)
  | Element _ | Simplified _ => ∅
  end.

(** [(a)-[e]->(p = (b)-[f]->(c))] *)
Definition subpathSample : PathPatternExpression :=
  mkPathPatternExpression Union
    [[sampleNode "a" 1; sampleEdge "e" 2;
      {| quantifier := NoQuantifier;
         pattern :=
           Parenthesized
             {| pppe_pos := Some (1, 3)%nat;
                pppe_var := Some {| nv_name := "p"; nv_pos := Some (1, 4)%nat |};
                pathMode := WALK;
                pppe_pattern :=
                  mkPathPatternExpression Union
                    [[sampleNode "b" 5; sampleEdge "f" 6; sampleNode "c" 7]];
                pppe_where := None |} |}]].

(** The names in [variableDeclarations_]. *)
Definition declared (c : GraphPatternContext) : gset string :=
  dom (variableDeclarations_ c).

(** The columns collected from a path primary alone. *)
Definition columnsOfPrimary (p : PathPrimary) : gset string :=
  CollectPathPrimaryOutputColumns p ∅.

(** The columns collected from one path pattern of a graph pattern alone. *)
Definition columnsOfPathPattern (pathPattern : PathPattern) : gset string :=
  match pp_var pathPattern with
  | Some v => {[nv_name v]}
  | None => ∅
  end ∪ CollectPathPatternOutputColumns (pp_expr pathPattern) ∅.

(** ** The minimum node count and the minimum path length of a pattern *)

(** The operation leaves [nonZeroNodeCount_] and [minimumPathLength_] as
    they are. *)
Definition SameMeasures (c c' : GraphPatternContext) : Prop :=
  nonZeroNodeCount_ c' = nonZeroNodeCount_ c
  /\ minimumPathLength_ c' = minimumPathLength_ c.

(** The lower bound that [QuantifiedPathPrimaryScope::Activate] receives:
    [static_cast<int>(value.lower)]. *)
Definition lowerBoundOf (lower : N) : Z := wrap32 (Z.of_N lower).

(** Whether the minimum node count of a pattern is greater than zero, as
    the traversal computes it on [nonZeroNodeCount_]: a node pattern counts;
    a questioned path primary does not; a quantified one counts when its
    lower bound is positive; a term counts when one of its factors does and
    an alternation of several terms when each of them does. *)
Fixpoint hasNode (e : PathPatternExpression) : bool :=
  match e with
  | mkPathPatternExpression _ terms =>
      let factorHasNode (factor : PathFactor) :=
        match quantifier factor with
        | NoQuantifier => primaryHasNode (pattern factor)
        | Optional => false
        | GraphPatternQuantifier lower _ =>
            primaryHasNode (pattern factor)
            && bool_decide (0 < lowerBoundOf lower)
        end in
      if bool_decide (1 < length terms)%nat
      then forallb (existsb factorHasNode) terms
      else existsb (existsb factorHasNode) terms
  end
with primaryHasNode (p : PathPrimary) : bool :=
  match p with
  | Element (NodePattern _ _) => true
  | Element (EdgePattern _ _ _) => false
  | Parenthesized value => hasNode (pppe_pattern value)
  | Simplified _ => false
  end.

Definition factorHasNode (factor : PathFactor) : bool :=
  match quantifier factor with
  | NoQuantifier => primaryHasNode (pattern factor)
  | Optional => false
  | GraphPatternQuantifier lower _ =>
      primaryHasNode (pattern factor) && bool_decide (0 < lowerBoundOf lower)
  end.

(** The minimum path length of a pattern, as the traversal computes it on
    [minimumPathLength_] with the arithmetic of [int]: the value that the
    top of the stack has after the pattern when it was [n] before.  An edge
    pattern adds one; a questioned path primary adds nothing; a quantified
    one adds its own length times its lower bound; an alternation of several
    terms adds the least of the lengths of its terms. *)
Fixpoint lengthAfter (e : PathPatternExpression) (n : Z) : Z :=
  match e with
  | mkPathPatternExpression _ terms =>
      let factorAfter (n : Z) (factor : PathFactor) :=
        match quantifier factor with
        | NoQuantifier => primaryLengthAfter (pattern factor) n
        | Optional => n
        | GraphPatternQuantifier lower _ =>
            int_add n (int_mul (primaryLengthAfter (pattern factor) 0)
                               (lowerBoundOf lower))
        end in
      if bool_decide (1 < length terms)%nat
      then int_add n (foldl (fun least term =>
                               Z.min least (foldl factorAfter 0 term))
                            INT_MAX terms)
      else foldl (foldl factorAfter) n terms
  end
with primaryLengthAfter (p : PathPrimary) (n : Z) : Z :=
  match p with
  | Element (NodePattern _ _) => n
  | Element (EdgePattern _ _ _) => int_add n 1
  | Parenthesized value => lengthAfter (pppe_pattern value) n
  | Simplified _ => n
  end.

Definition factorLengthAfter (n : Z) (factor : PathFactor) : Z :=
  match quantifier factor with
  | NoQuantifier => primaryLengthAfter (pattern factor) n
  | Optional => n
  | GraphPatternQuantifier lower _ =>
      int_add n (int_mul (primaryLengthAfter (pattern factor) 0)
                         (lowerBoundOf lower))
  end.

Section EveryFactor.
Variable good : PathFactor -> bool.

(** [good] holds of every path factor of a pattern, at any depth of
    parentheses. *)
Fixpoint everyFactor (e : PathPatternExpression) : bool :=
  match e with
  | mkPathPatternExpression _ terms =>
      forallb (forallb (fun factor : PathFactor =>
                          good factor
                          && everyFactorOfPrimary (pattern factor)))
              terms
  end
with everyFactorOfPrimary (p : PathPrimary) : bool :=
  match p with
  | Parenthesized value => everyFactor (pppe_pattern value)
  | Element _ | Simplified _ => true
  end.
End EveryFactor.

(** A questioned or quantified factor whose path primary has a minimum path
    length that is not zero; any other factor. *)
Definition repeatsNonEmpty (factor : PathFactor) : bool :=
  match quantifier factor with
  | NoQuantifier => true
  | Optional | GraphPatternQuantifier _ _ =>
      negb (bool_decide (primaryLengthAfter (pattern factor) 0 = 0))
  end.

(** A parenthesized pattern with a subpath variable whose minimum node
    count is greater than zero; any other factor. *)
Definition subpathHasNode (factor : PathFactor) : bool :=
  match pattern factor with
  | Parenthesized value =>
      implb (bool_decide (is_Some (pppe_var value)))
            (hasNode (pppe_pattern value))
  | Element _ | Simplified _ => true
  end.

(** The operation turns the top [b] of [nonZeroNodeCount_] into [b || h]
    and leaves the rest of the stack. *)
Definition CountsAfter (f : GraphPatternContext -> Result GraphPatternContext)
    (h : bool) : Prop :=
  forall c c' b rest,
    f c = Ok c' ->
    nonZeroNodeCount_ c = b :: rest ->
    nonZeroNodeCount_ c' = (b || h) :: rest.

(** The operation turns the top [n] of [minimumPathLength_] into [L n] and
    leaves the rest of the stack. *)
Definition LengthsAfter (f : GraphPatternContext -> Result GraphPatternContext)
    (L : Z -> Z) : Prop :=
  forall c c' n rest,
    f c = Ok c' ->
    minimumPathLength_ c = n :: rest ->
    minimumPathLength_ c' = L n :: rest.

(** ** The types of the declarations of a pattern *)

(** The variables that the traversal declares, with the type it declares
    them with, in the order of the calls of [DeclareNodeVariable],
    [DeclareEdgeVariable] and [DeclareSubpathVariable]. *)
Fixpoint declarationsOf (e : PathPatternExpression)
  : list (string * GraphPatternVariableType) :=
  match e with
  | mkPathPatternExpression _ terms =>
      List.concat
        (List.map (fun term : list PathFactor =>
                     List.concat
                       (List.map (fun factor : PathFactor =>
                                    declarationsOfPrimary (pattern factor))
                                 term))
                  terms)
  end
with declarationsOfPrimary (p : PathPrimary)
  : list (string * GraphPatternVariableType) :=
  match p with
  | Element (NodePattern _ filler) =>
      match var filler with
      | Some v => [(evd_name v, Node)]
      | None => []
      end
  | Element (EdgePattern _ _ filler) =>
      match var filler with
      | Some v => [(evd_name v, Edge)]
      | None => []
      end
  | Parenthesized value =>
      (match pppe_var value with
       | Some v => [(nv_name v, Subpath)]
       | None => []
       end ++ declarationsOf (pppe_pattern value))%list
  | Simplified _ => []
  end.

(** The names that a list of declarations declares as subpath variables. *)
Definition subpathNames (l : list (string * GraphPatternVariableType))
  : list string :=
  (filter (fun d => d.2 = Subpath) l).*1.

(** What a successful run from [c] to [c'] that makes the declarations [l]
    shows: the declarations that [c] holds stay as they are, every
    declaration of [l] is recorded with its type, and the subpath variables
    of [l] are new and pairwise distinct. *)
Definition Declares (l : list (string * GraphPatternVariableType))
    (c c' : GraphPatternContext) : Prop :=
  variableDeclarations_ c ⊆ variableDeclarations_ c'
  /\ Forall (fun d => declaredAs (variableDeclarations_ c') d.1 d.2) l
  /\ NoDup (subpathNames l)
  /\ Forall (fun name => variableDeclarations_ c !! name = None)
       (subpathNames l).

(** [(a)-[a]->(b)]: the name of a node given to an edge. *)
Definition nodeAsEdge : PathPatternExpression :=
  mkPathPatternExpression Union
    [[sampleNode "a" 1; sampleEdge "a" 2; sampleNode "b" 3]].

(** [(a) (p = (b)) (p = (c))]: a subpath variable declared twice. *)
Definition subpathTwice : PathPatternExpression :=
  let subpath (col : nat) (n : string) : PathFactor :=
    {| quantifier := NoQuantifier;
       pattern :=
         Parenthesized
           {| pppe_pos := Some (1, col)%nat;
              pppe_var := Some {| nv_name := "p";
                                  nv_pos := Some (1, col + 1)%nat |};
              pathMode := WALK;
              pppe_pattern :=
                mkPathPatternExpression Union [[sampleNode n (col + 2)]];
              pppe_where := None |} |} in
  mkPathPatternExpression Union
    [[sampleNode "a" 1; subpath 2%nat "b"; subpath 6%nat "c"]].

(** ** Quoted strings ([ast/output_stream.cpp]) *)

(** The characters that [operator<<(QuotedString)] tests and writes, by
    their codes. *)
Definition quoteChar : Ascii.ascii := Ascii.ascii_of_nat 34.
Definition backslashChar : Ascii.ascii := Ascii.ascii_of_nat 92.
Definition newlineChar : Ascii.ascii := Ascii.ascii_of_nat 10.
Definition returnChar : Ascii.ascii := Ascii.ascii_of_nat 13.
Definition tabChar : Ascii.ascii := Ascii.ascii_of_nat 9.
Definition backspaceChar : Ascii.ascii := Ascii.ascii_of_nat 8.
Definition formFeedChar : Ascii.ascii := Ascii.ascii_of_nat 12.

(** The [switch (c)] in the loop of [operator<<(QuotedString)]: what is
    appended to [escaped] for the character [c]. *)
Definition escapeChar (c : Ascii.ascii) : string :=
  if bool_decide (c = quoteChar) then String backslashChar (String quoteChar "")
  else if bool_decide (c = newlineChar) then "\n"
  else if bool_decide (c = returnChar) then "\r"
  else if bool_decide (c = tabChar) then "\t"
  else if bool_decide (c = backspaceChar) then "\b"
  else if bool_decide (c = formFeedChar) then "\f"
  else if bool_decide (c = backslashChar) then "\\"
  else String c "".

(** The loop [for (char c : str.str)]. *)
Fixpoint escapeChars (str : string) : string :=
  match str with
  | EmptyString => EmptyString
  | String c rest => escapeChar c ++ escapeChars rest
  end.

(** The value of [escaped] when it is written to the stream. *)
Definition escaped (str : string) : string :=
  String quoteChar (escapeChars str ++ String quoteChar "").

(** A reader of the quoted form, which is not part of the sources: it
    undoes the seven escapes and stops at the first quote that no backslash
    announces; it returns what it has read and what follows that quote. *)
Definition unescapeChar (d : Ascii.ascii) : Ascii.ascii :=
  if bool_decide (d = Ascii.ascii_of_nat 110) then newlineChar
  else if bool_decide (d = Ascii.ascii_of_nat 114) then returnChar
  else if bool_decide (d = Ascii.ascii_of_nat 116) then tabChar
  else if bool_decide (d = Ascii.ascii_of_nat 98) then backspaceChar
  else if bool_decide (d = Ascii.ascii_of_nat 102) then formFeedChar
  else d.

Fixpoint readEscaped (text : string) : option (string * string) :=
  match text with
  | EmptyString => None
  | String c rest =>
      if bool_decide (c = quoteChar) then Some (EmptyString, rest)
      else if bool_decide (c = backslashChar)
      then match rest with
           | EmptyString => None
           | String d rest' =>
               match readEscaped rest' with
               | Some (str, after) => Some (String (unescapeChar d) str, after)
               | None => None
               end
           end
      else match readEscaped rest with
           | Some (str, after) => Some (String c str, after)
           | None => None
           end
  end.

(** ** Value types ([syntax_analyzer/value_type.cpp]) *)

Module ValueTypes.

(** The features of [standard::Feature] that [Process(ValueType)] tests. *)
Inductive Feature : Type :=
  | GV01 | GV02 | GV03 | GV04 | GV05 | GV06 | GV07 | GV08 | GV09 | GV10
  | GV11 | GV12 | GV13 | GV14 | GV15 | GV16 | GV17 | GV18 | GV19 | GV20
  | GV21 | GV22 | GV23 | GV24 | GV25 | GV26 | GV30 | GV31 | GV32 | GV35
  | GV36 | GV37 | GV38 | GV39 | GV40 | GV41 | GV45 | GV46 | GV47 | GV48
  | GV50 | GV55 | GV60 | GV61 | GV66 | GV67 | GV68 | GV71 | GV72 | GV90.

(** The error codes that the functions of [value_type.cpp] raise. *)
Inductive Error : Type :=
  | E0035 | E0095 | E0096 | E0097 | E0098 | E0099 | FeatureNotSupported.

(** The outcome of a function that returns normally or throws. *)
Inductive Checked (A : Type) : Type :=
  | Accepted (a : A)
  | Rejected (e : Error).
Arguments Accepted {A} a.
Arguments Rejected {A} e.

Definition andThen {A B : Type} (r : Checked A) (k : A -> Checked B)
  : Checked B :=
  match r with
  | Accepted a => k a
  | Rejected e => Rejected e
  end.

(** [for (auto& x : xs) body(x)] over a state, stopping at the first
    throw. *)
Definition forEachChecked {A S : Type} (body : A -> S -> Checked S)
  : list A -> S -> Checked S :=
  fix go (xs : list A) (s : S) : Checked S :=
    match xs with
    | [] => Accepted s
    | x :: rest => andThen (body x s) (go rest)
    end.

Inductive SimplePredefinedType : Type :=
  | Boolean | Localdatetime | Date | Localtime | Datetime | Time
  | DurationYearToMonth | DurationDayToSecond | Null | Empty | Any
  | AnyProperty | Path.

Inductive SimpleNumericType : Type :=
  | Int | UInt | Int8 | Int16 | Int32 | Int64 | Int128 | Int256 | SmallInt
  | BigInt | UInt8 | UInt16 | UInt32 | UInt64 | UInt128 | UInt256
  | USmallInt | UBigInt | Float16 | Float32 | Float64 | Float128 | Float256
  | Real | Double.

Inductive ScaleType : Type := Decimal | Float.

Inductive StringKind : Type := BYTES | CHAR.

(** [ast::FieldType]: [name] is [f.name.name]. *)
Record FieldType_ (V : Type) : Type := {
  name : string;
  type : V
}.
Arguments name {V} f.
Arguments type {V} f.

(** The alternatives of [ast::ValueType::typeOption], over the type [V] of
    value types and the type [B] of the member [type] of
    [ast::BindingTableReferenceValueType].  The members are those that
    [Process] reads; of [precision] and [scale] it reads the truth value
    only. *)
Inductive TypeOption_ (B V : Type) : Type :=
  | SimplePredefined (value : SimplePredefinedType)
  | SimpleNumeric (value : SimpleNumericType)
  | BinaryExactUserNumericType (isSigned : bool)
  | ScaleNumericType (scaleType : ScaleType) (precision scale : bool)
  | StringType (kind : StringKind) (minLength : N) (maxLength : option N)
  | GraphReferenceValueType
  | BindingTableReferenceValueType (tableType : B)
  | NodeReferenceValueType
  | EdgeReferenceValueType
  | List_ (isGroup : bool) (valueType : option V)
  | RecordType (fields : option (list (FieldType_ V)))
  | Union_ (types : list V).
Arguments SimplePredefined {B V} value.
Arguments SimpleNumeric {B V} value.
Arguments BinaryExactUserNumericType {B V} isSigned.
Arguments ScaleNumericType {B V} scaleType precision scale.
Arguments StringType {B V} kind minLength maxLength.
Arguments GraphReferenceValueType {B V}.
Arguments BindingTableReferenceValueType {B V} tableType.
Arguments NodeReferenceValueType {B V}.
Arguments EdgeReferenceValueType {B V}.
Arguments List_ {B V} isGroup valueType.
Arguments RecordType {B V} fields.
Arguments Union_ {B V} types.

Scheme All for FieldType_.
Scheme All for TypeOption_.

(** [ast::ValueType] *)
Inductive ValueType (B : Type) : Type :=
  | mkValueType (notNull : bool) (typeOption : TypeOption_ B (ValueType B)).
Arguments mkValueType {B} notNull typeOption.


Definition notNull {B : Type} (t : ValueType B) : bool :=
  match t with mkValueType n _ => n end.
Definition typeOption {B : Type} (t : ValueType B)
  : TypeOption_ B (ValueType B) :=
  match t with mkValueType _ o => o end.

(** [std::holds_alternative<ast::NodeReferenceValueType>(t->typeOption) ||
    std::holds_alternative<ast::EdgeReferenceValueType>(t->typeOption)] *)
Definition isElementReference {B : Type} (t : ValueType B) : bool :=
  match typeOption t with
  | NodeReferenceValueType | EdgeReferenceValueType => true
  | _ => false
  end.

Section Analysis.
Context {B : Type}.
(** The feature gate, the processing of the member [type] of a binding
    table reference value type ([Process(type.type, context)], whose
    argument is declared in [gql/ast/ast.h]) and the test
    [ast::FindFirstDescendantNodeOfType<ast::RecordType>(t) != nullptr]
    ([gql/ast/algorithm.h]) are external to the modelled sources. *)
Variable featureSupported : Feature -> bool.
Variable ProcessTableType : B -> Checked unit.
Variable hasRecordDescendant : ValueType B -> bool.

Definition ThrowIfFeatureNotSupported (f : Feature) : Checked unit :=
  if featureSupported f then Accepted tt else Rejected FeatureNotSupported.

Definition andAlso {A : Type} (r : Checked unit) (k : Checked A)
  : Checked A :=
  andThen r (fun _ => k).

(** [if (b) ThrowIfFeatureNotSupported(f);] *)
Definition requireIf (b : bool) (f : Feature) : Checked unit :=
  if b then ThrowIfFeatureNotSupported f else Accepted tt.

(** The alternative for [ast::SimplePredefinedType] *)
Definition ProcessSimplePredefinedType (value : SimplePredefinedType)
  : Checked unit :=
  match value with
  | Boolean => Accepted tt
  | Localdatetime | Date | Localtime => ThrowIfFeatureNotSupported GV39
  | Datetime | Time => ThrowIfFeatureNotSupported GV40
  | DurationYearToMonth | DurationDayToSecond =>
      ThrowIfFeatureNotSupported GV41
  | Null => ThrowIfFeatureNotSupported GV71
  | Empty => ThrowIfFeatureNotSupported GV72
  | Any => ThrowIfFeatureNotSupported GV66
  | AnyProperty => ThrowIfFeatureNotSupported GV68
  | Path => ThrowIfFeatureNotSupported GV55
  end.

(** The alternative for [ast::SimpleNumericType] *)
Definition ProcessSimpleNumericType (value : SimpleNumericType)
  : Checked unit :=
  match value with
  | Int | UInt => Accepted tt
  | Int8 => ThrowIfFeatureNotSupported GV02
  | Int16 => ThrowIfFeatureNotSupported GV04
  | Int32 => ThrowIfFeatureNotSupported GV07
  | Int64 => ThrowIfFeatureNotSupported GV12
  | Int128 => ThrowIfFeatureNotSupported GV14
  | Int256 => ThrowIfFeatureNotSupported GV16
  | SmallInt => ThrowIfFeatureNotSupported GV18
  | BigInt => ThrowIfFeatureNotSupported GV19
  | UInt8 => ThrowIfFeatureNotSupported GV01
  | UInt16 => ThrowIfFeatureNotSupported GV03
  | UInt32 => ThrowIfFeatureNotSupported GV06
  | UInt64 => ThrowIfFeatureNotSupported GV11
  | UInt128 => ThrowIfFeatureNotSupported GV13
  | UInt256 => ThrowIfFeatureNotSupported GV15
  | USmallInt => ThrowIfFeatureNotSupported GV05
  | UBigInt => ThrowIfFeatureNotSupported GV10
  | Float16 => ThrowIfFeatureNotSupported GV20
  | Float32 => ThrowIfFeatureNotSupported GV21
  | Float64 => ThrowIfFeatureNotSupported GV24
  | Float128 => ThrowIfFeatureNotSupported GV25
  | Float256 => ThrowIfFeatureNotSupported GV26
  | Real => ThrowIfFeatureNotSupported GV23
  | Double => ThrowIfFeatureNotSupported GV23
  end.

(** The alternative for [ast::StringType]: the feature checks of the
    [switch (value.kind)], then the checks of the lengths. *)
Definition ProcessStringType (kind : StringKind) (minLength : N)
    (maxLength : option N) : Checked unit :=
  andAlso
    match kind with
    | BYTES =>
        andAlso (ThrowIfFeatureNotSupported GV35)
          (andAlso (requireIf (0 <? minLength)%N GV36)
             match maxLength with
             | Some m =>
                 andAlso (ThrowIfFeatureNotSupported GV37)
                         (requireIf (minLength =? m)%N GV38)
             | None => Accepted tt
             end)
    | CHAR =>
        andAlso (requireIf (0 <? minLength)%N GV30)
          match maxLength with
          | Some m =>
              andAlso (ThrowIfFeatureNotSupported GV31)
                      (requireIf (minLength =? m)%N GV32)
          | None => Accepted tt
          end
    end
    match maxLength with
    | Some m =>
        if (m =? 0)%N then Rejected E0095
        else if (m <=? minLength)%N then Rejected E0096
        else Accepted tt
    | None => Accepted tt
    end.

(** The body of the loop of [Process(const ast::FieldTypesSpecification&)];
    the state is [fieldNames]. *)
Definition ProcessField (Process : ValueType B -> Checked unit)
    (f : FieldType_ (ValueType B)) (fieldNames : gset string)
  : Checked (gset string) :=
  andAlso (requireIf (hasRecordDescendant (type f)) GV48)
    (if bool_decide (name f ∈ fieldNames) then Rejected E0099
     else andThen (Process (type f))
            (fun _ => Accepted ({[name f]} ∪ fieldNames))).

(** The body of the loop over the components of a union; the state is
    [nullable]. *)
Definition ProcessComponent (Process : ValueType B -> Checked unit)
    (t : ValueType B) (nullable : option bool) : Checked (option bool) :=
  andThen (Process t)
    (fun _ =>
       match nullable with
       | Some n =>
           if negb (Bool.eqb n (notNull t)) then Rejected E0098
           else Accepted (Some (notNull t))
       | None => Accepted (Some (notNull t))
       end).

(** [SyntaxAnalyzer::Process(const ast::ValueType&, ...)]; the value it
    returns is its argument. *)
Fixpoint Process (t : ValueType B) {struct t} : Checked unit :=
  match t with
  | mkValueType notNull typeOption =>
      andAlso (requireIf notNull GV90)
        match typeOption with
        | SimplePredefined value => ProcessSimplePredefinedType value
        | SimpleNumeric value => ProcessSimpleNumericType value
        | BinaryExactUserNumericType isSigned =>
            andAlso (ThrowIfFeatureNotSupported GV09)
                    (requireIf (negb isSigned) GV08)
        | ScaleNumericType Decimal _ _ => ThrowIfFeatureNotSupported GV17
        | ScaleNumericType Float precision scale =>
            requireIf (precision || scale) GV22
        | StringType kind minLength maxLength =>
            ProcessStringType kind minLength maxLength
        | GraphReferenceValueType => ThrowIfFeatureNotSupported GV60
        | BindingTableReferenceValueType tableType =>
            andAlso (ThrowIfFeatureNotSupported GV61)
                    (ProcessTableType tableType)
        | NodeReferenceValueType | EdgeReferenceValueType => Accepted tt
        | List_ isGroup valueType =>
            andAlso (ThrowIfFeatureNotSupported GV50)
              (andAlso (requireIf (negb (bool_decide (is_Some valueType)))
                                  GV66)
                 (andAlso
                    (if isGroup
                     then match valueType with
                          | Some element =>
                              if isElementReference element then Accepted tt
                              else Rejected E0097
                          | None => Rejected E0097
                          end
                     else Accepted tt)
                    match valueType with
                    | Some element => Process element
                    | None => Accepted tt
                    end))
        | RecordType fields =>
            andAlso (ThrowIfFeatureNotSupported GV45)
              (andAlso
                 (ThrowIfFeatureNotSupported
                    (if bool_decide (is_Some fields) then GV46 else GV47))
                 match fields with
                 | Some fs =>
                     andThen (forEachChecked (ProcessField Process) fs ∅)
                             (fun _ => Accepted tt)
                 | None => Accepted tt
                 end)
        | Union_ types =>
            andAlso (ThrowIfFeatureNotSupported GV67)
              (if bool_decide (length types = 1%nat) then Rejected E0035
               else andThen
                      (forEachChecked (ProcessComponent Process) types None)
                      (fun _ => Accepted tt))
        end
  end.

(** [SyntaxAnalyzer::Process(const ast::FieldTypesSpecification&, ...)] *)
Definition ProcessFieldTypesSpecification
    (fields : list (FieldType_ (ValueType B))) : Checked unit :=
  andThen (forEachChecked (ProcessField Process) fields ∅)
          (fun _ => Accepted tt).
End Analysis.

Section EveryValueType.
Context {B : Type}.
Variable good : ValueType B -> bool.

(** [good] holds of a value type and of every value type within it: the
    element type of a list, the types of the fields of a record, the
    components of a union. *)
Fixpoint everyValueType (t : ValueType B) : bool :=
  good t
  && match t with
     | mkValueType _ (List_ _ (Some element)) => everyValueType element
     | mkValueType _ (RecordType (Some fs)) =>
         forallb (fun f : FieldType_ (ValueType B) => everyValueType (type f))
                 fs
     | mkValueType _ (Union_ types) => forallb everyValueType types
     | _ => true
     end.
End EveryValueType.

(** A string type with a maximum length whose minimum length is below
    it; any other type. *)
Definition stringLengthsOk {B : Type} (t : ValueType B) : bool :=
  match typeOption t with
  | StringType _ minLength (Some m) => (minLength <? m)%N
  | _ => true
  end.

(** A union that does not have exactly one component and whose components
    have the nullability of the first; any other type. *)
Definition unionOk {B : Type} (t : ValueType B) : bool :=
  match typeOption t with
  | Union_ types =>
      negb (bool_decide (length types = 1%nat))
      && match types with
         | [] => true
         | first :: rest =>
             forallb (fun u => Bool.eqb (notNull u) (notNull first)) rest
         end
  | _ => true
  end.

(** A record type whose field names are pairwise distinct; any other
    type. *)
Definition fieldNamesOk {B : Type} (t : ValueType B) : bool :=
  match typeOption t with
  | RecordType (Some fs) => bool_decide (NoDup (name <$> fs))
  | _ => true
  end.

(** A group list whose element type is a node or an edge reference type;
    any other type. *)
Definition groupListOk {B : Type} (t : ValueType B) : bool :=
  match typeOption t with
  | List_ true (Some element) => isElementReference element
  | List_ true None => false
  | _ => true
  end.

(** Sample types, with every feature supported and no binding table. *)
Definition allFeatures : Feature -> bool := fun _ => true.
Definition noTable : Empty_set -> Checked unit := fun _ => Accepted tt.
Definition noRecordWithin : ValueType Empty_set -> bool := fun _ => false.

Definition string_ (minLength : N) (maxLength : option N)
  : ValueType Empty_set :=
  mkValueType false (StringType CHAR minLength maxLength).

(** A record with a field [a] of type [STRING(1, 5)] and a field [b] that
    is a union of a node reference and an edge reference. *)
Definition sampleRecord : ValueType Empty_set :=
  mkValueType false
    (RecordType
       (Some [{| name := "a"; type := string_ 1 (Some 5%N) |};
              {| name := "b";
                 type := mkValueType false
                           (Union_ [mkValueType false NodeReferenceValueType;
                                    mkValueType false EdgeReferenceValueType])
              |}])).

End ValueTypes.

(** ** The exposure of the declared variables *)

(** The calls of the member functions of the context: every call but the
    traversal. *)
Definition isMemberCall (call : Call) : bool :=
  match call with
  | CallProcess _ => false
  | _ => true
  end.

(** The names that some frame of [exposedVariables_] holds. *)
Definition exposedNames (c : GraphPatternContext) : gset string :=
  ⋃ (dom <$> exposedVariables_ c).

(** Every declared variable is exposed in some frame. *)
Definition DeclaredAreExposed (c : GraphPatternContext) : Prop :=
  declared c ⊆ exposedNames c.

(** ** The analysis of a rewritten element *)

(** [(a WHERE a.p = 1)], an element pattern with a WHERE clause. *)
Definition nodeWhere : ElementPattern :=
  NodePattern (Some (1, 7)%nat)
    {| var := Some {| evd_name := "a"; evd_isTemp := false;
                      evd_pos := Some (1, 8)%nat |};
       labelExpr := None;
       predicate :=
         Some (ElementPatternWhereClause (Some (1, 10)%nat)
                 (Comparison Equals (xDot "a" "p") (Literal "1"))) |}.

(** A feature gate that lacks the WHERE clause of a parenthesized path
    pattern only. *)
Definition withoutParenthesizedWhere : Feature -> bool :=
  fun f => match f with G050 => false | _ => true end.

(** * Properties *)

(** ** The result monad *)
Lemma bind_Ok {A B : Type} (r : Result A) (k : A -> Result B) (b : B) :
  r ≫= k = Ok b <-> exists a, r = Ok a /\ k a = Ok b.
Proof.
  destruct r as [a| |]; simpl; split.
  - intros H. exists a. split; [reflexivity | exact H].
  - intros (a' & Ha & H). inversion Ha. subst a'. exact H.
  - discriminate.
  - intros (a' & Ha & _). discriminate.
  - discriminate.
  - intros (a' & Ha & _). discriminate.
Qed.

Lemma top_Ok {A : Type} (s : list A) (x : A) :
  top s = Ok x <-> exists rest, s = x :: rest.
Proof.
  destruct s as [|y rest]; simpl; split.
  - discriminate.
  - intros (r & H). discriminate.
  - intros H. inversion H. subst. eauto.
  - intros (r & H). inversion H. reflexivity.
Qed.

Lemma pop_Ok {A : Type} (s rest : list A) :
  pop s = Ok rest <-> exists x, s = x :: rest.
Proof.
  destruct s as [|y r]; simpl; split.
  - discriminate.
  - intros (x & H). discriminate.
  - intros H. inversion H. subst. eauto.
  - intros (x & H). inversion H. reflexivity.
Qed.

Lemma updTop_Ok {A : Type} (f : A -> A) (s s' : list A) :
  updTop f s = Ok s' <-> exists x rest, s = x :: rest /\ s' = f x :: rest.
Proof.
  destruct s as [|y r]; simpl; split.
  - discriminate.
  - intros (x & rest & H & _). discriminate.
  - intros H. inversion H. subst. eauto.
  - intros (x & rest & H & ->). inversion H. reflexivity.
Qed.

Lemma popMerge_Ok {A : Type} (f : A -> A -> A) (s s' : list A) :
  popMerge f s = Ok s' <->
  exists x outer rest, s = x :: outer :: rest /\ s' = f outer x :: rest.
Proof.
  destruct s as [|x [|outer rest]]; simpl; split; try discriminate.
  - intros (? & ? & ? & H & _). discriminate.
  - intros (? & ? & ? & H & _). discriminate.
  - intros H. inversion H. subst. eauto 6.
  - intros (? & ? & ? & H & ->). inversion H. reflexivity.
Qed.

(** Splits a conjunction into its conjuncts, leaving equations alone. *)
Ltac split_all :=
  repeat match goal with
         | |- _ /\ _ => split
         | |- ?G => match eval hnf in G with _ /\ _ => split end
         end.

(** Unfolds one monadic step of a hypothesis [H : (x ← r; k) = Ok _]. *)
Ltac bind_inv H :=
  let a := fresh "a" in
  let Ha := fresh "E" in
  apply bind_Ok in H as (a & Ha & H).

Tactic Notation "bind_inv_as" hyp(H) ident(a) ident(Ha) :=
  apply bind_Ok in H as (a & Ha & H).

Lemma forEach_invariant {A S : Type} (P : S -> Prop)
    (body : A -> S -> Result S) (xs : list A) :
  (forall x s s', x ∈ xs -> P s -> body x s = Ok s' -> P s') ->
  forall s s', P s -> forEach body xs s = Ok s' -> P s'.
Proof.
  induction xs as [|x xs IH]; intros Hbody s s' Hs H; simpl in H.
  - inversion H. subst. exact Hs.
  - bind_inv H. apply (IH (fun y t t' Hy => Hbody y t t' (list_elem_of_further _ _ _ Hy))
                         a s'); [|exact H].
    apply (Hbody x s a); [apply list_elem_of_here | exact Hs | exact E].
Qed.

Lemma forEach_cons {A S : Type} (body : A -> S -> Result S) (x : A)
    (xs : list A) (s : S) :
  forEach body (x :: xs) s = (s' ← body x s; forEach body xs s').
Proof. reflexivity. Qed.

Lemma forEach_app {A S : Type} (body : A -> S -> Result S) (xs ys : list A) (s : S) :
  forEach body (xs ++ ys) s = (s' ← forEach body xs s; forEach body ys s').
Proof.
  revert s. induction xs as [|x xs IH]; intros s; simpl; [reflexivity|].
  destruct (body x s); simpl; [apply IH | reflexivity | reflexivity].
Qed.

(** ** Exposing variables *)

Lemma ExposeVariable_fresh name variable c f rest :
  exposedVariables_ c = f :: rest -> f !! name = None ->
  ExposeVariable name variable c
  = Ok (set_exposedVariables_ (<[name := variable]> f :: rest) c).
Proof.
  intros Hc Hf. unfold ExposeVariable. rewrite Hc. simpl. rewrite Hf.
  reflexivity.
Qed.

Lemma ExposeVariable_existing name variable c f rest existingVar :
  exposedVariables_ c = f :: rest -> f !! name = Some existingVar ->
  compatible variable existingVar ->
  ExposeVariable name variable c = Ok c.
Proof.
  intros Hc Hf (Ht & Hd & He & Hs & Hs'). unfold ExposeVariable.
  rewrite Hc. simpl. rewrite Hf, Ht, Hd, He, Hs, Hs'.
  rewrite bool_decide_eq_true_2 by reflexivity. simpl.
  rewrite bool_decide_eq_true_2 by reflexivity. reflexivity.
Qed.

Lemma ExposeVariable_Ok name variable c c' :
  ExposeVariable name variable c = Ok c' ->
  exists f rest,
    exposedVariables_ c = f :: rest
    /\ ((f !! name = None
         /\ c' = set_exposedVariables_ (<[name := variable]> f :: rest) c)
        \/ (exists existingVar,
              f !! name = Some existingVar
              /\ compatible variable existingVar /\ c' = c)).
Proof.
  unfold ExposeVariable. intros H. bind_inv H.
  apply top_Ok in E as (rest & Hc). exists a, rest. split; [exact Hc|].
  destruct (a !! name) as [e|] eqn:Hl.
  - right. exists e. split; [reflexivity|].
    bind_inv H. unfold assert in E.
    destruct (bool_decide _) eqn:Ht in E; [|discriminate].
    apply bool_decide_eq_true in Ht.
    destruct (bool_decide (degree (base variable) = UnconditionalSingleton)) eqn:Hd;
      [|discriminate].
    destruct (bool_decide (degree (base e) = UnconditionalSingleton)) eqn:He;
      [|discriminate].
    simpl in H.
    destruct (isStrictInterior_ variable) eqn:Hs; [discriminate|].
    destruct (isStrictInterior_ e) eqn:Hs'; [discriminate|].
    simpl in H. inversion H.
    apply bool_decide_eq_true in Hd, He.
    repeat split; assumption.
  - left. split; [reflexivity|]. rewrite Hc in H. simpl in H.
    inversion H. reflexivity.
Qed.

(** A loop that exposes the entries of [l], each transformed by [g], into the
    top frame [f]: on success the frame becomes the left-biased union of [f]
    with the transformed entries, and every entry that met an existing one
    was compatible with it. *)
Lemma exposeLoop_Ok (g : ExposedVariable -> ExposedVariable)
    (l : list (string * ExposedVariable)) :
  forall c c' f rest,
    NoDup l.*1 ->
    exposedVariables_ c = f :: rest ->
    forEach (fun v => ExposeVariable v.1 (g v.2)) l c = Ok c' ->
    c' = set_exposedVariables_
           ((f ∪ list_to_map (prod_map id g <$> l)) :: rest) c
    /\ forall name v e,
         (name, v) ∈ l -> f !! name = Some e -> compatible (g v) e.
Proof.
  induction l as [|[n v] l IH]; intros c c' f rest Hnd Hc H; simpl in H.
  - inversion H. subst c'. split.
    + simpl. rewrite (right_id_L ∅ (∪)). rewrite <- Hc. destruct c; reflexivity.
    + intros name v e Hin. inversion Hin.
  - bind_inv H. simpl in E. inversion Hnd as [|? ? Hn Hnd']. subst.
    apply ExposeVariable_Ok in E as (f0 & rest0 & Hc0 & Hcase).
    rewrite Hc in Hc0. inversion Hc0. subst f0 rest0. clear Hc0.
    destruct Hcase as [[Hfresh ->] | (e & He & Hcomp & ->)].
    + destruct (IH (set_exposedVariables_ (<[n := g v]> f :: rest) c) c'
                  (<[n := g v]> f) rest Hnd' eq_refl H) as [-> Hall].
      split.
      * change (prod_map id g <$> (n, v) :: l)
          with ((n, g v) :: (prod_map id g <$> l)).
        rewrite list_to_map_cons.
        rewrite <- (insert_union_r f _ n (g v)) by exact Hfresh.
        rewrite insert_union_l. reflexivity.
      * intros name v' e Hin Hf.
        apply elem_of_cons in Hin as [Heq | Hin].
        -- inversion Heq. subst. congruence.
        -- apply (Hall name v' e Hin).
           rewrite lookup_insert_ne; [exact Hf|].
           intros ->. apply Hn. apply list_elem_of_fmap.
           exists (name, v'). split; [reflexivity | exact Hin].
    + destruct (IH c c' f rest Hnd' Hc H) as [-> Hall].
      split.
      * change (prod_map id g <$> (n, v) :: l)
          with ((n, g v) :: (prod_map id g <$> l)).
        rewrite list_to_map_cons.
        replace (f ∪ <[n := g v]> (list_to_map (prod_map id g <$> l)))
          with (f ∪ list_to_map (prod_map id g <$> l)); [reflexivity|].
        apply map_eq. intros k.
        rewrite !lookup_union. destruct (decide (k = n)) as [->|Hk].
        -- rewrite lookup_insert_eq, He. simpl.
           destruct (list_to_map _ !! n); reflexivity.
        -- rewrite lookup_insert_ne by congruence. reflexivity.
      * intros name v' e' Hin Hf.
        apply elem_of_cons in Hin as [Heq | Hin].
        -- inversion Heq. subst. rewrite He in Hf. inversion Hf. subst.
           exact Hcomp.
        -- apply (Hall name v' e' Hin Hf).
Qed.

Lemma list_to_map_transformed (g : ExposedVariable -> ExposedVariable)
    (m : ExposedVariables) :
  list_to_map (prod_map id g <$> map_to_list m) = g <$> m.
Proof.
  rewrite list_to_map_fmap, list_to_map_to_list. reflexivity.
Qed.

(** The same loop over the entries of a map [m]. *)
Lemma exposeMap_Ok (g : ExposedVariable -> ExposedVariable)
    (m : ExposedVariables) c c' f rest :
  exposedVariables_ c = f :: rest ->
  forEach (fun v => ExposeVariable v.1 (g v.2)) (map_to_list m) c = Ok c' ->
  c' = set_exposedVariables_ ((f ∪ (g <$> m)) :: rest) c
  /\ forall name v e,
       m !! name = Some v -> f !! name = Some e -> compatible (g v) e.
Proof.
  intros Hc H.
  destruct (exposeLoop_Ok g (map_to_list m) c c' f rest
              (NoDup_fst_map_to_list m) Hc H) as [-> Hall].
  rewrite list_to_map_transformed. split; [reflexivity|].
  intros name v e Hm. apply Hall. apply elem_of_map_to_list. exact Hm.
Qed.

(** [AppendExposedVariables], on success. *)
Lemma AppendExposedVariables_Ok c c' new f rest :
  exposedVariables_ c = new :: f :: rest ->
  AppendExposedVariables c = Ok c' ->
  c' = set_exposedVariables_ ((f ∪ new) :: rest) c
  /\ forall name v e,
       new !! name = Some v -> f !! name = Some e -> compatible v e.
Proof.
  unfold AppendExposedVariables. intros Hc H. rewrite Hc in H. simpl in H.
  destruct (exposeMap_Ok id new (set_exposedVariables_ (f :: rest) c) c' f rest
              eq_refl H) as [-> Hall].
  split.
  - rewrite map_fmap_id. reflexivity.
  - exact Hall.
Qed.

(** ** Entering a quantified path primary *)

(** C7, as stated, does not hold: an unbounded quantifier entered while
    another quantified path primary is active, outside any restrictive mode
    or selective pattern and in the default matching mode, is rejected with
    E0004, not with E0005. *)
Lemma EnterQuantifiedPathPrimary_nested_counterexample :
  EnterQuantifiedPathPrimary true startOfPathPattern = Ok insideBoundedQuantifier
  /\ IsInsideRestrictiveSearch insideBoundedQuantifier = Ok false
  /\ isInsideSelectivePattern_ insideBoundedQuantifier = false
  /\ differentEdgesMatchMode_ insideBoundedQuantifier = false
  /\ EnterQuantifiedPathPrimary false insideBoundedQuantifier = Throw E0004
  /\ Process allFeatures acceptLabels nestedUnboundedQuantifier startOfPathPattern
     = Throw E0004.
Proof. split_all; vm_compute; reflexivity. Qed.

(** C7 (amended): when no quantified path primary is active, entering an
    unbounded one fails with E0005 exactly when no enclosing path mode is
    restrictive, the pattern is not selective and the analyzer is not in
    different-edges-match mode; when one of the three holds the entry
    succeeds.  When a quantified path primary is already active the entry
    fails with E0004. *)
Theorem EnterQuantifiedPathPrimary_unbounded
    (c : GraphPatternContext) (restrictive : bool) (modes : list bool) :
  isRestrictivePathMode_ c = restrictive :: modes ->
  (isInsideQuantifiedPathPrimary_ c = true ->
     EnterQuantifiedPathPrimary false c = Throw E0004)
  /\ (isInsideQuantifiedPathPrimary_ c = false ->
        (EnterQuantifiedPathPrimary false c = Throw E0005 <->
         restrictive = false /\ isInsideSelectivePattern_ c = false
         /\ differentEdgesMatchMode_ c = false)
        /\ (restrictive || isInsideSelectivePattern_ c
            || differentEdgesMatchMode_ c = true ->
            exists c', EnterQuantifiedPathPrimary false c = Ok c')).
Proof.
  intros Hmodes. unfold EnterQuantifiedPathPrimary, IsInsideRestrictiveSearch.
  split; intros Hq; rewrite Hq; [reflexivity|].
  simpl. rewrite Hmodes. simpl.
  destruct restrictive, (isInsideSelectivePattern_ c),
    (differentEdgesMatchMode_ c); simpl;
    (split; [split; [try discriminate; intros _; repeat split
                    | intros (? & ? & ?); try discriminate; reflexivity]
            | intros H; try discriminate; eexists; reflexivity]).
Qed.

Lemma EnterQuantifiedPathPrimary_unbounded_witness :
  isRestrictivePathMode_ startOfPathPattern = [false]
  /\ EnterQuantifiedPathPrimary false startOfPathPattern = Throw E0005.
Proof.
  split; [reflexivity|].
  apply (EnterQuantifiedPathPrimary_unbounded startOfPathPattern false []
           eq_refl); [reflexivity | repeat split].
Defined.

(** ** Leaving a variable scope *)
Lemma ExitVariableScope_Ok c c' B A rest :
  exposedVariables_ c = B :: A :: rest ->
  ExitVariableScope c = Ok c' ->
  (exists addr stack,
     variableScopeStack_ c = addr :: stack
     /\ c' = set_exposedVariables_ ((A ∪ B) :: rest)
               (set_variableScopeStack_ stack
                  (set_variableScopes_
                     (alter (storeLocals B) addr (variableScopes_ c)) c)))
  /\ forall name v e, B !! name = Some v -> A !! name = Some e -> compatible v e.
Proof.
  unfold ExitVariableScope. intros Hc H. rewrite Hc in H. simpl in H.
  bind_inv H. bind_inv H. bind_inv H. simpl in E1.
  apply top_Ok in E as (stack & Hs). rewrite Hs in E1. simpl in E1.
  inversion E1. subst a1. clear E1.
  match type of H with
  | AppendExposedVariables ?c1 = _ =>
      destruct (AppendExposedVariables_Ok c1 c' B A rest Hc H) as [-> Hall]
  end.
  split; [|exact Hall]. exists a, stack. split; [exact Hs | reflexivity].
Qed.

(** A variable scope whose frame is the only one on the stack cannot be left
    and then read. *)
Lemma ExitVariableScope_single c c' B :
  exposedVariables_ c = [B] ->
  ExitVariableScope c = Ok c' -> exposedVariables_ c' = [].
Proof.
  unfold ExitVariableScope. intros Hc H. rewrite Hc in H. simpl in H.
  bind_inv H. bind_inv H. bind_inv H.
  unfold AppendExposedVariables in H. simpl in H. rewrite Hc in H. simpl in H.
  destruct (map_to_list B) as [|[n v] l]; simpl in H.
  - inversion H. reflexivity.
  - discriminate.
Qed.

(** ** C1: leaving a path pattern *)

Lemma elem_of_unconditionalSingletons (frame : ExposedVariables) (name : string) :
  name ∈ unconditionalSingletons frame <->
  exists v, frame !! name = Some v /\ degree (base v) = UnconditionalSingleton.
Proof.
  unfold unconditionalSingletons. rewrite elem_of_dom. split.
  - intros [v Hv]. apply map_lookup_filter_Some in Hv as [Hv Hd].
    exists v. split; assumption.
  - intros (v & Hv & Hd). exists v. apply map_lookup_filter_Some.
    split; assumption.
Qed.

Lemma markStrictInterior_Ok c frame marked :
  markStrictInterior c frame = Ok marked ->
  forall name,
    (forall v', marked !! name = Some v' ->
       exists v, frame !! name = Some v /\ degree (base v') = degree (base v))
    /\ (forall v, frame !! name = Some v ->
          exists v', marked !! name = Some v'
                     /\ degree (base v') = degree (base v)).
Proof.
  unfold markStrictInterior. intros H. bind_inv H. inversion H. subst marked.
  intros name. rewrite map_lookup_imap. split.
  - intros v' Hv'. destruct (frame !! name) as [v|]; [|discriminate].
    exists v. split; [reflexivity|]. simpl in Hv'.
    destruct (isBoundaryVariable c name); inversion Hv'; reflexivity.
  - intros v Hv. rewrite Hv. simpl.
    destruct (isBoundaryVariable c name); eexists; split; reflexivity.
Qed.

Lemma boundGroup_degree (v : ExposedVariable) :
  degree (base (boundGroup v))
  = if bool_decide (degree (base v) = EffectivelyUnboundedGroup)
    then EffectivelyBoundedGroup else degree (base v).
Proof.
  unfold boundGroup. destruct (bool_decide _); reflexivity.
Qed.

(** The tail of [ExitPathPattern], from the construction of the auxiliary
    data on. *)
Lemma ExitPathPattern_tail c c' auxData frame :
  top (exposedVariables_ c) = Ok frame ->
  (frames ← pop (exposedVariables_ c);
   c ← forEach (fun v => ExposeVariable v.1 (boundGroup v.2)) (map_to_list frame)
               (set_exposedVariables_ frames c);
   nonZero ← top (nonZeroNodeCount_ c);
   if negb nonZero then Throw E0109
   else
     counts ← pop (nonZeroNodeCount_ c);
     Ok (set_nonZeroNodeCount_ counts c,
         {| joinableVariables := unconditionalSingletons frame |}))
  = Ok (c', auxData) ->
  (forall name,
     name ∈ joinableVariables auxData <->
     exists v, frame !! name = Some v
               /\ degree (base v) = UnconditionalSingleton)
  /\ forall name v,
       frame !! name = Some v ->
       degree (base v) = EffectivelyUnboundedGroup ->
       exists outer' v',
         top (exposedVariables_ c') = Ok outer'
         /\ outer' !! name = Some v'
         /\ degree (base v') = EffectivelyBoundedGroup.
Proof.
  intros Hf H. apply top_Ok in Hf as (rest & Hc). rewrite Hc in H.
  simpl in H. bind_inv H. bind_inv H.
  destruct a0; simpl in H; [|discriminate]. bind_inv H.
  inversion H. subst c' auxData. clear H. split.
  - intros name. simpl. apply elem_of_unconditionalSingletons.
  - intros name v Hv Hd.
    destruct rest as [|outer rest].
    + (* nothing below the pattern's frame: the loop cannot expose [name] *)
      exfalso. apply elem_of_map_to_list in Hv.
      destruct (map_to_list frame) as [|[n w] l]; [inversion Hv|].
      simpl in E. discriminate.
    + destruct (exposeMap_Ok boundGroup frame
                  (set_exposedVariables_ (outer :: rest) c) a outer rest
                  eq_refl E) as [-> Hall].
      exists (outer ∪ (boundGroup <$> frame)), (boundGroup v).
      simpl. split; [reflexivity|]. split.
      * rewrite lookup_union. destruct (outer !! name) as [e|] eqn:He.
        -- exfalso. destruct (Hall name v e Hv He) as (_ & Hus & _).
           rewrite boundGroup_degree, Hd in Hus.
           rewrite bool_decide_eq_true_2 in Hus by reflexivity. discriminate.
        -- rewrite lookup_fmap, Hv. reflexivity.
      * rewrite boundGroup_degree, Hd.
        rewrite bool_decide_eq_true_2 by reflexivity. reflexivity.
Qed.


Example beforeExitPathPattern_degrees :
  option_map degreesOf (patternFrame beforeExitPathPattern)
  = Some (degreesOfList [("a", UnconditionalSingleton);
                         ("b", EffectivelyUnboundedGroup);
                         ("c", EffectivelyUnboundedGroup);
                         ("d", UnconditionalSingleton)]).
Proof. vm_compute. reflexivity. Qed.


(** ** C2: leaving a union operand *)

Lemma mergedDegree_rank (v it : VariableDegreeOfExposure) :
  degreeRank (mergedDegree v it) = Nat.max (degreeRank v) (degreeRank it).
Proof. destruct v, it; reflexivity. Qed.

Lemma mergedDegree_cases (v it : VariableDegreeOfExposure) :
  mergedDegree v it =
    if bool_decide (v = EffectivelyUnboundedGroup \/ it = EffectivelyUnboundedGroup)
    then EffectivelyUnboundedGroup
    else if bool_decide (v = EffectivelyBoundedGroup \/ it = EffectivelyBoundedGroup)
    then EffectivelyBoundedGroup
    else if bool_decide (v = ConditionalSingleton \/ it = ConditionalSingleton)
    then ConditionalSingleton
    else UnconditionalSingleton.
Proof. destruct v, it; reflexivity. Qed.

Lemma mergeOperandVariable_step (u : Union_) (us : list Union_) (n : string)
    (v : ExposedVariable) (U : ExposedVariables) :
  mergeOperandVariable (u :: us) (n, v) U
  = Ok (<[n := mergeOne (isFirstOperand u) (U !! n) v]> U).
Proof.
  unfold mergeOperandVariable, mergeOne. simpl.
  destruct (U !! n); reflexivity.
Qed.

Lemma mergeLoop_Ok (u : Union_) (us : list Union_)
    (l : list (string * ExposedVariable)) :
  forall U : ExposedVariables,
    NoDup l.*1 ->
    exists U' : ExposedVariables,
      forEach (mergeOperandVariable (u :: us)) l U = Ok U'
      /\ forall name,
           U' !! name =
             match (list_to_map l : ExposedVariables) !! name with
             | None => U !! name
             | Some v => Some (mergeOne (isFirstOperand u) (U !! name) v)
             end.
Proof.
  induction l as [|[n v] l IH]; intros U Hnd.
  - exists U. split; [reflexivity|]. intros name.
    rewrite list_to_map_nil, lookup_empty. reflexivity.
  - inversion Hnd as [|? ? Hn Hnd']. subst.
    destruct (IH (<[n := mergeOne (isFirstOperand u) (U !! n) v]> U) Hnd')
      as (U' & Hloop & HU').
    exists U'. split.
    + rewrite forEach_cons, mergeOperandVariable_step. exact Hloop.
    + intros name. rewrite HU', list_to_map_cons. simpl.
      destruct (decide (name = n)) as [->|Hne].
      * rewrite (not_elem_of_list_to_map_1 _ _ Hn).
        rewrite !lookup_insert_eq. reflexivity.
      * rewrite !(lookup_insert_ne _ n name) by congruence. reflexivity.
Qed.

Lemma demoteMissing_lookup (operand union : ExposedVariables) (name : string) :
  demoteMissing operand union !! name =
    (fun v => if bool_decide (degree (base v) = UnconditionalSingleton)
                 && bool_decide (operand !! name = None)
              then set_degree ConditionalSingleton v else v)
      <$> union !! name.
Proof.
  unfold demoteMissing. rewrite map_lookup_imap.
  destruct (union !! name); reflexivity.
Qed.

(** C2, as stated, does not hold: at the exit of the second operand, [a] is
    exposed by the union so far and not by the operand, and [c] is exposed
    only by the operand; both are bounded groups and both stay bounded
    groups, neither becomes a conditional singleton. *)
Lemma ExitPathPatternUnionOperand_counterexample :
  degreesOf <$> exposedVariables_ beforeSecondOperandExit
  = [degreesOfList [("c", EffectivelyBoundedGroup);
                    ("d", EffectivelyBoundedGroup)];
     degreesOfList [("a", EffectivelyBoundedGroup);
                    ("b", EffectivelyBoundedGroup)];
     ∅; ∅; ∅]
  /\ ExitPathPatternUnionOperand beforeSecondOperandExit
     = Ok afterSecondOperandExit
  /\ degreesOf <$> exposedVariables_ afterSecondOperandExit
     = [degreesOfList [("a", EffectivelyBoundedGroup);
                       ("b", EffectivelyBoundedGroup);
                       ("c", EffectivelyBoundedGroup);
                       ("d", EffectivelyBoundedGroup)];
        ∅; ∅; ∅].
Proof. split_all; vm_compute; reflexivity. Qed.

(** C2 (amended): on every exit of a union operand,
    - a variable exposed by the union so far and not by the operand becomes a
      conditional singleton if it was an unconditional singleton, and keeps
      its degree otherwise;
    - a variable exposed only by the operand enters the union, as a
      conditional singleton if the operand is not the first one and the
      variable was an unconditional singleton, with its own degree otherwise;
    - a variable exposed on both sides gets EUG if either side is EUG, else
      EBG if either is EBG, else CS if either is CS, else stays US;
    - the outer minimum path length becomes the minimum of the two values and
      the outer nonZeroNodeCount their conjunction. *)
Theorem ExitPathPatternUnionOperand_merge
    (c : GraphPatternContext) (operand union : ExposedVariables)
    (rest : list ExposedVariables) (u : Union_) (us : list Union_)
    (len outerLen : Z) (lens : list Z) (nz outerNz : bool) (nzs : list bool)
    (decl outerDecl : CountedVariableDeclarations)
    (decls : list CountedVariableDeclarations) :
  exposedVariables_ c = operand :: union :: rest ->
  pathPatternUnion_ c = u :: us ->
  minimumPathLength_ c = len :: outerLen :: lens ->
  nonZeroNodeCount_ c = nz :: outerNz :: nzs ->
  declarationsInUnions_ c = decl :: outerDecl :: decls ->
  exists c' union',
    ExitPathPatternUnionOperand c = Ok c'
    /\ exposedVariables_ c' = union' :: rest
    /\ (forall name it,
          union !! name = Some it -> operand !! name = None ->
          exists it',
            union' !! name = Some it'
            /\ degree (base it')
               = if bool_decide (degree (base it) = UnconditionalSingleton)
                 then ConditionalSingleton else degree (base it))
    /\ (forall name v,
          union !! name = None -> operand !! name = Some v ->
          exists v',
            union' !! name = Some v'
            /\ degree (base v')
               = if negb (isFirstOperand u)
                    && bool_decide (degree (base v) = UnconditionalSingleton)
                 then ConditionalSingleton else degree (base v))
    /\ (forall name it v,
          union !! name = Some it -> operand !! name = Some v ->
          exists it',
            union' !! name = Some it'
            /\ degree (base it')
               = if bool_decide (degree (base v) = EffectivelyUnboundedGroup
                                 \/ degree (base it) = EffectivelyUnboundedGroup)
                 then EffectivelyUnboundedGroup
                 else if bool_decide
                           (degree (base v) = EffectivelyBoundedGroup
                            \/ degree (base it) = EffectivelyBoundedGroup)
                 then EffectivelyBoundedGroup
                 else if bool_decide
                           (degree (base v) = ConditionalSingleton
                            \/ degree (base it) = ConditionalSingleton)
                 then ConditionalSingleton
                 else UnconditionalSingleton)
    /\ (forall name,
          union !! name = None -> operand !! name = None ->
          union' !! name = None)
    /\ minimumPathLength_ c' = Z.min outerLen len :: lens
    /\ nonZeroNodeCount_ c' = (nz && outerNz) :: nzs.
Proof.
  intros Hc Hu Hlen Hnz Hdecl.
  destruct (mergeLoop_Ok u us (map_to_list operand)
              (demoteMissing operand union) (NoDup_fst_map_to_list operand))
    as (union' & Hloop & Hunion').
  unfold ExitPathPatternUnionOperand.
  rewrite Hc, Hu. simpl. rewrite Hloop. simpl.
  rewrite Hlen. simpl. rewrite Hnz. simpl. rewrite Hdecl. simpl.
  rewrite Hu. simpl.
  eexists. exists union'. split; [reflexivity|]. simpl.
  split; [reflexivity|].
  assert (Hlk : forall name,
             union' !! name =
               match operand !! name with
               | None => demoteMissing operand union !! name
               | Some v =>
                   Some (mergeOne (isFirstOperand u)
                           (demoteMissing operand union !! name) v)
               end).
  { intros name. rewrite Hunion', list_to_map_to_list. reflexivity. }
  split_all; try reflexivity.
  - intros name it Hit Hv. rewrite Hlk, Hv, demoteMissing_lookup, Hit, Hv.
    simpl. rewrite andb_true_r. eexists. split; [reflexivity|].
    destruct (bool_decide _); reflexivity.
  - intros name v Hit Hv. rewrite Hlk, Hv, demoteMissing_lookup, Hit.
    simpl. eexists. split; [reflexivity|].
    destruct (negb (isFirstOperand u) && bool_decide _); reflexivity.
  - intros name it v Hit Hv. rewrite Hlk, Hv, demoteMissing_lookup, Hit, Hv.
    simpl. rewrite andb_false_r. eexists. split; [reflexivity|].
    simpl. apply mergedDegree_cases.
  - intros name Hit Hv. rewrite Hlk, Hv, demoteMissing_lookup, Hit.
    reflexivity.
Qed.

Lemma ExitPathPatternUnionOperand_merge_witness :
  exists c' union',
    ExitPathPatternUnionOperand beforeSecondOperandExit = Ok c'
    /\ exposedVariables_ c' = union' :: [∅; ∅; ∅]
    /\ minimumPathLength_ c' = [Z.min 2 2; 0]
    /\ nonZeroNodeCount_ c' = [true && true; false; false].
Proof.
  set (c := beforeSecondOperandExit).
  assert (H1 : exposedVariables_ c
               = orElse (top (exposedVariables_ c)) ∅
                 :: orElse (top (tail (exposedVariables_ c))) ∅ :: [∅; ∅; ∅])
    by (vm_compute; reflexivity).
  assert (H2 : pathPatternUnion_ c
               = orElse (top (pathPatternUnion_ c))
                   {| indexOfFirstSearchConditionScopeInOperands_ := [];
                      declarationsInOperands_ := [] |} :: [])
    by (vm_compute; reflexivity).
  assert (H3 : minimumPathLength_ c = [2; 2; 0]) by (vm_compute; reflexivity).
  assert (H4 : nonZeroNodeCount_ c = [true; true; false; false])
    by (vm_compute; reflexivity).
  assert (H5 : declarationsInUnions_ c
               = orElse (top (declarationsInUnions_ c)) ∅
                 :: orElse (top (tail (declarationsInUnions_ c))) ∅ :: [])
    by (vm_compute; reflexivity).
  destruct (ExitPathPatternUnionOperand_merge c _ _ _ _ _ _ _ _ _ _ _ _ _ _
              H1 H2 H3 H4 H5)
    as (c' & union' & H & Hf & _ & _ & _ & _ & Hl & Hn).
  exists c', union'. split_all; assumption.
Defined.

(** ** C3: leaving a quantified path primary *)

Lemma quantifiedDegree_Ok bounded v c restrictive modes :
  isRestrictivePathMode_ c = restrictive :: modes ->
  quantifiedDegree bounded v c
  = Ok (set_degree (quantifiedDegreeOf bounded restrictive (degree (base v))) v).
Proof.
  intros Hm. unfold quantifiedDegree, quantifiedDegreeOf,
    IsInsideRestrictiveSearch. rewrite Hm.
  destruct (bool_decide (degree (base v) = EffectivelyUnboundedGroup)) eqn:Hd;
    simpl.
  - apply bool_decide_eq_true in Hd. destruct v as [[t p i d] s].
    simpl in *. subst d. reflexivity.
  - destruct bounded; simpl; [reflexivity|].
    destruct restrictive; reflexivity.
Qed.

Lemma writeDeclaredVariable_Ok name v c p :
  currentVariableReferenceScope_ c = Some p ->
  (p < length (auxStore c))%nat ->
  exists A,
    writeDeclaredVariable name v c = Ok (set_auxStore A c)
    /\ length A = length (auxStore c).
Proof.
  intros Hp Hlen. unfold writeDeclaredVariable. rewrite Hp.
  destruct (lookup_lt_is_Some_2 (auxStore c) p Hlen) as [aux Haux].
  rewrite Haux. eexists. split; [reflexivity|]. apply length_insert.
Qed.

Lemma Ok_bind {A B : Type} (a : A) (k : A -> Result B) : Ok a ≫= k = k a.
Proof. reflexivity. Qed.

(** The exposure loop of [ExitQuantifiedPathPrimary] when no variable of the
    primary is present in the enclosing frame. *)
Lemma exposeQuantified_fresh (bounded : bool)
    (l : list (string * ExposedVariable)) :
  forall c f rest restrictive modes p,
    NoDup l.*1 ->
    exposedVariables_ c = f :: rest ->
    (forall n v, (n, v) ∈ l -> f !! n = None) ->
    isRestrictivePathMode_ c = restrictive :: modes ->
    currentVariableReferenceScope_ c = Some p ->
    (p < length (auxStore c))%nat ->
    exists A,
      forEach (fun v c => v' ← quantifiedDegree bounded v.2 c;
                          ExposeNewVariable v.1 v' c) l c
      = Ok (set_auxStore A
              (set_exposedVariables_
                 ((f ∪ list_to_map
                         (prod_map id
                            (fun v => set_degree
                                        (quantifiedDegreeOf bounded restrictive
                                           (degree (base v))) v) <$> l))
                  :: rest) c))
      /\ length A = length (auxStore c).
Proof.
  induction l as [|[n v] l IH];
    intros c f rest restrictive modes p Hnd Hc Hfresh Hm Hp Hlen.
  - exists (auxStore c). split; [|reflexivity]. simpl.
    rewrite (right_id_L ∅ (∪)), <- Hc. destruct c; reflexivity.
  - inversion Hnd as [|? ? Hn Hnd']. subst.
    set (g := fun v => set_degree
                         (quantifiedDegreeOf bounded restrictive
                            (degree (base v))) v).
    rewrite forEach_cons. simpl fst. simpl snd.
    rewrite (quantifiedDegree_Ok bounded v c restrictive modes Hm).
    fold (g v). rewrite Ok_bind.
    unfold ExposeNewVariable.
    rewrite (ExposeVariable_fresh n (g v) c f rest Hc
               (Hfresh n v (list_elem_of_here _ _))).
    change (prod_map id g <$> (n, v) :: l)
      with ((n, g v) :: (prod_map id g <$> l)).
    rewrite list_to_map_cons.
    rewrite <- (insert_union_r f _ n (g v))
      by exact (Hfresh n v (list_elem_of_here _ _)).
    rewrite insert_union_l.
    assert (Hfresh' : forall n' v', (n', v') ∈ l -> <[n := g v]> f !! n' = None).
    { intros n' v' Hin. rewrite lookup_insert_ne.
      - apply (Hfresh n' v'). apply list_elem_of_further. exact Hin.
      - intros ->. apply Hn. apply list_elem_of_fmap.
        exists (n', v'). split; [reflexivity | exact Hin]. }
    set (c1 := set_exposedVariables_ (<[n := g v]> f :: rest) c).
    rewrite Ok_bind.
    destruct (isElementType (type (base (g v)))).
    + destruct (writeDeclaredVariable_Ok n
                  {| aux_type := type (base (g v));
                     degreeOfExposure := degree (base (g v));
                     aux_isTemp := false |} c1 p Hp Hlen)
        as (A1 & -> & HA1).
      rewrite Ok_bind.
      destruct (IH (set_auxStore A1 c1) (<[n := g v]> f) rest restrictive
                  modes p Hnd' eq_refl Hfresh' Hm Hp)
        as (A & Hloop & HA).
      { simpl. rewrite HA1. exact Hlen. }
      exists A. split.
      * exact Hloop.
      * rewrite HA. simpl. exact HA1.
    + rewrite Ok_bind.
      destruct (IH c1 (<[n := g v]> f) rest restrictive modes p Hnd' eq_refl
                  Hfresh' Hm Hp Hlen)
        as (A & Hloop & HA).
      exists A. split.
      * exact Hloop.
      * rewrite HA. reflexivity.
Qed.




(** ** C5: the order of the tests in reference resolution *)

(** C5, as stated, does not hold: a name present in [inaccessibleVariables]
    resolves successfully when the working record has a field of that name;
    the working record is consulted first. *)
Lemma ProcessBindingVariableReference_counterexample :
  ec_inaccessibleVariables shadowedContext !! "x"
  = Some ReferenceToTheAdjacentUnionOperand
  /\ ProcessBindingVariableReference "x" shadowedContext = Ok NodeReferenceType.
Proof. split; vm_compute; reflexivity. Qed.

(** C5 (amended): resolving a variable reference first looks the name up in
    the working record and yields the type of the field found there; only on
    a miss does it fail with the recorded inaccessibility reason (E0051 for
    an adjacent union operand, E0052 for a non-local group-degree reference,
    E0053 for a reference from a selective path pattern) whenever the name is
    present in [inaccessibleVariables]; otherwise the miss yields E0113 when
    the name exists in the working table and E0054 when it does not. *)
Theorem ProcessBindingVariableReference_order
    (name : string) (context : ExecutionContext) :
  (forall field,
     HasField (workingRecord context) name = Some field ->
     ProcessBindingVariableReference name context = Ok (field_type field))
  /\ (HasField (workingRecord context) name = None ->
      (forall reason,
         ec_inaccessibleVariables context !! name = Some reason ->
         ProcessBindingVariableReference name context
         = Throw (reasonCode reason))
      /\ (ec_inaccessibleVariables context !! name = None ->
          (is_Some (HasField (workingTable context) name) ->
           ProcessBindingVariableReference name context = Throw E0113)
          /\ (HasField (workingTable context) name = None ->
              ProcessBindingVariableReference name context = Throw E0054))).
Proof.
  unfold ProcessBindingVariableReference. split.
  - intros field ->. reflexivity.
  - intros ->. split.
    + intros reason ->. destruct reason; reflexivity.
    + intros ->. split.
      * intros Hsome. rewrite bool_decide_eq_true_2 by exact Hsome.
        reflexivity.
      * intros ->. reflexivity.
Qed.

Lemma ProcessBindingVariableReference_order_witness :
  HasField (workingRecord adjacentContext) "d" = None
  /\ ProcessBindingVariableReference "d" adjacentContext = Throw E0051.
Proof.
  split; [reflexivity|].
  destruct (ProcessBindingVariableReference_order "d" adjacentContext)
    as [_ Hmiss].
  destruct (Hmiss eq_refl) as [Hreason _].
  apply (Hreason ReferenceToTheAdjacentUnionOperand). reflexivity.
Defined.

(** ** C4: Finalize and references across union operands *)

Lemma set_exposedVariables_id c : set_exposedVariables_ (exposedVariables_ c) c = c.
Proof. destruct c; reflexivity. Qed.

Lemma ExposeVariable_frames name v c c' :
  ExposeVariable name v c = Ok c' ->
  exists F, c' = set_exposedVariables_ F c.
Proof.
  intros H. apply ExposeVariable_Ok in H as (f & rest & Hc & Hcase).
  destruct Hcase as [[_ ->] | (e & _ & _ & ->)].
  - eexists. reflexivity.
  - exists (exposedVariables_ c). symmetry. apply set_exposedVariables_id.
Qed.

Lemma exposeLoop_frames (g : ExposedVariable -> ExposedVariable)
    (l : list (string * ExposedVariable)) c c' :
  forEach (fun v => ExposeVariable v.1 (g v.2)) l c = Ok c' ->
  exists F, c' = set_exposedVariables_ F c.
Proof.
  apply (forEach_invariant (fun s => exists F, s = set_exposedVariables_ F c)).
  - intros x s s' _ [F ->] H. apply ExposeVariable_frames in H as [F' ->].
    exists F'. reflexivity.
  - exists (exposedVariables_ c). symmetry. apply set_exposedVariables_id.
Qed.

Lemma AppendExposedVariables_frames c c' :
  AppendExposedVariables c = Ok c' ->
  exists F, c' = set_exposedVariables_ F c.
Proof.
  unfold AppendExposedVariables. intros H. bind_inv H. bind_inv H.
  apply (exposeLoop_frames id) in H as [F ->]. exists F. reflexivity.
Qed.

Lemma ExitVariableScope_frames c c' :
  ExitVariableScope c = Ok c' ->
  exists F S V,
    c' = set_exposedVariables_ F
           (set_variableScopeStack_ S (set_variableScopes_ V c)).
Proof.
  unfold ExitVariableScope. intros H. bind_inv H. bind_inv H. bind_inv H.
  bind_inv H. apply AppendExposedVariables_frames in H as [F ->].
  eexists. eexists. eexists. reflexivity.
Qed.

Lemma Finalize_scopes c c' total rest :
  declarationsInUnions_ c = total :: rest ->
  Finalize c = Ok c' ->
  searchConditionScopes_ c' = finalizeScope total <$> searchConditionScopes_ c.
Proof.
  unfold Finalize. intros Hd H. rewrite Hd in H. simpl in H.
  apply ExitVariableScope_frames in H as (F & S & V & ->). reflexivity.
Qed.

Lemma searchConditionContext_hidden c cond name :
  is_Some (inaccessibleVariables cond !! name) ->
  HasField (workingRecord (searchConditionContext c cond)) name = None.
Proof.
  intros Hsome. unfold searchConditionContext, HasField. simpl.
  induction ((map_to_list (variableDeclarations_ c)).*1) as [|n names IH];
    [reflexivity|].
  simpl. destruct (bool_decide (is_Some (inaccessibleVariables cond !! n)))
    eqn:Hn; [exact IH|].
  destruct (lookupInScopes _ _ _ n) as [v|]; simpl; [|exact IH].
  rewrite bool_decide_eq_false_2; [exact IH|].
  intros ->. apply bool_decide_eq_false in Hn. contradiction.
Qed.


(** Scenario 6 of the specification: [a] is declared in both operands and is
    dropped by [Finalize]; [d] and [e] are declared in the adjacent operand
    only and remain; a reference to [d] from the condition fails with E0051
    and a reference to [a] resolves. *)
Example unionWithCondition_scopes :
  option_map inaccessibleVariables conditionScopeBefore
  = Some (countsOfList [("a", 1); ("d", 1); ("e", 1)])
  /\ top (declarationsInUnions_ beforeFinalize)
     = Ok (countsOfList [("a", 2); ("b", 1); ("c", 1); ("d", 1); ("e", 1)])
  /\ option_map inaccessibleVariables conditionScopeAfter
     = Some (countsOfList [("d", 1); ("e", 1)])
  /\ option_map (ProcessBindingVariableReference "d")
       (option_map (searchConditionContext afterFinalize) conditionScopeAfter)
     = Some (Throw E0051)
  /\ option_map (ProcessBindingVariableReference "a")
       (option_map (searchConditionContext afterFinalize) conditionScopeAfter)
     = Some (Ok NodeReferenceType).
Proof. split_all; vm_compute; reflexivity. Qed.


(** ** The invariant is preserved by every operation *)

Lemma storeGrows_refl A : storeGrows A A.
Proof. intros name H. exact H. Qed.

Lemma storeGrows_trans A B C : storeGrows A B -> storeGrows B C -> storeGrows A C.
Proof. intros H1 H2 name H. apply H2, H1, H. Qed.

Lemma entryOk_grows D A A' name ev :
  storeGrows A A' -> entryOk D A name ev -> entryOk D A' name ev.
Proof. intros Hg [Hd Hs]. split; [exact Hd|]. intros He. apply Hg, Hs, He. Qed.

Lemma entryOk_type D A name ev ev' :
  type (base ev') = type (base ev) -> entryOk D A name ev -> entryOk D A name ev'.
Proof. unfold entryOk. intros ->. tauto. Qed.

(** Frames whose entries all come, with their type, from entries that
    satisfied the invariant. *)
Lemma InvT_frames F F' A D :
  InvT F A D ->
  (forall frame name ev,
     frame ∈ F' -> frame !! name = Some ev ->
     exists frame0 ev0,
       frame0 ∈ F /\ frame0 !! name = Some ev0
       /\ type (base ev) = type (base ev0)) ->
  InvT F' A D.
Proof.
  intros [HF HA] Hfrom. split; [|exact HA].
  intros frame name ev Hin Hl.
  destruct (Hfrom frame name ev Hin Hl) as (frame0 & ev0 & Hin0 & Hl0 & Ht).
  apply (entryOk_type D A name ev0 ev Ht). apply (HF frame0 name ev0 Hin0 Hl0).
Qed.

Lemma InvT_push F A D : InvT F A D -> InvT (∅ :: F) A D.
Proof.
  intros H. apply (InvT_frames F _ A D H). intros frame name ev Hin Hl.
  apply elem_of_cons in Hin as [-> | Hin].
  - rewrite lookup_empty in Hl. discriminate.
  - exists frame, ev. split_all; [exact Hin | exact Hl | reflexivity].
Qed.

Lemma InvT_pop f F A D : InvT (f :: F) A D -> InvT F A D.
Proof.
  intros H. apply (InvT_frames (f :: F) _ A D H). intros frame name ev Hin Hl.
  exists frame, ev. split_all; [right; exact Hin | exact Hl | reflexivity].
Qed.

Lemma set_degree_type d v : type (base (set_degree d v)) = type (base v).
Proof. reflexivity. Qed.

(** [ExposeVariable] keeps the invariant when the exposed entry satisfies
    it. *)
Lemma ExposeVariable_Inv name v c c' :
  Inv c ->
  entryOk (variableDeclarations_ c) (auxStore c) name v ->
  ExposeVariable name v c = Ok c' ->
  Inv c' /\ auxStore c' = auxStore c
  /\ variableDeclarations_ c' = variableDeclarations_ c.
Proof.
  intros [HF HA] Hv H.
  apply ExposeVariable_Ok in H as (f & rest & Hc & Hcase).
  destruct Hcase as [[Hfresh ->] | (e & _ & _ & ->)].
  - split; [|split; reflexivity]. split; [|exact HA].
    simpl. intros frame n ev Hin Hl.
    apply elem_of_cons in Hin as [-> | Hin].
    + destruct (decide (n = name)) as [-> | Hne].
      * rewrite lookup_insert_eq in Hl. inversion Hl. subst. exact Hv.
      * rewrite lookup_insert_ne in Hl by congruence.
        apply (HF f n ev); [rewrite Hc; left | exact Hl].
    + apply (HF frame n ev); [rewrite Hc; right; exact Hin | exact Hl].
  - split; [split; assumption | split; reflexivity].
Qed.

(** A loop of [ExposeVariable] over entries that satisfy the invariant. *)
Lemma exposeLoop_Inv (g : ExposedVariable -> ExposedVariable)
    (l : list (string * ExposedVariable)) c c' :
  (forall v, type (base (g v)) = type (base v)) ->
  Inv c ->
  (forall x, x ∈ l ->
     entryOk (variableDeclarations_ c) (auxStore c) x.1 x.2) ->
  forEach (fun v => ExposeVariable v.1 (g v.2)) l c = Ok c' ->
  Inv c' /\ auxStore c' = auxStore c
  /\ variableDeclarations_ c' = variableDeclarations_ c.
Proof.
  intros Hg Hinv Hl.
  apply (forEach_invariant
           (fun s => Inv s /\ auxStore s = auxStore c
                     /\ variableDeclarations_ s = variableDeclarations_ c)).
  - intros x s s' Hx (Hs & HA & HD) H.
    destruct (ExposeVariable_Inv x.1 (g x.2) s s' Hs) as (Hs' & HA' & HD');
      [|exact H|].
    + rewrite HA, HD. apply (entryOk_type _ _ _ x.2); [apply Hg|].
      apply Hl, Hx.
    + split; [exact Hs'|]. split; congruence.
  - split; [exact Hinv | split; reflexivity].
Qed.

(** The entries of the top frame still satisfy the invariant once the frame
    is popped. *)
Lemma Inv_top_entries c f rest :
  Inv c -> exposedVariables_ c = f :: rest ->
  forall x, x ∈ map_to_list f ->
    entryOk (variableDeclarations_ c) (auxStore c) x.1 x.2.
Proof.
  intros [HF _] Hc [n v] Hx. apply elem_of_map_to_list in Hx.
  apply (HF f n v); [rewrite Hc; left | exact Hx].
Qed.

Lemma Inv_set_frames_pop c f rest :
  Inv c -> exposedVariables_ c = f :: rest ->
  Inv (set_exposedVariables_ rest c).
Proof.
  unfold Inv. intros H Hc. simpl. rewrite Hc in H.
  apply (InvT_pop f), H.
Qed.

Lemma AppendExposedVariables_Inv c c' :
  Inv c -> AppendExposedVariables c = Ok c' ->
  Inv c' /\ auxStore c' = auxStore c
  /\ variableDeclarations_ c' = variableDeclarations_ c.
Proof.
  unfold AppendExposedVariables. intros Hinv H. bind_inv H. bind_inv H.
  apply top_Ok in E as (rest & Hc). rewrite Hc in E0. simpl in E0.
  inversion E0. subst a0. clear E0.
  apply (exposeLoop_Inv id) in H; [exact H | reflexivity | |].
  - apply (Inv_set_frames_pop c a rest Hinv Hc).
  - simpl. apply (Inv_top_entries c a rest Hinv Hc).
Qed.

Lemma ExitVariableScope_Inv c c' :
  Inv c -> ExitVariableScope c = Ok c' ->
  Inv c' /\ auxStore c' = auxStore c
  /\ variableDeclarations_ c' = variableDeclarations_ c.
Proof.
  unfold ExitVariableScope. intros Hinv H. bind_inv H. bind_inv H. bind_inv H.
  bind_inv H. apply AppendExposedVariables_Inv in H; [exact H|].
  exact Hinv.
Qed.

Lemma declaredIn_insert A p aux name v :
  A !! p = Some aux ->
  declaredIn
    (<[p := {| declaredVariables := <[name := v]> (declaredVariables aux) |}]> A)
    name.
Proof.
  intros Hp. exists {| declaredVariables := <[name := v]> (declaredVariables aux) |}.
  split.
  - apply list_elem_of_lookup. exists p. apply list_lookup_insert_eq.
    apply lookup_lt_Some in Hp. exact Hp.
  - simpl. rewrite lookup_insert_eq. eauto.
Qed.

Lemma storeGrows_insert A p aux name v :
  A !! p = Some aux ->
  storeGrows A
    (<[p := {| declaredVariables := <[name := v]> (declaredVariables aux) |}]> A).
Proof.
  intros Hp n (rec & Hin & Hsome).
  apply list_elem_of_lookup in Hin as [i Hi].
  destruct (decide (i = p)) as [-> | Hne].
  - rewrite Hp in Hi. inversion Hi. subst rec.
    exists {| declaredVariables := <[name := v]> (declaredVariables aux) |}.
    split.
    + apply list_elem_of_lookup. exists p. apply list_lookup_insert_eq.
      apply lookup_lt_Some in Hp. exact Hp.
    + simpl. destruct (decide (n = name)) as [-> | Hn].
      * rewrite lookup_insert_eq. eauto.
      * rewrite lookup_insert_ne by congruence. exact Hsome.
  - exists rec. split; [|exact Hsome].
    apply list_elem_of_lookup. exists i.
    rewrite list_lookup_insert_ne by congruence. exact Hi.
Qed.

Lemma writeDeclaredVariable_Inv name v c c' :
  Inv c ->
  auxOk (variableDeclarations_ c) name v ->
  writeDeclaredVariable name v c = Ok c' ->
  Inv c' /\ storeGrows (auxStore c) (auxStore c')
  /\ declaredIn (auxStore c') name
  /\ variableDeclarations_ c' = variableDeclarations_ c
  /\ exposedVariables_ c' = exposedVariables_ c.
Proof.
  unfold writeDeclaredVariable. intros [HF HA] Hv H.
  destruct (currentVariableReferenceScope_ c) as [p|]; [|discriminate].
  destruct (auxStore c !! p) as [aux|] eqn:Hp; [|discriminate].
  inversion H. subst c'. clear H. simpl.
  pose proof (storeGrows_insert (auxStore c) p aux name v Hp) as Hgrow.
  split; [split|split_all; try reflexivity].
  - simpl. intros frame n ev Hin Hl.
    apply (entryOk_grows _ _ _ _ _ Hgrow). apply (HF frame n ev Hin Hl).
  - simpl. intros rec n w Hin Hl.
    apply list_elem_of_lookup in Hin as [i Hi].
    destruct (decide (i = p)) as [-> | Hne].
    + rewrite list_lookup_insert_eq in Hi
        by (apply lookup_lt_Some in Hp; exact Hp).
      inversion Hi. subst rec. simpl in Hl.
      destruct (decide (n = name)) as [-> | Hn].
      * rewrite lookup_insert_eq in Hl. inversion Hl. subst w. exact Hv.
      * rewrite lookup_insert_ne in Hl by congruence.
        apply (HA aux n w); [|exact Hl].
        apply list_elem_of_lookup. exists p. exact Hp.
    + rewrite list_lookup_insert_ne in Hi by congruence.
      apply (HA rec n w); [|exact Hl].
      apply list_elem_of_lookup. exists i. exact Hi.
  - exact Hgrow.
  - apply declaredIn_insert. exact Hp.
Qed.

(** [ExposeNewVariable] keeps the invariant when the name is declared with
    the type of the exposed variable. *)
Lemma ExposeNewVariable_Inv name v c c' :
  Inv c ->
  declaredAs (variableDeclarations_ c) name (type (base v)) ->
  ExposeNewVariable name v c = Ok c' ->
  Inv c' /\ storeGrows (auxStore c) (auxStore c')
  /\ variableDeclarations_ c' = variableDeclarations_ c.
Proof.
  unfold ExposeNewVariable. intros Hinv Hd H. bind_inv H.
  destruct (isElementType (type (base v))) eqn:Hel.
  - (* the frame is extended first, the record is written next *)
    apply ExposeVariable_Ok in E as (f & rest & Hc & Hcase).
    assert (HD : variableDeclarations_ a = variableDeclarations_ c).
    { destruct Hcase as [[_ ->] | (e & _ & _ & ->)]; reflexivity. }
    assert (HA : auxStore a = auxStore c).
    { destruct Hcase as [[_ ->] | (e & _ & _ & ->)]; reflexivity. }
    unfold writeDeclaredVariable in H.
    destruct (currentVariableReferenceScope_ a) as [p|]; [|discriminate].
    destruct (auxStore a !! p) as [aux|] eqn:Hp; [|discriminate].
    inversion H. subst c'. clear H. simpl.
    pose proof (storeGrows_insert (auxStore a) p aux name
                  {| aux_type := type (base v);
                     degreeOfExposure := degree (base v);
                     aux_isTemp := false |} Hp) as Hgrow.
    destruct Hinv as [HF HAux].
    split; [split|split].
    + simpl. rewrite HD. intros frame n ev Hin Hl.
      assert (Hcases : (n = name /\ ev = v)
                       \/ exists frame0, frame0 ∈ exposedVariables_ c
                                         /\ frame0 !! n = Some ev).
      { destruct Hcase as [[Hfresh ->] | (e & _ & _ & ->)].
        - simpl in Hin. apply elem_of_cons in Hin as [-> | Hin].
          + destruct (decide (n = name)) as [-> | Hne].
            * rewrite lookup_insert_eq in Hl. inversion Hl. left. tauto.
            * rewrite lookup_insert_ne in Hl by congruence.
              right. exists f. split; [rewrite Hc; left | exact Hl].
          + right. exists frame. split; [rewrite Hc; right; exact Hin | exact Hl].
        - right. exists frame. split; assumption. }
      destruct Hcases as [[-> ->] | (frame0 & Hin0 & Hl0)].
      * split; [exact Hd|]. intros _. apply declaredIn_insert. exact Hp.
      * apply (entryOk_grows _ (auxStore a)); [exact Hgrow|].
        rewrite HA. apply (HF frame0 n ev Hin0 Hl0).
    + simpl. rewrite HD. intros rec n w Hin Hl.
      apply list_elem_of_lookup in Hin as [i Hi].
      destruct (decide (i = p)) as [-> | Hne].
      * rewrite list_lookup_insert_eq in Hi
          by (apply lookup_lt_Some in Hp; exact Hp).
        inversion Hi. subst rec. simpl in Hl.
        destruct (decide (n = name)) as [-> | Hn].
        -- rewrite lookup_insert_eq in Hl. inversion Hl. subst w.
           unfold auxOk. simpl. split_all; [reflexivity | exact Hel | exact Hd].
        -- rewrite lookup_insert_ne in Hl by congruence.
           apply (HAux aux n w); [|exact Hl].
           apply list_elem_of_lookup. exists p. rewrite <- HA. exact Hp.
      * rewrite list_lookup_insert_ne in Hi by congruence.
        apply (HAux rec n w); [|exact Hl].
        apply list_elem_of_lookup. exists i. rewrite <- HA. exact Hi.
    + rewrite <- HA. exact Hgrow.
    + exact HD.
  - inversion H. subst c'. clear H.
    destruct (ExposeVariable_Inv name v c a Hinv) as (Hinv' & HA & HD);
      [|exact E|].
    + split; [exact Hd|]. rewrite Hel. discriminate.
    + split; [exact Hinv'|]. split; [|exact HD]. rewrite HA.
      apply storeGrows_refl.
Qed.

(** A loop of [ExposeNewVariable] over the entries of a popped frame, each
    transformed by a type-preserving, possibly state-reading step. *)
Lemma exposeNewLoop_Inv
    (step : ExposedVariable -> GraphPatternContext -> Result ExposedVariable)
    (l : list (string * ExposedVariable)) c c' :
  (forall v s v', step v s = Ok v' -> type (base v') = type (base v)) ->
  Inv c ->
  (forall x, x ∈ l ->
     entryOk (variableDeclarations_ c) (auxStore c) x.1 x.2) ->
  forEach (fun v s => v' ← step v.2 s; ExposeNewVariable v.1 v' s) l c = Ok c' ->
  Inv c' /\ storeGrows (auxStore c) (auxStore c')
  /\ variableDeclarations_ c' = variableDeclarations_ c.
Proof.
  intros Hstep Hinv Hl.
  apply (forEach_invariant
           (fun s => Inv s /\ storeGrows (auxStore c) (auxStore s)
                     /\ variableDeclarations_ s = variableDeclarations_ c)).
  - intros x s s' Hx (Hs & HA & HD) H. bind_inv H.
    destruct (ExposeNewVariable_Inv x.1 a s s' Hs) as (Hs' & HA' & HD');
      [|exact H|].
    + rewrite HD, (Hstep _ _ _ E). apply (Hl x Hx).
    + split; [exact Hs'|]. split; [|congruence].
      apply (storeGrows_trans _ _ _ HA HA').
  - split; [exact Hinv|]. split; [apply storeGrows_refl | reflexivity].
Qed.

Lemma Inv_replace_top c f f' rest :
  Inv c -> exposedVariables_ c = f :: rest ->
  (forall name ev',
     f' !! name = Some ev' ->
     exists frame0 ev,
       frame0 ∈ f :: rest /\ frame0 !! name = Some ev
       /\ type (base ev') = type (base ev)) ->
  Inv (set_exposedVariables_ (f' :: rest) c).
Proof.
  unfold Inv. intros H Hc Hfrom. simpl. rewrite Hc in H.
  apply (InvT_frames _ _ _ _ H). intros frame name ev Hin Hl.
  apply elem_of_cons in Hin as [-> | Hin].
  - apply (Hfrom name ev Hl).
  - exists frame, ev. split_all; [right; exact Hin | exact Hl | reflexivity].
Qed.

Lemma declaredAs_insert D name d n ty :
  D !! name = None -> declaredAs D n ty -> declaredAs (<[name := d]> D) n ty.
Proof.
  intros Hnone (d0 & Hd0 & Ht). exists d0. split; [|exact Ht].
  rewrite lookup_insert_ne; [exact Hd0|]. intros ->. congruence.
Qed.

Lemma InvT_declare F A D name d :
  D !! name = None -> InvT F A D -> InvT F A (<[name := d]> D).
Proof.
  intros Hnone [HF HA]. split.
  - intros frame n ev Hin Hl. destruct (HF frame n ev Hin Hl) as [Hd Hs].
    split; [|exact Hs]. apply declaredAs_insert; assumption.
  - intros rec n v Hin Hl. destruct (HA rec n v Hin Hl) as (Ht & He & Hd).
    split_all; [exact Ht | exact He |]. apply declaredAs_insert; assumption.
Qed.

Lemma DeclareVariable_Inv name pos ty isTemp c c' :
  Inv c -> DeclareVariable name pos ty isTemp c = Ok c' -> Inv c'.
Proof.
  unfold DeclareVariable. intros Hinv H. bind_inv H. bind_inv H.
  bind_inv H. bind_inv H. inversion H. subst c'. clear H.
  set (c1 := if IsSet (lastVariableDeclarationPosition_ c) then c
             else set_lastVariableDeclarationPosition_ pos c) in *.
  assert (Hinv1 : Inv c1).
  { unfold c1. destruct (IsSet (lastVariableDeclarationPosition_ c));
      exact Hinv. }
  assert (Hd1 : variableDeclarations_ c1 = variableDeclarations_ c).
  { unfold c1. destruct (IsSet (lastVariableDeclarationPosition_ c));
      reflexivity. }
  assert (Hinv2 : Inv a0 /\ declaredAs (variableDeclarations_ a0) name ty).
  { destruct (variableDeclarations_ c1 !! name) as [it|] eqn:Hit.
    - destruct (bool_decide (type_ it = ty)) eqn:Hty; [|discriminate].
      apply bool_decide_eq_true in Hty. simpl in E0.
      assert (a0 = c1) as ->
        by (destruct ty; try discriminate; inversion E0; reflexivity).
      split; [exact Hinv1|]. exists it. split; assumption.
    - inversion E0. subst a0. split.
      + unfold Inv. simpl. apply InvT_declare; [exact Hit | exact Hinv1].
      + simpl. eexists. split; [apply lookup_insert_eq | reflexivity]. }
  destruct Hinv2 as [Hinv2 Hdecl].
  apply ExposeNewVariable_Inv in E1 as (Hinv3 & _ & _);
    [exact Hinv3 | exact Hinv2 | exact Hdecl].
Qed.

Lemma DeclareNodeVariable_Inv v c c' :
  Inv c -> DeclareNodeVariable v c = Ok c' -> Inv c'.
Proof.
  unfold DeclareNodeVariable. intros Hinv H. bind_inv H.
  apply DeclareVariable_Inv in E; [|exact Hinv].
  inversion H. subst c'.
  destruct (expectingLeftBoundaryVariable_ a && negb (evd_isTemp v)); exact E.
Qed.

Lemma EnterVariableScope_Inv c : Inv c -> Inv (EnterVariableScope c).
Proof. unfold Inv, EnterVariableScope. simpl. apply InvT_push. Qed.

Lemma EnterPathPattern_Inv sel c : Inv c -> Inv (EnterPathPattern sel c).
Proof.
  unfold Inv, EnterPathPattern. intros H. destruct sel; simpl.
  - apply InvT_push, InvT_push, H.
  - apply InvT_push, H.
Qed.

Lemma EnterParenthesizedPathPatternExpression_Inv c :
  Inv c -> Inv (EnterParenthesizedPathPatternExpression c).
Proof.
  unfold Inv, EnterParenthesizedPathPatternExpression. simpl. apply InvT_push.
Qed.

Lemma EnterQuestionedPathPrimary_Inv c :
  Inv c -> Inv (EnterQuestionedPathPrimary c).
Proof. unfold Inv, EnterQuestionedPathPrimary. simpl. apply InvT_push. Qed.

Lemma EnterPathPatternUnion_Inv c : Inv c -> Inv (EnterPathPatternUnion c).
Proof. unfold Inv, EnterPathPatternUnion. simpl. apply InvT_push. Qed.

Lemma EnterPathPatternUnionOperand_Inv c :
  Inv c -> Inv (EnterPathPatternUnionOperand c).
Proof. unfold Inv, EnterPathPatternUnionOperand. simpl. apply InvT_push. Qed.

Lemma EnterQuantifiedPathPrimary_Inv bounded c c' :
  Inv c -> EnterQuantifiedPathPrimary bounded c = Ok c' -> Inv c'.
Proof.
  unfold EnterQuantifiedPathPrimary. intros Hinv H.
  destruct (isInsideQuantifiedPathPrimary_ c); [discriminate|].
  bind_inv H. destruct a; [discriminate|]. inversion H. subst c'.
  unfold Inv. simpl. apply InvT_push, Hinv.
Qed.

Lemma EnterPathMode_Inv mode c c' :
  Inv c -> EnterPathMode mode c = Ok c' -> Inv c'.
Proof.
  unfold EnterPathMode. intros Hinv H. bind_inv H. inversion H. exact Hinv.
Qed.

Lemma ExitPathMode_Inv c c' : Inv c -> ExitPathMode c = Ok c' -> Inv c'.
Proof.
  unfold ExitPathMode. intros Hinv H. bind_inv H. inversion H. exact Hinv.
Qed.

Lemma EnterNodePattern_Inv c c' : Inv c -> EnterNodePattern c = Ok c' -> Inv c'.
Proof.
  unfold EnterNodePattern. intros Hinv H. bind_inv H. inversion H. exact Hinv.
Qed.

Lemma EnterEdgePattern_Inv c c' : Inv c -> EnterEdgePattern c = Ok c' -> Inv c'.
Proof.
  unfold EnterEdgePattern. intros Hinv H. bind_inv H. inversion H. exact Hinv.
Qed.

Lemma AddSearchCondition_Inv w c c' :
  Inv c -> AddSearchCondition w c = Ok c' -> Inv c'.
Proof.
  unfold AddSearchCondition. intros Hinv H. bind_inv H. inversion H.
  exact Hinv.
Qed.

Lemma VariableReferenceScope_enter_Inv c :
  Inv c -> Inv (VariableReferenceScope_enter c).1.
Proof.
  unfold Inv, VariableReferenceScope_enter. simpl. intros [HF HA]. split.
  - intros frame n ev Hin Hl. destruct (HF frame n ev Hin Hl) as [Hd Hs].
    split; [exact Hd|]. intros He. destruct (Hs He) as (rec & Hrec & Hsome).
    exists rec. split; [|exact Hsome]. apply elem_of_app. left. exact Hrec.
  - intros rec n v Hin Hl. apply elem_of_app in Hin as [Hin | Hin].
    + apply (HA rec n v Hin Hl).
    + apply list_elem_of_singleton in Hin. subst rec. simpl in Hl.
      rewrite lookup_empty in Hl. discriminate.
Qed.

Lemma VariableReferenceScope_exit_Inv p c :
  Inv c -> Inv (VariableReferenceScope_exit p c).
Proof. intros H. exact H. Qed.

Lemma ExitParenthesizedPathPatternExpression_Inv hasSubpathVariable c c' :
  Inv c ->
  ExitParenthesizedPathPatternExpression hasSubpathVariable c = Ok c' ->
  Inv c'.
Proof.
  unfold ExitParenthesizedPathPatternExpression. intros Hinv H. bind_inv H.
  apply ExitVariableScope_Inv in E as (Hinv' & _ & _); [|exact Hinv].
  bind_inv H. destruct (hasSubpathVariable && negb a0); [discriminate|].
  bind_inv H. inversion H. exact Hinv'.
Qed.

Lemma Finalize_Inv c c' : Inv c -> Finalize c = Ok c' -> Inv c'.
Proof.
  unfold Finalize. intros Hinv H. bind_inv H. bind_inv H.
  apply ExitVariableScope_Inv in H as (Hinv' & _ & _); [exact Hinv'|].
  exact Hinv.
Qed.

Lemma ExitPathPatternUnion_Inv c c' :
  Inv c -> ExitPathPatternUnion c = Ok c' -> Inv c'.
Proof.
  unfold ExitPathPatternUnion. intros Hinv H. bind_inv H.
  apply AppendExposedVariables_Inv in E as (Hinv' & _ & _); [|exact Hinv].
  bind_inv H. bind_inv H. bind_inv H. bind_inv H. bind_inv H.
  inversion H. exact Hinv'.
Qed.

Lemma quantifiedDegree_type bounded v s v' :
  quantifiedDegree bounded v s = Ok v' -> type (base v') = type (base v).
Proof.
  unfold quantifiedDegree. intros H.
  destruct (negb (bool_decide _)).
  - bind_inv H. destruct a; inversion H; reflexivity.
  - inversion H. reflexivity.
Qed.

Lemma questionedDegree_type v :
  type (base (questionedDegree v)) = type (base v).
Proof. unfold questionedDegree. destruct (degree (base v)); reflexivity. Qed.

Lemma boundGroup_type v : type (base (boundGroup v)) = type (base v).
Proof. unfold boundGroup. destruct (bool_decide _); reflexivity. Qed.

Lemma ExitQuantifiedPathPrimary_Inv bounded lowerBound c c' :
  Inv c -> ExitQuantifiedPathPrimary bounded lowerBound c = Ok c' -> Inv c'.
Proof.
  unfold ExitQuantifiedPathPrimary. intros Hinv H. bind_inv H. bind_inv H.
  bind_inv H. simpl in E, E0.
  apply top_Ok in E as (rest & Hc). rewrite Hc in E0. inversion E0. subst a0.
  apply (exposeNewLoop_Inv (quantifiedDegree bounded)) in E1
    as (Hinv' & _ & _).
  - bind_inv H. destruct (bool_decide (a0 = 0)); [discriminate|].
    bind_inv H. bind_inv H. inversion H. exact Hinv'.
  - apply quantifiedDegree_type.
  - apply (Inv_set_frames_pop
             (set_isInsideQuantifiedPathPrimary_ false c) a rest Hinv Hc).
  - simpl. apply (Inv_top_entries c a rest Hinv Hc).
Qed.

Lemma ExitQuestionedPathPrimary_Inv c c' :
  Inv c -> ExitQuestionedPathPrimary c = Ok c' -> Inv c'.
Proof.
  unfold ExitQuestionedPathPrimary. intros Hinv H. bind_inv H. bind_inv H.
  bind_inv H. apply top_Ok in E as (rest & Hc). rewrite Hc in E0.
  inversion E0. subst a0.
  apply (exposeNewLoop_Inv (fun v _ => Ok (questionedDegree v))) in E1
    as (Hinv' & _ & _).
  - bind_inv H. destruct (bool_decide (a0 = 0)); [discriminate|].
    bind_inv H. bind_inv H. inversion H. exact Hinv'.
  - intros v s v' Hv. inversion Hv. apply questionedDegree_type.
  - apply (Inv_set_frames_pop c a rest Hinv Hc).
  - simpl. apply (Inv_top_entries c a rest Hinv Hc).
Qed.

Lemma markStrictInterior_type c frame marked :
  markStrictInterior c frame = Ok marked ->
  forall name ev',
    marked !! name = Some ev' ->
    exists ev, frame !! name = Some ev /\ type (base ev') = type (base ev).
Proof.
  unfold markStrictInterior. intros H. bind_inv H. inversion H. subst marked.
  intros name ev'. rewrite map_lookup_imap.
  destruct (frame !! name) as [ev|]; [|discriminate]. simpl.
  intros Hev. exists ev. split; [reflexivity|].
  destruct (isBoundaryVariable c name); inversion Hev; reflexivity.
Qed.

Lemma ExitPathPattern_Inv c c' auxData :
  Inv c -> ExitPathPattern c = Ok (c', auxData) -> Inv c'.
Proof.
  unfold ExitPathPattern. intros Hinv H. bind_inv H.
  assert (Hinv1 : Inv a).
  { destruct (isInsideSelectivePattern_ c); [|inversion E; subst a; exact Hinv].
    bind_inv_as E scopeFrame Hscope. bind_inv_as E c1 Hexit.
    apply ExitVariableScope_Inv in Hexit as (Hinv1 & _ & _); [|exact Hinv].
    bind_inv_as E frame Hframe. bind_inv_as E marked Hmark.
    bind_inv_as E frames Hframes. inversion E. subst a.
    simpl in Hframe, Hmark, Hframes.
    apply top_Ok in Hframe as (rest & Hc1).
    apply updTop_Ok in Hframes as (x & rest' & Hc1' & ->).
    rewrite Hc1 in Hc1'. inversion Hc1'. subst x rest'.
    apply (Inv_replace_top
             (set_searchConditionScopes_
                (setScopeFrom
                   (indexOfFirstSearchConditionScopeInPathPattern_ c1)
                   (dom scopeFrame) (searchConditionScopes_ c1)) c1)
             frame marked rest).
    - exact Hinv1.
    - exact Hc1.
    - intros name ev' Hl.
      destruct (markStrictInterior_type _ _ _ Hmark name ev' Hl)
        as (ev & Hev & Ht).
      exists frame, ev. split_all; [left | exact Hev | exact Ht]. }
  clear E. bind_inv H. bind_inv H. bind_inv H.
  apply top_Ok in E as (rest & Hc). rewrite Hc in E0. inversion E0. subst a1.
  apply (exposeLoop_Inv boundGroup) in E1 as (Hinv' & _ & _).
  - bind_inv H. destruct (negb a1); [discriminate|]. bind_inv H.
    inversion H. exact Hinv'.
  - apply boundGroup_type.
  - apply (Inv_set_frames_pop a a0 rest Hinv1 Hc).
  - simpl. apply (Inv_top_entries a a0 rest Hinv1 Hc).
Qed.

Lemma mergeOperandVariable_from unions operand union x U U' :
  x ∈ map_to_list operand ->
  (forall name ev',
     U !! name = Some ev' ->
     exists frame0 ev,
       frame0 ∈ [operand; union] /\ frame0 !! name = Some ev
       /\ type (base ev') = type (base ev)) ->
  mergeOperandVariable unions x U = Ok U' ->
  forall name ev',
    U' !! name = Some ev' ->
    exists frame0 ev,
      frame0 ∈ [operand; union] /\ frame0 !! name = Some ev
      /\ type (base ev') = type (base ev).
Proof.
  intros Hx HU H name ev' Hl. destruct x as [n v].
  apply elem_of_map_to_list in Hx.
  unfold mergeOperandVariable in H. simpl in H.
  destruct (U !! n) as [it|] eqn:Hit.
  - inversion H. subst U'. clear H.
    destruct (decide (name = n)) as [-> | Hne].
    + rewrite lookup_insert_eq in Hl. inversion Hl. subst ev'.
      destruct (HU n it Hit) as (frame0 & ev & Hin & Hev & Ht).
      exists frame0, ev. split_all; [exact Hin | exact Hev | exact Ht].
    + rewrite lookup_insert_ne in Hl by congruence. apply (HU name ev' Hl).
  - bind_inv H. inversion H. subst U'. clear H.
    destruct (decide (name = n)) as [-> | Hne].
    + rewrite lookup_insert_eq in Hl. inversion Hl. subst ev'.
      exists operand, v. split_all; [left | exact Hx |].
      destruct (negb (isFirstOperand a) && bool_decide _); reflexivity.
    + rewrite lookup_insert_ne in Hl by congruence. apply (HU name ev' Hl).
Qed.

Lemma ExitPathPatternUnionOperand_Inv c c' :
  Inv c -> ExitPathPatternUnionOperand c = Ok c' -> Inv c'.
Proof.
  unfold ExitPathPatternUnionOperand. intros Hinv H.
  bind_inv H. bind_inv H. bind_inv H. bind_inv H. bind_inv H.
  apply top_Ok in E as (rest & Hc). rewrite Hc in E0. inversion E0. subst a0.
  apply top_Ok in E1 as (rest' & ->).
  apply updTop_Ok in E3 as (x & rest'' & Hx & ->). inversion Hx. subst x rest''.
  bind_inv H. bind_inv H. bind_inv H. bind_inv H. bind_inv H.
  inversion H. subst c'. clear H.
  assert (Hfrom : forall name ev',
             a2 !! name = Some ev' ->
             exists frame0 ev,
               frame0 ∈ [a; a1] /\ frame0 !! name = Some ev
               /\ type (base ev') = type (base ev)).
  { revert E2.
    apply (forEach_invariant
             (fun U => forall name ev',
                U !! name = Some ev' ->
                exists frame0 ev,
                  frame0 ∈ [a; a1] /\ frame0 !! name = Some ev
                  /\ type (base ev') = type (base ev))).
    - intros y U U' Hy HU HU'.
      apply (mergeOperandVariable_from _ a a1 y U U' Hy HU HU').
    - intros name ev'. rewrite demoteMissing_lookup.
      destruct (a1 !! name) as [ev|] eqn:Hev; [|discriminate]. simpl.
      intros Hl. exists a1, ev. split_all; [right; left | exact Hev |].
      inversion Hl. destruct (_ && _); reflexivity. }
  unfold Inv. simpl. unfold Inv in Hinv. rewrite Hc in Hinv.
  apply (InvT_frames _ _ _ _ Hinv). intros frame name ev Hin Hl.
  apply elem_of_cons in Hin as [-> | Hin].
  - destruct (Hfrom name ev Hl) as (frame0 & ev0 & Hin0 & Hl0 & Ht).
    exists frame0, ev0. split_all; [|exact Hl0 | exact Ht].
    apply elem_of_cons in Hin0 as [-> | Hin0]; [left|].
    apply list_elem_of_singleton in Hin0. subst. right. left.
  - exists frame, ev. split_all; [right; right; exact Hin | exact Hl | reflexivity].
Qed.

(** ** The invariant is preserved by the traversal *)

Scheme ValueExpression_mind := Induction for ValueExpression Sort Prop
  with PathPatternExpression_mind := Induction for PathPatternExpression Sort Prop
  with PathPrimary_mind := Induction for PathPrimary Sort Prop.

Lemma list_all_Forall {A : Type} (PA : A -> Type) (Q : A -> Prop) (l : list A) :
  (forall a, PA a -> Q a) -> list_all A PA l -> Forall Q l.
Proof.
  intros HPQ Hall. induction Hall as [|a Ha l Hl IH].
  - apply Forall_nil_2.
  - apply Forall_cons_2; [apply HPQ, Ha | exact IH].
Qed.

Section TraversalInvariant.
Variable featureSupported : Feature -> bool.
Variable ProcessFallback : LabelExpression -> Result unit.

Lemma ProcessElementPattern_Keeps value :
  Keeps (ProcessElementPattern ProcessFallback value).
Proof.
  intros c c' Hinv H. destruct value as [pos filler | pos dir filler];
    simpl in H.
  - bind_inv_as H c1 H1. apply EnterNodePattern_Inv in H1; [|exact Hinv].
    bind_inv_as H c2 H2. bind_inv_as H u Hu. inversion H. subst c'.
    destruct (var filler) as [v|].
    + apply (DeclareNodeVariable_Inv v c1 c2 H1 H2).
    + inversion H2. subst c2. exact H1.
  - bind_inv_as H c1 H1. apply EnterEdgePattern_Inv in H1; [|exact Hinv].
    bind_inv_as H c2 H2. bind_inv_as H u Hu. inversion H. subst c'.
    destruct (var filler) as [v|].
    + apply (DeclareVariable_Inv _ _ _ _ c1 c2 H1 H2).
    + inversion H2. subst c2. exact H1.
Qed.

Lemma ProcessParenthesized_Keeps P value :
  Keeps (P (pppe_pattern value)) ->
  Keeps (ProcessParenthesized featureSupported P value).
Proof.
  intros HP c c' Hinv H. unfold ProcessParenthesized in H.
  bind_inv_as H u1 F1. bind_inv_as H u2 F2. bind_inv_as H u3 F3.
  bind_inv_as H u4 F4. bind_inv_as H c1 H1. bind_inv_as H c2 H2.
  bind_inv_as H c3 H3. bind_inv_as H c4 H4. bind_inv_as H c5 H5.
  apply (fun Hi => ExitParenthesizedPathPatternExpression_Inv _ c5 c' Hi H).
  apply (ExitPathMode_Inv c4 c5); [|exact H5].
  assert (Hinv3 : Inv c3).
  { apply (HP c2 c3); [|exact H3].
    apply (fun Hi => EnterPathMode_Inv _ c1 c2 Hi H2).
    pose proof (EnterParenthesizedPathPatternExpression_Inv c Hinv) as H0.
    destruct (pppe_var value) as [v|].
    - apply (DeclareVariable_Inv _ _ _ _ _ c1 H0 H1).
    - inversion H1. subst c1. exact H0. }
  destruct (pppe_where value) as [w|].
  - apply (AddSearchCondition_Inv w c3 c4 Hinv3 H4).
  - inversion H4. subst c4. exact Hinv3.
Qed.

Lemma ActivateQuantifier_Keeps q c c' active :
  Inv c ->
  ActivateQuantifier featureSupported q c = Ok (c', active) -> Inv c'.
Proof.
  intros Hinv H. destruct q as [| |lower upper]; simpl in H.
  - inversion H. subst c'. exact Hinv.
  - inversion H. subst c'. apply EnterQuestionedPathPrimary_Inv, Hinv.
  - bind_inv_as H u Hu. bind_inv_as H c1 H1. inversion H. subst c'.
    apply (EnterQuantifiedPathPrimary_Inv _ c c1 Hinv H1).
Qed.

Lemma DeactivateQuantifier_Keeps active : Keeps (DeactivateQuantifier active).
Proof.
  intros c c' Hinv H. destruct active as [| |bounded lowerBound]; simpl in H.
  - inversion H. subst c'. exact Hinv.
  - apply (ExitQuestionedPathPrimary_Inv c c' Hinv H).
  - apply (ExitQuantifiedPathPrimary_Inv _ _ c c' Hinv H).
Qed.

Lemma ProcessFactor_Keeps P factor :
  Keeps (ProcessPrimary featureSupported ProcessFallback P (pattern factor)) ->
  Keeps (ProcessFactor featureSupported ProcessFallback P factor).
Proof.
  intros HP c c' Hinv H. unfold ProcessFactor in H.
  pose proof (VariableReferenceScope_enter_Inv c Hinv) as H0.
  destruct (VariableReferenceScope_enter c) as [c0 parentScope].
  simpl in H0. bind_inv_as H r1 H1. destruct r1 as [c1 active].
  apply ActivateQuantifier_Keeps in H1; [|exact H0].
  bind_inv_as H c2 H2. bind_inv_as H c3 H3. inversion H. subst c'.
  apply VariableReferenceScope_exit_Inv.
  apply (DeactivateQuantifier_Keeps active c2 c3); [|exact H3].
  apply (HP c1 c2 H1 H2).
Qed.

Lemma ProcessTerm_Keeps P unionActive term :
  Forall (fun factor => Keeps (ProcessPrimary featureSupported ProcessFallback P (pattern factor))) term ->
  Keeps (ProcessTerm featureSupported ProcessFallback P unionActive term).
Proof.
  intros HP c c' Hinv H. unfold ProcessTerm in H. bind_inv_as H c1 H1.
  assert (Hinv1 : Inv c1).
  { revert H1. apply (forEach_invariant Inv).
    - intros factor s s' Hin Hs Hf.
      refine (ProcessFactor_Keeps P factor _ s s' Hs Hf).
      rewrite Forall_forall in HP. apply HP, Hin.
    - destruct unionActive; [|exact Hinv].
      apply EnterPathPatternUnionOperand_Inv, Hinv. }
  destruct unionActive.
  - apply (ExitPathPatternUnionOperand_Inv c1 c' Hinv1 H).
  - inversion H. subst c'. exact Hinv1.
Qed.

Lemma Process_unfold op terms c :
  Process featureSupported ProcessFallback (mkPathPatternExpression op terms) c
  = ((if bool_decide (1 < length terms)%nat
      then ThrowIfFeatureNotSupported featureSupported
             (if bool_decide (op = Union) then G032 else G030)
      else Ok tt);;
     let '(c, unionParent) := VariableReferenceScope_enter c in
     let unionActive := bool_decide (1 < length terms)%nat in
     let c := if unionActive then EnterPathPatternUnion c else c in
     c ← forEach (ProcessTerm featureSupported ProcessFallback
                    (Process featureSupported ProcessFallback) unionActive)
                 terms c;
     c ← (if unionActive then ExitPathPatternUnion c else Ok c);
     Ok (VariableReferenceScope_exit unionParent c)).
Proof. reflexivity. Qed.

Theorem Process_Keeps (pathPattern : PathPatternExpression) :
  Keeps (Process featureSupported ProcessFallback pathPattern).
Proof.
  revert pathPattern.
  apply (PathPatternExpression_mind
           (fun _ => True)
           (fun e => Keeps (Process featureSupported ProcessFallback e))
           (fun p => Keeps (ProcessPrimary featureSupported ProcessFallback
                              (Process featureSupported ProcessFallback) p)));
    try (intros; exact I).
  - (* a path pattern expression *)
    intros op terms Hall c c' Hinv H. rewrite Process_unfold in H.
    bind_inv_as H u Hu.
    pose proof (VariableReferenceScope_enter_Inv c Hinv) as H0.
    destruct (VariableReferenceScope_enter c) as [c0 unionParent].
    simpl in H0. cbv zeta in H. bind_inv_as H c1 H1. bind_inv_as H c2 H2.
    inversion H. subst c'. apply VariableReferenceScope_exit_Inv.
    assert (Hinv1 : Inv c1).
    { revert H1. apply (forEach_invariant Inv).
      - intros term s s' Hin Hs Ht.
        refine (ProcessTerm_Keeps _ _ term _ s s' Hs Ht).
        assert (Hterms :
                  Forall (Forall (fun factor : PathFactor =>
                                    Keeps (ProcessPrimary featureSupported ProcessFallback
                                             (Process featureSupported
                                                ProcessFallback)
                                             (pattern factor)))) terms).
        { refine (list_all_Forall _ _ terms _ Hall).
          intros term' Hterm'.
          refine (list_all_Forall _ _ term' _ Hterm').
          intros factor Hfactor. destruct Hfactor as [q p Hp]. exact Hp. }
        rewrite Forall_forall in Hterms. apply Hterms, Hin.
      - destruct (bool_decide (1 < length terms)%nat); [|exact H0].
        apply EnterPathPatternUnion_Inv, H0. }
    destruct (bool_decide (1 < length terms)%nat).
    + apply (ExitPathPatternUnion_Inv c1 c2 Hinv1 H2).
    + inversion H2. subst c2. exact Hinv1.
  - (* an element pattern *)
    intros e _. apply ProcessElementPattern_Keeps.
  - (* a parenthesized path pattern expression *)
    intros p Hall. destruct Hall. simpl.
    apply ProcessParenthesized_Keeps. simpl. assumption.
  - (* a simplified path pattern expression *)
    intros s c c' _ H. discriminate.
Qed.
End TraversalInvariant.

(** ** C6 and C10: the declared-variable records *)

Lemma newGraphPatternContext_Inv d : Inv (newGraphPatternContext d).
Proof.
  unfold newGraphPatternContext. apply EnterVariableScope_Inv.
  unfold Inv. simpl. split.
  - intros frame name ev Hin Hl. apply list_elem_of_singleton in Hin.
    subst frame. rewrite lookup_empty in Hl. discriminate.
  - intros rec name v Hin. inversion Hin.
Qed.

Lemma perform_Inv fs pf call c c' :
  Inv c -> perform fs pf call c = Ok c' -> Inv c'.
Proof.
  intros Hinv H. destruct call; simpl in H;
    try (inversion H; subst c'; clear H).
  - apply (DeclareVariable_Inv _ _ _ _ c c' Hinv H).
  - apply (DeclareVariable_Inv _ _ _ _ c c' Hinv H).
  - apply (DeclareNodeVariable_Inv _ c c' Hinv H).
  - apply (DeclareVariable_Inv _ _ _ _ c c' Hinv H).
  - apply EnterPathPattern_Inv, Hinv.
  - bind_inv_as H r Hr. inversion H. subst c'. destruct r as [c1 aux].
    apply (ExitPathPattern_Inv c c1 aux Hinv Hr).
  - apply EnterParenthesizedPathPatternExpression_Inv, Hinv.
  - apply (ExitParenthesizedPathPatternExpression_Inv _ c c' Hinv H).
  - apply EnterVariableScope_Inv, Hinv.
  - apply ExitVariableScope_Inv in H as (Hinv' & _ & _); assumption.
  - apply (EnterPathMode_Inv _ c c' Hinv H).
  - apply (ExitPathMode_Inv c c' Hinv H).
  - apply EnterPathPatternUnion_Inv, Hinv.
  - apply (ExitPathPatternUnion_Inv c c' Hinv H).
  - apply EnterPathPatternUnionOperand_Inv, Hinv.
  - apply (ExitPathPatternUnionOperand_Inv c c' Hinv H).
  - apply (EnterQuantifiedPathPrimary_Inv _ c c' Hinv H).
  - apply (ExitQuantifiedPathPrimary_Inv _ _ c c' Hinv H).
  - apply EnterQuestionedPathPrimary_Inv, Hinv.
  - apply (ExitQuestionedPathPrimary_Inv c c' Hinv H).
  - apply (EnterNodePattern_Inv c c' Hinv H).
  - exact Hinv.
  - apply (EnterEdgePattern_Inv c c' Hinv H).
  - exact Hinv.
  - apply (AddSearchCondition_Inv _ c c' Hinv H).
  - apply (Finalize_Inv c c' Hinv H).
  - apply VariableReferenceScope_enter_Inv, Hinv.
  - exact Hinv.
  - apply (Process_Keeps fs pf _ c c' Hinv H).
Qed.

Lemma Reachable_Inv fs pf c : Reachable fs pf c -> Inv c.
Proof.
  intros (d & calls & H). revert H.
  apply (forEach_invariant Inv).
  - intros call s s' _. apply perform_Inv.
  - apply newGraphPatternContext_Inv.
Qed.


Lemma isElementType_cases t : isElementType t = true <-> t = Node \/ t = Edge.
Proof.
  destruct t; simpl; split; intros H; try discriminate; auto;
    destruct H; discriminate.
Qed.


Lemma afterRepeatedNode_Reachable :
  Reachable allFeatures acceptLabels afterRepeatedNode.
Proof.
  exists false, [CallEnterPathPattern false; CallProcess repeatedNode].
  vm_compute. reflexivity.
Qed.


(** ** The tree walk *)

Lemma walkPathPrimary_unfold {S : Type}
    (visit : PathPrimary -> S -> option (PathPrimary * S))
    (p : PathPrimary) (s : S) :
  walkPathPrimary visit p s
  = match visit p s with
    | Some r => r
    | None =>
        match p with
        | Element e =>
            let '(e, s) := walkElement (walkValueExpression visit) e s in
            (Element e, s)
        | Parenthesized pp =>
            let '(e, s) :=
              walkPathPatternExpression visit (pppe_pattern pp) s in
            let '(w, s) :=
              optS (walkWhere (walkValueExpression visit)) (pppe_where pp) s in
            (Parenthesized
               {| pppe_pos := pppe_pos pp; pppe_var := pppe_var pp;
                  pathMode := pathMode pp; pppe_pattern := e;
                  pppe_where := w |}, s)
        | Simplified _ => (p, s)
        end
    end.
Proof. destruct p; reflexivity. Qed.

Lemma walkPathPatternExpression_unfold {S : Type}
    (visit : PathPrimary -> S -> option (PathPrimary * S)) (op : Op)
    (ts : list (list PathFactor)) (s : S) :
  walkPathPatternExpression visit (mkPathPatternExpression op ts) s
  = let '(ts, s) :=
      mapS (mapS (fun (f : PathFactor) s =>
                    let '(p, s) := walkPathPrimary visit (pattern f) s in
                    ({| quantifier := quantifier f; pattern := p |}, s)))
           ts s in
    (mkPathPatternExpression op ts, s).
Proof. reflexivity. Qed.

(** ** C8: the rewrite of an element property predicate *)

Lemma conjoin_snoc v ps p :
  conjoin v (ps ++ [p])
  = match conjoin v ps with
    | None => Some (propertyEquals v p)
    | Some expr => Some (Binary BoolAnd expr (propertyEquals v p))
    end.
Proof. unfold conjoin. rewrite foldl_app. reflexivity. Qed.

Lemma conjoin_nil_iff v ps : conjoin v ps = None <-> ps = [].
Proof.
  split; [|intros ->; reflexivity].
  induction ps as [|p ps IH] using rev_ind; [reflexivity|].
  rewrite conjoin_snoc. destruct (conjoin v ps); discriminate.
Qed.

Lemma conjoin_left v ps :
  ps <> [] -> exists cond, conjoin v ps = Some cond /\ LeftConjunction v ps cond.
Proof.
  induction ps as [|p ps IH] using rev_ind; [congruence|]. intros _.
  rewrite conjoin_snoc. destruct ps as [|q qs].
  - simpl. eexists. split; [reflexivity|]. apply LeftConjunction_one.
  - destruct IH as (cond & -> & Hcond); [discriminate|].
    eexists. split; [reflexivity|]. apply LeftConjunction_more, Hcond.
Qed.



(** The programs of [rewrite_unittest.cpp] for R4. *)
Example RewriteElementPropertyPredicate_threeProperties :
  conditionOfFirst (RewriteElementPropertyPredicate (programOf threeProperties))
  = Some (Binary BoolAnd
            (Binary BoolAnd
               (Comparison Equals (xDot "a" "prop1") (xDot "x" "p1"))
               (Comparison Equals (xDot "a" "prop2") (xDot "y" "p2")))
            (Comparison Equals (xDot "a" "prop3") (xDot "z" "p3"))).
Proof. vm_compute. reflexivity. Qed.

Example RewriteElementPropertyPredicate_anonymous :
  conditionOfFirst (RewriteElementPropertyPredicate
                      (programOf anonymousProperty))
  = Some (Comparison Equals (xDot "gql_gen_prop1" "prop") (Literal "3"))
  /\ variableOfFirst (RewriteElementPropertyPredicate
                        (programOf anonymousProperty))
     = Some {| evd_name := "gql_gen_prop1"; evd_isTemp := true;
               evd_pos := Some (1, 7)%nat |}.
Proof. split; vm_compute; reflexivity. Qed.

(** ** C10: the [isTemp] flag of the declared-variable records *)

Lemma ExposeVariable_top name v c c' :
  ExposeVariable name v c = Ok c' ->
  auxStore c' = auxStore c
  /\ currentVariableReferenceScope_ c' = currentVariableReferenceScope_ c
  /\ exists frame ev,
       top (exposedVariables_ c') = Ok frame
       /\ frame !! name = Some ev
       /\ isTemp (base ev) = isTemp (base v).
Proof.
  intros H. apply ExposeVariable_Ok in H as (f & rest & Hc & Hcase).
  destruct Hcase as [[Hf ->] | (e & Hf & Hcomp & ->)].
  - split_all; try reflexivity. simpl. eexists _, v.
    split_all; [reflexivity | apply lookup_insert_eq | reflexivity].
  - split_all; try reflexivity. exists f, e. rewrite Hc.
    split_all; [reflexivity | exact Hf |]. destruct Hcomp as [Ht _].
    symmetry. exact Ht.
Qed.

Lemma writeDeclaredVariable_written name v c c' :
  writeDeclaredVariable name v c = Ok c' ->
  exposedVariables_ c' = exposedVariables_ c
  /\ exists p rec,
       currentVariableReferenceScope_ c' = Some p
       /\ auxStore c' !! p = Some rec
       /\ declaredVariables rec !! name = Some v.
Proof.
  unfold writeDeclaredVariable. intros H.
  destruct (currentVariableReferenceScope_ c) as [p|] eqn:Hp; [|discriminate].
  destruct (auxStore c !! p) as [aux|] eqn:Ha; [|discriminate].
  inversion H. subst c'. clear H. split; [reflexivity|].
  eexists p, _. simpl. split_all.
  - exact Hp.
  - apply list_lookup_insert_eq. apply lookup_lt_Some in Ha. exact Ha.
  - simpl. apply lookup_insert_eq.
Qed.

Lemma ExposeNewVariable_written name v c c' :
  ExposeNewVariable name v c = Ok c' ->
  (exists frame ev,
     top (exposedVariables_ c') = Ok frame
     /\ frame !! name = Some ev
     /\ isTemp (base ev) = isTemp (base v))
  /\ (isElementType (type (base v)) = true ->
      exists p rec a,
        currentVariableReferenceScope_ c' = Some p
        /\ auxStore c' !! p = Some rec
        /\ declaredVariables rec !! name = Some a
        /\ aux_isTemp a = false).
Proof.
  unfold ExposeNewVariable. intros H. bind_inv H.
  apply ExposeVariable_top in E as (_ & _ & Hframe).
  destruct (isElementType (type (base v))) eqn:Hel.
  - apply writeDeclaredVariable_written in H as (HF & p & rec & Hp & Hr & Hl).
    split.
    + rewrite HF. exact Hframe.
    + intros _. eexists p, rec, _. split_all; eauto.
  - inversion H. subst c'. split; [exact Hframe | discriminate].
Qed.

Lemma DeclareVariable_written name pos ty t c c' :
  DeclareVariable name pos ty t c = Ok c' ->
  (exists frame ev,
     top (exposedVariables_ c') = Ok frame
     /\ frame !! name = Some ev
     /\ isTemp (base ev) = t)
  /\ (isElementType ty = true ->
      exists p rec a,
        currentVariableReferenceScope_ c' = Some p
        /\ auxStore c' !! p = Some rec
        /\ declaredVariables rec !! name = Some a
        /\ aux_isTemp a = false).
Proof.
  unfold DeclareVariable. intros H. bind_inv H. bind_inv H.
  bind_inv H. bind_inv H. inversion H. subst c'. clear H.
  apply ExposeNewVariable_written in E1 as [Hframe Hrec]. simpl in *.
  split; assumption.
Qed.

Lemma variables_isTemp c vs :
  variables c = Ok vs ->
  exists frame,
    top (exposedVariables_ c) = Ok frame
    /\ forall name d,
         variableDeclarations_ c !! name = Some d ->
         exists ev var,
           frame !! name = Some ev
           /\ vs !! name = Some var
           /\ isTemp var = isTemp (base ev).
Proof.
  unfold variables. intros H. bind_inv_as H frame Hframe.
  exists frame. split; [exact Hframe|]. intros name d Hd.
  apply elem_of_map_to_list in Hd.
  set (Q := fun (r : gmap string Variable_) =>
              exists ev var, frame !! name = Some ev /\ r !! name = Some var
                             /\ isTemp var = isTemp (base ev)).
  assert (Hstep : forall (x : string * VariableDeclaration) r r',
             (x.1 = name \/ Q r) ->
             match frame !! x.1 with
             | None => Abort
             | Some varDef =>
                 Ok (<[x.1 := {| type := type_ x.2;
                                 declarationPosition_ :=
                                   firstDeclarationPosition_ x.2;
                                 isTemp := isTemp (base varDef);
                                 degree := degree (base varDef) |}]> r)
             end = Ok r' -> Q r').
  { intros x r r' Hcase Hx.
    destruct (frame !! x.1) as [varDef|] eqn:Hl; [|discriminate].
    inversion Hx. subst r'. clear Hx.
    destruct (decide (x.1 = name)) as [Hn | Hn].
    - rewrite Hn in *. eexists varDef, _.
      split_all; [exact Hl | apply lookup_insert_eq | reflexivity].
    - destruct Hcase as [? | (ev & var & He & Hv & Ht)]; [congruence|].
      exists ev, var. split_all; [exact He | | exact Ht].
      rewrite lookup_insert_ne by exact Hn. exact Hv. }
  revert H Hd. generalize (∅ : gmap string Variable_).
  induction (map_to_list (variableDeclarations_ c)) as [|x l IH];
    intros r H Hin.
  - inversion Hin.
  - rewrite forEach_cons in H. bind_inv_as H r1 Hr1.
    apply elem_of_cons in Hin as [<- | Hin].
    + assert (HQ : Q r1) by (apply (Hstep (name, d) r r1); [left; reflexivity | exact Hr1]).
      revert HQ H. apply (forEach_invariant Q).
      intros y s s' _ HQ Hy. apply (Hstep y s s'); [right; exact HQ | exact Hy].
    + apply (IH r1 H Hin).
Qed.


Lemma afterAnonymous_Reachable :
  Reachable allFeatures acceptLabels afterAnonymous.
Proof.
  exists false, (analysisOf anonymousRewritten). vm_compute. reflexivity.
Qed.


(** [MATCH ({prop:3})], rewritten by R4 and analysed: the generated variable
    is recorded with [isTemp] false in the record of its path factor and
    with [isTemp] true in the result of [variables()]. *)
Example afterAnonymous_flags :
  forEach (perform allFeatures acceptLabels) (analysisOf anonymousRewritten)
    (newGraphPatternContext false) = Ok afterAnonymous
  /\ declaredFlags afterAnonymous = [[]; []; []; [("gql_gen_prop1", false)]]
  /\ variableFlags afterAnonymous = Ok [("gql_gen_prop1", true)].
Proof. split_all; vm_compute; reflexivity. Qed.

(** ** C9: running a rewrite twice *)

Lemma mapS_Settles {S A : Type} (f : A -> S -> A * S) (l : list A) :
  Forall (Settles f) l -> Settles (mapS f) l.
Proof.
  induction 1 as [|a l Ha _ IH]; intros s s'; [reflexivity|].
  simpl. specialize (Ha s). destruct (f a s) as [b s1]. simpl in Ha.
  specialize (IH s1). destruct (mapS f l s1) as [bs s2]. simpl in *.
  rewrite Ha, IH. reflexivity.
Qed.

Lemma optS_Settles {S A : Type} (f : A -> S -> A * S) (o : option A) :
  (forall a, o = Some a -> Settles f a) -> Settles (optS f) o.
Proof.
  intros H s s'. destruct o as [a|]; [|reflexivity]. simpl.
  specialize (H a eq_refl s). destruct (f a s) as [b s1]. simpl in *.
  rewrite H. reflexivity.
Qed.

(** The state of the visitor after a walk whose result settles does not
    depend on where the second walk starts. *)
Lemma Settles_pair {S A : Type} (f : A -> S -> A * S) (a : A) (s : S)
    (b : A) (s1 : S) :
  Settles f a -> f a s = (b, s1) -> forall s', f b s' = (b, s').
Proof. intros H E s'. specialize (H s s'). rewrite E in H. exact H. Qed.

Lemma forallb_Forall_all {A : Type} (PA : A -> Type) (g : A -> bool)
    (Q : A -> Prop) (l : list A) :
  (forall a, PA a -> g a = true -> Q a) ->
  list_all A PA l -> forallb g l = true -> Forall Q l.
Proof.
  intros HPQ Hall. induction Hall as [|a Ha l Hl IH]; simpl; intros Hg.
  - apply Forall_nil_2.
  - apply andb_prop in Hg as [Hga Hgl].
    apply Forall_cons_2; [apply HPQ; assumption | apply IH, Hgl].
Qed.

Combined Scheme AST_mutind from ValueExpression_mind,
  PathPatternExpression_mind, PathPrimary_mind.

Section WalkTwice.
Context {S : Type}.
Variable visit : PathPrimary -> S -> option (PathPrimary * S).
Variable good : PathPrimary -> bool.

(** Whether the visitor answers [kContinue] depends on the alternative the
    node holds only. *)
Hypothesis visit_continue :
  forall p q s s',
    sameKind p q = true -> visit p s = None -> visit q s' = None.

(** A node on which the visitor answers [kSkipChildren] is left in a form
    that a second walk does not change. *)
Hypothesis visit_skip :
  forall p s p' s1,
    good p = true -> visit p s = Some (p', s1) ->
    forall s', walkPathPrimary visit p' s' = (p', s').

Local Abbreviation walkV := (walkValueExpression visit).
Local Abbreviation walkE := (walkPathPatternExpression visit).
Local Abbreviation walkP := (walkPathPrimary visit).

Lemma walkWhere_Settles (w : WhereClause) :
  Settles walkV (where_condition w) -> Settles (walkWhere walkV) w.
Proof.
  intros H s s'. unfold walkWhere. specialize (H s).
  destruct (walkV (where_condition w) s) as [c s1]. simpl in *.
  rewrite H. reflexivity.
Qed.

Lemma walkWhereOption_Settles (w : option WhereClause) :
  option_all _ (WhereClause__all _
                  (fun e => everyValueExpression good e = true ->
                            Settles walkV e)) w ->
  everyWhere (everyValueExpression good) w = true ->
  Settles (optS (walkWhere walkV)) w.
Proof.
  intros Hall Hgood. apply optS_Settles. intros a ->.
  apply walkWhere_Settles. inversion Hall as [a' Ha|]. subst.
  destruct Ha as [pos c Hc]. apply Hc. exact Hgood.
Qed.

Lemma walkPathPatternOf_Settles (p : PathPattern) :
  Settles walkE (pp_expr p) ->
  Settles (fun (p : PathPattern) s =>
             let '(e, s) := walkE (pp_expr p) s in
             ({| pp_var := pp_var p; pp_selective := pp_selective p;
                 pp_expr := e |}, s)) p.
Proof.
  intros H s s'. specialize (H s).
  destruct (walkE (pp_expr p) s) as [e s1]. simpl in *.
  rewrite H. reflexivity.
Qed.

Lemma walkFactor_Settles (f : PathFactor) :
  Settles walkP (pattern f) ->
  Settles (fun (f : PathFactor) s =>
             let '(p, s) := walkP (pattern f) s in
             ({| quantifier := quantifier f; pattern := p |}, s)) f.
Proof.
  intros H s s'. specialize (H s).
  destruct (walkP (pattern f) s) as [p s1]. simpl in *.
  rewrite H. reflexivity.
Qed.

Lemma walkPaths_Settles (ps : list PathPattern) :
  list_all _ (PathPattern__all _
                (fun e => everyPathPatternExpression good e = true ->
                          Settles walkE e)) ps ->
  forallb (fun p : PathPattern =>
             everyPathPatternExpression good (pp_expr p)) ps = true ->
  Settles (mapS (fun (p : PathPattern) s =>
                   let '(e, s) := walkE (pp_expr p) s in
                   ({| pp_var := pp_var p; pp_selective := pp_selective p;
                       pp_expr := e |}, s))) ps.
Proof.
  intros Hall Hgood. apply mapS_Settles.
  refine (forallb_Forall_all _ _ _ ps _ Hall Hgood).
  intros p Hp Hg. apply walkPathPatternOf_Settles.
  destruct Hp as [v sel e He]. apply He. exact Hg.
Qed.

Lemma walkPredicate_Settles (p : option ElementPatternPredicate) :
  option_all _ (ElementPatternPredicate__all _
                  (fun e => everyValueExpression good e = true ->
                            Settles walkV e)) p ->
  everyPredicate (everyValueExpression good) p = true ->
  Settles (optS (walkPredicate walkV)) p.
Proof.
  intros Hall Hgood. apply optS_Settles. intros a ->.
  inversion Hall as [a' Ha|]. subst. clear Hall.
  destruct Ha as [wpos c Hc | props Hprops]; simpl in Hgood.
  - intros s s'. simpl. specialize (Hc Hgood s).
    destruct (walkV c s) as [c' s1]. simpl in *. rewrite Hc. reflexivity.
  - assert (Hset :
              Settles
                (mapS (fun (kv : PropertyKeyValuePair) s =>
                         let '(v, s) := walkV (prop_value kv) s in
                         ({| prop_name := prop_name kv; prop_value := v |},
                          s))) props).
    { apply mapS_Settles.
      refine (forallb_Forall_all _ _ _ props _ Hprops Hgood).
      intros kv Hkv Hg s s'. destruct Hkv as [n v Hv]. simpl in *.
      specialize (Hv Hg s). destruct (walkV v s) as [v' s1]. simpl in *.
      rewrite Hv. reflexivity. }
    intros s s'. simpl. specialize (Hset s).
    destruct (mapS _ props s) as [props' s1]. simpl in *.
    rewrite Hset. reflexivity.
Qed.

Lemma walkElement_Settles (e : ElementPattern) :
  ElementPattern__all _
    (fun e => everyValueExpression good e = true -> Settles walkV e) e ->
  everyPredicate (everyValueExpression good) (predicate (fillerOf e)) = true ->
  Settles (walkElement walkV) e.
Proof.
  intros Hall Hgood.
  assert (Hfiller : forall f,
             ElementPatternFiller__all _
               (fun e => everyValueExpression good e = true ->
                         Settles walkV e) f ->
             everyPredicate (everyValueExpression good) (predicate f) = true ->
             Settles (walkFiller walkV) f).
  { intros f Hf Hg s s'. unfold walkFiller.
    destruct Hf as [v l p Hp]. simpl in *.
    pose proof (walkPredicate_Settles p Hp Hg s) as H.
    destruct (optS (walkPredicate walkV) p s) as [p' s1]. simpl in *.
    rewrite H. reflexivity. }
  destruct Hall as [pos f Hf | pos d f Hf]; simpl in Hgood;
    intros s s'; simpl; specialize (Hfiller f Hf Hgood s);
    destruct (walkFiller walkV f s) as [f' s1]; simpl in *;
    rewrite Hfiller; reflexivity.
Qed.

(** On a tree all of whose path primaries are good, a second walk changes
    nothing. *)
Theorem walk_Settles :
  (forall e, everyValueExpression good e = true -> Settles walkV e)
  /\ (forall e, everyPathPatternExpression good e = true -> Settles walkE e)
  /\ (forall p, everyPathPrimary good p = true -> Settles walkP p).
Proof.
  apply (AST_mutind
           (fun e => everyValueExpression good e = true -> Settles walkV e)
           (fun e => everyPathPatternExpression good e = true ->
                     Settles walkE e)
           (fun p => everyPathPrimary good p = true -> Settles walkP p)).
  - intros text _ s s'. reflexivity.
  - intros name _ s s'. reflexivity.
  - intros element IH property Hg s s'. simpl in *.
    specialize (IH Hg s).
    destruct (walkV element s) as [e' s1]. simpl in *.
    rewrite IH. reflexivity.
  - intros op l IHl r IHr Hg s s'. simpl in *.
    apply andb_prop in Hg as [Hl Hr].
    specialize (IHl Hl s). destruct (walkV l s) as [l' s1].
    specialize (IHr Hr s1). destruct (walkV r s1) as [r' s2]. simpl in *.
    rewrite IHl, IHr. reflexivity.
  - intros op l IHl r IHr Hg s s'. simpl in *.
    apply andb_prop in Hg as [Hl Hr].
    specialize (IHl Hl s). destruct (walkV l s) as [l' s1].
    specialize (IHr Hr s1). destruct (walkV r s1) as [r' s2]. simpl in *.
    rewrite IHl, IHr. reflexivity.
  - intros g Hall Hg s s'. destruct Hall as [ps Hps w Hw]. simpl in Hg.
    apply andb_prop in Hg as [Hgp Hgw].
    pose proof (walkPaths_Settles ps Hps Hgp s) as H1.
    simpl.
    destruct (mapS _ ps s) as [ps' s1].
    pose proof (walkWhereOption_Settles w Hw Hgw s1) as H2.
    destruct (optS (walkWhere walkV) w s1) as [w' s2]. simpl in *.
    rewrite H1, H2. reflexivity.
  - intros op ts Hall Hg s s'. simpl in Hg.
    assert (Hset :
              Settles
                (mapS (mapS (fun (f : PathFactor) s =>
                               let '(p, s) := walkP (pattern f) s in
                               ({| quantifier := quantifier f;
                                   pattern := p |}, s)))) ts).
    { apply mapS_Settles.
      refine (forallb_Forall_all _ _ _ ts _ Hall Hg).
      intros t Ht Hgt. apply mapS_Settles.
      refine (forallb_Forall_all _ _ _ t _ Ht Hgt).
      intros f Hf Hgf. apply walkFactor_Settles.
      destruct Hf as [q p Hp]. apply Hp. exact Hgf. }
    simpl. specialize (Hset s).
    destruct (mapS _ ts s) as [ts' s1]. simpl in *.
    rewrite Hset. reflexivity.
  - (* an element pattern *)
    intros e Hall Hg s s'.
    assert (Hg' : good (Element e) = true
                  /\ everyPredicate (everyValueExpression good)
                       (predicate (fillerOf e)) = true).
    { destruct e; simpl in Hg; apply andb_prop in Hg; exact Hg. }
    destruct Hg' as [Hgood Hpred].
    rewrite (walkPathPrimary_unfold visit (Element e) s).
    destruct (visit (Element e) s) as [[p' s1]|] eqn:Hv.
    + simpl. apply (visit_skip _ _ _ _ Hgood Hv).
    + pose proof (walkElement_Settles e Hall Hpred s) as He.
      destruct (walkElement walkV e s) as [e' s1]. cbn [fst] in *.
      rewrite walkPathPrimary_unfold.
      rewrite (visit_continue (Element e) (Element e') s s' eq_refl Hv).
      rewrite He. reflexivity.
  - (* a parenthesized path pattern expression *)
    intros pp Hall Hg s s'. simpl in Hg.
    apply andb_prop in Hg as [Hgood Hg].
    apply andb_prop in Hg as [Hge Hgw].
    rewrite (walkPathPrimary_unfold visit (Parenthesized pp) s).
    destruct (visit (Parenthesized pp) s) as [[p' s1]|] eqn:Hv.
    + simpl. apply (visit_skip _ _ _ _ Hgood Hv).
    + destruct Hall as [pos v m e He w Hw]. simpl in *.
      specialize (He Hge s). destruct (walkE e s) as [e' s1].
      pose proof (walkWhereOption_Settles w Hw Hgw s1) as H2.
      destruct (optS (walkWhere walkV) w s1) as [w' s2]. cbn [fst] in *.
      rewrite walkPathPrimary_unfold.
      erewrite (fun q E => visit_continue _ q s s' E Hv) by reflexivity.
      cbn [pppe_pattern pppe_where pppe_pos pppe_var pathMode].
      rewrite He, H2. reflexivity.
  - (* a simplified path pattern expression *)
    intros x Hg s s'. simpl in Hg. apply andb_prop in Hg as [Hgood _].
    rewrite (walkPathPrimary_unfold visit (Simplified x) s).
    destruct (visit (Simplified x) s) as [[p' s1]|] eqn:Hv.
    + simpl. apply (visit_skip _ _ _ _ Hgood Hv).
    + cbn [fst]. rewrite walkPathPrimary_unfold.
      erewrite (fun q E => visit_continue _ q s s' E Hv) by reflexivity.
      reflexivity.
Qed.

Lemma walkGraphPattern_Settles (g : GraphPattern) :
  everyGraphPattern good g = true -> Settles (walkGraphPattern visit) g.
Proof.
  destruct walk_Settles as (HV & HE & _).
  intros Hg s s'. unfold everyGraphPattern in Hg.
  apply andb_prop in Hg as [Hgp Hgw]. unfold walkGraphPattern.
  assert (H1 : Settles (mapS (walkPathPattern visit)) (paths g)).
  { apply mapS_Settles. apply Forall_forall. intros p Hin.
    apply walkPathPatternOf_Settles, HE.
    rewrite forallb_forall in Hgp. apply Hgp.
    apply list_elem_of_In, Hin. }
  assert (H2 : Settles (optS (walkWhere walkV)) (gp_where g)).
  { apply optS_Settles. intros w Hw. apply walkWhere_Settles, HV.
    rewrite Hw in Hgw. exact Hgw. }
  specialize (H1 s). destruct (mapS _ (paths g) s) as [ps s1].
  specialize (H2 s1). destruct (optS _ (gp_where g) s1) as [w s2].
  cbn [fst paths gp_where] in *. rewrite H1, H2. reflexivity.
Qed.

Theorem ForEachPathPrimary_Settles (program : GQLProgram) :
  everyProgram good program = true ->
  Settles (ForEachPathPrimary visit) program.
Proof.
  intros Hg s s'. unfold ForEachPathPrimary.
  assert (H : Settles (mapS (walkGraphPattern visit)) (statements program)).
  { apply mapS_Settles. apply Forall_forall. intros g Hin.
    apply walkGraphPattern_Settles. unfold everyProgram in Hg.
    rewrite forallb_forall in Hg. apply Hg. apply list_elem_of_In, Hin. }
  specialize (H s). destruct (mapS _ (statements program) s) as [gs s1].
  cbn [fst statements] in *. rewrite H. reflexivity.
Qed.
End WalkTwice.

Lemma walk_existsFree {S : Type}
    (visit : PathPrimary -> S -> option (PathPrimary * S))
    (e : ValueExpression) (s : S) :
  existsFree e = true -> walkValueExpression visit e s = (e, s).
Proof.
  revert s. induction e as [| |e IH p|op l IHl r IHr|op l IHl r IHr|g];
    intros s He; simpl in *; try reflexivity; try discriminate.
  - rewrite (IH s He). reflexivity.
  - apply andb_prop in He as [Hl Hr]. rewrite (IHl s Hl), (IHr s Hr).
    reflexivity.
  - apply andb_prop in He as [Hl Hr]. rewrite (IHl s Hl), (IHr s Hr).
    reflexivity.
Qed.

(** A second walk leaves alone the parenthesized expression that wraps an
    element without a predicate, when the condition holds no graph pattern
    and the visitor skips that element. *)
Lemma wrapElement_settled {S : Type}
    (visit : PathPrimary -> S -> option (PathPrimary * S))
    (e : ElementPattern) (w : WhereClause) (s : S) :
  (forall pp s, visit (Parenthesized pp) s = None) ->
  (forall s, visit (Element e) s = Some (Element e, s)) ->
  existsFree (where_condition w) = true ->
  walkPathPrimary visit (wrapElement e w) s = (wrapElement e w, s).
Proof.
  intros Hparen Helem Hfree. unfold wrapElement.
  rewrite walkPathPrimary_unfold, Hparen.
  cbn [pppe_pattern pppe_where pppe_pos pppe_var pathMode].
  rewrite walkPathPatternExpression_unfold.
  cbn [mapS pattern quantifier].
  rewrite walkPathPrimary_unfold, Helem.
  cbn [optS]. unfold walkWhere. cbn [where_condition where_pos].
  rewrite (walk_existsFree visit _ s Hfree). reflexivity.
Qed.

Lemma existsFree_conjoin (v : string) (props : list PropertyKeyValuePair) :
  forallb (fun kv : PropertyKeyValuePair => existsFree (prop_value kv)) props
  = true ->
  existsFree (default emptyValueExpression (conjoin v props)) = true.
Proof.
  induction props as [|p ps IH] using rev_ind; [reflexivity|].
  rewrite forallb_app. intros H. apply andb_prop in H as [Hps Hp].
  simpl in Hp. rewrite andb_true_r in Hp. specialize (IH Hps).
  rewrite conjoin_snoc. destruct (conjoin v ps) as [expr|]; simpl in *.
  - rewrite IH, Hp. reflexivity.
  - exact Hp.
Qed.

Lemma visitElementPatternWhereClause_skip p s p' s1 :
  flatPrimary p = true ->
  visitElementPatternWhereClause p s = Some (p', s1) ->
  forall s', walkPathPrimary visitElementPatternWhereClause p' s' = (p', s').
Proof.
  intros Hflat Hv s'. destruct p as [e|pp|x]; try discriminate.
  simpl in Hflat. unfold visitElementPatternWhereClause in Hv.
  destruct (predicate (fillerOf e)) as [[wpos cond|props]|] eqn:Hp.
  - inversion Hv. subst p' s1. clear Hv. simpl in Hflat.
    apply wrapElement_settled.
    + reflexivity.
    + intros s0. destruct e; reflexivity.
    + exact Hflat.
  - inversion Hv. subst p' s1. rewrite walkPathPrimary_unfold.
    unfold visitElementPatternWhereClause. rewrite Hp. reflexivity.
  - inversion Hv. subst p' s1. rewrite walkPathPrimary_unfold.
    unfold visitElementPatternWhereClause. rewrite Hp. reflexivity.
Qed.

Lemma visitElementPropertyPredicate_skip p s p' s1 :
  flatPrimary p = true ->
  visitElementPropertyPredicate p s = Some (p', s1) ->
  forall s', walkPathPrimary visitElementPropertyPredicate p' s' = (p', s').
Proof.
  intros Hflat Hv s'. destruct p as [e|pp|x]; try discriminate.
  simpl in Hflat. unfold visitElementPropertyPredicate in Hv.
  destruct (predicate (fillerOf e)) as [[wpos cond|props]|] eqn:Hp.
  - inversion Hv. subst p' s1. rewrite walkPathPrimary_unfold.
    unfold visitElementPropertyPredicate. rewrite Hp. reflexivity.
  - simpl in Hflat.
    destruct (var (fillerOf e)) as [v|]; inversion Hv; subst p' s1; clear Hv;
      (apply wrapElement_settled;
       [reflexivity
       | intros s0; destruct e; reflexivity
       | apply existsFree_conjoin, Hflat]).
  - inversion Hv. subst p' s1. rewrite walkPathPrimary_unfold.
    unfold visitElementPropertyPredicate. rewrite Hp. reflexivity.
Qed.

Lemma RewriteElementPatternWhereClause_twice program :
  flatProgram program = true ->
  RewriteElementPatternWhereClause (RewriteElementPatternWhereClause program)
  = RewriteElementPatternWhereClause program.
Proof.
  intros Hflat. unfold RewriteElementPatternWhereClause.
  rewrite (ForEachPathPrimary_Settles visitElementPatternWhereClause
             flatPrimary); try assumption; try reflexivity.
  - intros p q s s' Hk Hv. destruct p, q; try discriminate; try reflexivity.
    unfold visitElementPatternWhereClause in Hv.
    destruct (predicate (fillerOf e)) as [[? ?|?]|]; discriminate.
  - apply visitElementPatternWhereClause_skip.
Qed.

Lemma RewriteElementPropertyPredicate_twice program :
  flatProgram program = true ->
  RewriteElementPropertyPredicate (RewriteElementPropertyPredicate program)
  = RewriteElementPropertyPredicate program.
Proof.
  intros Hflat. unfold RewriteElementPropertyPredicate.
  rewrite (ForEachPathPrimary_Settles visitElementPropertyPredicate
             flatPrimary); try assumption; try reflexivity.
  - intros p q s s' Hk Hv. destruct p, q; try discriminate; try reflexivity.
    unfold visitElementPropertyPredicate in Hv.
    destruct (predicate (fillerOf e)) as [[? ?|?]|]; try discriminate.
    destruct (var (fillerOf e)); discriminate.
  - apply visitElementPropertyPredicate_skip.
Qed.


(** The program of [rewrite_unittest.cpp] for R1 with alternations, a
    directedness marker and quantifications. *)
Example RewriteSimplifiedPathPattern_sample :
  RewriteSimplifiedPathPattern simplifiedSample = simplifiedExpected.
Proof. vm_compute. reflexivity. Qed.

Lemma mapS_stable {S A : Type} (f : A -> S -> A * S) (l : list A) :
  Forall (fun a => forall s, f a s = (a, s)) l ->
  forall s, mapS f l s = (l, s).
Proof.
  induction 1 as [|a l Ha _ IH]; intros s; [reflexivity|].
  simpl. rewrite Ha, IH. reflexivity.
Qed.

(** *** R1 *)

Lemma walkFactor_stable {S : Type}
    (visit : PathPrimary -> S -> option (PathPrimary * S)) (f : PathFactor) :
  (forall s, walkPathPrimary visit (pattern f) s = (pattern f, s)) ->
  forall s,
    (let '(p, s) := walkPathPrimary visit (pattern f) s in
     ({| quantifier := quantifier f; pattern := p |}, s)) = (f, s).
Proof. intros H s. rewrite H. destruct f; reflexivity. Qed.

Lemma group_stable {S : Type}
    (visit : PathPrimary -> S -> option (PathPrimary * S))
    (e : PathPatternExpression) :
  (forall pp s, visit (Parenthesized pp) s = None) ->
  (forall s, walkPathPatternExpression visit e s = (e, s)) ->
  forall s, walkPathPrimary visit (group e) s = (group e, s).
Proof.
  intros Hparen He s. unfold group. rewrite walkPathPrimary_unfold, Hparen.
  cbn [pppe_pattern pppe_where pppe_pos pppe_var pathMode].
  rewrite He. reflexivity.
Qed.

Lemma terms_stable {S : Type}
    (visit : PathPrimary -> S -> option (PathPrimary * S)) (op : Op)
    (ts : list (list PathFactor)) :
  Forall (Forall (fun f : PathFactor =>
                    forall s, walkPathPrimary visit (pattern f) s
                              = (pattern f, s))) ts ->
  forall s,
    walkPathPatternExpression visit (mkPathPatternExpression op ts) s
    = (mkPathPatternExpression op ts, s).
Proof.
  intros H s. rewrite walkPathPatternExpression_unfold.
  rewrite mapS_stable; [reflexivity|].
  eapply Forall_impl; [exact H|]. intros t Ht. cbv beta.
  apply mapS_stable. eapply Forall_impl; [exact Ht|].
  intros f Hf. apply walkFactor_stable, Hf.
Qed.

Lemma factorsStable_walk e :
  factorsStable e ->
  forall s, walkPathPatternExpression visitSimplifiedPathPattern e s = (e, s).
Proof. destruct e as [op ts]. apply terms_stable. Qed.

Lemma factorsStable_group e :
  factorsStable e ->
  forall s, walkPathPrimary visitSimplifiedPathPattern (group e) s
            = (group e, s).
Proof.
  intros H. apply group_stable; [reflexivity|]. apply factorsStable_walk, H.
Qed.

Lemma asFactor_stable e :
  factorsStable e ->
  forall s, walkPathPrimary visitSimplifiedPathPattern (pattern (asFactor e)) s
            = (pattern (asFactor e), s).
Proof.
  intros H. pose proof (factorsStable_group e H) as Hg.
  destruct e as [op [|[|f [|f' t]] [|t' ts]]]; try exact Hg.
  unfold factorsStable in H. simpl in H.
  apply Forall_cons_1 in H as [H _]. apply Forall_cons_1 in H as [H _].
  exact H.
Qed.

Lemma asTerm_stable e :
  factorsStable e ->
  Forall (fun f : PathFactor =>
            forall s,
              walkPathPrimary visitSimplifiedPathPattern (pattern f) s
              = (pattern f, s)) (asTerm e).
Proof.
  intros H. pose proof (factorsStable_group e H) as Hg.
  destruct e as [op [|t [|t' ts]]];
    try (apply Forall_cons_2; [exact Hg | apply Forall_nil_2]).
  unfold factorsStable in H. simpl in H.
  apply Forall_cons_1 in H as [H _]. exact H.
Qed.

Lemma list_all_Forall_Prop {A : Type} (PA Q : A -> Prop) (l : list A) :
  (forall a, PA a -> Q a) -> list_all A PA l -> Forall Q l.
Proof.
  intros HPQ Hall. induction Hall as [|a Ha l Hl IH].
  - apply Forall_nil_2.
  - apply Forall_cons_2; [apply HPQ, Ha | exact IH].
Qed.

Lemma lowerSimplified_stable c d : factorsStable (lowerSimplified d c).
Proof.
  revert d.
  induction c as [l|d' c IH|q c IH|cs IH|op cs IH] using SimplifiedContents_ind;
    intros d; simpl.
  - repeat constructor.
  - apply IH.
  - repeat constructor. simpl. apply factorsStable_group, IH.
  - constructor; [|constructor]. apply Forall_map.
    refine (list_all_Forall_Prop _ _ cs _ IH). intros c Hc.
    apply asFactor_stable, Hc.
  - unfold factorsStable. simpl. apply Forall_map.
    refine (list_all_Forall_Prop _ _ cs _ IH). intros c Hc.
    apply asTerm_stable, Hc.
Qed.

Lemma visitSimplifiedPathPattern_skip p s p' s1 :
  visitSimplifiedPathPattern p s = Some (p', s1) ->
  forall s', walkPathPrimary visitSimplifiedPathPattern p' s' = (p', s').
Proof.
  intros Hv. destruct p as [e|pp|x]; try discriminate.
  inversion Hv. subst p' s1. apply factorsStable_group, lowerSimplified_stable.
Qed.

Lemma forallb_all {A : Type} (PA : A -> Type) (g : A -> bool) (l : list A) :
  (forall a, PA a -> g a = true) -> list_all A PA l -> forallb g l = true.
Proof.
  intros H Hall. induction Hall as [|a Ha l Hl IH]; [reflexivity|].
  simpl. rewrite (H a Ha), IH. reflexivity.
Qed.

Lemma everyWhere_all (every : ValueExpression -> bool)
    (w : option WhereClause) :
  option_all _ (WhereClause__all _ (fun e => every e = true)) w ->
  everyWhere every w = true.
Proof. intros [a [pos c Hc]|]; [exact Hc | reflexivity]. Qed.

Lemma everyPredicate_all (every : ValueExpression -> bool)
    (p : option ElementPatternPredicate) :
  option_all _ (ElementPatternPredicate__all _ (fun e => every e = true)) p ->
  everyPredicate every p = true.
Proof.
  intros [a [wpos c Hc | props Hprops]|]; simpl; [exact Hc | | reflexivity].
  refine (forallb_all _ _ props _ Hprops).
  intros kv [n v Hv]. exact Hv.
Qed.

(** A condition that holds of every path primary holds of every path
    primary of a tree. *)
Lemma every_total (good : PathPrimary -> bool) :
  (forall p, good p = true) ->
  (forall e, everyValueExpression good e = true)
  /\ (forall e, everyPathPatternExpression good e = true)
  /\ (forall p, everyPathPrimary good p = true).
Proof.
  intros Hgood.
  apply (AST_mutind
           (fun e => everyValueExpression good e = true)
           (fun e => everyPathPatternExpression good e = true)
           (fun p => everyPathPrimary good p = true)); simpl; try reflexivity.
  - intros element IH _. exact IH.
  - intros _ l IHl r IHr. rewrite IHl, IHr. reflexivity.
  - intros _ l IHl r IHr. rewrite IHl, IHr. reflexivity.
  - intros g [ps Hps w Hw]. simpl. apply andb_true_intro. split.
    + refine (forallb_all _ _ ps _ Hps). intros p [v sel e He]. exact He.
    + apply everyWhere_all, Hw.
  - intros _ ts Hall. refine (forallb_all _ _ ts _ Hall).
    intros t Ht. refine (forallb_all _ _ t _ Ht).
    intros f [q p Hp]. exact Hp.
  - intros e Hall. rewrite Hgood. simpl.
    destruct Hall as [pos f [v l p Hp] | pos d f [v l p Hp]]; simpl;
      apply everyPredicate_all, Hp.
  - intros pp [pos v m e He w Hw]. rewrite Hgood. simpl. rewrite He. simpl.
    apply everyWhere_all, Hw.
  - intros x. rewrite Hgood. reflexivity.
Qed.

Lemma everyProgram_total (good : PathPrimary -> bool) program :
  (forall p, good p = true) -> everyProgram good program = true.
Proof.
  intros Hgood. destruct (every_total good Hgood) as (HV & HE & _).
  unfold everyProgram. apply forallb_forall. intros g _.
  unfold everyGraphPattern. apply andb_true_intro. split.
  - apply forallb_forall. intros p _. apply HE.
  - destruct (gp_where g); simpl; [apply HV | reflexivity].
Qed.

Lemma RewriteSimplifiedPathPattern_twice program :
  RewriteSimplifiedPathPattern (RewriteSimplifiedPathPattern program)
  = RewriteSimplifiedPathPattern program.
Proof.
  unfold RewriteSimplifiedPathPattern.
  rewrite (ForEachPathPrimary_Settles visitSimplifiedPathPattern
             (fun _ => true)); try reflexivity.
  - intros p q s s' Hk Hv. destruct p, q; try discriminate; reflexivity.
  - intros p s p' s1 _. apply visitSimplifiedPathPattern_skip.
  - apply everyProgram_total. reflexivity.
Qed.

(** *** R2 *)

(** A program of [rewrite_unittest.cpp] for R2, with quantified edge
    patterns and nested parentheses. *)
Example RewriteElementPatterns_sample :
  RewriteElementPatterns dashesSample = dashesExpected.
Proof. vm_compute. reflexivity. Qed.

Section MapTermsTwice.
Variable visitTerm : list PathFactor -> list PathFactor.

Local Abbreviation recV := (termsValueExpression visitTerm).
Local Abbreviation recE := (termsPathPatternExpression visitTerm).
Local Abbreviation recP := (termsPathPrimary visitTerm).

(** On a term whose path primaries the walk leaves alone, [visitTerm]
    answers with such a term, and one that it leaves alone itself. *)
Hypothesis visitTerm_stable :
  forall t,
    Forall (fun f : PathFactor => recP (pattern f) = pattern f) t ->
    Forall (fun f : PathFactor => recP (pattern f) = pattern f) (visitTerm t)
    /\ visitTerm (visitTerm t) = visitTerm t.

Lemma map_twice {A : Type} (f : A -> A) (l : list A) :
  Forall (fun a => f (f a) = f a) l -> map f (map f l) = map f l.
Proof.
  induction 1 as [|a l Ha _ IH]; [reflexivity|]. simpl.
  rewrite Ha, IH. reflexivity.
Qed.

Lemma map_fixed {A : Type} (f : A -> A) (l : list A) :
  Forall (fun a => f a = a) l -> map f l = l.
Proof.
  induction 1 as [|a l Ha _ IH]; [reflexivity|]. simpl.
  rewrite Ha, IH. reflexivity.
Qed.

Lemma option_map_twice {A : Type} (f : A -> A) (o : option A) :
  (forall a, o = Some a -> f (f a) = f a) ->
  option_map f (option_map f o) = option_map f o.
Proof.
  intros H. destruct o as [a|]; [|reflexivity]. simpl.
  rewrite (H a eq_refl). reflexivity.
Qed.

Lemma mapWhere_twice (w : option WhereClause) :
  option_all _ (WhereClause__all _ (fun e => recV (recV e) = recV e)) w ->
  option_map (mapWhere recV) (option_map (mapWhere recV) w)
  = option_map (mapWhere recV) w.
Proof.
  intros Hall. apply option_map_twice. intros a ->.
  inversion Hall as [a' Ha|]. subst. destruct Ha as [pos c Hc].
  unfold mapWhere. simpl. rewrite Hc. reflexivity.
Qed.

Lemma mapPaths_twice (ps : list PathPattern) :
  list_all _ (PathPattern__all _ (fun e => recE (recE e) = recE e)) ps ->
  map (fun p : PathPattern =>
         {| pp_var := pp_var p; pp_selective := pp_selective p;
            pp_expr := recE (pp_expr p) |})
      (map (fun p : PathPattern =>
              {| pp_var := pp_var p; pp_selective := pp_selective p;
                 pp_expr := recE (pp_expr p) |}) ps)
  = map (fun p : PathPattern =>
           {| pp_var := pp_var p; pp_selective := pp_selective p;
              pp_expr := recE (pp_expr p) |}) ps.
Proof.
  intros Hall. apply map_twice.
  refine (list_all_Forall _ _ ps _ Hall).
  intros p [v sel e He]. simpl. rewrite He. reflexivity.
Qed.

Lemma mapElement_twice (e : ElementPattern) :
  ElementPattern__all _ (fun e => recV (recV e) = recV e) e ->
  mapElement recV (mapElement recV e) = mapElement recV e.
Proof.
  assert (Hpred : forall p,
             option_all _ (ElementPatternPredicate__all _
                             (fun e => recV (recV e) = recV e)) p ->
             option_map (mapPredicate recV) (option_map (mapPredicate recV) p)
             = option_map (mapPredicate recV) p).
  { intros p Hall. apply option_map_twice. intros a ->.
    inversion Hall as [a' Ha|]. subst.
    destruct Ha as [wpos c Hc | props Hprops]; simpl.
    - rewrite Hc. reflexivity.
    - f_equal. apply map_twice.
      refine (list_all_Forall _ _ props _ Hprops).
      intros kv [n v Hv]. simpl. rewrite Hv. reflexivity. }
  intros [pos f [v l p Hp] | pos d f [v l p Hp]]; simpl;
    unfold mapFiller; simpl; rewrite (Hpred p Hp); reflexivity.
Qed.

Theorem terms_twice :
  (forall e, recV (recV e) = recV e)
  /\ (forall e, recE (recE e) = recE e)
  /\ (forall p, recP (recP p) = recP p).
Proof.
  apply (AST_mutind
           (fun e => recV (recV e) = recV e)
           (fun e => recE (recE e) = recE e)
           (fun p => recP (recP p) = recP p)); simpl; try reflexivity.
  - intros element IH property. rewrite IH. reflexivity.
  - intros op l IHl r IHr. rewrite IHl, IHr. reflexivity.
  - intros op l IHl r IHr. rewrite IHl, IHr. reflexivity.
  - intros g [ps Hps w Hw]. simpl.
    rewrite (mapPaths_twice ps Hps), (mapWhere_twice w Hw). reflexivity.
  - intros op ts Hall. f_equal. apply map_twice.
    refine (list_all_Forall _ _ ts _ Hall). intros t Ht.
    set (recF := fun f : PathFactor =>
                   {| quantifier := quantifier f;
                      pattern := recP (pattern f) |}).
    assert (H1 : Forall (fun f : PathFactor => recP (pattern f) = pattern f)
                        (map recF t)).
    { apply Forall_map. refine (list_all_Forall _ _ t _ Ht).
      intros f [q p Hp]. simpl. exact Hp. }
    destruct (visitTerm_stable (map recF t) H1) as [H2 H3].
    rewrite (map_fixed recF (visitTerm (map recF t))); [exact H3|].
    eapply Forall_impl; [exact H2|]. intros f Hf. unfold recF.
    rewrite Hf. destruct f; reflexivity.
  - intros e Hall. rewrite (mapElement_twice e Hall). reflexivity.
  - intros pp [pos v m e He w Hw]. simpl.
    rewrite He, (mapWhere_twice w Hw). reflexivity.
Qed.

Theorem ForEachPathTerm_twice (program : GQLProgram) :
  ForEachPathTerm visitTerm (ForEachPathTerm visitTerm program)
  = ForEachPathTerm visitTerm program.
Proof.
  destruct terms_twice as (HV & HE & _).
  unfold ForEachPathTerm. simpl. f_equal. apply map_twice.
  apply Forall_forall. intros g _. unfold termsGraphPattern. simpl.
  f_equal.
  - apply map_twice. apply Forall_forall. intros p _. simpl.
    rewrite HE. reflexivity.
  - apply option_map_twice. intros w _. unfold mapWhere. simpl.
    rewrite HV. reflexivity.
Qed.
End MapTermsTwice.

Lemma separate_twice (t : list PathFactor) (b : bool) :
  separate b (separate b t) = separate b t.
Proof.
  revert b. induction t as [|f t IH]; intros b; simpl.
  - destruct b; reflexivity.
  - destruct (isEdge f) eqn:Hf.
    + destruct b; simpl; rewrite Hf; simpl; rewrite IH; reflexivity.
    + simpl. rewrite Hf. rewrite IH. reflexivity.
Qed.

Lemma wrapQuantifiedEdge_twice (f : PathFactor) :
  wrapQuantifiedEdge (wrapQuantifiedEdge f) = wrapQuantifiedEdge f.
Proof.
  unfold wrapQuantifiedEdge.
  destruct (quantifier f) eqn:Hq; [rewrite Hq; reflexivity | |];
    destruct (isEdge f) eqn:Hf; simpl; try reflexivity;
    rewrite Hq, Hf; reflexivity.
Qed.

Lemma wrapQuantifiedEdge_separate (t : list PathFactor) (b : bool) :
  Forall (fun f => wrapQuantifiedEdge f = f) t ->
  map wrapQuantifiedEdge (separate b t) = separate b t.
Proof.
  intros H. revert b. induction H as [|f t Hf _ IH]; intros b; simpl.
  - destruct b; reflexivity.
  - destruct (isEdge f); [destruct b|]; simpl; rewrite Hf, IH; reflexivity.
Qed.

Lemma expandTerm_twice (t : list PathFactor) :
  expandTerm (expandTerm t) = expandTerm t.
Proof.
  unfold expandTerm.
  assert (Hw : Forall (fun f => wrapQuantifiedEdge f = f)
                      (map wrapQuantifiedEdge t)).
  { apply Forall_map, Forall_forall. intros f _.
    apply wrapQuantifiedEdge_twice. }
  set (u := map wrapQuantifiedEdge t) in *. clearbody u.
  destruct u as [|f u]; [reflexivity|].
  destruct (isEdge f) eqn:Hf.
  - change (map wrapQuantifiedEdge (emptyNode :: separate false (f :: u)))
      with (emptyNode :: map wrapQuantifiedEdge (separate false (f :: u))).
    rewrite (wrapQuantifiedEdge_separate _ false Hw).
    change (isEdge emptyNode) with false. cbv iota.
    change (separate false (emptyNode :: separate false (f :: u)))
      with (emptyNode :: separate false (separate false (f :: u))).
    f_equal. apply separate_twice.
  - rewrite (wrapQuantifiedEdge_separate _ false Hw).
    pose proof (separate_twice (f :: u) false) as H.
    simpl in *. rewrite Hf in *. simpl in *. rewrite Hf in *. exact H.
Qed.

Lemma separate_Forall (Q : PathFactor -> Prop) (t : list PathFactor) (b : bool) :
  Q emptyNode -> Forall Q t -> Forall Q (separate b t).
Proof.
  intros Hn H. revert b. induction H as [|f t Hf _ IH]; intros b; simpl.
  - destruct b; repeat constructor; exact Hn.
  - destruct (isEdge f); [destruct b|]; simpl; repeat constructor;
      try assumption; apply IH.
Qed.

Lemma expandTerm_wrapped (f : PathFactor) :
  isEdge f = true ->
  expandTerm [emptyNode; unquantified (pattern f); emptyNode]
  = [emptyNode; unquantified (pattern f); emptyNode].
Proof.
  intros Hf. unfold expandTerm.
  change (map wrapQuantifiedEdge
            [emptyNode; unquantified (pattern f); emptyNode])
    with [emptyNode; unquantified (pattern f); emptyNode].
  change (isEdge emptyNode) with false. cbv iota.
  unfold separate.
  change (isEdge emptyNode) with false.
  change (isEdge (unquantified (pattern f))) with (isEdge f).
  rewrite Hf. reflexivity.
Qed.

Lemma wrapQuantifiedEdge_stable (f : PathFactor) :
  termsPathPrimary expandTerm (pattern f) = pattern f ->
  termsPathPrimary expandTerm (pattern (wrapQuantifiedEdge f))
  = pattern (wrapQuantifiedEdge f).
Proof.
  intros H. unfold wrapQuantifiedEdge.
  destruct (quantifier f); [exact H | |];
    (destruct (isEdge f) eqn:Hf; [|exact H]);
    cbn [pattern]; unfold group; cbn [termsPathPrimary];
    cbn [pppe_pattern pppe_where pppe_pos pppe_var pathMode option_map];
    cbn [termsPathPatternExpression map pattern quantifier unquantified];
    rewrite H;
    change {| quantifier := NoQuantifier; pattern := pattern f |}
      with (unquantified (pattern f));
    change {| quantifier := quantifier emptyNode;
              pattern := termsPathPrimary expandTerm (pattern emptyNode) |}
      with emptyNode;
    rewrite (expandTerm_wrapped f Hf); reflexivity.
Qed.

Lemma expandTerm_stable (t : list PathFactor) :
  Forall (fun f : PathFactor =>
            termsPathPrimary expandTerm (pattern f) = pattern f) t ->
  Forall (fun f : PathFactor =>
            termsPathPrimary expandTerm (pattern f) = pattern f) (expandTerm t)
  /\ expandTerm (expandTerm t) = expandTerm t.
Proof.
  intros H. split; [|apply expandTerm_twice].
  unfold expandTerm.
  assert (Hw : Forall (fun f : PathFactor =>
                         termsPathPrimary expandTerm (pattern f) = pattern f)
                      (map wrapQuantifiedEdge t)).
  { apply Forall_map. eapply Forall_impl; [exact H|].
    intros f Hf. apply wrapQuantifiedEdge_stable, Hf. }
  set (u := map wrapQuantifiedEdge t) in *. clearbody u.
  destruct u as [|f u]; [constructor|].
  destruct (isEdge f); [constructor; [reflexivity|]|];
    apply separate_Forall; try reflexivity; exact Hw.
Qed.

Lemma RewriteElementPatterns_twice program :
  RewriteElementPatterns (RewriteElementPatterns program)
  = RewriteElementPatterns program.
Proof.
  unfold RewriteElementPatterns. apply ForEachPathTerm_twice.
  apply expandTerm_stable.
Qed.



(** ** The depths of the stacks *)

Ltac stack_inv :=
  repeat match goal with
         | H : top _ = Ok _ |- _ => apply top_Ok in H as (? & H)
         | H : pop _ = Ok _ |- _ => apply pop_Ok in H as (? & H)
         | H : updTop _ _ = Ok _ |- _ =>
             apply updTop_Ok in H as (? & ? & H & ?)
         | H : popMerge _ _ = Ok _ |- _ =>
             apply popMerge_Ok in H as (? & ? & ? & H & ?)
         end.

Ltac lengths :=
  repeat match goal with
         | H : _ = _ :: _ |- _ => apply (f_equal length) in H; simpl in H
         end.

Ltac depths :=
  unfold Balanced, SameSettings, Deepens in *; simpl in *; destruct_and?;
  subst; simpl in *; lengths; split_all;
  first [reflexivity | lia | congruence].

Lemma Balanced_refl c : Balanced c c.
Proof. depths. Qed.

Lemma Balanced_trans c1 c2 c3 :
  Balanced c1 c2 -> Balanced c2 c3 -> Balanced c1 c3.
Proof. intros H1 H2. depths. Qed.

Lemma forEach_Balanced {A : Type}
    (body : A -> GraphPatternContext -> Result GraphPatternContext)
    (xs : list A) (c c' : GraphPatternContext) :
  (forall x s s', x ∈ xs -> body x s = Ok s' -> Balanced s s') ->
  forEach body xs c = Ok c' -> Balanced c c'.
Proof.
  intros Hbody. apply (forEach_invariant (Balanced c)).
  - intros x s s' Hx Hs H. apply (Balanced_trans c s s' Hs).
    apply (Hbody x s s' Hx H).
  - apply Balanced_refl.
Qed.

Lemma ExposeVariable_Balanced name v c c' :
  ExposeVariable name v c = Ok c' -> Balanced c c'.
Proof.
  intros H. apply ExposeVariable_Ok in H as (f & rest & Hc & Hcase).
  destruct Hcase as [[_ ->] | (e & _ & _ & ->)]; depths.
Qed.

Lemma writeDeclaredVariable_Balanced name v c c' :
  writeDeclaredVariable name v c = Ok c' -> Balanced c c'.
Proof.
  unfold writeDeclaredVariable. intros H.
  destruct (currentVariableReferenceScope_ c) as [p|]; [|discriminate].
  destruct (auxStore c !! p); [|discriminate].
  inversion H. subst c'. depths.
Qed.

Lemma ExposeNewVariable_Balanced name v c c' :
  ExposeNewVariable name v c = Ok c' -> Balanced c c'.
Proof.
  unfold ExposeNewVariable. intros H. bind_inv_as H c1 H1.
  apply ExposeVariable_Balanced in H1.
  apply (Balanced_trans c c1 c' H1).
  destruct (isElementType (type (base v))).
  - apply (writeDeclaredVariable_Balanced _ _ _ _ H).
  - inversion H. apply Balanced_refl.
Qed.

Lemma AppendExposedVariables_Deepens c c' :
  AppendExposedVariables c = Ok c' ->
  Deepens (-1) 0 0 0 0 0 0 c c' /\ SameSettings c c'
  /\ isInsideQuantifiedPathPrimary_ c' = isInsideQuantifiedPathPrimary_ c.
Proof.
  unfold AppendExposedVariables. intros H. bind_inv_as H frame Hframe.
  bind_inv_as H frames Hframes.
  apply forEach_Balanced in H;
    [|intros x s s' _ Hx; apply (ExposeVariable_Balanced _ _ _ _ Hx)].
  stack_inv. depths.
Qed.

Lemma EnterVariableScope_Deepens c :
  Deepens 1 0 0 0 0 1 0 c (EnterVariableScope c)
  /\ SameSettings c (EnterVariableScope c)
  /\ isInsideQuantifiedPathPrimary_ (EnterVariableScope c)
     = isInsideQuantifiedPathPrimary_ c.
Proof. unfold EnterVariableScope. depths. Qed.

Lemma ExitVariableScope_Deepens c c' :
  ExitVariableScope c = Ok c' ->
  Deepens (-1) 0 0 0 0 (-1) 0 c c' /\ SameSettings c c'
  /\ isInsideQuantifiedPathPrimary_ c' = isInsideQuantifiedPathPrimary_ c.
Proof.
  unfold ExitVariableScope. intros H. bind_inv_as H exposed Hexposed.
  bind_inv_as H addr Haddr. bind_inv_as H u Hu. bind_inv_as H stack Hstack.
  apply AppendExposedVariables_Deepens in H. simpl in *.
  stack_inv. depths.
Qed.

Lemma DeclareVariable_Balanced name pos ty isTemp c c' :
  DeclareVariable name pos ty isTemp c = Ok c' -> Balanced c c'.
Proof.
  unfold DeclareVariable. intros H. bind_inv_as H u Hu.
  bind_inv_as H c1 H1. bind_inv_as H c2 H2. bind_inv_as H counts Hcounts.
  inversion H. subst c'. clear H.
  apply ExposeNewVariable_Balanced in H2.
  assert (Hc1 : Balanced c c1).
  { destruct (IsSet (lastVariableDeclarationPosition_ c));
      destruct (variableDeclarations_ _ !! name) as [it|];
      try (destruct (negb (bool_decide (type_ it = ty))); [discriminate|];
           destruct ty; try discriminate);
      inversion H1; subst c1; depths. }
  stack_inv. apply (Balanced_trans c c1 _ Hc1). depths.
Qed.

Lemma DeclareNodeVariable_Balanced v c c' :
  DeclareNodeVariable v c = Ok c' -> Balanced c c'.
Proof.
  unfold DeclareNodeVariable. intros H. bind_inv_as H c1 H1.
  apply DeclareVariable_Balanced in H1. inversion H. subst c'.
  apply (Balanced_trans c c1 _ H1).
  destruct (expectingLeftBoundaryVariable_ c1 && negb (evd_isTemp v)); depths.
Qed.

Lemma EnterPathPattern_Deepens (sel : bool) (c : GraphPatternContext) :
  Deepens (if sel then 2 else 1) 0 0 0 1 (if sel then 1 else 0) 0
    c (EnterPathPattern sel c)
  /\ isInsideSelectivePattern_ (EnterPathPattern sel c) = sel
  /\ differentEdgesMatchMode_ (EnterPathPattern sel c)
     = differentEdgesMatchMode_ c
  /\ isInsideQuantifiedPathPrimary_ (EnterPathPattern sel c)
     = isInsideQuantifiedPathPrimary_ c.
Proof. unfold EnterPathPattern. destruct sel; depths. Qed.

Lemma ExitPathPattern_Deepens (c c' : GraphPatternContext)
    (auxData : PathPatternAuxData) :
  ExitPathPattern c = Ok (c', auxData) ->
  Deepens (if isInsideSelectivePattern_ c then -2 else -1) 0 0 0 (-1)
    (if isInsideSelectivePattern_ c then -1 else 0) 0 c c'
  /\ SameSettings c c'
  /\ isInsideQuantifiedPathPrimary_ c' = isInsideQuantifiedPathPrimary_ c.
Proof.
  unfold ExitPathPattern. intros H. bind_inv_as H c1 H1.
  assert (Hc1 : Deepens (if isInsideSelectivePattern_ c then -1 else 0)
                  0 0 0 0 (if isInsideSelectivePattern_ c then -1 else 0) 0
                  c c1
                /\ SameSettings c c1
                /\ isInsideQuantifiedPathPrimary_ c1
                   = isInsideQuantifiedPathPrimary_ c).
  { destruct (isInsideSelectivePattern_ c) eqn:Hsel;
      [|inversion H1; subst c1; depths].
    bind_inv_as H1 frame Hframe. bind_inv_as H1 c0 H0.
    apply ExitVariableScope_Deepens in H0.
    bind_inv_as H1 frame' Hframe'. bind_inv_as H1 marked Hmarked.
    bind_inv_as H1 frames Hframes. inversion H1. subst c1.
    simpl in *. stack_inv. depths. }
  bind_inv_as H frame Hframe. bind_inv_as H frames Hframes.
  bind_inv_as H c2 H2.
  apply forEach_Balanced in H2;
    [|intros x s s' _ Hx; apply (ExposeVariable_Balanced _ _ _ _ Hx)].
  bind_inv_as H nonZero HnonZero. destruct (negb nonZero); [discriminate|].
  bind_inv_as H counts Hcounts. inversion H. subst c'.
  stack_inv. destruct (isInsideSelectivePattern_ c); depths.
Qed.

Lemma EnterParenthesizedPathPatternExpression_Deepens c :
  Deepens 1 0 0 0 1 1 0 c (EnterParenthesizedPathPatternExpression c)
  /\ SameSettings c (EnterParenthesizedPathPatternExpression c)
  /\ isInsideQuantifiedPathPrimary_ (EnterParenthesizedPathPatternExpression c)
     = isInsideQuantifiedPathPrimary_ c.
Proof.
  unfold EnterParenthesizedPathPatternExpression, EnterVariableScope. depths.
Qed.

Lemma ExitParenthesizedPathPatternExpression_Deepens hasSubpathVariable c c' :
  ExitParenthesizedPathPatternExpression hasSubpathVariable c = Ok c' ->
  Deepens (-1) 0 0 0 (-1) (-1) 0 c c' /\ SameSettings c c'
  /\ isInsideQuantifiedPathPrimary_ c' = isInsideQuantifiedPathPrimary_ c.
Proof.
  unfold ExitParenthesizedPathPatternExpression. intros H.
  bind_inv_as H c1 H1. apply ExitVariableScope_Deepens in H1.
  bind_inv_as H nonZero HnonZero.
  destruct (hasSubpathVariable && negb nonZero); [discriminate|].
  bind_inv_as H counts Hcounts. inversion H. subst c'.
  clear HnonZero. stack_inv. depths.
Qed.

Lemma EnterPathMode_Deepens mode c c' :
  EnterPathMode mode c = Ok c' ->
  Deepens 0 0 1 0 0 0 0 c c' /\ SameSettings c c'
  /\ isInsideQuantifiedPathPrimary_ c' = isInsideQuantifiedPathPrimary_ c.
Proof.
  unfold EnterPathMode. intros H. bind_inv_as H outer Houter.
  inversion H. subst c'. depths.
Qed.

Lemma ExitPathMode_Deepens c c' :
  ExitPathMode c = Ok c' ->
  Deepens 0 0 (-1) 0 0 0 0 c c' /\ SameSettings c c'
  /\ isInsideQuantifiedPathPrimary_ c' = isInsideQuantifiedPathPrimary_ c.
Proof.
  unfold ExitPathMode. intros H. bind_inv_as H modes Hmodes.
  inversion H. subst c'. stack_inv. depths.
Qed.

Lemma EnterQuantifiedPathPrimary_Deepens bounded c c' :
  EnterQuantifiedPathPrimary bounded c = Ok c' ->
  Deepens 1 0 0 1 1 0 0 c c' /\ SameSettings c c'
  /\ isInsideQuantifiedPathPrimary_ c = false
  /\ isInsideQuantifiedPathPrimary_ c' = true.
Proof.
  unfold EnterQuantifiedPathPrimary. intros H.
  destruct (isInsideQuantifiedPathPrimary_ c) eqn:Hq; [discriminate|].
  bind_inv_as H unboundedOutside Hu.
  destruct unboundedOutside; [discriminate|]. inversion H. subst c'. depths.
Qed.

Lemma ExitQuantifiedPathPrimary_Deepens bounded lowerBound c c' :
  ExitQuantifiedPathPrimary bounded lowerBound c = Ok c' ->
  Deepens (-1) 0 0 (-1) (-1) 0 0 c c' /\ SameSettings c c'
  /\ isInsideQuantifiedPathPrimary_ c' = false.
Proof.
  unfold ExitQuantifiedPathPrimary. intros H.
  bind_inv_as H frame Hframe. bind_inv_as H frames Hframes.
  bind_inv_as H c1 H1.
  apply forEach_Balanced in H1.
  2: { intros x s s' _ Hx. bind_inv_as Hx v' Hv'.
       apply (ExposeNewVariable_Balanced _ _ _ _ Hx). }
  bind_inv_as H minimumPathLength Hmin.
  destruct (bool_decide (minimumPathLength = 0)); [discriminate|].
  bind_inv_as H lengths Hlengths. bind_inv_as H counts Hcounts.
  inversion H. subst c'. simpl in *. clear Hmin. stack_inv. depths.
Qed.

Lemma EnterQuestionedPathPrimary_Deepens c :
  Deepens 1 0 0 1 1 0 0 c (EnterQuestionedPathPrimary c)
  /\ SameSettings c (EnterQuestionedPathPrimary c)
  /\ isInsideQuantifiedPathPrimary_ (EnterQuestionedPathPrimary c)
     = isInsideQuantifiedPathPrimary_ c.
Proof. unfold EnterQuestionedPathPrimary. depths. Qed.

Lemma ExitQuestionedPathPrimary_Deepens c c' :
  ExitQuestionedPathPrimary c = Ok c' ->
  Deepens (-1) 0 0 (-1) (-1) 0 0 c c' /\ SameSettings c c'
  /\ isInsideQuantifiedPathPrimary_ c' = isInsideQuantifiedPathPrimary_ c.
Proof.
  unfold ExitQuestionedPathPrimary. intros H.
  bind_inv_as H frame Hframe. bind_inv_as H frames Hframes.
  bind_inv_as H c1 H1.
  apply forEach_Balanced in H1;
    [|intros x s s' _ Hx; apply (ExposeNewVariable_Balanced _ _ _ _ Hx)].
  bind_inv_as H minimumPathLength Hmin.
  destruct (bool_decide (minimumPathLength = 0)); [discriminate|].
  bind_inv_as H lengths Hlengths. bind_inv_as H counts Hcounts.
  inversion H. subst c'. simpl in *. clear Hmin. stack_inv. depths.
Qed.

Lemma EnterPathPatternUnion_Deepens c :
  Deepens 1 0 0 1 1 0 1 c (EnterPathPatternUnion c)
  /\ SameSettings c (EnterPathPatternUnion c)
  /\ isInsideQuantifiedPathPrimary_ (EnterPathPatternUnion c)
     = isInsideQuantifiedPathPrimary_ c.
Proof. unfold EnterPathPatternUnion. depths. Qed.

Lemma ExitPathPatternUnion_Deepens c c' :
  ExitPathPatternUnion c = Ok c' ->
  Deepens (-1) 0 0 (-1) (-1) 0 (-1) c c' /\ SameSettings c c'
  /\ isInsideQuantifiedPathPrimary_ c' = isInsideQuantifiedPathPrimary_ c.
Proof.
  unfold ExitPathPatternUnion. intros H. bind_inv_as H c1 H1.
  apply AppendExposedVariables_Deepens in H1.
  bind_inv_as H lengths Hlengths. bind_inv_as H counts Hcounts.
  bind_inv_as H currentUnion Hunion. bind_inv_as H conds Hconds.
  bind_inv_as H unions Hunions. inversion H. subst c'.
  simpl in *. clear Hunion Hconds. stack_inv. depths.
Qed.

Lemma EnterPathPatternUnionOperand_Deepens c :
  Deepens 1 1 0 1 1 0 0 c (EnterPathPatternUnionOperand c)
  /\ SameSettings c (EnterPathPatternUnionOperand c)
  /\ isInsideQuantifiedPathPrimary_ (EnterPathPatternUnionOperand c)
     = isInsideQuantifiedPathPrimary_ c.
Proof. unfold EnterPathPatternUnionOperand. depths. Qed.

Lemma ExitPathPatternUnionOperand_Deepens c c' :
  ExitPathPatternUnionOperand c = Ok c' ->
  Deepens (-1) (-1) 0 (-1) (-1) 0 0 c c' /\ SameSettings c c'
  /\ isInsideQuantifiedPathPrimary_ c' = isInsideQuantifiedPathPrimary_ c.
Proof.
  unfold ExitPathPatternUnionOperand. intros H.
  bind_inv_as H exposed Hexposed. bind_inv_as H frames Hframes.
  bind_inv_as H unionExposed Hunion. bind_inv_as H merged Hmerged.
  bind_inv_as H frames' Hframes'. bind_inv_as H lengths Hlengths.
  bind_inv_as H counts Hcounts. bind_inv_as H localVariables Hlocal.
  bind_inv_as H unions Hunions. bind_inv_as H counts' Hcounts'.
  inversion H. subst c'. simpl in *. clear Hmerged Hexposed Hunion Hlocal.
  stack_inv. depths.
Qed.

Lemma EnterNodePattern_Balanced c c' :
  EnterNodePattern c = Ok c' -> Balanced c c'.
Proof.
  unfold EnterNodePattern. intros H. bind_inv_as H counts Hcounts.
  inversion H. subst c'. stack_inv. depths.
Qed.

Lemma EnterEdgePattern_Balanced c c' :
  EnterEdgePattern c = Ok c' -> Balanced c c'.
Proof.
  unfold EnterEdgePattern. intros H. bind_inv_as H lengths Hlengths.
  inversion H. subst c'. simpl in *. stack_inv. depths.
Qed.

Lemma AddSearchCondition_Balanced where_ c c' :
  AddSearchCondition where_ c = Ok c' -> Balanced c c'.
Proof.
  unfold AddSearchCondition. intros H. bind_inv_as H current Hcurrent.
  inversion H. subst c'. clear Hcurrent. depths.
Qed.

Lemma Finalize_Deepens c c' :
  Finalize c = Ok c' ->
  Deepens (-1) 0 0 0 0 (-1) 0 c c' /\ SameSettings c c'
  /\ isInsideQuantifiedPathPrimary_ c' = isInsideQuantifiedPathPrimary_ c.
Proof.
  unfold Finalize. intros H. bind_inv_as H total Htotal.
  bind_inv_as H counts Hcounts. apply ExitVariableScope_Deepens in H.
  simpl in *. clear Htotal. stack_inv. depths.
Qed.

Section TraversalBalance.
Variable featureSupported : Feature -> bool.
Variable ProcessFallback : LabelExpression -> Result unit.

Lemma ProcessElementPattern_Balances value :
  Balances (ProcessElementPattern ProcessFallback value).
Proof.
  intros c c' H. destruct value as [pos filler | pos dir filler]; simpl in H.
  - bind_inv_as H c1 H1. apply EnterNodePattern_Balanced in H1.
    bind_inv_as H c2 H2. bind_inv_as H u Hu. inversion H. subst c'.
    apply (Balanced_trans c c1 _ H1). unfold ExitNodePattern.
    destruct (var filler) as [v|].
    + apply (DeclareNodeVariable_Balanced v c1 c2 H2).
    + inversion H2. apply Balanced_refl.
  - bind_inv_as H c1 H1. apply EnterEdgePattern_Balanced in H1.
    bind_inv_as H c2 H2. bind_inv_as H u Hu. inversion H. subst c'.
    apply (Balanced_trans c c1 _ H1). unfold ExitEdgePattern.
    destruct (var filler) as [v|].
    + apply (DeclareVariable_Balanced _ _ _ _ c1 c2 H2).
    + inversion H2. apply Balanced_refl.
Qed.

Lemma ProcessParenthesized_Balances P value :
  Balances (P (pppe_pattern value)) ->
  Balances (ProcessParenthesized featureSupported P value).
Proof.
  intros HP c c' H. unfold ProcessParenthesized in H.
  bind_inv_as H u1 F1. bind_inv_as H u2 F2. bind_inv_as H u3 F3.
  bind_inv_as H u4 F4. bind_inv_as H c1 H1. bind_inv_as H c2 H2.
  bind_inv_as H c3 H3. bind_inv_as H c4 H4. bind_inv_as H c5 H5.
  pose proof (EnterParenthesizedPathPatternExpression_Deepens c) as H0.
  assert (H1' : Balanced (EnterParenthesizedPathPatternExpression c) c1).
  { destruct (pppe_var value) as [v|].
    - apply (DeclareVariable_Balanced _ _ _ _ _ _ H1).
    - inversion H1. apply Balanced_refl. }
  apply EnterPathMode_Deepens in H2. apply HP in H3.
  assert (H4' : Balanced c3 c4).
  { destruct (pppe_where value) as [w|].
    - apply (AddSearchCondition_Balanced _ _ _ H4).
    - inversion H4. apply Balanced_refl. }
  apply ExitPathMode_Deepens in H5.
  apply ExitParenthesizedPathPatternExpression_Deepens in H.
  clear F1 F2 F3 F4 H1 H4. depths.
Qed.

Lemma ProcessFactor_Balances P factor :
  Balances (ProcessPrimary featureSupported ProcessFallback P (pattern factor)) ->
  Balances (ProcessFactor featureSupported ProcessFallback P factor).
Proof.
  intros HP c c' H. unfold ProcessFactor in H.
  destruct (VariableReferenceScope_enter c) as [c0 parentScope] eqn:Henter.
  assert (H0 : Balanced c c0).
  { unfold VariableReferenceScope_enter in Henter. inversion Henter. depths. }
  bind_inv_as H r1 H1. destruct r1 as [c1 active].
  bind_inv_as H c2 H2. bind_inv_as H c3 H3. inversion H. subst c'. clear H.
  apply (HP c1 c2) in H2.
  assert (H03 : Balanced c0 c3).
  { destruct (quantifier factor) as [| |lower upper]; simpl in H1.
    - inversion H1. subst c1 active. simpl in H3. inversion H3. subst c3.
      exact H2.
    - inversion H1. subst c1 active. simpl in H3.
      apply ExitQuestionedPathPrimary_Deepens in H3.
      pose proof (EnterQuestionedPathPrimary_Deepens c0) as He.
      clear H1 H0. depths.
    - bind_inv_as H1 u Hu. bind_inv_as H1 c1' He. inversion H1.
      subst c1' active. simpl in H3.
      apply EnterQuantifiedPathPrimary_Deepens in He.
      apply ExitQuantifiedPathPrimary_Deepens in H3.
      clear H1 H0 Hu. depths. }
  apply (Balanced_trans c c0 _ H0). apply (Balanced_trans c0 c3 _ H03).
  unfold VariableReferenceScope_exit. depths.
Qed.

Lemma ProcessTerm_Balances P unionActive term :
  Forall (fun factor =>
            Balances (ProcessPrimary featureSupported ProcessFallback P
                        (pattern factor))) term ->
  forall c c',
    ProcessTerm featureSupported ProcessFallback P unionActive term c = Ok c' ->
    if unionActive
    then Deepens 0 0 0 0 0 0 0 c c' /\ SameSettings c c'
         /\ isInsideQuantifiedPathPrimary_ c' = isInsideQuantifiedPathPrimary_ c
    else Balanced c c'.
Proof.
  intros HP c c' H. unfold ProcessTerm in H. bind_inv_as H c1 H1.
  apply forEach_Balanced in H1.
  2: { intros factor s s' Hin Hf.
       refine (ProcessFactor_Balances P factor _ s s' Hf).
       rewrite Forall_forall in HP. apply HP, Hin. }
  destruct unionActive.
  - apply ExitPathPatternUnionOperand_Deepens in H.
    pose proof (EnterPathPatternUnionOperand_Deepens c) as He. depths.
  - inversion H. subst c'. exact H1.
Qed.

Theorem Process_Balances (pathPattern : PathPatternExpression) :
  Balances (Process featureSupported ProcessFallback pathPattern).
Proof.
  revert pathPattern.
  apply (PathPatternExpression_mind
           (fun _ => True)
           (fun e => Balances (Process featureSupported ProcessFallback e))
           (fun p => Balances (ProcessPrimary featureSupported ProcessFallback
                                 (Process featureSupported ProcessFallback) p)));
    try (intros; exact I).
  - intros op terms Hall c c' H. rewrite Process_unfold in H.
    bind_inv_as H u Hu.
    destruct (VariableReferenceScope_enter c) as [c0 unionParent] eqn:Henter.
    assert (H0 : Balanced c c0).
    { unfold VariableReferenceScope_enter in Henter. inversion Henter. depths. }
    cbv zeta in H. bind_inv_as H c1 H1. bind_inv_as H c2 H2.
    inversion H. subst c'. clear H.
    assert (Hterms :
              Forall (Forall (fun factor : PathFactor =>
                                Balances (ProcessPrimary featureSupported
                                            ProcessFallback
                                            (Process featureSupported
                                               ProcessFallback)
                                            (pattern factor)))) terms).
    { refine (list_all_Forall _ _ terms _ Hall). intros term' Hterm'.
      refine (list_all_Forall _ _ term' _ Hterm').
      intros factor Hfactor. destruct Hfactor as [q p Hp]. exact Hp. }
    assert (H02 : Balanced c0 c2).
    { destruct (bool_decide (1 < length terms)%nat).
      - apply ExitPathPatternUnion_Deepens in H2.
        pose proof (EnterPathPatternUnion_Deepens c0) as He.
        assert (Hloop : Balanced (EnterPathPatternUnion c0) c1).
        { revert H1. apply forEach_Balanced. intros term s s' Hin Ht.
          rewrite Forall_forall in Hterms.
          apply (ProcessTerm_Balances _ true term (Hterms term Hin)) in Ht.
          unfold Balanced. exact Ht. }
        clear H1 H0 Hu. depths.
      - inversion H2. subst c2. revert H1. apply forEach_Balanced.
        intros term s s' Hin Ht. rewrite Forall_forall in Hterms.
        apply (ProcessTerm_Balances _ false term (Hterms term Hin) s s' Ht). }
    apply (Balanced_trans c c0 _ H0). apply (Balanced_trans c0 c2 _ H02).
    unfold VariableReferenceScope_exit. depths.
  - intros e _. apply ProcessElementPattern_Balances.
  - intros p Hall. destruct Hall. simpl.
    apply ProcessParenthesized_Balances. simpl. assumption.
  - intros s c c' H. discriminate.
Qed.
End TraversalBalance.

Lemma Process_scope fs pf pathPattern c c' :
  Process fs pf pathPattern c = Ok c' ->
  currentVariableReferenceScope_ c' = currentVariableReferenceScope_ c.
Proof.
  destruct pathPattern as [op terms]. rewrite Process_unfold. intros H.
  bind_inv_as H u Hu. unfold VariableReferenceScope_enter in H. cbv zeta in H.
  bind_inv_as H c1 H1. bind_inv_as H c2 H2. inversion H. reflexivity.
Qed.

(** X1: a traversal of a path pattern expression that returns normally
    leaves each of the seven stacks of the context as deep as it found it,
    restores [currentVariableReferenceScope_] and
    [isInsideQuantifiedPathPrimary_], and does not touch
    [isInsideSelectivePattern_] and [differentEdgesMatchMode_]: every scope
    object it opens it closes. *)
Theorem Process_balanced
    (featureSupported : Feature -> bool)
    (ProcessFallback : LabelExpression -> Result unit)
    (pathPattern : PathPatternExpression) (c c' : GraphPatternContext) :
  Process featureSupported ProcessFallback pathPattern c = Ok c' ->
  length (exposedVariables_ c') = length (exposedVariables_ c)
  /\ length (declarationsInUnions_ c') = length (declarationsInUnions_ c)
  /\ length (isRestrictivePathMode_ c') = length (isRestrictivePathMode_ c)
  /\ length (minimumPathLength_ c') = length (minimumPathLength_ c)
  /\ length (nonZeroNodeCount_ c') = length (nonZeroNodeCount_ c)
  /\ length (variableScopeStack_ c') = length (variableScopeStack_ c)
  /\ length (pathPatternUnion_ c') = length (pathPatternUnion_ c)
  /\ currentVariableReferenceScope_ c' = currentVariableReferenceScope_ c
  /\ isInsideQuantifiedPathPrimary_ c' = isInsideQuantifiedPathPrimary_ c
  /\ isInsideSelectivePattern_ c' = isInsideSelectivePattern_ c
  /\ differentEdgesMatchMode_ c' = differentEdgesMatchMode_ c.
Proof.
  intros H. pose proof (Process_scope _ _ _ _ _ H) as Hscope.
  apply Process_Balances in H. clear - H Hscope.
  unfold Balanced, SameSettings, Deepens in H. destruct_and?.
  split_all; first [lia | assumption].
Qed.

Lemma Process_balanced_witness :
  Process allFeatures acceptLabels unboundedGroupPattern
    (EnterPathPattern false (newGraphPatternContext true))
  = Ok beforeExitPathPattern
  /\ length (exposedVariables_ beforeExitPathPattern) = 3%nat
  /\ length (minimumPathLength_ beforeExitPathPattern) = 1%nat.
Proof.
  assert (H : Process allFeatures acceptLabels unboundedGroupPattern
                (EnterPathPattern false (newGraphPatternContext true))
              = Ok beforeExitPathPattern) by (vm_compute; reflexivity).
  split; [exact H|].
  destruct (Process_balanced _ _ _ _ _ H) as (HE & _ & _ & HL & _).
  split; [rewrite HE | rewrite HL]; reflexivity.
Defined.

Lemma perform_pathPattern_Deepens fs pf sel e c c' :
  forEach (perform fs pf)
    [CallEnterPathPattern sel; CallProcess e; CallExitPathPattern] c = Ok c' ->
  Deepens 0 0 0 0 0 0 0 c c'.
Proof.
  intros H. simpl in H. bind_inv_as H c1 H1. bind_inv_as H c2 H2.
  inversion H. subst c'. clear H.
  bind_inv_as H2 r H3. destruct r as [c3 auxData]. simpl in H2.
  inversion H2. subst c3. clear H2. rename H3 into H2.
  apply Process_Balances in H1. apply ExitPathPattern_Deepens in H2.
  pose proof (EnterPathPattern_Deepens sel c) as He.
  assert (Hsel : isInsideSelectivePattern_ c1 = sel).
  { unfold Balanced, SameSettings in H1. destruct_and?. congruence. }
  rewrite Hsel in H2. destruct sel; depths.
Qed.

Lemma perform_pathPatterns_Deepens fs pf patterns c c' :
  forEach (perform fs pf)
    (concat ((fun p : bool * PathPatternExpression =>
                [CallEnterPathPattern p.1; CallProcess p.2;
                 CallExitPathPattern]) <$> patterns)) c = Ok c' ->
  Deepens 0 0 0 0 0 0 0 c c'.
Proof.
  revert c. induction patterns as [|[sel e] patterns IH]; intros c H.
  - inversion H. depths.
  - rewrite fmap_cons, concat_cons, forEach_app in H. bind_inv_as H c1 H1.
    cbv beta in H1. apply perform_pathPattern_Deepens in H1. apply IH in H.
    depths.
Qed.

(** X2: when the path patterns of a graph pattern have been analysed one
    after the other in a new context and [Finalize] has returned, the five
    assertions of the destructor of the context hold. *)
Theorem destructor_assertions
    (featureSupported : Feature -> bool)
    (ProcessFallback : LabelExpression -> Result unit)
    (differentEdgesMatchMode : bool)
    (patterns : list (bool * PathPatternExpression))
    (c : GraphPatternContext) :
  forEach (perform featureSupported ProcessFallback)
    (graphPatternCalls patterns)
    (newGraphPatternContext differentEdgesMatchMode) = Ok c ->
  destructorAssertions c.
Proof.
  unfold graphPatternCalls. rewrite forEach_app. intros H.
  bind_inv_as H c1 H1. apply perform_pathPatterns_Deepens in H1.
  simpl in H. bind_inv_as H c2 H2. inversion H. subst c2. clear H.
  apply Finalize_Deepens in H2. unfold destructorAssertions.
  unfold Deepens in *. simpl in *. destruct_and?. split_all; lia.
Qed.

Lemma destructor_assertions_witness :
  destructorAssertions
    (orElse (forEach (perform allFeatures acceptLabels)
               (graphPatternCalls twoPathPatterns)
               (newGraphPatternContext false))
            (newGraphPatternContext false)).
Proof.
  assert (H : exists c,
             forEach (perform allFeatures acceptLabels)
               (graphPatternCalls twoPathPatterns)
               (newGraphPatternContext false) = Ok c).
  { eexists. vm_compute. reflexivity. }
  destruct H as [c H]. rewrite H. simpl.
  apply (destructor_assertions allFeatures acceptLabels false _ c H).
Defined.

(** ** What the traversal accepts *)

Lemma forEach_Forall {A S : Type} (I : S -> Prop) (Q : A -> Prop)
    (body : A -> S -> Result S) (xs : list A) :
  (forall x s s', x ∈ xs -> I s -> body x s = Ok s' -> I s' /\ Q x) ->
  forall s s', I s -> forEach body xs s = Ok s' -> Forall Q xs /\ I s'.
Proof.
  induction xs as [|x xs IH]; intros Hbody s s' Hs H.
  - inversion H. subst. split; [apply Forall_nil_2 | exact Hs].
  - rewrite forEach_cons in H. bind_inv_as H s1 H1.
    destruct (Hbody x s s1 (list_elem_of_here _ _) Hs H1) as [Hs1 Hx].
    destruct (IH (fun y t t' Hy => Hbody y t t' (list_elem_of_further _ _ _ Hy))
                s1 s' Hs1 H) as [Hxs Hs'].
    split; [apply Forall_cons_2; assumption | exact Hs'].
Qed.

Lemma forallb_Forall_true {A : Type} (g : A -> bool) (l : list A) :
  Forall (fun a => g a = true) l -> forallb g l = true.
Proof.
  induction 1 as [|a l Ha _ IH]; [reflexivity|]. simpl.
  rewrite Ha, IH. reflexivity.
Qed.

Lemma ProcessPrimary_Balances fs pf p :
  Balances (ProcessPrimary fs pf (Process fs pf) p).
Proof.
  destruct p as [e|pp|x]; simpl.
  - apply ProcessElementPattern_Balances.
  - apply ProcessParenthesized_Balances, Process_Balances.
  - intros c c' H. discriminate.
Qed.

Lemma ProcessFactor_Process_Balances fs pf factor :
  Balances (ProcessFactor fs pf (Process fs pf) factor).
Proof. apply ProcessFactor_Balances, ProcessPrimary_Balances. Qed.

Lemma ProcessTerm_Process_flag fs pf unionActive term c c' :
  ProcessTerm fs pf (Process fs pf) unionActive term c = Ok c' ->
  isInsideQuantifiedPathPrimary_ c' = isInsideQuantifiedPathPrimary_ c.
Proof.
  intros H.
  apply (ProcessTerm_Balances fs pf (Process fs pf) unionActive term) in H.
  - destruct unionActive; unfold Balanced in H; destruct_and?; assumption.
  - apply Forall_forall. intros factor _. apply ProcessPrimary_Balances.
Qed.

(** The loops of [Process] over the terms and over the factors of a term:
    when the traversal returns normally, every factor has been processed
    from a state in which [isInsideQuantifiedPathPrimary_] is what it is at
    the start. *)
Lemma Process_factors fs pf (Q : PathFactor -> Prop) op terms c c' :
  (forall factor s s',
     isInsideQuantifiedPathPrimary_ s = isInsideQuantifiedPathPrimary_ c ->
     ProcessFactor fs pf (Process fs pf) factor s = Ok s' ->
     In factor (concat terms) -> Q factor) ->
  Process fs pf (mkPathPatternExpression op terms) c = Ok c' ->
  Forall (Forall Q) terms.
Proof.
  intros HQ H. rewrite Process_unfold in H. bind_inv_as H u Hu.
  unfold VariableReferenceScope_enter in H. cbv zeta in H.
  bind_inv_as H c1 H1. clear H Hu.
  set (flag := isInsideQuantifiedPathPrimary_ c) in *.
  refine (proj1 (forEach_Forall
                   (fun s => isInsideQuantifiedPathPrimary_ s = flag)
                   (Forall Q) _ terms _ _ c1 _ H1)).
  - intros term s s' Hin Hs Hterm. split.
    + rewrite (ProcessTerm_Process_flag _ _ _ _ _ _ Hterm). exact Hs.
    + unfold ProcessTerm in Hterm. bind_inv_as Hterm s1 Hloop. clear Hterm.
      refine (proj1 (forEach_Forall
                       (fun t => isInsideQuantifiedPathPrimary_ t = flag)
                       Q _ term _ _ s1 _ Hloop)).
      * intros factor t t' Hf Ht Hfactor. split.
        -- apply ProcessFactor_Process_Balances in Hfactor.
           unfold Balanced in Hfactor. destruct_and?. congruence.
        -- apply (HQ factor t t' Ht Hfactor). apply in_concat.
           exists term. split; apply list_elem_of_In; assumption.
      * destruct (bool_decide (1 < length terms)%nat); simpl; exact Hs.
  - destruct (bool_decide (1 < length terms)%nat); reflexivity.
Qed.

(** A factor that is processed normally: what its quantifier allows and
    the state from which its path primary is processed. *)
Lemma ProcessFactor_primary fs pf P factor c c' :
  ProcessFactor fs pf P factor c = Ok c' ->
  exists s s',
    match pattern factor with
    | Element value => ProcessElementPattern pf value s
    | Parenthesized value => ProcessParenthesized fs P value s
    | Simplified _ => Throw E0060
    end = Ok s'
    /\ (if isQuantified factor
        then isInsideQuantifiedPathPrimary_ c = false
             /\ isInsideQuantifiedPathPrimary_ s = true
        else isInsideQuantifiedPathPrimary_ s
             = isInsideQuantifiedPathPrimary_ c).
Proof.
  intros H. unfold ProcessFactor in H.
  unfold VariableReferenceScope_enter in H. cbv zeta in H.
  bind_inv_as H r1 H1. destruct r1 as [c1 active].
  bind_inv_as H c2 H2. exists c1, c2. split; [exact H2|].
  unfold isQuantified. destruct (quantifier factor) as [| |lower upper];
    simpl in H1.
  - inversion H1. reflexivity.
  - inversion H1. reflexivity.
  - bind_inv_as H1 u Hu. bind_inv_as H1 c1' He. inversion H1. subst c1'.
    apply EnterQuantifiedPathPrimary_Deepens in He. simpl in He.
    destruct_and?. split; assumption.
Qed.

Lemma Process_quantifiers_flag fs pf (pathPattern : PathPatternExpression) :
  forall c c',
    Process fs pf pathPattern c = Ok c' ->
    if isInsideQuantifiedPathPrimary_ c
    then quantifierFree pathPattern = true
    else quantifiersNotNested pathPattern = true.
Proof.
  revert pathPattern.
  apply (PathPatternExpression_mind
           (fun _ => True)
           (fun e => forall c c',
                Process fs pf e c = Ok c' ->
                if isInsideQuantifiedPathPrimary_ c
                then quantifierFree e = true
                else quantifiersNotNested e = true)
           (fun p => forall c c',
                ProcessPrimary fs pf (Process fs pf) p c = Ok c' ->
                if isInsideQuantifiedPathPrimary_ c
                then quantifierFreePrimary p = true
                else quantifiersNotNestedPrimary p = true));
    try (intros; exact I).
  - intros op terms Hall c c' H.
    assert (Hterms :
              Forall (Forall (fun factor : PathFactor =>
                                forall c c',
                                  ProcessPrimary fs pf (Process fs pf)
                                    (pattern factor) c = Ok c' ->
                                  if isInsideQuantifiedPathPrimary_ c
                                  then quantifierFreePrimary (pattern factor)
                                       = true
                                  else quantifiersNotNestedPrimary
                                         (pattern factor) = true)) terms).
    { refine (list_all_Forall _ _ terms _ Hall). intros term' Hterm'.
      refine (list_all_Forall _ _ term' _ Hterm').
      intros factor Hfactor. destruct Hfactor as [q p Hp]. exact Hp. }
    assert (HIH : forall factor, In factor (concat terms) ->
                forall c c',
                  ProcessPrimary fs pf (Process fs pf) (pattern factor) c
                  = Ok c' ->
                  if isInsideQuantifiedPathPrimary_ c
                  then quantifierFreePrimary (pattern factor) = true
                  else quantifiersNotNestedPrimary (pattern factor) = true).
    { intros factor Hin. apply in_concat in Hin as (term & Hterm & Hf).
      rewrite Forall_forall in Hterms.
      apply list_elem_of_In in Hterm, Hf.
      pose proof (Hterms term Hterm) as Ht. rewrite Forall_forall in Ht.
      apply (Ht factor Hf). }
    destruct (isInsideQuantifiedPathPrimary_ c) eqn:Hflag.
    + simpl. apply forallb_Forall_true.
      eapply Forall_impl;
        [|intros term Ht; apply forallb_Forall_true; exact Ht].
      refine (Process_factors fs pf _ op terms c c' _ H).
      intros factor s s' Hs Hfactor Hin. rewrite Hflag in Hs.
      apply ProcessFactor_primary in Hfactor as (t & t' & Hp & Hq).
      specialize (HIH factor Hin t t' Hp).
      destruct (isQuantified factor).
      * destruct Hq as [Hq _]. congruence.
      * rewrite Hq, Hs in HIH. rewrite HIH. reflexivity.
    + simpl. apply forallb_Forall_true.
      eapply Forall_impl;
        [|intros term Ht; apply forallb_Forall_true; exact Ht].
      refine (Process_factors fs pf _ op terms c c' _ H).
      intros factor s s' Hs Hfactor Hin. rewrite Hflag in Hs.
      apply ProcessFactor_primary in Hfactor as (t & t' & Hp & Hq).
      specialize (HIH factor Hin t t' Hp).
      destruct (isQuantified factor).
      * destruct Hq as [_ Hq]. rewrite Hq in HIH. exact HIH.
      * rewrite Hq, Hs in HIH. exact HIH.
  - intros e _ c c' _. simpl. destruct (isInsideQuantifiedPathPrimary_ c);
      reflexivity.
  - intros p Hall c c' H. destruct Hall as [pos v m e He w Hw]. simpl in *.
    unfold ProcessParenthesized in H.
    bind_inv_as H u1 F1. bind_inv_as H u2 F2. bind_inv_as H u3 F3.
    bind_inv_as H u4 F4. bind_inv_as H c1 H1. bind_inv_as H c2 H2.
    bind_inv_as H c3 H3. simpl in *.
    specialize (He c2 c3 H3).
    assert (Hflag : isInsideQuantifiedPathPrimary_ c2
                    = isInsideQuantifiedPathPrimary_ c).
    { apply EnterPathMode_Deepens in H2.
      assert (H1' : Balanced (EnterParenthesizedPathPatternExpression c) c1).
      { destruct v as [v|].
        - apply (DeclareVariable_Balanced _ _ _ _ _ _ H1).
        - inversion H1. apply Balanced_refl. }
      pose proof (EnterParenthesizedPathPatternExpression_Deepens c) as H0.
      unfold Balanced in H1'. destruct_and?. congruence. }
    rewrite Hflag in He. exact He.
  - intros s c c' H. discriminate.
Qed.


(** X3: the traversal never accepts a quantifier [{m,n}] inside another
    one. When [Process] is called outside a quantified path primary and
    returns normally, no factor with such a quantifier lies inside another
    such factor, at any depth of parentheses. *)
Theorem Process_quantifiers_not_nested fs pf
    (pathPattern : PathPatternExpression) (c c' : GraphPatternContext) :
  isInsideQuantifiedPathPrimary_ c = false ->
  Process fs pf pathPattern c = Ok c' ->
  quantifiersNotNested pathPattern = true.
Proof.
  intros Hflag H. apply Process_quantifiers_flag in H.
  rewrite Hflag in H. exact H.
Qed.

Lemma Process_quantifiers_not_nested_witness :
  quantifiersNotNested unboundedGroupPattern = true
  /\ quantifiersNotNested nestedQuantifiers = false
  /\ Process allFeatures acceptLabels nestedQuantifiers
       (EnterPathPattern false (newGraphPatternContext true))
     = Throw E0004.
Proof.
  split; [|split; vm_compute; reflexivity].
  apply (Process_quantifiers_not_nested allFeatures acceptLabels
           unboundedGroupPattern
           (EnterPathPattern false (newGraphPatternContext true))
           beforeExitPathPattern).
  - reflexivity.
  - vm_compute. reflexivity.
Defined.

Lemma processFiller_predicate pf filler :
  processFiller pf filler = Ok tt -> predicate filler = None.
Proof.
  unfold processFiller. intros H. bind_inv_as H u Hu.
  destruct (predicate filler); [discriminate | reflexivity].
Qed.

Lemma ProcessElementPattern_rewritten pf value c c' :
  ProcessElementPattern pf value c = Ok c' ->
  rewrittenPrimary (Element value) = true.
Proof.
  intros H. destruct value as [pos filler|pos dir filler]; simpl in *;
    bind_inv_as H c1 H1; bind_inv_as H c2 H2; bind_inv_as H u Hu;
    destruct u; apply processFiller_predicate in Hu;
    apply bool_decide_eq_true; exact Hu.
Qed.

(** X4: the traversal accepts only rewritten patterns. When [Process]
    returns normally, the pattern holds no simplified path pattern and no
    element pattern with a property predicate or a WHERE clause, at any
    depth of parentheses. *)
Theorem Process_rewritten fs pf (pathPattern : PathPatternExpression)
    (c c' : GraphPatternContext) :
  Process fs pf pathPattern c = Ok c' ->
  rewritten pathPattern = true.
Proof.
  revert pathPattern c c'.
  apply (PathPatternExpression_mind
           (fun _ => True)
           (fun e => forall c c',
                Process fs pf e c = Ok c' -> rewritten e = true)
           (fun p => forall c c',
                ProcessPrimary fs pf (Process fs pf) p c = Ok c' ->
                rewrittenPrimary p = true));
    try (intros; exact I).
  - intros op terms Hall c c' H.
    assert (Hterms :
              Forall (Forall (fun factor : PathFactor =>
                                forall c c',
                                  ProcessPrimary fs pf (Process fs pf)
                                    (pattern factor) c = Ok c' ->
                                  rewrittenPrimary (pattern factor) = true))
                terms).
    { refine (list_all_Forall _ _ terms _ Hall). intros term' Hterm'.
      refine (list_all_Forall _ _ term' _ Hterm').
      intros factor Hfactor. destruct Hfactor as [q p Hp]. exact Hp. }
    simpl. apply forallb_Forall_true.
    eapply Forall_impl;
      [|intros term Ht; apply forallb_Forall_true; exact Ht].
    refine (Process_factors fs pf _ op terms c c' _ H).
    intros factor s s' _ Hfactor Hin.
    apply in_concat in Hin as (term & Hterm & Hf).
    rewrite Forall_forall in Hterms.
    apply list_elem_of_In in Hterm, Hf.
    pose proof (Hterms term Hterm) as Ht. rewrite Forall_forall in Ht.
    apply ProcessFactor_primary in Hfactor as (t & t' & Hp & _).
    apply (Ht factor Hf t t' Hp).
  - intros e _ c c' H. simpl in H.
    apply (ProcessElementPattern_rewritten _ _ _ _ H).
  - intros p Hall c c' H. destruct Hall as [pos v m e He w Hw]. simpl in *.
    unfold ProcessParenthesized in H.
    bind_inv_as H u1 F1. bind_inv_as H u2 F2. bind_inv_as H u3 F3.
    bind_inv_as H u4 F4. bind_inv_as H c1 H1. bind_inv_as H c2 H2.
    bind_inv_as H c3 H3. simpl in *.
    apply (He c2 c3 H3).
  - intros s c c' H. discriminate.
Qed.

Lemma Process_rewritten_witness :
  rewritten unboundedGroupPattern = true.
Proof.
  apply (Process_rewritten allFeatures acceptLabels unboundedGroupPattern
           (EnterPathPattern false (newGraphPatternContext true))
           beforeExitPathPattern).
  vm_compute. reflexivity.
Defined.

(** ** The features a pattern uses *)

Lemma forEach_ext {A S : Type} (body body' : A -> S -> Result S)
    (xs : list A) :
  (forall x s, x ∈ xs -> body x s = body' x s) ->
  forall s, forEach body xs s = forEach body' xs s.
Proof.
  induction xs as [|x xs IH]; intros Hbody s; [reflexivity|].
  rewrite !forEach_cons. rewrite (Hbody x s (list_elem_of_here _ _)).
  destruct (body' x s) as [s1| |]; simpl; [|reflexivity|reflexivity].
  apply IH. intros y t Hy. apply Hbody. apply list_elem_of_further. exact Hy.
Qed.

Lemma ThrowIfFeatureNotSupported_Ok fs f u :
  ThrowIfFeatureNotSupported fs f = Ok u -> fs f = true.
Proof.
  unfold ThrowIfFeatureNotSupported. destruct (fs f);
    [reflexivity | discriminate].
Qed.

Lemma ThrowIfFeatureNotSupported_ext fs fs' f :
  fs f = fs' f ->
  ThrowIfFeatureNotSupported fs f = ThrowIfFeatureNotSupported fs' f.
Proof. unfold ThrowIfFeatureNotSupported. intros ->. reflexivity. Qed.

Lemma ProcessPathMode_Ok fs mode u :
  ProcessPathMode fs mode = Ok u ->
  Forall (fun f => fs f = true) (pathModeFeatures mode).
Proof.
  destruct mode; simpl; intros H;
    try (apply ThrowIfFeatureNotSupported_Ok in H);
    repeat constructor; assumption.
Qed.

Lemma ProcessPathMode_ext fs fs' mode :
  Forall (fun f => fs f = fs' f) (pathModeFeatures mode) ->
  ProcessPathMode fs mode = ProcessPathMode fs' mode.
Proof.
  destruct mode; simpl; intros H; [reflexivity|..];
    apply ThrowIfFeatureNotSupported_ext; inversion H; assumption.
Qed.

Lemma ActivateQuantifier_Ok fs q c r :
  ActivateQuantifier fs q c = Ok r ->
  Forall (fun f => fs f = true) (quantifierFeatures q).
Proof.
  destruct q as [| |lower upper]; simpl; intros H;
    [constructor | constructor |].
  bind_inv_as H u Hu. apply ThrowIfFeatureNotSupported_Ok in Hu.
  repeat constructor. exact Hu.
Qed.

Lemma ActivateQuantifier_ext fs fs' q c :
  Forall (fun f => fs f = fs' f) (quantifierFeatures q) ->
  ActivateQuantifier fs q c = ActivateQuantifier fs' q c.
Proof.
  destruct q as [| |lower upper]; simpl; intros H;
    [reflexivity | reflexivity |].
  inversion H as [|f l Hf _]. subst.
  rewrite (ThrowIfFeatureNotSupported_ext fs fs' _ Hf). reflexivity.
Qed.

Lemma ProcessParenthesized_Ok fs P value c c' :
  ProcessParenthesized fs P value c = Ok c' ->
  Forall (fun f => fs f = true) (parenthesizedFeatures value)
  /\ exists s s', P (pppe_pattern value) s = Ok s'.
Proof.
  unfold ProcessParenthesized, parenthesizedFeatures. intros H.
  bind_inv_as H u1 F1. bind_inv_as H u2 F2. bind_inv_as H u3 F3.
  bind_inv_as H u4 F4. bind_inv_as H c1 H1. bind_inv_as H c2 H2.
  bind_inv_as H c3 H3. split; [|exists c2, c3; exact H3].
  repeat apply Forall_app_2.
  - destruct (bool_decide (is_Some (pppe_var value))); [|constructor].
    apply ThrowIfFeatureNotSupported_Ok in F1. repeat constructor. exact F1.
  - destruct (negb (bool_decide (pathMode value = WALK))); [|constructor].
    apply ThrowIfFeatureNotSupported_Ok in F2. repeat constructor. exact F2.
  - destruct (bool_decide (is_Some (pppe_where value))); [|constructor].
    apply ThrowIfFeatureNotSupported_Ok in F3. repeat constructor. exact F3.
  - apply (ProcessPathMode_Ok _ _ _ F4).
Qed.

Lemma ProcessParenthesized_ext fs fs' P P' value c :
  Forall (fun f => fs f = fs' f) (parenthesizedFeatures value) ->
  (forall s, P (pppe_pattern value) s = P' (pppe_pattern value) s) ->
  ProcessParenthesized fs P value c = ProcessParenthesized fs' P' value c.
Proof.
  unfold ProcessParenthesized, parenthesizedFeatures. intros H HP.
  apply Forall_app in H as [H1 H]. apply Forall_app in H as [H2 H].
  apply Forall_app in H as [H3 H4].
  rewrite (ProcessPathMode_ext fs fs' _ H4).
  assert (E1 : (if bool_decide (is_Some (pppe_var value))
                then ThrowIfFeatureNotSupported fs G048 else Ok tt)
               = (if bool_decide (is_Some (pppe_var value))
                  then ThrowIfFeatureNotSupported fs' G048 else Ok tt)).
  { destruct (bool_decide (is_Some (pppe_var value))); [|reflexivity].
    apply ThrowIfFeatureNotSupported_ext. inversion H1. assumption. }
  assert (E2 : (if negb (bool_decide (pathMode value = WALK))
                then ThrowIfFeatureNotSupported fs G049 else Ok tt)
               = (if negb (bool_decide (pathMode value = WALK))
                  then ThrowIfFeatureNotSupported fs' G049 else Ok tt)).
  { destruct (negb (bool_decide (pathMode value = WALK))); [|reflexivity].
    apply ThrowIfFeatureNotSupported_ext. inversion H2. assumption. }
  assert (E3 : (if bool_decide (is_Some (pppe_where value))
                then ThrowIfFeatureNotSupported fs G050 else Ok tt)
               = (if bool_decide (is_Some (pppe_where value))
                  then ThrowIfFeatureNotSupported fs' G050 else Ok tt)).
  { destruct (bool_decide (is_Some (pppe_where value))); [|reflexivity].
    apply ThrowIfFeatureNotSupported_ext. inversion H3. assumption. }
  rewrite E1, E2, E3.
  destruct (if bool_decide (is_Some (pppe_var value))
            then ThrowIfFeatureNotSupported fs' G048 else Ok tt);
    simpl; [|reflexivity|reflexivity].
  destruct (if negb (bool_decide (pathMode value = WALK))
            then ThrowIfFeatureNotSupported fs' G049 else Ok tt);
    simpl; [|reflexivity|reflexivity].
  destruct (if bool_decide (is_Some (pppe_where value))
            then ThrowIfFeatureNotSupported fs' G050 else Ok tt);
    simpl; [|reflexivity|reflexivity].
  destruct (ProcessPathMode fs' (pathMode value));
    simpl; [|reflexivity|reflexivity].
  destruct (match pppe_var value with
            | Some v =>
                DeclareSubpathVariable v
                  (EnterParenthesizedPathPatternExpression c)
            | None => Ok (EnterParenthesizedPathPatternExpression c)
            end) as [c1| |]; simpl; [|reflexivity|reflexivity].
  destruct (EnterPathMode (pathMode value) c1) as [c2| |];
    simpl; [|reflexivity|reflexivity].
  rewrite HP. reflexivity.
Qed.

Lemma ProcessFactor_ext fs fs' pf factor c :
  Forall (fun f => fs f = fs' f) (quantifierFeatures (quantifier factor)) ->
  (forall s, ProcessPrimary fs pf (Process fs pf) (pattern factor) s
             = ProcessPrimary fs' pf (Process fs' pf) (pattern factor) s) ->
  ProcessFactor fs pf (Process fs pf) factor c
  = ProcessFactor fs' pf (Process fs' pf) factor c.
Proof.
  intros Hq Hp. unfold ProcessFactor.
  destruct (VariableReferenceScope_enter c) as [c0 parent].
  rewrite (ActivateQuantifier_ext fs fs' _ _ Hq).
  destruct (ActivateQuantifier fs' (quantifier factor) c0) as [[c1 active]| |];
    simpl; [|reflexivity|reflexivity].
  specialize (Hp c1). unfold ProcessPrimary in Hp.
  destruct (pattern factor); simpl in *;
    [reflexivity | rewrite Hp; reflexivity | reflexivity].
Qed.

Lemma Forall_concat_map {A B : Type} (P : B -> Prop) (g : A -> list B)
    (l : list A) :
  Forall P (List.concat (List.map g l)) <-> Forall (fun a => Forall P (g a)) l.
Proof.
  induction l as [|a l IH]; simpl.
  - split; intros _; constructor.
  - rewrite Forall_app, Forall_cons, IH. reflexivity.
Qed.

Lemma featuresOf_unfold op terms :
  featuresOf (mkPathPatternExpression op terms)
  = (unionFeatures op terms
     ++ List.concat
          (List.map (fun term : list PathFactor =>
                       List.concat
                         (List.map (fun factor : PathFactor =>
                                      (quantifierFeatures (quantifier factor)
                                       ++ featuresOfPrimary (pattern factor))
                                      %list)
                                   term))
                    terms))%list.
Proof. reflexivity. Qed.

Lemma Forall_featuresOf (P : Feature -> Prop) op terms :
  Forall P (featuresOf (mkPathPatternExpression op terms))
  <-> Forall P (unionFeatures op terms)
      /\ Forall (Forall (fun factor : PathFactor =>
                           Forall P (quantifierFeatures (quantifier factor))
                           /\ Forall P (featuresOfPrimary (pattern factor))))
           terms.
Proof.
  rewrite featuresOf_unfold, Forall_app, Forall_concat_map.
  apply and_iff_compat_l. apply Forall_iff. intros term.
  rewrite Forall_concat_map. apply Forall_iff. intros factor.
  apply Forall_app.
Qed.

(** X5: the traversal accepts only what the implementation supports. When
    [Process] returns normally, every feature the pattern uses (alternation
    G030/G032, quantifiers G060/G061, and for a parenthesized pattern its
    subpath variable G048, path mode G049 and G011-G013, and WHERE clause
    G050) is supported. *)
Theorem Process_features_supported fs pf (pathPattern : PathPatternExpression)
    (c c' : GraphPatternContext) :
  Process fs pf pathPattern c = Ok c' ->
  Forall (fun f => fs f = true) (featuresOf pathPattern).
Proof.
  revert pathPattern c c'.
  apply (PathPatternExpression_mind
           (fun _ => True)
           (fun e => forall c c',
                Process fs pf e c = Ok c' ->
                Forall (fun f => fs f = true) (featuresOf e))
           (fun p => forall c c',
                ProcessPrimary fs pf (Process fs pf) p c = Ok c' ->
                Forall (fun f => fs f = true) (featuresOfPrimary p)));
    try (intros; exact I).
  - intros op terms Hall c c' H.
    assert (Hterms :
              Forall (Forall (fun factor : PathFactor =>
                                forall c c',
                                  ProcessPrimary fs pf (Process fs pf)
                                    (pattern factor) c = Ok c' ->
                                  Forall (fun f => fs f = true)
                                    (featuresOfPrimary (pattern factor))))
                terms).
    { refine (list_all_Forall _ _ terms _ Hall). intros term' Hterm'.
      refine (list_all_Forall _ _ term' _ Hterm').
      intros factor Hfactor. destruct Hfactor as [q p Hp]. exact Hp. }
    apply Forall_featuresOf. split.
    + rewrite Process_unfold in H. bind_inv_as H u Hu. unfold unionFeatures.
      destruct (bool_decide (1 < length terms)%nat); [|constructor].
      apply ThrowIfFeatureNotSupported_Ok in Hu. repeat constructor. exact Hu.
    + refine (Process_factors fs pf _ op terms c c' _ H).
      intros factor s s' _ Hfactor Hin.
      apply in_concat in Hin as (term & Hterm & Hf).
      rewrite Forall_forall in Hterms.
      apply list_elem_of_In in Hterm, Hf.
      pose proof (Hterms term Hterm) as Ht. rewrite Forall_forall in Ht.
      pose proof (ProcessFactor_primary _ _ _ _ _ _ Hfactor)
        as (t & t' & Hp & _).
      split; [|apply (Ht factor Hf t t' Hp)].
      unfold ProcessFactor in Hfactor.
      unfold VariableReferenceScope_enter in Hfactor. cbv zeta in Hfactor.
      bind_inv_as Hfactor r1 H1.
      apply (ActivateQuantifier_Ok _ _ _ _ H1).
  - intros e _ c c' _. constructor.
  - intros p Hall c c' H. destruct Hall as [pos v m e He w Hw].
    simpl in H. apply ProcessParenthesized_Ok in H as [Hf (s & s' & Hs)].
    simpl. apply Forall_app_2; [exact Hf|]. apply (He s s' Hs).
  - intros s c c' H. discriminate.
Qed.

Lemma Process_features_supported_witness :
  Forall (fun f => allFeatures f = true) (featuresOf unboundedGroupPattern)
  /\ featuresOf unboundedGroupPattern = [G061]
  /\ Process withoutBoundedQuantifier acceptLabels nestedQuantifiers
       (EnterPathPattern false (newGraphPatternContext true))
     = Throw FeatureNotSupported.
Proof.
  split; [|split; vm_compute; reflexivity].
  apply (Process_features_supported allFeatures acceptLabels
           unboundedGroupPattern
           (EnterPathPattern false (newGraphPatternContext true))
           beforeExitPathPattern).
  vm_compute. reflexivity.
Defined.



(** ** The declarations of a pattern *)

Ltac decls :=
  unfold SameDeclarations in *; simpl in *;
  repeat match goal with
         | H : Ok _ = Ok _ |- _ => inversion H; clear H; subst; simpl in *
         end;
  first [reflexivity | congruence].

Lemma forEach_SameDeclarations {A : Type}
    (body : A -> GraphPatternContext -> Result GraphPatternContext)
    (xs : list A) (c c' : GraphPatternContext) :
  (forall x s s', x ∈ xs -> body x s = Ok s' -> SameDeclarations s s') ->
  forEach body xs c = Ok c' -> SameDeclarations c c'.
Proof.
  intros Hbody. apply (forEach_invariant (SameDeclarations c)).
  - intros x s s' Hx Hs H. pose proof (Hbody x s s' Hx H). decls.
  - reflexivity.
Qed.

Lemma ExposeVariable_declarations name v c c' :
  ExposeVariable name v c = Ok c' -> SameDeclarations c c'.
Proof.
  intros H. apply ExposeVariable_Ok in H as (f & rest & Hc & Hcase).
  destruct Hcase as [[_ ->] | (e & _ & _ & ->)]; decls.
Qed.

Lemma writeDeclaredVariable_declarations name v c c' :
  writeDeclaredVariable name v c = Ok c' -> SameDeclarations c c'.
Proof.
  unfold writeDeclaredVariable. intros H.
  destruct (currentVariableReferenceScope_ c) as [p|]; [|discriminate].
  destruct (auxStore c !! p); [|discriminate]. decls.
Qed.

Lemma ExposeNewVariable_declarations name v c c' :
  ExposeNewVariable name v c = Ok c' -> SameDeclarations c c'.
Proof.
  unfold ExposeNewVariable. intros H. bind_inv_as H c1 H1.
  apply ExposeVariable_declarations in H1.
  destruct (isElementType (type (base v))).
  - apply writeDeclaredVariable_declarations in H. decls.
  - decls.
Qed.

Lemma AppendExposedVariables_declarations c c' :
  AppendExposedVariables c = Ok c' -> SameDeclarations c c'.
Proof.
  unfold AppendExposedVariables. intros H. bind_inv_as H frame Hframe.
  bind_inv_as H frames Hframes.
  apply forEach_SameDeclarations in H;
    [|intros x s s' _ Hx; apply (ExposeVariable_declarations _ _ _ _ Hx)].
  decls.
Qed.

Lemma EnterVariableScope_declarations c :
  SameDeclarations c (EnterVariableScope c).
Proof. reflexivity. Qed.

Lemma ExitVariableScope_declarations c c' :
  ExitVariableScope c = Ok c' -> SameDeclarations c c'.
Proof.
  unfold ExitVariableScope. intros H. bind_inv_as H exposed Hexposed.
  bind_inv_as H addr Haddr. bind_inv_as H u Hu. bind_inv_as H stack Hstack.
  apply AppendExposedVariables_declarations in H. decls.
Qed.

(** [DeclareVariable] adds the name to [variableDeclarations_], where the
    first declaration of a name stays. *)
Lemma DeclareVariable_declarations name pos ty isTemp c c' :
  DeclareVariable name pos ty isTemp c = Ok c' ->
  variableDeclarations_ c'
  = match variableDeclarations_ c !! name with
    | Some _ => variableDeclarations_ c
    | None =>
        <[name := {| type_ := ty;
                     declarationOrder_ :=
                       Z.of_nat (size (variableDeclarations_ c));
                     firstDeclarationPosition_ := pos |}]>
          (variableDeclarations_ c)
    end.
Proof.
  unfold DeclareVariable. intros H. bind_inv_as H u Hu.
  bind_inv_as H c1 H1. bind_inv_as H c2 H2. bind_inv_as H counts Hcounts.
  inversion H. subst c'. clear H.
  apply ExposeNewVariable_declarations in H2.
  unfold SameDeclarations in H2. simpl. rewrite H2. clear H2 Hcounts Hu.
  destruct (IsSet (lastVariableDeclarationPosition_ c)); simpl in H1;
    destruct (variableDeclarations_ c !! name) as [it|];
    try (destruct (negb (bool_decide (type_ it = ty))); [discriminate|];
         destruct ty; try discriminate);
    inversion H1; subst c1; reflexivity.
Qed.

Lemma DeclareNodeVariable_declarations v c c' :
  DeclareNodeVariable v c = Ok c' ->
  exists c1, DeclareVariable (evd_name v) (evd_pos v) Node (evd_isTemp v) c
             = Ok c1
             /\ SameDeclarations c1 c'.
Proof.
  unfold DeclareNodeVariable. intros H. bind_inv_as H c1 H1.
  exists c1. split; [exact H1|]. inversion H. subst c'.
  destruct (expectingLeftBoundaryVariable_ c1 && negb (evd_isTemp v)); decls.
Qed.

Lemma EnterPathPattern_declarations sel c :
  SameDeclarations c (EnterPathPattern sel c).
Proof. unfold EnterPathPattern. destruct sel; reflexivity. Qed.

Lemma ExitPathPattern_declarations c c' auxData :
  ExitPathPattern c = Ok (c', auxData) -> SameDeclarations c c'.
Proof.
  unfold ExitPathPattern. intros H. bind_inv_as H c1 H1.
  assert (Hc1 : SameDeclarations c c1).
  { destruct (isInsideSelectivePattern_ c); [|decls].
    bind_inv_as H1 frame Hframe. bind_inv_as H1 c0 H0.
    apply ExitVariableScope_declarations in H0.
    bind_inv_as H1 frame' Hframe'. bind_inv_as H1 marked Hmarked.
    bind_inv_as H1 frames Hframes. decls. }
  bind_inv_as H frame Hframe. bind_inv_as H frames Hframes.
  bind_inv_as H c2 H2.
  apply forEach_SameDeclarations in H2;
    [|intros x s s' _ Hx; apply (ExposeVariable_declarations _ _ _ _ Hx)].
  bind_inv_as H nonZero HnonZero. destruct (negb nonZero); [discriminate|].
  bind_inv_as H counts Hcounts. decls.
Qed.

Lemma EnterParenthesizedPathPatternExpression_declarations c :
  SameDeclarations c (EnterParenthesizedPathPatternExpression c).
Proof. reflexivity. Qed.

Lemma ExitParenthesizedPathPatternExpression_declarations b c c' :
  ExitParenthesizedPathPatternExpression b c = Ok c' ->
  SameDeclarations c c'.
Proof.
  unfold ExitParenthesizedPathPatternExpression. intros H.
  bind_inv_as H c1 H1. apply ExitVariableScope_declarations in H1.
  bind_inv_as H nonZero HnonZero.
  destruct (b && negb nonZero); [discriminate|].
  bind_inv_as H counts Hcounts. decls.
Qed.

Lemma EnterPathMode_declarations mode c c' :
  EnterPathMode mode c = Ok c' -> SameDeclarations c c'.
Proof.
  unfold EnterPathMode. intros H. bind_inv_as H outer Houter. decls.
Qed.

Lemma ExitPathMode_declarations c c' :
  ExitPathMode c = Ok c' -> SameDeclarations c c'.
Proof.
  unfold ExitPathMode. intros H. bind_inv_as H modes Hmodes. decls.
Qed.

Lemma EnterQuantifiedPathPrimary_declarations bounded c c' :
  EnterQuantifiedPathPrimary bounded c = Ok c' -> SameDeclarations c c'.
Proof.
  unfold EnterQuantifiedPathPrimary. intros H.
  destruct (isInsideQuantifiedPathPrimary_ c); [discriminate|].
  bind_inv_as H unboundedOutside Hu.
  destruct unboundedOutside; [discriminate|]. decls.
Qed.

Lemma ExitQuantifiedPathPrimary_declarations bounded lowerBound c c' :
  ExitQuantifiedPathPrimary bounded lowerBound c = Ok c' ->
  SameDeclarations c c'.
Proof.
  unfold ExitQuantifiedPathPrimary. intros H.
  bind_inv_as H frame Hframe. bind_inv_as H frames Hframes.
  bind_inv_as H c1 H1.
  apply forEach_SameDeclarations in H1.
  2: { intros x s s' _ Hx. bind_inv_as Hx v' Hv'.
       apply (ExposeNewVariable_declarations _ _ _ _ Hx). }
  bind_inv_as H minimumPathLength Hmin.
  destruct (bool_decide (minimumPathLength = 0)); [discriminate|].
  bind_inv_as H lengths Hlengths. bind_inv_as H counts Hcounts. decls.
Qed.

Lemma EnterQuestionedPathPrimary_declarations c :
  SameDeclarations c (EnterQuestionedPathPrimary c).
Proof. reflexivity. Qed.

Lemma ExitQuestionedPathPrimary_declarations c c' :
  ExitQuestionedPathPrimary c = Ok c' -> SameDeclarations c c'.
Proof.
  unfold ExitQuestionedPathPrimary. intros H.
  bind_inv_as H frame Hframe. bind_inv_as H frames Hframes.
  bind_inv_as H c1 H1.
  apply forEach_SameDeclarations in H1;
    [|intros x s s' _ Hx; apply (ExposeNewVariable_declarations _ _ _ _ Hx)].
  bind_inv_as H minimumPathLength Hmin.
  destruct (bool_decide (minimumPathLength = 0)); [discriminate|].
  bind_inv_as H lengths Hlengths. bind_inv_as H counts Hcounts. decls.
Qed.

Lemma EnterPathPatternUnion_declarations c :
  SameDeclarations c (EnterPathPatternUnion c).
Proof. reflexivity. Qed.

Lemma ExitPathPatternUnion_declarations c c' :
  ExitPathPatternUnion c = Ok c' -> SameDeclarations c c'.
Proof.
  unfold ExitPathPatternUnion. intros H. bind_inv_as H c1 H1.
  apply AppendExposedVariables_declarations in H1.
  bind_inv_as H lengths Hlengths. bind_inv_as H counts Hcounts.
  bind_inv_as H currentUnion Hunion. bind_inv_as H conds Hconds.
  bind_inv_as H unions Hunions. decls.
Qed.

Lemma EnterPathPatternUnionOperand_declarations c :
  SameDeclarations c (EnterPathPatternUnionOperand c).
Proof. reflexivity. Qed.

Lemma ExitPathPatternUnionOperand_declarations c c' :
  ExitPathPatternUnionOperand c = Ok c' -> SameDeclarations c c'.
Proof.
  unfold ExitPathPatternUnionOperand. intros H.
  bind_inv_as H exposed Hexposed. bind_inv_as H frames Hframes.
  bind_inv_as H unionExposed Hunion. bind_inv_as H merged Hmerged.
  bind_inv_as H frames' Hframes'. bind_inv_as H lengths Hlengths.
  bind_inv_as H counts Hcounts. bind_inv_as H localVariables Hlocal.
  bind_inv_as H unions Hunions. bind_inv_as H counts' Hcounts'. decls.
Qed.

Lemma EnterNodePattern_declarations c c' :
  EnterNodePattern c = Ok c' -> SameDeclarations c c'.
Proof.
  unfold EnterNodePattern. intros H. bind_inv_as H counts Hcounts. decls.
Qed.

Lemma EnterEdgePattern_declarations c c' :
  EnterEdgePattern c = Ok c' -> SameDeclarations c c'.
Proof.
  unfold EnterEdgePattern. intros H. bind_inv_as H lengths Hlengths. decls.
Qed.

Lemma AddSearchCondition_declarations where_ c c' :
  AddSearchCondition where_ c = Ok c' -> SameDeclarations c c'.
Proof.
  unfold AddSearchCondition. intros H. bind_inv_as H current Hcurrent. decls.
Qed.

Lemma Finalize_declarations c c' :
  Finalize c = Ok c' -> SameDeclarations c c'.
Proof.
  unfold Finalize. intros H. bind_inv_as H total Htotal.
  bind_inv_as H counts Hcounts. apply ExitVariableScope_declarations in H.
  decls.
Qed.

Lemma foldl_union_list {A : Type} (f : gset string -> A -> gset string)
    (g : A -> gset string) (l : list A) :
  (forall x cols, x ∈ l -> f cols x = cols ∪ g x) ->
  forall cols, foldl f cols l = cols ∪ ⋃ (g <$> l).
Proof.
  induction l as [|x l IH]; intros Hf cols.
  - simpl. rewrite union_empty_r_L. reflexivity.
  - rewrite fmap_cons, union_list_cons. simpl foldl. rewrite IH.
    + rewrite (Hf x cols (list_elem_of_here _ _)).
      rewrite (assoc_L (∪)). reflexivity.
    + intros y cols' Hy. apply Hf. apply list_elem_of_further. exact Hy.
Qed.

Lemma union_list_fmap_ext {A : Type} (g h : A -> gset string) (l : list A) :
  Forall (fun x => g x = h x) l -> ⋃ (g <$> l) = ⋃ (h <$> l).
Proof.
  induction 1 as [|x l Hx _ IH]; [reflexivity|].
  rewrite !fmap_cons, !union_list_cons. congruence.
Qed.

Lemma union_list_fmap_union {A : Type} (g h : A -> gset string)
    (l : list A) :
  ⋃ ((fun x => g x ∪ h x) <$> l) = ⋃ (g <$> l) ∪ ⋃ (h <$> l).
Proof.
  induction l as [|x l IH].
  - simpl. rewrite union_empty_r_L. reflexivity.
  - rewrite !fmap_cons, !union_list_cons, IH. clear IH.
    apply set_eq. intros name. rewrite !elem_of_union. tauto.
Qed.

Lemma CollectPathPatternOutputColumns_unfold op terms cols :
  CollectPathPatternOutputColumns (mkPathPatternExpression op terms) cols
  = foldl (fun cols term =>
             foldl (fun cols (factor : PathFactor) =>
                      CollectPathPrimaryOutputColumns (pattern factor) cols)
                   cols term)
          cols terms.
Proof. reflexivity. Qed.

Lemma CollectPathPatternOutputColumns_terms op terms cols :
  Forall (Forall (fun factor : PathFactor =>
                    forall cols,
                      CollectPathPrimaryOutputColumns (pattern factor) cols
                      = cols ∪ columnsOfPrimary (pattern factor))) terms ->
  CollectPathPatternOutputColumns (mkPathPatternExpression op terms) cols
  = cols ∪ ⋃ ((fun term : list PathFactor =>
                 ⋃ ((fun factor : PathFactor =>
                       columnsOfPrimary (pattern factor)) <$> term))
                <$> terms).
Proof.
  intros H. rewrite CollectPathPatternOutputColumns_unfold.
  apply foldl_union_list. intros term cols' Hterm.
  apply foldl_union_list. intros factor cols'' Hfactor.
  rewrite Forall_forall in H. pose proof (H term Hterm) as Ht.
  rewrite Forall_forall in Ht. apply (Ht factor Hfactor).
Qed.

Lemma union_empty_absorb (cols X : gset string) :
  cols ∪ X = cols ∪ (∅ ∪ X).
Proof. rewrite union_empty_l_L. reflexivity. Qed.

Lemma insertColumn_union name (cols : gset string) :
  insertColumn name cols = cols ∪ {[name]}.
Proof. unfold insertColumn. apply union_comm_L. Qed.

Lemma CollectElementOutputColumns_all (e : ElementPattern) cols :
  CollectPathPrimaryOutputColumns (Element e) cols
  = cols ∪ columnsOfPrimary (Element e).
Proof.
  unfold columnsOfPrimary.
  destruct e as [pos filler|pos dir filler]; simpl;
    destruct (var filler) as [v|];
    rewrite ?insertColumn_union, ?union_empty_l_L, ?union_empty_r_L;
    reflexivity.
Qed.

Lemma CollectPathPatternOutputColumns_all (e : PathPatternExpression) :
  forall cols,
    CollectPathPatternOutputColumns e cols
    = cols ∪ CollectPathPatternOutputColumns e ∅.
Proof.
  revert e.
  apply (PathPatternExpression_mind
           (fun _ => True)
           (fun e => forall cols,
                CollectPathPatternOutputColumns e cols
                = cols ∪ CollectPathPatternOutputColumns e ∅)
           (fun p => forall cols,
                CollectPathPrimaryOutputColumns p cols
                = cols ∪ columnsOfPrimary p));
    try (intros; exact I).
  - intros op terms Hall cols.
    assert (Hterms :
              Forall (Forall (fun factor : PathFactor =>
                                forall cols,
                                  CollectPathPrimaryOutputColumns
                                    (pattern factor) cols
                                  = cols ∪ columnsOfPrimary (pattern factor)))
                terms).
    { refine (list_all_Forall _ _ terms _ Hall). intros term' Hterm'.
      refine (list_all_Forall _ _ term' _ Hterm').
      intros factor Hfactor. destruct Hfactor as [q p Hp]. exact Hp. }
    rewrite (CollectPathPatternOutputColumns_terms op terms cols Hterms).
    rewrite (CollectPathPatternOutputColumns_terms op terms ∅ Hterms).
    apply union_empty_absorb.
  - intros e _ cols. apply CollectElementOutputColumns_all.
  - intros p Hall cols. destruct Hall as [pos v m e He w Hw].
    unfold columnsOfPrimary. simpl in *. apply He.
  - intros s cols. unfold columnsOfPrimary. simpl.
    rewrite union_empty_r_L. reflexivity.
Qed.

Lemma CollectPathPrimaryOutputColumns_all (p : PathPrimary) cols :
  CollectPathPrimaryOutputColumns p cols = cols ∪ columnsOfPrimary p.
Proof.
  destruct p as [e|pp|s].
  - apply CollectElementOutputColumns_all.
  - unfold columnsOfPrimary. simpl. apply CollectPathPatternOutputColumns_all.
  - unfold columnsOfPrimary. simpl. rewrite union_empty_r_L. reflexivity.
Qed.

Lemma CollectPathPatternOutputColumns_empty op terms :
  CollectPathPatternOutputColumns (mkPathPatternExpression op terms) ∅
  = ⋃ ((fun term : list PathFactor =>
          ⋃ ((fun factor : PathFactor =>
                columnsOfPrimary (pattern factor)) <$> term))
         <$> terms).
Proof.
  rewrite CollectPathPatternOutputColumns_terms.
  - apply union_empty_l_L.
  - apply Forall_forall. intros term _. apply Forall_forall. intros factor _.
    intros cols. apply CollectPathPrimaryOutputColumns_all.
Qed.

Lemma CollectSimpleMatchOutputColumns_columns statement cols :
  CollectSimpleMatchOutputColumns statement cols
  = cols ∪ match yield statement with
           | Some items => ⋃ (singleton <$> items)
           | None =>
               ⋃ (columnsOfPathPattern <$> paths (match_pattern statement))
           end.
Proof.
  unfold CollectSimpleMatchOutputColumns.
  destruct (yield statement) as [items|].
  - apply foldl_union_list. intros name cols' _.
    apply insertColumn_union.
  - apply foldl_union_list. intros pathPattern cols' _.
    rewrite CollectPathPatternOutputColumns_all. unfold columnsOfPathPattern.
    destruct (pp_var pathPattern) as [v|].
    + rewrite insertColumn_union, (assoc_L (∪)). reflexivity.
    + rewrite union_empty_l_L. reflexivity.
Qed.

Lemma CollectSimpleMatchOutputColumns_all statement cols :
  CollectSimpleMatchOutputColumns statement cols
  = cols ∪ CollectSimpleMatchOutputColumns statement ∅.
Proof.
  rewrite (CollectSimpleMatchOutputColumns_columns statement cols).
  rewrite (CollectSimpleMatchOutputColumns_columns statement ∅).
  apply union_empty_absorb.
Qed.

Lemma MatchStatement_induction (P : MatchStatement -> Prop) :
  (forall statement, P (SimpleMatch statement)) ->
  (forall statements, Forall P statements -> P (OptionalMatch statements)) ->
  forall statement, P statement.
Proof.
  intros HS HO. fix IH 1. intros [s|l].
  - apply HS.
  - apply HO. induction l as [|m l IHl]; constructor; [apply IH | exact IHl].
Qed.

(** X7: [CollectMatchOutputColumns] only adds columns, and the columns it
    adds do not depend on the set it is given: the result is the union of
    the given set with the result for the empty set. *)
Theorem CollectMatchOutputColumns_union (statement : MatchStatement)
    (cols : gset string) :
  CollectMatchOutputColumns statement cols
  = cols ∪ CollectMatchOutputColumns statement ∅.
Proof.
  revert cols. induction statement as [s|l IH] using MatchStatement_induction;
    intros cols.
  - apply CollectSimpleMatchOutputColumns_all.
  - assert (H : forall cols,
               CollectMatchOutputColumns (OptionalMatch l) cols
               = cols ∪ ⋃ ((fun m => CollectMatchOutputColumns m ∅) <$> l)).
    { intros cols'. simpl. apply foldl_union_list. intros x c Hx.
      rewrite Forall_forall in IH. apply (IH x Hx). }
    rewrite (H cols), (H ∅). apply union_empty_absorb.
Qed.

Lemma forEach_declared {A : Type} (g : A -> gset string)
    (body : A -> GraphPatternContext -> Result GraphPatternContext)
    (xs : list A) :
  (forall x s s', x ∈ xs -> body x s = Ok s' -> declared s' = declared s ∪ g x) ->
  forall s s', forEach body xs s = Ok s' ->
               declared s' = declared s ∪ ⋃ (g <$> xs).
Proof.
  induction xs as [|x xs IH]; intros Hbody s s' H.
  - inversion H. subst. simpl. rewrite union_empty_r_L. reflexivity.
  - rewrite forEach_cons in H. bind_inv_as H s1 H1.
    rewrite fmap_cons, union_list_cons.
    rewrite (IH (fun y t t' Hy => Hbody y t t' (list_elem_of_further _ _ _ Hy))
               s1 s' H).
    rewrite (Hbody x s s1 (list_elem_of_here _ _) H1).
    rewrite (assoc_L (∪)). reflexivity.
Qed.

Lemma SameDeclarations_declared c c' :
  SameDeclarations c c' -> declared c' = declared c.
Proof. unfold SameDeclarations, declared. intros ->. reflexivity. Qed.

Lemma DeclareVariable_declared name pos ty isTemp c c' :
  DeclareVariable name pos ty isTemp c = Ok c' ->
  declared c' = declared c ∪ {[name]}.
Proof.
  intros H. apply DeclareVariable_declarations in H. unfold declared.
  rewrite H. destruct (variableDeclarations_ c !! name) as [d|] eqn:Hd.
  - apply set_eq. intros x. rewrite elem_of_union, elem_of_singleton.
    split; [tauto|]. intros [Hx| ->]; [exact Hx|].
    apply elem_of_dom. exists d. exact Hd.
  - rewrite dom_insert_L. apply union_comm_L.
Qed.

Lemma ProcessElementPattern_declared pf value c c' :
  ProcessElementPattern pf value c = Ok c' ->
  declared c' = declared c ∪ columnsOfPrimary (Element value).
Proof.
  intros H. unfold columnsOfPrimary.
  destruct value as [pos filler | pos dir filler]; simpl in *.
  - bind_inv_as H c1 H1. apply EnterNodePattern_declarations in H1.
    apply SameDeclarations_declared in H1.
    bind_inv_as H c2 H2. bind_inv_as H u Hu. inversion H. subst c'.
    unfold ExitNodePattern. rewrite <- H1.
    destruct (var filler) as [v|].
    + apply DeclareNodeVariable_declarations in H2 as (c3 & H3 & H4).
      apply SameDeclarations_declared in H4. rewrite H4.
      rewrite insertColumn_union, union_empty_l_L.
      apply (DeclareVariable_declared _ _ _ _ _ _ H3).
    + inversion H2. rewrite union_empty_r_L. reflexivity.
  - bind_inv_as H c1 H1. apply EnterEdgePattern_declarations in H1.
    apply SameDeclarations_declared in H1.
    bind_inv_as H c2 H2. bind_inv_as H u Hu. inversion H. subst c'.
    unfold ExitEdgePattern. rewrite <- H1.
    destruct (var filler) as [v|].
    + rewrite insertColumn_union, union_empty_l_L.
      apply (DeclareVariable_declared _ _ _ _ _ _ H2).
    + inversion H2. rewrite union_empty_r_L. reflexivity.
Qed.

Lemma ProcessParenthesized_declared fs P value c c' (names : gset string) :
  (forall s s', P (pppe_pattern value) s = Ok s' ->
                declared s' = declared s ∪ names) ->
  ProcessParenthesized fs P value c = Ok c' ->
  declared c'
  = declared c ∪ (names ∪ match pppe_var value with
                           | Some v => {[nv_name v]}
                           | None => ∅
                           end).
Proof.
  intros HP H. unfold ProcessParenthesized in H.
  bind_inv_as H u1 F1. bind_inv_as H u2 F2. bind_inv_as H u3 F3.
  bind_inv_as H u4 F4. bind_inv_as H c1 H1. bind_inv_as H c2 H2.
  bind_inv_as H c3 H3. bind_inv_as H c4 H4. bind_inv_as H c5 H5.
  apply ExitParenthesizedPathPatternExpression_declarations in H.
  apply ExitPathMode_declarations in H5.
  apply EnterPathMode_declarations in H2.
  apply SameDeclarations_declared in H, H5, H2.
  apply HP in H3.
  assert (H4' : declared c4 = declared c3).
  { destruct (pppe_where value) as [w|].
    - apply AddSearchCondition_declarations in H4.
      apply (SameDeclarations_declared _ _ H4).
    - inversion H4. reflexivity. }
  assert (H1' : declared c1
                = declared c ∪ match pppe_var value with
                               | Some v => {[nv_name v]}
                               | None => ∅
                               end).
  { destruct (pppe_var value) as [v|].
    - apply DeclareVariable_declared in H1. exact H1.
    - inversion H1. rewrite union_empty_r_L. reflexivity. }
  rewrite H, H5, H4', H3, H2, H1'.
  rewrite <- (assoc_L (∪)). f_equal. apply union_comm_L.
Qed.

Lemma ActivateQuantifier_declared fs q c c1 active :
  ActivateQuantifier fs q c = Ok (c1, active) -> declared c1 = declared c.
Proof.
  destruct q as [| |lower upper]; simpl; intros H.
  - inversion H. reflexivity.
  - inversion H. reflexivity.
  - bind_inv_as H u Hu. bind_inv_as H c1' He. inversion H. subst c1'.
    apply EnterQuantifiedPathPrimary_declarations in He.
    apply (SameDeclarations_declared _ _ He).
Qed.

Lemma DeactivateQuantifier_declared active c c' :
  DeactivateQuantifier active c = Ok c' -> declared c' = declared c.
Proof.
  destruct active as [| |bounded lowerBound]; simpl; intros H.
  - inversion H. reflexivity.
  - apply ExitQuestionedPathPrimary_declarations in H.
    apply (SameDeclarations_declared _ _ H).
  - apply ExitQuantifiedPathPrimary_declarations in H.
    apply (SameDeclarations_declared _ _ H).
Qed.

Lemma ProcessFactor_declared fs pf P factor c c' (names : gset string) :
  (forall s s', ProcessPrimary fs pf P (pattern factor) s = Ok s' ->
                declared s' = declared s ∪ names) ->
  ProcessFactor fs pf P factor c = Ok c' ->
  declared c' = declared c ∪ names.
Proof.
  intros HP H. unfold ProcessFactor in H.
  unfold VariableReferenceScope_enter in H. cbv zeta in H.
  bind_inv_as H r1 H1. destruct r1 as [c1 active].
  bind_inv_as H c2 H2. bind_inv_as H c3 H3. inversion H. subst c'. clear H.
  apply ActivateQuantifier_declared in H1.
  apply DeactivateQuantifier_declared in H3.
  apply (HP c1 c2) in H2.
  unfold VariableReferenceScope_exit.
  change (declared c3 = declared c ∪ names).
  rewrite H3, H2, H1. reflexivity.
Qed.

Lemma ProcessTerm_declared fs pf P unionActive term c c'
    (g : PathFactor -> gset string) :
  (forall factor s s',
     factor ∈ term ->
     ProcessPrimary fs pf P (pattern factor) s = Ok s' ->
     declared s' = declared s ∪ g factor) ->
  ProcessTerm fs pf P unionActive term c = Ok c' ->
  declared c' = declared c ∪ ⋃ (g <$> term).
Proof.
  intros HP H. unfold ProcessTerm in H. bind_inv_as H c1 H1.
  apply (forEach_declared g) in H1.
  2: { intros factor s s' Hin Hf.
       apply (ProcessFactor_declared fs pf P factor s s' (g factor)
                (fun t t' Ht => HP factor t t' Hin Ht) Hf). }
  destruct unionActive.
  - apply ExitPathPatternUnionOperand_declarations in H.
    apply SameDeclarations_declared in H. rewrite H, H1. reflexivity.
  - inversion H. subst c'. exact H1.
Qed.

Lemma subpathVariables_unfold op terms :
  subpathVariables (mkPathPatternExpression op terms)
  = ⋃ ((fun term : list PathFactor =>
          ⋃ ((fun factor : PathFactor =>
                subpathVariablesOfPrimary (pattern factor)) <$> term))
         <$> terms).
Proof. reflexivity. Qed.

(** X8: the variables that the traversal declares are the output columns
    that [CollectMatchOutputColumns] collects from the pattern together with
    the subpath variables of its parenthesized patterns, which the
    collection leaves out. When [Process] returns normally, the names in
    [variableDeclarations_] are those it held before, these columns and
    these subpath variables. *)
Theorem Process_declares_columns fs pf (pathPattern : PathPatternExpression)
    (c c' : GraphPatternContext) :
  Process fs pf pathPattern c = Ok c' ->
  declared c'
  = declared c ∪ (CollectPathPatternOutputColumns pathPattern ∅
                  ∪ subpathVariables pathPattern).
Proof.
  revert pathPattern c c'.
  apply (PathPatternExpression_mind
           (fun _ => True)
           (fun e => forall c c',
                Process fs pf e c = Ok c' ->
                declared c'
                = declared c ∪ (CollectPathPatternOutputColumns e ∅
                                ∪ subpathVariables e))
           (fun p => forall c c',
                ProcessPrimary fs pf (Process fs pf) p c = Ok c' ->
                declared c'
                = declared c ∪ (columnsOfPrimary p
                                ∪ subpathVariablesOfPrimary p)));
    try (intros; exact I).
  - intros op terms Hall c c' H.
    assert (Hterms :
              Forall (Forall (fun factor : PathFactor =>
                                forall c c',
                                  ProcessPrimary fs pf (Process fs pf)
                                    (pattern factor) c = Ok c' ->
                                  declared c'
                                  = declared c
                                    ∪ (columnsOfPrimary (pattern factor)
                                       ∪ subpathVariablesOfPrimary
                                           (pattern factor)))) terms).
    { refine (list_all_Forall _ _ terms _ Hall). intros term' Hterm'.
      refine (list_all_Forall _ _ term' _ Hterm').
      intros factor Hfactor. destruct Hfactor as [q p Hp]. exact Hp. }
    rewrite Process_unfold in H. bind_inv_as H u Hu.
    unfold VariableReferenceScope_enter in H. cbv zeta in H.
    bind_inv_as H c1 H1. bind_inv_as H c2 H2. inversion H. subst c'. clear H.
    unfold VariableReferenceScope_exit.
    change (declared c2
            = declared c
              ∪ (CollectPathPatternOutputColumns
                   (mkPathPatternExpression op terms) ∅
                 ∪ subpathVariables (mkPathPatternExpression op terms))).
    assert (H21 : declared c2 = declared c1).
    { destruct (bool_decide (1 < length terms)%nat).
      - apply ExitPathPatternUnion_declarations in H2.
        apply (SameDeclarations_declared _ _ H2).
      - inversion H2. reflexivity. }
    apply (forEach_declared
             (fun term : list PathFactor =>
                ⋃ ((fun factor : PathFactor =>
                      columnsOfPrimary (pattern factor)
                      ∪ subpathVariablesOfPrimary (pattern factor))
                     <$> term))) in H1.
    2: { intros term s s' Hin Ht. rewrite Forall_forall in Hterms.
         pose proof (Hterms term Hin) as Hfs. rewrite Forall_forall in Hfs.
         apply (ProcessTerm_declared fs pf (Process fs pf) _ term s s' _
                  (fun factor t t' Hf => Hfs factor Hf t t') Ht). }
    rewrite H21, H1. clear H21 H1 H2.
    rewrite CollectPathPatternOutputColumns_empty, subpathVariables_unfold.
    rewrite <- union_list_fmap_union.
    assert (E : declared
                  (if bool_decide (1 < length terms)%nat
                   then EnterPathPatternUnion
                          (set_currentVariableReferenceScope_
                             (Some (length (auxStore c)))
                             (set_auxStore
                                (auxStore c ++ [{| declaredVariables := ∅ |}])
                                c))
                   else set_currentVariableReferenceScope_
                          (Some (length (auxStore c)))
                          (set_auxStore
                             (auxStore c ++ [{| declaredVariables := ∅ |}])
                             c))
                = declared c).
    { destruct (bool_decide (1 < length terms)%nat); reflexivity. }
    rewrite E. f_equal. apply union_list_fmap_ext.
    apply Forall_forall. intros term _. apply union_list_fmap_union.
  - intros e _ c c' H. simpl in H.
    rewrite (ProcessElementPattern_declared _ _ _ _ H).
    simpl. rewrite union_empty_r_L. reflexivity.
  - intros p Hall c c' H. destruct Hall as [pos v m e He w Hw].
    simpl in H.
    rewrite (ProcessParenthesized_declared _ _ _ _ _ _ He H).
    unfold columnsOfPrimary. simpl. f_equal.
    rewrite <- (assoc_L (∪)). f_equal. apply union_comm_L.
  - intros s c c' H. discriminate.
Qed.

Lemma Process_declares_columns_witness :
  declared (orElse (Process allFeatures acceptLabels subpathSample
                      (EnterPathPattern false (newGraphPatternContext true)))
                   (newGraphPatternContext true))
  = ∅ ∪ (CollectPathPatternOutputColumns subpathSample ∅
         ∪ subpathVariables subpathSample)
  /\ CollectPathPatternOutputColumns subpathSample ∅
     = list_to_set ["a"; "e"; "b"; "f"; "c"]
  /\ subpathVariables subpathSample = {["p"]}.
Proof.
  split; [|split; vm_compute; reflexivity].
  apply (Process_declares_columns allFeatures acceptLabels subpathSample
           (EnterPathPattern false (newGraphPatternContext true))).
  vm_compute. reflexivity.
Defined.

(** ** The minimum node count and the minimum path length of a pattern *)

Ltac measures :=
  unfold SameMeasures in *; simpl in *;
  repeat match goal with
         | H : Ok _ = Ok _ |- _ => inversion H; clear H; subst; simpl in *
         end;
  destruct_and?; split_all; first [reflexivity | congruence].

Lemma SameMeasures_refl c : SameMeasures c c.
Proof. measures. Qed.

Lemma SameMeasures_trans c1 c2 c3 :
  SameMeasures c1 c2 -> SameMeasures c2 c3 -> SameMeasures c1 c3.
Proof. intros H1 H2. measures. Qed.

Lemma forEach_SameMeasures {A : Type}
    (body : A -> GraphPatternContext -> Result GraphPatternContext)
    (xs : list A) (c c' : GraphPatternContext) :
  (forall x s s', x ∈ xs -> body x s = Ok s' -> SameMeasures s s') ->
  forEach body xs c = Ok c' -> SameMeasures c c'.
Proof.
  intros Hbody. apply (forEach_invariant (SameMeasures c)).
  - intros x s s' Hx Hs H. apply (SameMeasures_trans c s s' Hs).
    apply (Hbody x s s' Hx H).
  - apply SameMeasures_refl.
Qed.

Lemma ExposeVariable_measures name v c c' :
  ExposeVariable name v c = Ok c' -> SameMeasures c c'.
Proof.
  intros H. apply ExposeVariable_Ok in H as (f & rest & Hc & Hcase).
  destruct Hcase as [[_ ->] | (e & _ & _ & ->)]; measures.
Qed.

Lemma writeDeclaredVariable_measures name v c c' :
  writeDeclaredVariable name v c = Ok c' -> SameMeasures c c'.
Proof.
  unfold writeDeclaredVariable. intros H.
  destruct (currentVariableReferenceScope_ c) as [p|]; [|discriminate].
  destruct (auxStore c !! p); [|discriminate]. measures.
Qed.

Lemma ExposeNewVariable_measures name v c c' :
  ExposeNewVariable name v c = Ok c' -> SameMeasures c c'.
Proof.
  unfold ExposeNewVariable. intros H. bind_inv_as H c1 H1.
  apply ExposeVariable_measures in H1.
  destruct (isElementType (type (base v))).
  - apply writeDeclaredVariable_measures in H. measures.
  - measures.
Qed.

Lemma AppendExposedVariables_measures c c' :
  AppendExposedVariables c = Ok c' -> SameMeasures c c'.
Proof.
  unfold AppendExposedVariables. intros H. bind_inv_as H frame Hframe.
  bind_inv_as H frames Hframes.
  apply forEach_SameMeasures in H;
    [|intros x s s' _ Hx; apply (ExposeVariable_measures _ _ _ _ Hx)].
  measures.
Qed.

Lemma ExitVariableScope_measures c c' :
  ExitVariableScope c = Ok c' -> SameMeasures c c'.
Proof.
  unfold ExitVariableScope. intros H. bind_inv_as H exposed Hexposed.
  bind_inv_as H addr Haddr. bind_inv_as H u Hu. bind_inv_as H stack Hstack.
  apply AppendExposedVariables_measures in H. measures.
Qed.

Lemma DeclareVariable_measures name pos ty isTemp c c' :
  DeclareVariable name pos ty isTemp c = Ok c' -> SameMeasures c c'.
Proof.
  unfold DeclareVariable. intros H. bind_inv_as H u Hu.
  bind_inv_as H c1 H1. bind_inv_as H c2 H2. bind_inv_as H counts Hcounts.
  inversion H. subst c'. clear H.
  apply ExposeNewVariable_measures in H2.
  assert (Hc1 : SameMeasures c c1).
  { destruct (IsSet (lastVariableDeclarationPosition_ c));
      destruct (variableDeclarations_ _ !! name) as [it|];
      try (destruct (negb (bool_decide (type_ it = ty))); [discriminate|];
           destruct ty; try discriminate);
      measures. }
  measures.
Qed.

Lemma DeclareNodeVariable_measures v c c' :
  DeclareNodeVariable v c = Ok c' -> SameMeasures c c'.
Proof.
  unfold DeclareNodeVariable. intros H. bind_inv_as H c1 H1.
  apply DeclareVariable_measures in H1. inversion H. subst c'.
  destruct (expectingLeftBoundaryVariable_ c1 && negb (evd_isTemp v));
    measures.
Qed.

Lemma EnterPathMode_measures mode c c' :
  EnterPathMode mode c = Ok c' -> SameMeasures c c'.
Proof.
  unfold EnterPathMode. intros H. bind_inv_as H outer Houter. measures.
Qed.

Lemma ExitPathMode_measures c c' :
  ExitPathMode c = Ok c' -> SameMeasures c c'.
Proof.
  unfold ExitPathMode. intros H. bind_inv_as H modes Hmodes. measures.
Qed.

Lemma AddSearchCondition_measures where_ c c' :
  AddSearchCondition where_ c = Ok c' -> SameMeasures c c'.
Proof.
  unfold AddSearchCondition. intros H. bind_inv_as H current Hcurrent.
  measures.
Qed.

Lemma EnterNodePattern_measures c c' :
  EnterNodePattern c = Ok c' ->
  exists b rest,
    nonZeroNodeCount_ c = b :: rest
    /\ nonZeroNodeCount_ c' = true :: rest
    /\ minimumPathLength_ c' = minimumPathLength_ c.
Proof.
  unfold EnterNodePattern. intros H. bind_inv_as H counts Hcounts.
  apply updTop_Ok in Hcounts as (b & rest & Hc & ->). exists b, rest.
  inversion H. subst c'. simpl. split_all; [exact Hc | reflexivity..].
Qed.

Lemma EnterEdgePattern_measures c c' :
  EnterEdgePattern c = Ok c' ->
  exists n rest,
    minimumPathLength_ c = n :: rest
    /\ minimumPathLength_ c' = int_add n 1 :: rest
    /\ nonZeroNodeCount_ c' = nonZeroNodeCount_ c.
Proof.
  unfold EnterEdgePattern. intros H. bind_inv_as H lengths Hlengths.
  apply updTop_Ok in Hlengths as (n & rest & Hc & ->). exists n, rest.
  inversion H. subst c'. simpl in *. split_all; [exact Hc | reflexivity..].
Qed.

Lemma EnterParenthesizedPathPatternExpression_measures c :
  nonZeroNodeCount_ (EnterParenthesizedPathPatternExpression c)
  = false :: nonZeroNodeCount_ c
  /\ minimumPathLength_ (EnterParenthesizedPathPatternExpression c)
     = minimumPathLength_ c.
Proof. split; reflexivity. Qed.

Lemma ExitParenthesizedPathPatternExpression_measures b c c' :
  ExitParenthesizedPathPatternExpression b c = Ok c' ->
  exists x outer rest,
    nonZeroNodeCount_ c = x :: outer :: rest
    /\ nonZeroNodeCount_ c' = (outer || x) :: rest
    /\ (b = true -> x = true)
    /\ minimumPathLength_ c' = minimumPathLength_ c.
Proof.
  unfold ExitParenthesizedPathPatternExpression. intros H.
  bind_inv_as H c1 H1. apply ExitVariableScope_measures in H1.
  destruct H1 as [H1 H1'].
  bind_inv_as H nonZero HnonZero.
  destruct (b && negb nonZero) eqn:Hb; [discriminate|].
  bind_inv_as H counts Hcounts. inversion H. subst c'. clear H.
  apply popMerge_Ok in Hcounts as (x & outer & rest & Hc & ->).
  rewrite Hc in HnonZero. inversion HnonZero. subst nonZero.
  exists x, outer, rest. simpl. rewrite <- H1, <- H1'.
  split_all; [exact Hc | reflexivity | | reflexivity].
  intros ->. destruct x; [reflexivity | discriminate].
Qed.

Lemma EnterQuantifiedPathPrimary_measures bounded c c' :
  EnterQuantifiedPathPrimary bounded c = Ok c' ->
  nonZeroNodeCount_ c' = false :: nonZeroNodeCount_ c
  /\ minimumPathLength_ c' = 0 :: minimumPathLength_ c.
Proof.
  unfold EnterQuantifiedPathPrimary. intros H.
  destruct (isInsideQuantifiedPathPrimary_ c); [discriminate|].
  bind_inv_as H unboundedOutside Hu.
  destruct unboundedOutside; [discriminate|].
  inversion H. subst c'. split; reflexivity.
Qed.

Lemma ExitQuantifiedPathPrimary_measures bounded lowerBound c c' :
  ExitQuantifiedPathPrimary bounded lowerBound c = Ok c' ->
  exists x outer rest n outerLength restLengths,
    nonZeroNodeCount_ c = x :: outer :: rest
    /\ nonZeroNodeCount_ c'
       = (outer || (x && bool_decide (0 < lowerBound))) :: rest
    /\ minimumPathLength_ c = n :: outerLength :: restLengths
    /\ n <> 0
    /\ minimumPathLength_ c'
       = int_add outerLength (int_mul n lowerBound) :: restLengths.
Proof.
  unfold ExitQuantifiedPathPrimary. intros H.
  bind_inv_as H frame Hframe. bind_inv_as H frames Hframes.
  bind_inv_as H c1 H1.
  apply forEach_SameMeasures in H1.
  2: { intros x s s' _ Hx. bind_inv_as Hx v' Hv'.
       apply (ExposeNewVariable_measures _ _ _ _ Hx). }
  destruct H1 as [H1 H1']. simpl in H1, H1'.
  bind_inv_as H minimumPathLength Hmin.
  destruct (bool_decide (minimumPathLength = 0)) eqn:Hzero; [discriminate|].
  apply bool_decide_eq_false in Hzero.
  bind_inv_as H lengths Hlengths. bind_inv_as H counts Hcounts.
  inversion H. subst c'. clear H. simpl in *.
  apply popMerge_Ok in Hlengths as (n & outerLength & restLengths & Hl & ->).
  apply popMerge_Ok in Hcounts as (x & outer & rest & Hc & ->).
  rewrite Hl in Hmin. inversion Hmin. subst minimumPathLength.
  exists x, outer, rest, n, outerLength, restLengths.
  rewrite <- H1, <- H1'. split_all; first [assumption | reflexivity].
Qed.

Lemma EnterQuestionedPathPrimary_measures c :
  nonZeroNodeCount_ (EnterQuestionedPathPrimary c)
  = false :: nonZeroNodeCount_ c
  /\ minimumPathLength_ (EnterQuestionedPathPrimary c)
     = 0 :: minimumPathLength_ c.
Proof. split; reflexivity. Qed.

Lemma ExitQuestionedPathPrimary_measures c c' :
  ExitQuestionedPathPrimary c = Ok c' ->
  exists x n,
    nonZeroNodeCount_ c = x :: nonZeroNodeCount_ c'
    /\ minimumPathLength_ c = n :: minimumPathLength_ c'
    /\ n <> 0.
Proof.
  unfold ExitQuestionedPathPrimary. intros H.
  bind_inv_as H frame Hframe. bind_inv_as H frames Hframes.
  bind_inv_as H c1 H1.
  apply forEach_SameMeasures in H1;
    [|intros x s s' _ Hx; apply (ExposeNewVariable_measures _ _ _ _ Hx)].
  destruct H1 as [H1 H1']. simpl in H1, H1'.
  bind_inv_as H minimumPathLength Hmin.
  destruct (bool_decide (minimumPathLength = 0)) eqn:Hzero; [discriminate|].
  apply bool_decide_eq_false in Hzero.
  bind_inv_as H lengths Hlengths. bind_inv_as H counts Hcounts.
  inversion H. subst c'. clear H. simpl in *.
  apply pop_Ok in Hlengths as (n & Hl). apply pop_Ok in Hcounts as (x & Hc).
  rewrite Hl in Hmin. inversion Hmin. subst minimumPathLength.
  exists x, n. rewrite <- H1, <- H1'.
  split_all; first [assumption | reflexivity].
Qed.

Lemma EnterPathPatternUnion_measures c :
  nonZeroNodeCount_ (EnterPathPatternUnion c) = true :: nonZeroNodeCount_ c
  /\ minimumPathLength_ (EnterPathPatternUnion c)
     = INT_MAX :: minimumPathLength_ c.
Proof. split; reflexivity. Qed.

Lemma ExitPathPatternUnion_measures c c' :
  ExitPathPatternUnion c = Ok c' ->
  exists x outer rest n outerLength restLengths,
    nonZeroNodeCount_ c = x :: outer :: rest
    /\ nonZeroNodeCount_ c' = (outer || x) :: rest
    /\ minimumPathLength_ c = n :: outerLength :: restLengths
    /\ minimumPathLength_ c' = int_add outerLength n :: restLengths.
Proof.
  unfold ExitPathPatternUnion. intros H. bind_inv_as H c1 H1.
  apply AppendExposedVariables_measures in H1. destruct H1 as [H1 H1'].
  bind_inv_as H lengths Hlengths. bind_inv_as H counts Hcounts.
  bind_inv_as H currentUnion Hunion. bind_inv_as H conds Hconds.
  bind_inv_as H unions Hunions. inversion H. subst c'. clear H. simpl in *.
  apply popMerge_Ok in Hlengths as (n & outerLength & restLengths & Hl & ->).
  apply popMerge_Ok in Hcounts as (x & outer & rest & Hc & ->).
  exists x, outer, rest, n, outerLength, restLengths.
  rewrite <- H1, <- H1'. split_all; first [assumption | reflexivity].
Qed.

Lemma EnterPathPatternUnionOperand_measures c :
  nonZeroNodeCount_ (EnterPathPatternUnionOperand c)
  = false :: nonZeroNodeCount_ c
  /\ minimumPathLength_ (EnterPathPatternUnionOperand c)
     = 0 :: minimumPathLength_ c.
Proof. split; reflexivity. Qed.

Lemma ExitPathPatternUnionOperand_measures c c' :
  ExitPathPatternUnionOperand c = Ok c' ->
  exists x outer rest n outerLength restLengths,
    nonZeroNodeCount_ c = x :: outer :: rest
    /\ nonZeroNodeCount_ c' = (x && outer) :: rest
    /\ minimumPathLength_ c = n :: outerLength :: restLengths
    /\ minimumPathLength_ c' = Z.min outerLength n :: restLengths.
Proof.
  unfold ExitPathPatternUnionOperand. intros H.
  bind_inv_as H exposed Hexposed. bind_inv_as H frames Hframes.
  bind_inv_as H unionExposed Hunion. bind_inv_as H merged Hmerged.
  bind_inv_as H frames' Hframes'. bind_inv_as H lengths Hlengths.
  bind_inv_as H counts Hcounts. bind_inv_as H localVariables Hlocal.
  bind_inv_as H unions Hunions. bind_inv_as H counts' Hcounts'.
  inversion H. subst c'. clear H. simpl in *.
  apply popMerge_Ok in Hlengths as (n & outerLength & restLengths & Hl & ->).
  apply popMerge_Ok in Hcounts as (x & outer & rest & Hc & ->).
  exists x, outer, rest, n, outerLength, restLengths.
  split_all; first [assumption | reflexivity].
Qed.

Lemma EnterPathPattern_measures sel c :
  nonZeroNodeCount_ (EnterPathPattern sel c) = false :: nonZeroNodeCount_ c
  /\ minimumPathLength_ (EnterPathPattern sel c) = minimumPathLength_ c.
Proof. unfold EnterPathPattern. destruct sel; split; reflexivity. Qed.

Lemma ExitPathPattern_measures c c' auxData :
  ExitPathPattern c = Ok (c', auxData) ->
  nonZeroNodeCount_ c = true :: nonZeroNodeCount_ c'
  /\ minimumPathLength_ c' = minimumPathLength_ c.
Proof.
  unfold ExitPathPattern. intros H. bind_inv_as H c1 H1.
  assert (Hc1 : SameMeasures c c1).
  { destruct (isInsideSelectivePattern_ c); [|measures].
    bind_inv_as H1 frame Hframe. bind_inv_as H1 c0 H0.
    apply ExitVariableScope_measures in H0.
    bind_inv_as H1 frame' Hframe'. bind_inv_as H1 marked Hmarked.
    bind_inv_as H1 frames Hframes. measures. }
  bind_inv_as H frame Hframe. bind_inv_as H frames Hframes.
  bind_inv_as H c2 H2.
  apply forEach_SameMeasures in H2;
    [|intros x s s' _ Hx; apply (ExposeVariable_measures _ _ _ _ Hx)].
  bind_inv_as H nonZero HnonZero.
  destruct nonZero; [|discriminate]. simpl in H.
  bind_inv_as H counts Hcounts. inversion H. subst c'. clear H.
  apply pop_Ok in Hcounts as (x & Hc). rewrite Hc in HnonZero.
  inversion HnonZero. subst x.
  destruct Hc1 as [E1 E1']. destruct H2 as [E2 E2']. simpl in *.
  split; congruence.
Qed.

Lemma forEach_foldl {A S B : Type} (R : B -> S -> Prop) (step : B -> A -> B)
    (body : A -> S -> Result S) (xs : list A) :
  (forall x a s s', x ∈ xs -> R a s -> body x s = Ok s' -> R (step a x) s') ->
  forall a s s', R a s -> forEach body xs s = Ok s' -> R (foldl step a xs) s'.
Proof.
  induction xs as [|x xs IH]; intros Hbody a s s' Ha H.
  - inversion H. subst. exact Ha.
  - rewrite forEach_cons in H. bind_inv_as H s1 H1. simpl.
    apply (IH (fun y b t t' Hy => Hbody y b t t' (list_elem_of_further _ _ _ Hy))
             (step a x) s1 s'); [|exact H].
    apply (Hbody x a s s1 (list_elem_of_here _ _) Ha H1).
Qed.

Lemma foldl_orb_existsb {A : Type} (g : A -> bool) (l : list A) (b : bool) :
  foldl (fun a x => a || g x) b l = b || existsb g l.
Proof.
  revert b. induction l as [|x l IH]; intros b; simpl.
  - rewrite orb_false_r. reflexivity.
  - rewrite IH, orb_assoc. reflexivity.
Qed.

Lemma foldl_andb_forallb {A : Type} (g : A -> bool) (l : list A) (b : bool) :
  foldl (fun a x => g x && a) b l = forallb g l && b.
Proof.
  revert b. induction l as [|x l IH]; intros b; simpl.
  - reflexivity.
  - rewrite IH. destruct (g x), (forallb g l), b; reflexivity.
Qed.

Lemma hasNode_unfold op terms :
  hasNode (mkPathPatternExpression op terms)
  = if bool_decide (1 < length terms)%nat
    then forallb (existsb factorHasNode) terms
    else existsb (existsb factorHasNode) terms.
Proof. reflexivity. Qed.

Lemma lengthAfter_unfold op terms n :
  lengthAfter (mkPathPatternExpression op terms) n
  = if bool_decide (1 < length terms)%nat
    then int_add n (foldl (fun least term =>
                             Z.min least (foldl factorLengthAfter 0 term))
                          INT_MAX terms)
    else foldl (foldl factorLengthAfter) n terms.
Proof. reflexivity. Qed.

Lemma ProcessElementPattern_measures pf value c c' :
  ProcessElementPattern pf value c = Ok c' ->
  (forall b rest,
     nonZeroNodeCount_ c = b :: rest ->
     nonZeroNodeCount_ c' = (b || primaryHasNode (Element value)) :: rest)
  /\ (forall n rest,
        minimumPathLength_ c = n :: rest ->
        minimumPathLength_ c'
        = primaryLengthAfter (Element value) n :: rest).
Proof.
  intros H. destruct value as [pos filler | pos dir filler]; simpl in *.
  - bind_inv_as H c1 H1.
    apply EnterNodePattern_measures in H1 as (b0 & rest0 & Hc & Hc1 & Hl1).
    bind_inv_as H c2 H2. bind_inv_as H u Hu. inversion H. subst c'.
    unfold ExitNodePattern.
    assert (H12 : SameMeasures c1 c2).
    { destruct (var filler) as [v|].
      - apply (DeclareNodeVariable_measures _ _ _ H2).
      - inversion H2. apply SameMeasures_refl. }
    destruct H12 as [E E']. split.
    + intros b rest Hb. rewrite E, Hc1. rewrite Hc in Hb. inversion Hb.
      rewrite orb_true_r. reflexivity.
    + intros n rest Hn. rewrite E', Hl1. exact Hn.
  - bind_inv_as H c1 H1.
    apply EnterEdgePattern_measures in H1 as (n0 & rest0 & Hl & Hl1 & Hc1).
    bind_inv_as H c2 H2. bind_inv_as H u Hu. inversion H. subst c'.
    unfold ExitEdgePattern.
    assert (H12 : SameMeasures c1 c2).
    { destruct (var filler) as [v|].
      - apply (DeclareVariable_measures _ _ _ _ _ _ H2).
      - inversion H2. apply SameMeasures_refl. }
    destruct H12 as [E E']. split.
    + intros b rest Hb. rewrite E, Hc1, Hb, orb_false_r. reflexivity.
    + intros n rest Hn. rewrite E', Hl1. rewrite Hl in Hn. inversion Hn.
      reflexivity.
Qed.

(** The states between which [ProcessParenthesized] runs the traversal of
    the pattern within, and what it does to the two stacks around it. *)
Lemma ProcessParenthesized_inner fs P value c c' :
  ProcessParenthesized fs P value c = Ok c' ->
  exists s s' x outer rest,
    P (pppe_pattern value) s = Ok s'
    /\ nonZeroNodeCount_ s = false :: nonZeroNodeCount_ c
    /\ minimumPathLength_ s = minimumPathLength_ c
    /\ nonZeroNodeCount_ s' = x :: outer :: rest
    /\ (is_Some (pppe_var value) -> x = true)
    /\ nonZeroNodeCount_ c' = (outer || x) :: rest
    /\ minimumPathLength_ c' = minimumPathLength_ s'.
Proof.
  intros H. unfold ProcessParenthesized in H.
  bind_inv_as H u1 F1. bind_inv_as H u2 F2. bind_inv_as H u3 F3.
  bind_inv_as H u4 F4. bind_inv_as H c1 H1. bind_inv_as H c2 H2.
  bind_inv_as H c3 H3. bind_inv_as H c4 H4. bind_inv_as H c5 H5.
  apply ExitParenthesizedPathPatternExpression_measures in H
    as (x & outer & rest & Hc5 & Hc' & Hx & Hl').
  apply ExitPathMode_measures in H5. destruct H5 as [E5 E5'].
  apply EnterPathMode_measures in H2. destruct H2 as [E2 E2'].
  assert (H4' : SameMeasures c3 c4).
  { destruct (pppe_where value) as [w|].
    - apply (AddSearchCondition_measures _ _ _ H4).
    - inversion H4. apply SameMeasures_refl. }
  destruct H4' as [E4 E4'].
  assert (H1' : SameMeasures (EnterParenthesizedPathPatternExpression c) c1).
  { destruct (pppe_var value) as [v|].
    - apply (DeclareVariable_measures _ _ _ _ _ _ H1).
    - inversion H1. apply SameMeasures_refl. }
  destruct H1' as [E1 E1'].
  destruct (EnterParenthesizedPathPatternExpression_measures c) as [E0 E0'].
  exists c2, c3, x, outer, rest. split; [exact H3|].
  split_all; try congruence.
  intros Hsome. apply Hx. apply bool_decide_eq_true. exact Hsome.
Qed.

(** The state in which [ProcessFactor] processes the path primary, and what
    the quantifier does to the two stacks around it. *)
Lemma ProcessFactor_inner fs pf P factor c c' :
  ProcessFactor fs pf P factor c = Ok c' ->
  exists s s',
    ProcessPrimary fs pf P (pattern factor) s = Ok s'
    /\ match quantifier factor with
       | NoQuantifier =>
           nonZeroNodeCount_ s = nonZeroNodeCount_ c
           /\ minimumPathLength_ s = minimumPathLength_ c
           /\ nonZeroNodeCount_ c' = nonZeroNodeCount_ s'
           /\ minimumPathLength_ c' = minimumPathLength_ s'
       | Optional =>
           nonZeroNodeCount_ s = false :: nonZeroNodeCount_ c
           /\ minimumPathLength_ s = 0 :: minimumPathLength_ c
           /\ exists x n,
               nonZeroNodeCount_ s' = x :: nonZeroNodeCount_ c'
               /\ minimumPathLength_ s' = n :: minimumPathLength_ c'
               /\ n <> 0
       | GraphPatternQuantifier lower _ =>
           nonZeroNodeCount_ s = false :: nonZeroNodeCount_ c
           /\ minimumPathLength_ s = 0 :: minimumPathLength_ c
           /\ exists x outer rest n outerLength restLengths,
               nonZeroNodeCount_ s' = x :: outer :: rest
               /\ nonZeroNodeCount_ c'
                  = (outer || (x && bool_decide (0 < lowerBoundOf lower)))
                      :: rest
               /\ minimumPathLength_ s' = n :: outerLength :: restLengths
               /\ n <> 0
               /\ minimumPathLength_ c'
                  = int_add outerLength (int_mul n (lowerBoundOf lower))
                      :: restLengths
       end.
Proof.
  intros H. unfold ProcessFactor in H.
  unfold VariableReferenceScope_enter in H. cbv zeta in H.
  bind_inv_as H r1 H1. destruct r1 as [c1 active].
  bind_inv_as H c2 H2. bind_inv_as H c3 H3. inversion H. subst c'. clear H.
  exists c1, c2. split; [exact H2|].
  unfold VariableReferenceScope_exit.
  destruct (quantifier factor) as [| |lower upper]; simpl in H1.
  - inversion H1. subst c1 active. simpl in H3. inversion H3. subst c3.
    split_all; reflexivity.
  - inversion H1. subst c1 active. simpl in H3.
    apply ExitQuestionedPathPrimary_measures in H3 as (x & n & Hx & Hn & Hz).
    split_all; [reflexivity | reflexivity |].
    exists x, n. split_all; assumption.
  - bind_inv_as H1 u Hu. bind_inv_as H1 c1' He. inversion H1.
    subst c1' active. simpl in H3.
    apply EnterQuantifiedPathPrimary_measures in He as [He He'].
    apply ExitQuantifiedPathPrimary_measures in H3
      as (x & outer & rest & n & outerLength & restLengths
          & Hx & Hc & Hn & Hz & Hl).
    split_all; [exact He | exact He' |].
    exists x, outer, rest, n, outerLength, restLengths.
    split_all; assumption.
Qed.

Lemma ProcessFactor_counts fs pf P factor :
  CountsAfter (ProcessPrimary fs pf P (pattern factor))
              (primaryHasNode (pattern factor)) ->
  CountsAfter (ProcessFactor fs pf P factor) (factorHasNode factor).
Proof.
  intros HP c c' b rest H Hb.
  apply ProcessFactor_inner in H as (s & s' & Hp & Hq).
  unfold factorHasNode. destruct (quantifier factor) as [| |lower upper].
  - destruct Hq as (Hs & _ & Hc' & _). rewrite Hc'.
    apply (HP s s' b rest Hp). congruence.
  - destruct Hq as (Hs & _ & x & n & Hx & _).
    rewrite Hb in Hs. pose proof (HP s s' false (b :: rest) Hp Hs) as Hs'.
    rewrite Hs' in Hx. inversion Hx. rewrite orb_false_r. reflexivity.
  - destruct Hq as (Hs & _ & x & outer & rest0 & n & ol & rl
                    & Hx & Hc' & _).
    rewrite Hb in Hs. pose proof (HP s s' false (b :: rest) Hp Hs) as Hs'.
    rewrite Hs' in Hx. inversion Hx. subst. exact Hc'.
Qed.

Lemma ProcessTerm_counts fs pf P unionActive term c c' b rest :
  Forall (fun factor : PathFactor =>
            CountsAfter (ProcessPrimary fs pf P (pattern factor))
                        (primaryHasNode (pattern factor))) term ->
  ProcessTerm fs pf P unionActive term c = Ok c' ->
  nonZeroNodeCount_ c = b :: rest ->
  nonZeroNodeCount_ c'
  = (if unionActive then existsb factorHasNode term && b
     else b || existsb factorHasNode term) :: rest.
Proof.
  intros HP H Hb. unfold ProcessTerm in H. bind_inv_as H c1 H1.
  rewrite Forall_forall in HP.
  destruct unionActive.
  - apply (forEach_foldl
             (fun a s => nonZeroNodeCount_ s = a :: b :: rest)
             (fun a factor => a || factorHasNode factor)) with (a := false)
      in H1.
    + apply ExitPathPatternUnionOperand_measures in H
        as (x & outer & rest0 & n & ol & rl & Hx & Hc' & _).
      rewrite H1 in Hx. inversion Hx. subst. rewrite Hc'.
      rewrite foldl_orb_existsb. reflexivity.
    + intros factor a s s' Hin Ha Hf.
      apply (ProcessFactor_counts fs pf P factor (HP factor Hin)
               s s' a (b :: rest) Hf Ha).
    + simpl. rewrite Hb. reflexivity.
  - inversion H. subst c'. clear H.
    apply (forEach_foldl
             (fun a s => nonZeroNodeCount_ s = a :: rest)
             (fun a factor => a || factorHasNode factor)) with (a := b)
      in H1.
    + rewrite H1, foldl_orb_existsb. reflexivity.
    + intros factor a s s' Hin Ha Hf.
      apply (ProcessFactor_counts fs pf P factor (HP factor Hin)
               s s' a rest Hf Ha).
    + exact Hb.
Qed.

Lemma Process_CountsAfter fs pf (pathPattern : PathPatternExpression) :
  CountsAfter (Process fs pf pathPattern) (hasNode pathPattern).
Proof.
  revert pathPattern.
  apply (PathPatternExpression_mind
           (fun _ => True)
           (fun e => CountsAfter (Process fs pf e) (hasNode e))
           (fun p => CountsAfter (ProcessPrimary fs pf (Process fs pf) p)
                                 (primaryHasNode p)));
    try (intros; exact I).
  - intros op terms Hall c c' b rest H Hb.
    assert (Hterms :
              Forall (Forall (fun factor : PathFactor =>
                                CountsAfter
                                  (ProcessPrimary fs pf (Process fs pf)
                                     (pattern factor))
                                  (primaryHasNode (pattern factor)))) terms).
    { refine (list_all_Forall _ _ terms _ Hall). intros term' Hterm'.
      refine (list_all_Forall _ _ term' _ Hterm').
      intros factor Hfactor. destruct Hfactor as [q p Hp]. exact Hp. }
    rewrite Forall_forall in Hterms.
    rewrite Process_unfold in H. bind_inv_as H u Hu.
    unfold VariableReferenceScope_enter in H. cbv zeta in H.
    bind_inv_as H c1 H1. bind_inv_as H c2 H2. inversion H. subst c'. clear H.
    unfold VariableReferenceScope_exit. rewrite hasNode_unfold.
    change (nonZeroNodeCount_ c2
            = (b || (if bool_decide (1 < length terms)%nat
                     then forallb (existsb factorHasNode) terms
                     else existsb (existsb factorHasNode) terms)) :: rest).
    destruct (bool_decide (1 < length terms)%nat).
    + apply (forEach_foldl
               (fun a s => nonZeroNodeCount_ s = a :: b :: rest)
               (fun a term => existsb factorHasNode term && a))
        with (a := true) in H1.
      * apply ExitPathPatternUnion_measures in H2
          as (x & outer & rest0 & n & ol & rl & Hx & Hc' & _).
        rewrite H1 in Hx. inversion Hx. subst. rewrite Hc'.
        rewrite foldl_andb_forallb, andb_true_r. reflexivity.
      * intros term a s s' Hin Ha Ht.
        apply (ProcessTerm_counts fs pf (Process fs pf) true term s s' a
                 (b :: rest) (Hterms term Hin) Ht Ha).
      * simpl. rewrite Hb. reflexivity.
    + inversion H2. subst c2. clear H2.
      apply (forEach_foldl
               (fun a s => nonZeroNodeCount_ s = a :: rest)
               (fun a term => a || existsb factorHasNode term))
        with (a := b) in H1.
      * rewrite H1, foldl_orb_existsb. reflexivity.
      * intros term a s s' Hin Ha Ht.
        apply (ProcessTerm_counts fs pf (Process fs pf) false term s s' a
                 rest (Hterms term Hin) Ht Ha).
      * exact Hb.
  - intros e _ c c' b rest H Hb. simpl in H.
    apply ProcessElementPattern_measures in H as [H _]. apply (H b rest Hb).
  - intros p Hall c c' b rest H Hb. destruct Hall as [pos v m e He w Hw].
    simpl in H.
    apply ProcessParenthesized_inner in H
      as (s & s' & x & outer & rest0 & Hp & Hs & _ & Hs' & _ & Hc' & _).
    rewrite Hb in Hs. simpl in Hp.
    pose proof (He s s' false (b :: rest) Hp Hs) as Hi.
    rewrite Hi in Hs'. inversion Hs'. subst. exact Hc'.
  - intros s c c' b rest H. discriminate.
Qed.

Lemma ProcessFactor_lengths fs pf P factor :
  LengthsAfter (ProcessPrimary fs pf P (pattern factor))
               (primaryLengthAfter (pattern factor)) ->
  LengthsAfter (ProcessFactor fs pf P factor)
               (fun n => factorLengthAfter n factor).
Proof.
  intros HP c c' n rest H Hn.
  apply ProcessFactor_inner in H as (s & s' & Hp & Hq).
  unfold factorLengthAfter. destruct (quantifier factor) as [| |lower upper].
  - destruct Hq as (_ & Hs & _ & Hc'). rewrite Hc'.
    apply (HP s s' n rest Hp). congruence.
  - destruct Hq as (_ & Hs & x & m & _ & Hm & _).
    rewrite Hn in Hs. pose proof (HP s s' 0 (n :: rest) Hp Hs) as Hs'.
    rewrite Hs' in Hm. inversion Hm. reflexivity.
  - destruct Hq as (_ & Hs & x & outer & rest0 & m & ol & rl
                    & _ & _ & Hm & _ & Hc').
    rewrite Hn in Hs. pose proof (HP s s' 0 (n :: rest) Hp Hs) as Hs'.
    rewrite Hs' in Hm. inversion Hm. subst. exact Hc'.
Qed.

Lemma ProcessTerm_lengths fs pf P unionActive term c c' n rest :
  Forall (fun factor : PathFactor =>
            LengthsAfter (ProcessPrimary fs pf P (pattern factor))
                         (primaryLengthAfter (pattern factor))) term ->
  ProcessTerm fs pf P unionActive term c = Ok c' ->
  minimumPathLength_ c = n :: rest ->
  minimumPathLength_ c'
  = (if unionActive then Z.min n (foldl factorLengthAfter 0 term)
     else foldl factorLengthAfter n term) :: rest.
Proof.
  intros HP H Hn. unfold ProcessTerm in H. bind_inv_as H c1 H1.
  rewrite Forall_forall in HP.
  destruct unionActive.
  - apply (forEach_foldl
             (fun a s => minimumPathLength_ s = a :: n :: rest)
             factorLengthAfter) with (a := 0) in H1.
    + apply ExitPathPatternUnionOperand_measures in H
        as (x & outer & rest0 & m & ol & rl & _ & _ & Hm & Hc').
      rewrite H1 in Hm. inversion Hm. subst. exact Hc'.
    + intros factor a s s' Hin Ha Hf.
      apply (ProcessFactor_lengths fs pf P factor (HP factor Hin)
               s s' a (n :: rest) Hf Ha).
    + simpl. rewrite Hn. reflexivity.
  - inversion H. subst c'. clear H.
    apply (forEach_foldl
             (fun a s => minimumPathLength_ s = a :: rest)
             factorLengthAfter) with (a := n) in H1.
    + exact H1.
    + intros factor a s s' Hin Ha Hf.
      apply (ProcessFactor_lengths fs pf P factor (HP factor Hin)
               s s' a rest Hf Ha).
    + exact Hn.
Qed.

Lemma Process_LengthsAfter fs pf (pathPattern : PathPatternExpression) :
  LengthsAfter (Process fs pf pathPattern) (lengthAfter pathPattern).
Proof.
  revert pathPattern.
  apply (PathPatternExpression_mind
           (fun _ => True)
           (fun e => LengthsAfter (Process fs pf e) (lengthAfter e))
           (fun p => LengthsAfter (ProcessPrimary fs pf (Process fs pf) p)
                                  (primaryLengthAfter p)));
    try (intros; exact I).
  - intros op terms Hall c c' n rest H Hn.
    assert (Hterms :
              Forall (Forall (fun factor : PathFactor =>
                                LengthsAfter
                                  (ProcessPrimary fs pf (Process fs pf)
                                     (pattern factor))
                                  (primaryLengthAfter (pattern factor))))
                terms).
    { refine (list_all_Forall _ _ terms _ Hall). intros term' Hterm'.
      refine (list_all_Forall _ _ term' _ Hterm').
      intros factor Hfactor. destruct Hfactor as [q p Hp]. exact Hp. }
    rewrite Forall_forall in Hterms.
    rewrite Process_unfold in H. bind_inv_as H u Hu.
    unfold VariableReferenceScope_enter in H. cbv zeta in H.
    bind_inv_as H c1 H1. bind_inv_as H c2 H2. inversion H. subst c'. clear H.
    unfold VariableReferenceScope_exit. rewrite lengthAfter_unfold.
    change (minimumPathLength_ c2
            = (if bool_decide (1 < length terms)%nat
               then int_add n
                      (foldl (fun least term =>
                                Z.min least (foldl factorLengthAfter 0 term))
                             INT_MAX terms)
               else foldl (foldl factorLengthAfter) n terms) :: rest).
    destruct (bool_decide (1 < length terms)%nat).
    + apply (forEach_foldl
               (fun a s => minimumPathLength_ s = a :: n :: rest)
               (fun least term =>
                  Z.min least (foldl factorLengthAfter 0 term)))
        with (a := INT_MAX) in H1.
      * apply ExitPathPatternUnion_measures in H2
          as (x & outer & rest0 & m & ol & rl & _ & _ & Hm & Hc').
        rewrite H1 in Hm. inversion Hm. subst. exact Hc'.
      * intros term a s s' Hin Ha Ht.
        apply (ProcessTerm_lengths fs pf (Process fs pf) true term s s' a
                 (n :: rest) (Hterms term Hin) Ht Ha).
      * simpl. rewrite Hn. reflexivity.
    + inversion H2. subst c2. clear H2.
      apply (forEach_foldl
               (fun a s => minimumPathLength_ s = a :: rest)
               (foldl factorLengthAfter)) with (a := n) in H1.
      * exact H1.
      * intros term a s s' Hin Ha Ht.
        apply (ProcessTerm_lengths fs pf (Process fs pf) false term s s' a
                 rest (Hterms term Hin) Ht Ha).
      * exact Hn.
  - intros e _ c c' n rest H Hn. simpl in H.
    apply ProcessElementPattern_measures in H as [_ H]. apply (H n rest Hn).
  - intros p Hall c c' n rest H Hn. destruct Hall as [pos v m e He w Hw].
    simpl in H.
    apply ProcessParenthesized_inner in H
      as (s & s' & x & outer & rest0 & Hp & _ & Hs & _ & _ & _ & Hc').
    rewrite Hn in Hs. simpl in Hp. rewrite Hc'.
    apply (He s s' n rest Hp Hs).
  - intros s c c' n rest H. discriminate.
Qed.

Lemma ProcessPrimary_CountsAfter fs pf p :
  CountsAfter (ProcessPrimary fs pf (Process fs pf) p) (primaryHasNode p).
Proof.
  intros c c' b rest H Hb. destruct p as [e|value|x]; simpl in H.
  - apply ProcessElementPattern_measures in H as [H _]. apply (H b rest Hb).
  - apply ProcessParenthesized_inner in H
      as (s & s' & x & outer & rest0 & Hp & Hs & _ & Hs' & _ & Hc' & _).
    rewrite Hb in Hs.
    pose proof (Process_CountsAfter fs pf _ s s' false (b :: rest) Hp Hs)
      as Hi.
    rewrite Hi in Hs'. inversion Hs'. subst. exact Hc'.
  - discriminate.
Qed.

Lemma ProcessPrimary_LengthsAfter fs pf p :
  LengthsAfter (ProcessPrimary fs pf (Process fs pf) p)
               (primaryLengthAfter p).
Proof.
  intros c c' n rest H Hn. destruct p as [e|value|x]; simpl in H.
  - apply ProcessElementPattern_measures in H as [_ H]. apply (H n rest Hn).
  - apply ProcessParenthesized_inner in H
      as (s & s' & x & outer & rest0 & Hp & _ & Hs & _ & _ & _ & Hc').
    rewrite Hn in Hs. rewrite Hc'.
    apply (Process_LengthsAfter fs pf _ s s' n rest Hp Hs).
  - discriminate.
Qed.

Lemma Process_everyFactor fs pf (good : PathFactor -> bool) :
  (forall factor s s',
     ProcessFactor fs pf (Process fs pf) factor s = Ok s' ->
     good factor = true) ->
  forall (pathPattern : PathPatternExpression) c c',
    Process fs pf pathPattern c = Ok c' ->
    everyFactor good pathPattern = true.
Proof.
  intros Hgood.
  apply (PathPatternExpression_mind
           (fun _ => True)
           (fun e => forall c c',
                Process fs pf e c = Ok c' -> everyFactor good e = true)
           (fun p => forall c c',
                ProcessPrimary fs pf (Process fs pf) p c = Ok c' ->
                everyFactorOfPrimary good p = true));
    try (intros; exact I).
  - intros op terms Hall c c' H.
    assert (Hterms :
              Forall (Forall (fun factor : PathFactor =>
                                forall c c',
                                  ProcessPrimary fs pf (Process fs pf)
                                    (pattern factor) c = Ok c' ->
                                  everyFactorOfPrimary good (pattern factor)
                                  = true)) terms).
    { refine (list_all_Forall _ _ terms _ Hall). intros term' Hterm'.
      refine (list_all_Forall _ _ term' _ Hterm').
      intros factor Hfactor. destruct Hfactor as [q p Hp]. exact Hp. }
    simpl. apply forallb_Forall_true.
    eapply Forall_impl;
      [|intros term Ht; apply forallb_Forall_true; exact Ht].
    refine (Process_factors fs pf _ op terms c c' _ H).
    intros factor s s' _ Hfactor Hin.
    apply in_concat in Hin as (term & Hterm & Hf).
    rewrite Forall_forall in Hterms.
    apply list_elem_of_In in Hterm, Hf.
    pose proof (Hterms term Hterm) as Ht. rewrite Forall_forall in Ht.
    rewrite (Hgood factor s s' Hfactor).
    apply ProcessFactor_primary in Hfactor as (t & t' & Hp & _).
    apply (Ht factor Hf t t' Hp).
  - intros e _ c c' _. reflexivity.
  - intros p Hall c c' H. destruct Hall as [pos v m e He w Hw]. simpl in *.
    unfold ProcessParenthesized in H.
    bind_inv_as H u1 F1. bind_inv_as H u2 F2. bind_inv_as H u3 F3.
    bind_inv_as H u4 F4. bind_inv_as H c1 H1. bind_inv_as H c2 H2.
    bind_inv_as H c3 H3. simpl in *.
    apply (He c2 c3 H3).
  - intros s c c' H. discriminate.
Qed.



(** X10: the traversal computes on [minimumPathLength_] the minimum path
    length of the pattern, in the arithmetic of [int]. When [Process]
    returns normally from a state whose stack has the top [n], the top
    becomes [lengthAfter pathPattern n] and the rest of the stack is as
    before. *)
Theorem Process_minimumPathLength fs pf (pathPattern : PathPatternExpression)
    (c c' : GraphPatternContext) (n : Z) (rest : list Z) :
  Process fs pf pathPattern c = Ok c' ->
  minimumPathLength_ c = n :: rest ->
  minimumPathLength_ c' = lengthAfter pathPattern n :: rest.
Proof. apply Process_LengthsAfter. Qed.

Lemma Process_minimumPathLength_witness :
  minimumPathLength_ beforeExitPathPattern
  = lengthAfter unboundedGroupPattern 0 :: []
  /\ lengthAfter unboundedGroupPattern 0 = 1.
Proof.
  split; [|vm_compute; reflexivity].
  apply (Process_minimumPathLength allFeatures acceptLabels
           unboundedGroupPattern
           (EnterPathPattern false (newGraphPatternContext true))).
  - vm_compute. reflexivity.
  - vm_compute. reflexivity.
Defined.

(** X11: a path pattern that the analysis accepts has a minimum node count
    greater than zero. When [EnterPathPattern], [Process] and
    [ExitPathPattern] run without error (the last throws E0109 otherwise),
    [hasNode] holds of the pattern. *)
Theorem ExitPathPattern_has_node fs pf (isSelectivePattern : bool)
    (pathPattern : PathPatternExpression) (c c1 c2 : GraphPatternContext)
    (auxData : PathPatternAuxData) :
  Process fs pf pathPattern (EnterPathPattern isSelectivePattern c) = Ok c1 ->
  ExitPathPattern c1 = Ok (c2, auxData) ->
  hasNode pathPattern = true.
Proof.
  intros H1 H2.
  destruct (EnterPathPattern_measures isSelectivePattern c) as [He _].
  apply (Process_CountsAfter fs pf pathPattern _ c1 false _ H1) in He.
  apply ExitPathPattern_measures in H2 as [H2 _].
  rewrite He in H2. inversion H2. reflexivity.
Qed.

Lemma ExitPathPattern_has_node_witness :
  hasNode unboundedGroupPattern = true
  /\ hasNode (mkPathPatternExpression Union [[sampleEdge "e" 1]]) = false.
Proof.
  split; [|vm_compute; reflexivity].
  eapply (ExitPathPattern_has_node allFeatures acceptLabels false
            unboundedGroupPattern (newGraphPatternContext true)
            beforeExitPathPattern).
  - vm_compute. reflexivity.
  - vm_compute. reflexivity.
Defined.



(** X13: in a pattern that the traversal accepts, every parenthesized
    pattern that declares a subpath variable has a minimum node count
    greater than zero (E0110 otherwise), at any depth of parentheses. *)
Theorem Process_subpath_has_node fs pf (pathPattern : PathPatternExpression)
    (c c' : GraphPatternContext) :
  Process fs pf pathPattern c = Ok c' ->
  everyFactor subpathHasNode pathPattern = true.
Proof.
  apply Process_everyFactor. intros factor s s' H.
  apply ProcessFactor_inner in H as (t & t' & Hp & _).
  unfold subpathHasNode. destruct (pattern factor) as [e|value|x];
    [reflexivity | | reflexivity].
  simpl in Hp.
  apply ProcessParenthesized_inner in Hp
    as (u & u' & x & outer & rest & Hi & Hu & _ & Hu' & Hx & _).
  rewrite (Process_CountsAfter fs pf _ u u' false _ Hi Hu) in Hu'.
  inversion Hu'. subst x.
  destruct (bool_decide (is_Some (pppe_var value))) eqn:Hv; [|reflexivity].
  apply bool_decide_eq_true in Hv. simpl. apply (Hx Hv).
Qed.

Lemma Process_subpath_has_node_witness :
  everyFactor subpathHasNode subpathSample = true.
Proof.
  eapply (Process_subpath_has_node allFeatures acceptLabels subpathSample
            (EnterPathPattern false (newGraphPatternContext true))).
  vm_compute. reflexivity.
Defined.

(** ** The types of the declarations of a pattern *)

Lemma subpathNames_app l1 l2 :
  subpathNames (l1 ++ l2) = (subpathNames l1 ++ subpathNames l2)%list.
Proof. unfold subpathNames. rewrite filter_app, fmap_app. reflexivity. Qed.

Lemma elem_of_subpathNames l name :
  name ∈ subpathNames l <-> (name, Subpath) ∈ l.
Proof.
  unfold subpathNames. rewrite list_elem_of_fmap. split.
  - intros ([n ty] & -> & Hin). apply list_elem_of_filter in Hin as [Hty Hin].
    simpl in *. subst ty. exact Hin.
  - intros Hin. exists (name, Subpath). split; [reflexivity|].
    apply list_elem_of_filter. split; [reflexivity | exact Hin].
Qed.

Lemma Declares_nil c c' : SameDeclarations c c' -> Declares [] c c'.
Proof.
  unfold SameDeclarations, Declares. intros ->.
  split_all; [reflexivity | constructor | constructor | constructor].
Qed.

Lemma Declares_refl c : Declares [] c c.
Proof. apply Declares_nil. reflexivity. Qed.

Lemma Declares_app l1 l2 c1 c2 c3 :
  Declares l1 c1 c2 -> Declares l2 c2 c3 -> Declares (l1 ++ l2) c1 c3.
Proof.
  intros (S1 & F1 & N1 & A1) (S2 & F2 & N2 & A2).
  rewrite Forall_forall in F1. rewrite Forall_forall in F2.
  rewrite Forall_forall in A1. rewrite Forall_forall in A2.
  unfold Declares. rewrite subpathNames_app. split_all.
  - transitivity (variableDeclarations_ c2); assumption.
  - apply Forall_app. split; apply Forall_forall; [|exact F2].
    intros d Hd. destruct (F1 d Hd) as (x & Hx & Hty).
    exists x. split; [|exact Hty]. apply (lookup_weaken _ _ _ _ Hx S2).
  - apply NoDup_app. split_all; [exact N1 | | exact N2].
    intros name H1 H2. apply elem_of_subpathNames in H1.
    destruct (F1 _ H1) as (x & Hx & _). simpl in Hx.
    rewrite (A2 name H2) in Hx. discriminate.
  - apply Forall_app. split; apply Forall_forall; [exact A1|].
    intros name Hn. specialize (A2 name Hn).
    destruct (variableDeclarations_ c1 !! name) as [x|] eqn:Hx;
      [|reflexivity].
    rewrite (lookup_weaken _ _ _ _ Hx S1) in A2. discriminate.
Qed.

Lemma Declares_before l c1 c2 c3 :
  SameDeclarations c1 c2 -> Declares l c2 c3 -> Declares l c1 c3.
Proof.
  intros H1 H2. apply (Declares_app [] l c1 c2 c3); [|exact H2].
  apply Declares_nil. exact H1.
Qed.

Lemma Declares_after l c1 c2 c3 :
  Declares l c1 c2 -> SameDeclarations c2 c3 -> Declares l c1 c3.
Proof.
  intros H1 H2. rewrite <- (app_nil_r l).
  apply (Declares_app l [] c1 c2 c3); [exact H1|].
  apply Declares_nil. exact H2.
Qed.

Lemma forEach_Declares {A : Type}
    (g : A -> list (string * GraphPatternVariableType))
    (body : A -> GraphPatternContext -> Result GraphPatternContext)
    (xs : list A) :
  (forall x s s', x ∈ xs -> body x s = Ok s' -> Declares (g x) s s') ->
  forall s s', forEach body xs s = Ok s' ->
               Declares (List.concat (List.map g xs)) s s'.
Proof.
  induction xs as [|x xs IH]; intros Hbody s s' H.
  - inversion H. subst. apply Declares_refl.
  - rewrite forEach_cons in H. bind_inv_as H s1 H1. simpl.
    apply (Declares_app _ _ s s1 s').
    + apply (Hbody x s s1 (list_elem_of_here _ _) H1).
    + apply (IH (fun y t t' Hy => Hbody y t t' (list_elem_of_further _ _ _ Hy))
               s1 s' H).
Qed.

Lemma DeclareVariable_Declares name pos ty isTemp c c' :
  DeclareVariable name pos ty isTemp c = Ok c' ->
  Declares [(name, ty)] c c'.
Proof.
  intros H. pose proof (DeclareVariable_declarations _ _ _ _ _ _ H) as Hd.
  unfold DeclareVariable in H. bind_inv_as H u Hu.
  bind_inv_as H c1 H1. clear H Hu.
  assert (Hcase : match variableDeclarations_ c !! name with
                  | Some it => type_ it = ty /\ ty <> Subpath
                  | None => True
                  end).
  { destruct (IsSet (lastVariableDeclarationPosition_ c)); simpl in H1;
      destruct (variableDeclarations_ c !! name) as [it|]; try exact I;
      destruct (bool_decide (type_ it = ty)) eqn:Hty; try discriminate;
      apply bool_decide_eq_true in Hty; simpl in H1;
      (split; [exact Hty|]); destruct ty; discriminate. }
  unfold Declares, subpathNames. rewrite Hd. clear Hd H1.
  destruct (variableDeclarations_ c !! name) as [it|] eqn:Hit.
  - destruct Hcase as [Hty Hsub]. split_all.
    + reflexivity.
    + repeat constructor. exists it. split; assumption.
    + rewrite filter_cons_False by exact Hsub. constructor.
    + rewrite filter_cons_False by exact Hsub. constructor.
  - split_all.
    + apply insert_subseteq. exact Hit.
    + repeat constructor. eexists. split; [apply lookup_insert_eq|].
      reflexivity.
    + destruct (decide (ty = Subpath)) as [->|Hsub].
      * rewrite filter_cons_True by reflexivity. simpl.
        apply NoDup_singleton.
      * rewrite filter_cons_False by exact Hsub. constructor.
    + destruct (decide (ty = Subpath)) as [->|Hsub].
      * rewrite filter_cons_True by reflexivity. simpl.
        repeat constructor. exact Hit.
      * rewrite filter_cons_False by exact Hsub. constructor.
Qed.

Lemma ProcessElementPattern_Declares pf value c c' :
  ProcessElementPattern pf value c = Ok c' ->
  Declares (declarationsOfPrimary (Element value)) c c'.
Proof.
  intros H. destruct value as [pos filler | pos dir filler]; simpl in *.
  - bind_inv_as H c1 H1. apply EnterNodePattern_declarations in H1.
    bind_inv_as H c2 H2. bind_inv_as H u Hu. inversion H. subst c'.
    unfold ExitNodePattern. apply (Declares_before _ c c1 c2 H1).
    destruct (var filler) as [v|].
    + apply DeclareNodeVariable_declarations in H2 as (c3 & H3 & H4).
      apply (Declares_after _ c1 c3 c2); [|exact H4].
      apply (DeclareVariable_Declares _ _ _ _ _ _ H3).
    + inversion H2. apply Declares_refl.
  - bind_inv_as H c1 H1. apply EnterEdgePattern_declarations in H1.
    bind_inv_as H c2 H2. bind_inv_as H u Hu. inversion H. subst c'.
    unfold ExitEdgePattern. apply (Declares_before _ c c1 c2 H1).
    destruct (var filler) as [v|].
    + apply (DeclareVariable_Declares _ _ _ _ _ _ H2).
    + inversion H2. apply Declares_refl.
Qed.

Lemma ProcessParenthesized_Declares fs P value c c'
    (l : list (string * GraphPatternVariableType)) :
  (forall s s', P (pppe_pattern value) s = Ok s' -> Declares l s s') ->
  ProcessParenthesized fs P value c = Ok c' ->
  Declares (match pppe_var value with
            | Some v => [(nv_name v, Subpath)]
            | None => []
            end ++ l)%list c c'.
Proof.
  intros HP H. unfold ProcessParenthesized in H.
  bind_inv_as H u1 F1. bind_inv_as H u2 F2. bind_inv_as H u3 F3.
  bind_inv_as H u4 F4. bind_inv_as H c1 H1. bind_inv_as H c2 H2.
  bind_inv_as H c3 H3. bind_inv_as H c4 H4. bind_inv_as H c5 H5.
  apply ExitParenthesizedPathPatternExpression_declarations in H.
  apply ExitPathMode_declarations in H5.
  apply EnterPathMode_declarations in H2.
  apply HP in H3.
  assert (H4' : SameDeclarations c3 c4).
  { destruct (pppe_where value) as [w|].
    - apply (AddSearchCondition_declarations _ _ _ H4).
    - inversion H4. reflexivity. }
  assert (H1' : Declares match pppe_var value with
                         | Some v => [(nv_name v, Subpath)]
                         | None => []
                         end c c1).
  { apply (Declares_before _ c (EnterParenthesizedPathPatternExpression c) c1
             (EnterParenthesizedPathPatternExpression_declarations c)).
    destruct (pppe_var value) as [v|].
    - apply (DeclareVariable_Declares _ _ _ _ _ _ H1).
    - inversion H1. apply Declares_refl. }
  apply (Declares_app _ _ c c1 c' H1').
  apply (Declares_before _ c1 c2 c' H2).
  apply (Declares_after _ c2 c5 c'); [|exact H].
  apply (Declares_after _ c2 c4 c5); [|exact H5].
  apply (Declares_after _ c2 c3 c4); [|exact H4'].
  exact H3.
Qed.

Lemma ProcessFactor_Declares fs pf P factor c c'
    (l : list (string * GraphPatternVariableType)) :
  (forall s s', ProcessPrimary fs pf P (pattern factor) s = Ok s' ->
                Declares l s s') ->
  ProcessFactor fs pf P factor c = Ok c' ->
  Declares l c c'.
Proof.
  intros HP H. unfold ProcessFactor in H.
  unfold VariableReferenceScope_enter in H. cbv zeta in H.
  bind_inv_as H r1 H1. destruct r1 as [c1 active].
  bind_inv_as H c2 H2. bind_inv_as H c3 H3. inversion H. subst c'. clear H.
  apply (HP c1 c2) in H2.
  assert (E1 : SameDeclarations c c1).
  { destruct (quantifier factor) as [| |lower upper]; simpl in H1.
    - inversion H1. reflexivity.
    - inversion H1. reflexivity.
    - bind_inv_as H1 u Hu. bind_inv_as H1 c1' He. inversion H1. subst c1'.
      apply EnterQuantifiedPathPrimary_declarations in He. exact He. }
  assert (E3 : SameDeclarations c2 c3).
  { destruct active as [| |bounded lowerBound]; simpl in H3.
    - inversion H3. reflexivity.
    - apply (ExitQuestionedPathPrimary_declarations _ _ H3).
    - apply (ExitQuantifiedPathPrimary_declarations _ _ _ _ H3). }
  apply (Declares_before _ c c1 _ E1).
  apply (Declares_after _ c1 c3 _); [|reflexivity].
  apply (Declares_after _ c1 c2 c3 H2 E3).
Qed.

Lemma ProcessTerm_Declares fs pf P unionActive term c c' :
  (forall factor s s',
     factor ∈ term ->
     ProcessPrimary fs pf P (pattern factor) s = Ok s' ->
     Declares (declarationsOfPrimary (pattern factor)) s s') ->
  ProcessTerm fs pf P unionActive term c = Ok c' ->
  Declares (List.concat
              (List.map (fun factor : PathFactor =>
                           declarationsOfPrimary (pattern factor)) term))
    c c'.
Proof.
  intros HP H. unfold ProcessTerm in H. bind_inv_as H c1 H1.
  apply (forEach_Declares
           (fun factor : PathFactor =>
              declarationsOfPrimary (pattern factor))) in H1.
  2: { intros factor s s' Hin Hf.
       apply (ProcessFactor_Declares fs pf P factor s s' _
                (fun t t' Ht => HP factor t t' Hin Ht) Hf). }
  destruct unionActive.
  - apply ExitPathPatternUnionOperand_declarations in H.
    apply (Declares_before _ c (EnterPathPatternUnionOperand c) c');
      [reflexivity|].
    apply (Declares_after _ _ c1 c' H1 H).
  - inversion H. subst c'. exact H1.
Qed.

Lemma Process_Declares fs pf (pathPattern : PathPatternExpression)
    (c c' : GraphPatternContext) :
  Process fs pf pathPattern c = Ok c' ->
  Declares (declarationsOf pathPattern) c c'.
Proof.
  revert pathPattern c c'.
  apply (PathPatternExpression_mind
           (fun _ => True)
           (fun e => forall c c',
                Process fs pf e c = Ok c' -> Declares (declarationsOf e) c c')
           (fun p => forall c c',
                ProcessPrimary fs pf (Process fs pf) p c = Ok c' ->
                Declares (declarationsOfPrimary p) c c'));
    try (intros; exact I).
  - intros op terms Hall c c' H.
    assert (Hterms :
              Forall (Forall (fun factor : PathFactor =>
                                forall c c',
                                  ProcessPrimary fs pf (Process fs pf)
                                    (pattern factor) c = Ok c' ->
                                  Declares
                                    (declarationsOfPrimary (pattern factor))
                                    c c')) terms).
    { refine (list_all_Forall _ _ terms _ Hall). intros term' Hterm'.
      refine (list_all_Forall _ _ term' _ Hterm').
      intros factor Hfactor. destruct Hfactor as [q p Hp]. exact Hp. }
    rewrite Process_unfold in H. bind_inv_as H u Hu.
    unfold VariableReferenceScope_enter in H. cbv zeta in H.
    bind_inv_as H c1 H1. bind_inv_as H c2 H2. inversion H. subst c'. clear H.
    apply (forEach_Declares
             (fun term : list PathFactor =>
                List.concat
                  (List.map (fun factor : PathFactor =>
                               declarationsOfPrimary (pattern factor))
                            term))) in H1.
    2: { intros term s s' Hin Ht. rewrite Forall_forall in Hterms.
         pose proof (Hterms term Hin) as Hfs. rewrite Forall_forall in Hfs.
         apply (ProcessTerm_Declares fs pf (Process fs pf) _ term s s'
                  (fun factor t t' Hf => Hfs factor Hf t t') Ht). }
    change (declarationsOf (mkPathPatternExpression op terms))
      with (List.concat
              (List.map (fun term : list PathFactor =>
                           List.concat
                             (List.map (fun factor : PathFactor =>
                                          declarationsOfPrimary
                                            (pattern factor)) term))
                        terms)).
    eapply Declares_before; [|eapply Declares_after; [exact H1|]].
    + destruct (bool_decide (1 < length terms)%nat); reflexivity.
    + unfold VariableReferenceScope_exit.
      destruct (bool_decide (1 < length terms)%nat).
      * apply ExitPathPatternUnion_declarations in H2.
        unfold SameDeclarations in *. simpl. exact H2.
      * inversion H2. reflexivity.
  - intros e _ c c' H. simpl in H.
    apply (ProcessElementPattern_Declares _ _ _ _ H).
  - intros p Hall c c' H. destruct Hall as [pos v m e He w Hw].
    simpl in H. apply (ProcessParenthesized_Declares _ _ _ _ _ _ He H).
  - intros s c c' H. discriminate.
Qed.

(** X14: a name has one type throughout an accepted pattern. When [Process]
    returns normally, the declarations that [variableDeclarations_] held
    before are still there as they were, and every variable that the
    pattern declares, at any depth of parentheses, is recorded in
    [variableDeclarations_] with the type of that declaration (E0001 is
    thrown when a name is declared with a second type). *)
Theorem Process_declaration_types fs pf (pathPattern : PathPatternExpression)
    (c c' : GraphPatternContext) :
  Process fs pf pathPattern c = Ok c' ->
  variableDeclarations_ c ⊆ variableDeclarations_ c'
  /\ forall name ty,
       (name, ty) ∈ declarationsOf pathPattern ->
       declaredAs (variableDeclarations_ c') name ty.
Proof.
  intros H. apply Process_Declares in H as (HS & HF & _).
  split; [exact HS|]. intros name ty Hin. rewrite Forall_forall in HF.
  apply (HF (name, ty) Hin).
Qed.

Lemma Process_declaration_types_witness :
  declaredAs (variableDeclarations_ beforeExitPathPattern) "b" Node
  /\ Process allFeatures acceptLabels nodeAsEdge
       (EnterPathPattern false (newGraphPatternContext true))
     = Throw E0001.
Proof.
  split; [|vm_compute; reflexivity].
  refine (proj2 (Process_declaration_types allFeatures acceptLabels
                   unboundedGroupPattern
                   (EnterPathPattern false (newGraphPatternContext true))
                   beforeExitPathPattern _) "b" Node _).
  - vm_compute. reflexivity.
  - vm_compute. apply list_elem_of_further, list_elem_of_here.
Defined.

(** X15: a subpath variable is declared once. When [Process] returns
    normally, the subpath variables that the parenthesized patterns of the
    pattern declare, at any depth, are pairwise distinct, and none of them
    was in [variableDeclarations_] before (E0003, or E0001, is thrown
    otherwise). *)
Theorem Process_subpath_variables_once fs pf
    (pathPattern : PathPatternExpression) (c c' : GraphPatternContext) :
  Process fs pf pathPattern c = Ok c' ->
  NoDup (subpathNames (declarationsOf pathPattern))
  /\ forall name,
       (name, Subpath) ∈ declarationsOf pathPattern ->
       variableDeclarations_ c !! name = None.
Proof.
  intros H. apply Process_Declares in H as (_ & _ & HN & HA).
  split; [exact HN|]. intros name Hin. rewrite Forall_forall in HA.
  apply HA. apply elem_of_subpathNames. exact Hin.
Qed.

Lemma Process_subpath_variables_once_witness :
  NoDup (subpathNames (declarationsOf subpathSample))
  /\ subpathNames (declarationsOf subpathSample) = ["p"]
  /\ subpathNames (declarationsOf subpathTwice) = ["p"; "p"]
  /\ Process allFeatures acceptLabels subpathTwice
       (EnterPathPattern false (newGraphPatternContext true))
     = Throw E0003.
Proof.
  split; [|split_all; vm_compute; reflexivity].
  eapply (proj1 (Process_subpath_variables_once allFeatures acceptLabels
                   subpathSample
                   (EnterPathPattern false (newGraphPatternContext true))
                   _ _)).
  Unshelve. 2: vm_compute; reflexivity.
Defined.

(** ** Quoted strings *)

Lemma string_app_assoc (a b c : string) : (a ++ b) ++ c = a ++ (b ++ c).
Proof.
  induction a as [|x a IH]; [reflexivity|].
  change (String x ((a ++ b) ++ c) = String x (a ++ (b ++ c))).
  f_equal. exact IH.
Qed.

Lemma string_app_cons (x : Ascii.ascii) (a b : string) :
  String x a ++ b = String x (a ++ b).
Proof. reflexivity. Qed.

Lemma string_app_nil (b : string) : EmptyString ++ b = b.
Proof. reflexivity. Qed.

Lemma readEscaped_backslash (d : Ascii.ascii) (rest : string) :
  readEscaped (String backslashChar (String d rest))
  = match readEscaped rest with
    | Some (str, after) => Some (String (unescapeChar d) str, after)
    | None => None
    end.
Proof. reflexivity. Qed.

Lemma readEscaped_plain (c : Ascii.ascii) (rest : string) :
  c <> quoteChar -> c <> backslashChar ->
  readEscaped (String c rest)
  = match readEscaped rest with
    | Some (str, after) => Some (String c str, after)
    | None => None
    end.
Proof.
  intros Hq Hb. cbn [readEscaped].
  rewrite (bool_decide_eq_false_2 _ Hq), (bool_decide_eq_false_2 _ Hb).
  reflexivity.
Qed.

Lemma readEscaped_escapeChars (str after : string) :
  readEscaped (escapeChars str ++ String quoteChar after) = Some (str, after).
Proof.
  induction str as [|c str IH]; [reflexivity|].
  cbn [escapeChars]. rewrite string_app_assoc. unfold escapeChar.
  repeat case_bool_decide; subst;
    rewrite ?string_app_cons, ?string_app_nil;
    try (rewrite readEscaped_backslash, IH; reflexivity).
  rewrite readEscaped_plain, IH by assumption. reflexivity.
Qed.

Lemma string_app_inj_l (a b c : string) : a ++ b = a ++ c -> b = c.
Proof.
  induction a as [|x a IH]; intros H; [exact H|].
  apply IH. inversion H. reflexivity.
Qed.

(** X16: the quoted form of a string is self-delimiting. If the text that
    [operator<<(QuotedString)] writes for one string, followed by any text,
    equals the text it writes for another string, followed by any text,
    then the two strings are equal and so is what follows: a string can be
    recovered from its quoted form, and the end of the quoted form can be
    found. *)
Theorem escaped_self_delimiting (str1 str2 after1 after2 : string) :
  escaped str1 ++ after1 = escaped str2 ++ after2 ->
  str1 = str2 /\ after1 = after2.
Proof.
  unfold escaped. intros H.
  rewrite !string_app_cons in H. inversion H as [H'].
  rewrite !string_app_assoc, !string_app_cons, !string_app_nil in H'.
  apply (f_equal readEscaped) in H'.
  rewrite !readEscaped_escapeChars in H'. inversion H'. split; reflexivity.
Qed.

Lemma escaped_self_delimiting_witness :
  "a\b" = "a\b" /\ "," = ","
  /\ escaped "a\b"
     = String quoteChar ("a\\b" ++ String quoteChar EmptyString).
Proof.
  split_all; [| |vm_compute; reflexivity].
  - apply (escaped_self_delimiting "a\b" "a\b" "," ","). reflexivity.
  - apply (escaped_self_delimiting "a\b" "a\b" "," ","). reflexivity.
Defined.

Lemma list_ascii_of_string_app (a b : string) :
  list_ascii_of_string (a ++ b)
  = (list_ascii_of_string a ++ list_ascii_of_string b)%list.
Proof.
  induction a as [|x a IH]; [reflexivity|].
  rewrite string_app_cons. simpl. rewrite IH. reflexivity.
Qed.

(** The characters that [escapeChar] writes for one character: one
    character that needs no escape, or a backslash and a character that is
    not one of the five control characters. *)
Lemma escapeChar_cases (c : Ascii.ascii) :
  (escapeChar c = String c ""
   /\ c <> quoteChar /\ c <> newlineChar /\ c <> returnChar /\ c <> tabChar
   /\ c <> backspaceChar /\ c <> formFeedChar /\ c <> backslashChar)
  \/ exists d, escapeChar c = String backslashChar (String d "")
               /\ d <> newlineChar /\ d <> returnChar /\ d <> tabChar
               /\ d <> backspaceChar /\ d <> formFeedChar.
Proof.
  unfold escapeChar.
  repeat case_bool_decide; subst;
    try (right; eexists; split; [reflexivity|];
         split_all; intros H'; vm_compute in H'; discriminate H').
  left. split_all; first [reflexivity | assumption].
Qed.

(** X17: the text between the quotes of a quoted form is safe. It holds no
    line feed, carriage return, tab, backspace or form feed, and every
    quote in it comes directly after a backslash. *)
Theorem escapeChars_safe (str : string) :
  Forall (fun c => c <> newlineChar /\ c <> returnChar /\ c <> tabChar
                   /\ c <> backspaceChar /\ c <> formFeedChar)
         (list_ascii_of_string (escapeChars str))
  /\ forall i : nat,
       list_ascii_of_string (escapeChars str) !! i = Some quoteChar ->
       exists j : nat,
         i = S j
         /\ list_ascii_of_string (escapeChars str) !! j = Some backslashChar.
Proof.
  induction str as [|c str [IH1 IH2]].
  - split; [constructor|]. intros i H. destruct i; discriminate H.
  - cbn [escapeChars]. rewrite list_ascii_of_string_app.
    destruct (escapeChar_cases c)
      as [(-> & Hq & Hn & Hr & Ht & Hb & Hf & Hs)
         | (d & -> & Hn & Hr & Ht & Hb & Hf)]; simpl; split.
    + constructor; [split_all; assumption | exact IH1].
    + intros [|i] H; simpl in H.
      * inversion H. contradiction.
      * destruct (IH2 i H) as (j & -> & Hj). exists (S j).
        split; [reflexivity | exact Hj].
    + constructor; [split_all; intros H'; vm_compute in H'; discriminate H'|].
      constructor; [split_all; assumption | exact IH1].
    + intros [|[|i]] H; simpl in H.
      * vm_compute in H. discriminate H.
      * exists 0%nat. split; reflexivity.
      * destruct (IH2 i H) as (j & -> & Hj). exists (S (S j)).
        split; [reflexivity | exact Hj].
Qed.

(** ** Generated names *)

Lemma to_int_not_nil (z : Z) :
  Z.to_int z <> Decimal.Pos Decimal.Nil
  /\ Z.to_int z <> Decimal.Neg Decimal.Nil.
Proof.
  destruct z as [|p|p]; simpl; split; try discriminate;
    intros H; inversion H as [H'];
    apply (DecimalPos.Unsigned.to_uint_nonnil p H').
Qed.

(** X18: the names that [RewriteElementPropertyPredicate] generates for
    different values of its counter are different. *)
Theorem generatedName_distinct (id1 id2 : Z) :
  id1 <> id2 -> generatedName id1 <> generatedName id2.
Proof.
  intros Hne H. apply Hne. unfold generatedName in H.
  apply string_app_inj_l in H.
  apply (f_equal NilZero.int_of_string) in H.
  destruct (to_int_not_nil id1) as [P1 N1].
  destruct (to_int_not_nil id2) as [P2 N2].
  rewrite !NilZero.isi in H by assumption.
  inversion H as [H']. apply (DecimalZ.to_int_inj _ _ H').
Qed.

Lemma generatedName_distinct_witness :
  generatedName 1 = "gql_gen_prop1"
  /\ generatedName 1 <> generatedName 2.
Proof.
  split; [reflexivity|].
  apply (generatedName_distinct 1 2). discriminate.
Defined.

(** ** Value types *)

Lemma andThen_Accepted {A B : Type} (r : ValueTypes.Checked A)
    (k : A -> ValueTypes.Checked B) (b : B) :
  ValueTypes.andThen r k = ValueTypes.Accepted b <->
  exists a, r = ValueTypes.Accepted a /\ k a = ValueTypes.Accepted b.
Proof.
  destruct r as [a|e]; simpl; split.
  - intros H. exists a. split; [reflexivity | exact H].
  - intros (a' & Ha & H). inversion Ha. subst a'. exact H.
  - discriminate.
  - intros (a' & Ha & _). discriminate.
Qed.

Lemma andAlso_Accepted {A : Type} (r : ValueTypes.Checked unit)
    (k : ValueTypes.Checked A) (a : A) :
  ValueTypes.andAlso r k = ValueTypes.Accepted a <->
  r = ValueTypes.Accepted tt /\ k = ValueTypes.Accepted a.
Proof.
  unfold ValueTypes.andAlso. rewrite andThen_Accepted. split.
  - intros ([] & Hr & Hk). split; assumption.
  - intros [Hr Hk]. exists tt. split; assumption.
Qed.

Lemma forEachChecked_cons {A S : Type} (body : A -> S -> ValueTypes.Checked S)
    (x : A) (xs : list A) (s : S) :
  ValueTypes.forEachChecked body (x :: xs) s
  = ValueTypes.andThen (body x s) (ValueTypes.forEachChecked body xs).
Proof. reflexivity. Qed.

(** A loop that returns normally has run its body on every element, from
    states that are linked by the body. *)
Lemma forEachChecked_steps {A S : Type} (R : list A -> S -> Prop)
    (body : A -> S -> ValueTypes.Checked S) (xs : list A) :
  (forall done x s s',
     R done s -> body x s = ValueTypes.Accepted s' -> R (done ++ [x])%list s') ->
  forall done s s',
    R done s ->
    ValueTypes.forEachChecked body xs s = ValueTypes.Accepted s' ->
    R (done ++ xs)%list s'.
Proof.
  intros Hbody. induction xs as [|x xs IH]; intros done s s' Hs H.
  - inversion H. subst. rewrite app_nil_r. exact Hs.
  - rewrite forEachChecked_cons in H.
    apply andThen_Accepted in H as (s1 & H1 & H).
    replace (done ++ x :: xs)%list with ((done ++ [x]) ++ xs)%list
      by (rewrite <- app_assoc; reflexivity).
    apply (IH (done ++ [x])%list s1 s'); [|exact H].
    apply (Hbody done x s s1 Hs H1).
Qed.

Section ValueTypeAnalysis.
Context {B : Type}.
Variable featureSupported : ValueTypes.Feature -> bool.
Variable ProcessTableType : B -> ValueTypes.Checked unit.
Variable hasRecordDescendant : ValueTypes.ValueType B -> bool.

Local Abbreviation Process :=
  (ValueTypes.Process featureSupported ProcessTableType hasRecordDescendant).
Local Abbreviation Ok_ := (ValueTypes.Accepted tt).

(** What [Process] has checked of the alternative of a type that it
    accepts. *)
Lemma Process_Accepted (notNull : bool)
    (option_ : ValueTypes.TypeOption_ B (ValueTypes.ValueType B)) :
  Process (ValueTypes.mkValueType notNull option_) = Ok_ ->
  match option_ with
  | ValueTypes.StringType kind minLength maxLength =>
      ValueTypes.ProcessStringType featureSupported kind minLength maxLength
      = Ok_
  | ValueTypes.List_ isGroup valueType =>
      (isGroup = true ->
       exists element,
         valueType = Some element
         /\ ValueTypes.isElementReference element = true)
      /\ (forall element, valueType = Some element -> Process element = Ok_)
  | ValueTypes.RecordType (Some fs) =>
      exists names,
        ValueTypes.forEachChecked
          (ValueTypes.ProcessField featureSupported hasRecordDescendant
             Process) fs ∅
        = ValueTypes.Accepted names
  | ValueTypes.Union_ types =>
      length types <> 1%nat
      /\ exists nullable,
          ValueTypes.forEachChecked (ValueTypes.ProcessComponent Process)
            types None
          = ValueTypes.Accepted nullable
  | _ => True
  end.
Proof.
  intros H. cbn [ValueTypes.Process] in H.
  apply andAlso_Accepted in H as [_ H].
  destruct option_ as [v|v|s|st p sc|k mn mx| |t| | |g vt|fs|ts];
    try exact I.
  - exact H.
  - apply andAlso_Accepted in H as [_ H].
    apply andAlso_Accepted in H as [_ H].
    apply andAlso_Accepted in H as [Hg H]. split.
    + intros ->. destruct vt as [element|]; [|discriminate].
      exists element. split; [reflexivity|].
      destruct (ValueTypes.isElementReference element);
        [reflexivity | discriminate].
    + intros element ->. exact H.
  - destruct fs as [fs|]; [|exact I].
    apply andAlso_Accepted in H as [_ H].
    apply andAlso_Accepted in H as [_ H].
    apply andThen_Accepted in H as (names & H & _).
    exists names. exact H.
  - apply andAlso_Accepted in H as [_ H].
    case_bool_decide as Hlen; [discriminate|].
    apply andThen_Accepted in H as (nullable & H & _).
    split; [exact Hlen|]. exists nullable. exact H.
Qed.

Lemma ProcessStringType_lengths kind minLength m :
  ValueTypes.ProcessStringType featureSupported kind minLength (Some m) = Ok_ ->
  (minLength < m)%N.
Proof.
  unfold ValueTypes.ProcessStringType. intros H.
  apply andAlso_Accepted in H as [_ H].
  destruct (m =? 0)%N; [discriminate|].
  destruct (m <=? minLength)%N eqn:Hle; [discriminate|].
  apply N.leb_gt in Hle. exact Hle.
Qed.

(** The loop over the fields of a record: the names seen so far are
    pairwise distinct and are the elements of [fieldNames]; every field
    type has been accepted. *)
Lemma ProcessFields_Accepted fs names :
  ValueTypes.forEachChecked
    (ValueTypes.ProcessField featureSupported hasRecordDescendant Process)
    fs ∅
  = ValueTypes.Accepted names ->
  NoDup (ValueTypes.name <$> fs)
  /\ Forall (fun f => Process (ValueTypes.type f) = Ok_) fs.
Proof.
  intros H.
  apply (forEachChecked_steps
           (fun done (s : gset string) =>
              NoDup (ValueTypes.name <$> done)
              /\ (forall n, n ∈ s <-> n ∈ ValueTypes.name <$> done)
              /\ Forall (fun f => Process (ValueTypes.type f) = Ok_) done)
           _ fs) with (done := []) in H.
  - destruct H as (H1 & _ & H3). split; assumption.
  - clear. intros done f s s' (Hnd & Hs & Hall) H.
    unfold ValueTypes.ProcessField in H.
    apply andAlso_Accepted in H as [_ H].
    case_bool_decide as Hin; [discriminate|].
    apply andThen_Accepted in H as ([] & Hp & H). inversion H. subst s'.
    rewrite fmap_app. simpl. split_all.
    + apply NoDup_app. split_all; [exact Hnd | | apply NoDup_singleton].
      intros n Hn Hn'. apply list_elem_of_singleton in Hn'. subst n.
      apply Hin. apply Hs. exact Hn.
    + intros n. rewrite elem_of_union, elem_of_singleton, elem_of_app,
                  list_elem_of_singleton, Hs. tauto.
    + apply Forall_app. split; [exact Hall|]. repeat constructor. exact Hp.
  - split_all; [constructor | | constructor].
    intros n. simpl. rewrite elem_of_empty, elem_of_nil. tauto.
Qed.

(** The loop over the components of a union: the components seen so far
    have the nullability of the first, which is in [nullable]; every
    component has been accepted. *)
Lemma ProcessComponents_Accepted ts nullable :
  ValueTypes.forEachChecked (ValueTypes.ProcessComponent Process) ts None
  = ValueTypes.Accepted nullable ->
  match ts with
  | [] => True
  | first :: rest =>
      Forall (fun u => ValueTypes.notNull u = ValueTypes.notNull first) rest
  end
  /\ Forall (fun u => Process u = Ok_) ts.
Proof.
  intros H.
  apply (forEachChecked_steps
           (fun done (s : option bool) =>
              match done with
              | [] => s = None
              | first :: rest =>
                  s = Some (ValueTypes.notNull first)
                  /\ Forall (fun u => ValueTypes.notNull u
                                      = ValueTypes.notNull first) rest
              end
              /\ Forall (fun u => Process u = Ok_) done)
           _ ts) with (done := []) in H.
  - simpl in H. destruct H as [H1 H2]. split; [|exact H2].
    destruct ts as [|first rest]; [exact I | apply H1].
  - clear. intros done t s s' [Hs Hall] H.
    unfold ValueTypes.ProcessComponent in H.
    apply andThen_Accepted in H as ([] & Hp & H). split.
    + destruct done as [|first rest]; simpl.
      * subst s. inversion H. split; [reflexivity | constructor].
      * destruct Hs as [-> Hrest].
        destruct (Bool.eqb (ValueTypes.notNull first) (ValueTypes.notNull t))
          eqn:Heq; [|discriminate].
        apply Bool.eqb_prop in Heq. simpl in H. inversion H.
        split; [rewrite Heq; reflexivity|].
        apply Forall_app. split; [exact Hrest|]. repeat constructor.
        symmetry. exact Heq.
    + apply Forall_app. split; [exact Hall|]. repeat constructor. exact Hp.
  - split; [reflexivity | constructor].
Qed.

(** A property that [Process] checks of every type it accepts holds of
    every type within a type it accepts. *)
Lemma Process_everyValueType (good : ValueTypes.ValueType B -> bool) :
  (forall t, Process t = Ok_ -> good t = true) ->
  forall t, Process t = Ok_ -> ValueTypes.everyValueType good t = true.
Proof.
  intros Hgood.
  induction t as [notNull option_ IH] using ValueTypes.ValueType_ind.
  intros H. cbn [ValueTypes.everyValueType]. rewrite (Hgood _ H). simpl.
  pose proof (Process_Accepted notNull option_ H) as Hacc.
  destruct IH as [v|v|s|st p sc|k mn mx| |t Ht| | |g vt Hvt|fs Hfs|ts Hts];
    try reflexivity.
  - destruct Hvt as [element He|]; [|reflexivity].
    destruct Hacc as [_ Hacc]. apply He. apply Hacc. reflexivity.
  - destruct Hfs as [fs Hfs|]; [|reflexivity].
    destruct Hacc as (names & Hacc).
    apply ProcessFields_Accepted in Hacc as [_ Hacc].
    apply forallb_Forall_true.
    assert (Hall : Forall (fun f : ValueTypes.FieldType_ (ValueTypes.ValueType B) =>
                             Process (ValueTypes.type f) = Ok_ ->
                             ValueTypes.everyValueType good (ValueTypes.type f)
                             = true) fs).
    { refine (list_all_Forall _ _ fs _ Hfs). intros f Hf.
      destruct Hf as [n t Ht]. exact Ht. }
    rewrite Forall_forall in Hall, Hacc. apply Forall_forall.
    intros f Hf. apply (Hall f Hf (Hacc f Hf)).
  - destruct Hacc as (_ & nullable & Hacc).
    apply ProcessComponents_Accepted in Hacc as [_ Hacc].
    apply forallb_Forall_true.
    assert (Hall : Forall (fun u => Process u = Ok_ ->
                                    ValueTypes.everyValueType good u = true)
                     ts).
    { refine (list_all_Forall_Prop _ _ ts _ Hts). intros u Hu. exact Hu. }
    rewrite Forall_forall in Hall. rewrite Forall_forall in Hacc.
    apply Forall_forall. intros u Hu. apply (Hall u Hu (Hacc u Hu)).
Qed.
End ValueTypeAnalysis.



(** X20: when [Process] accepts a value type, every union type in it has
    either no component or at least two (E0035 otherwise), and all its
    components have the same nullability (E0098 otherwise). *)
Theorem Process_unions {B : Type}
    (featureSupported : ValueTypes.Feature -> bool)
    (ProcessTableType : B -> ValueTypes.Checked unit)
    (hasRecordDescendant : ValueTypes.ValueType B -> bool)
    (t : ValueTypes.ValueType B) :
  ValueTypes.Process featureSupported ProcessTableType hasRecordDescendant t
  = ValueTypes.Accepted tt ->
  ValueTypes.everyValueType ValueTypes.unionOk t = true.
Proof.
  apply Process_everyValueType. clear t. intros [notNull option_] H.
  apply Process_Accepted in H. unfold ValueTypes.unionOk. simpl.
  destruct option_ as [v|v|s|st p sc|k mn mx| |t| | |g vt|fs|ts];
    try reflexivity.
  destruct H as (Hlen & nullable & H).
  apply ProcessComponents_Accepted in H as [H _].
  rewrite (bool_decide_eq_false_2 _ Hlen). simpl.
  destruct ts as [|first rest]; [reflexivity|].
  apply forallb_Forall_true. eapply Forall_impl; [exact H|].
  intros u Hu. simpl in Hu. rewrite Hu. apply Bool.eqb_reflx.
Qed.

Lemma Process_unions_witness :
  ValueTypes.everyValueType ValueTypes.unionOk ValueTypes.sampleRecord = true
  /\ ValueTypes.Process ValueTypes.allFeatures ValueTypes.noTable
       ValueTypes.noRecordWithin
       (ValueTypes.mkValueType false
          (ValueTypes.Union_ [ValueTypes.string_ 1 None]))
     = ValueTypes.Rejected ValueTypes.E0035.
Proof.
  split; [|reflexivity].
  apply (Process_unions ValueTypes.allFeatures ValueTypes.noTable
           ValueTypes.noRecordWithin ValueTypes.sampleRecord).
  reflexivity.
Defined.

(** X21: when [Process] accepts a value type, the field names of every
    record type in it are pairwise distinct (E0099 otherwise). *)
Theorem Process_field_names {B : Type}
    (featureSupported : ValueTypes.Feature -> bool)
    (ProcessTableType : B -> ValueTypes.Checked unit)
    (hasRecordDescendant : ValueTypes.ValueType B -> bool)
    (t : ValueTypes.ValueType B) :
  ValueTypes.Process featureSupported ProcessTableType hasRecordDescendant t
  = ValueTypes.Accepted tt ->
  ValueTypes.everyValueType ValueTypes.fieldNamesOk t = true.
Proof.
  apply Process_everyValueType. clear t. intros [notNull option_] H.
  apply Process_Accepted in H. unfold ValueTypes.fieldNamesOk. simpl.
  destruct option_ as [v|v|s|st p sc|k mn mx| |t| | |g vt|fs|ts];
    try reflexivity.
  destruct fs as [fs|]; [|reflexivity].
  destruct H as (names & H).
  apply ProcessFields_Accepted in H as [H _].
  apply bool_decide_eq_true. exact H.
Qed.

Lemma Process_field_names_witness :
  ValueTypes.everyValueType ValueTypes.fieldNamesOk ValueTypes.sampleRecord
  = true
  /\ ValueTypes.Process ValueTypes.allFeatures ValueTypes.noTable
       ValueTypes.noRecordWithin
       (ValueTypes.mkValueType false
          (ValueTypes.RecordType
             (Some [{| ValueTypes.name := "a";
                       ValueTypes.type := ValueTypes.string_ 1 None |};
                    {| ValueTypes.name := "a";
                       ValueTypes.type := ValueTypes.string_ 2 None |}])))
     = ValueTypes.Rejected ValueTypes.E0099.
Proof.
  split; [|vm_compute; reflexivity].
  apply (Process_field_names ValueTypes.allFeatures ValueTypes.noTable
           ValueTypes.noRecordWithin ValueTypes.sampleRecord).
  reflexivity.
Defined.

(** X22: when [Process] accepts a value type, every group list type in it
    has an element type, which is a node or an edge reference type (E0097
    otherwise). *)
Theorem Process_group_lists {B : Type}
    (featureSupported : ValueTypes.Feature -> bool)
    (ProcessTableType : B -> ValueTypes.Checked unit)
    (hasRecordDescendant : ValueTypes.ValueType B -> bool)
    (t : ValueTypes.ValueType B) :
  ValueTypes.Process featureSupported ProcessTableType hasRecordDescendant t
  = ValueTypes.Accepted tt ->
  ValueTypes.everyValueType ValueTypes.groupListOk t = true.
Proof.
  apply Process_everyValueType. clear t. intros [notNull option_] H.
  apply Process_Accepted in H. unfold ValueTypes.groupListOk. simpl.
  destruct option_ as [v|v|s|st p sc|k mn mx| |t| | |g vt|fs|ts];
    try reflexivity.
  destruct g; [|reflexivity].
  destruct H as [H _]. destruct (H eq_refl) as (element & -> & He).
  exact He.
Qed.

Lemma Process_group_lists_witness :
  ValueTypes.everyValueType ValueTypes.groupListOk
    (ValueTypes.mkValueType false
       (ValueTypes.List_ true
          (Some (ValueTypes.mkValueType (B := Empty_set) false
                   ValueTypes.EdgeReferenceValueType))))
  = true
  /\ ValueTypes.Process ValueTypes.allFeatures ValueTypes.noTable
       ValueTypes.noRecordWithin
       (ValueTypes.mkValueType false
          (ValueTypes.List_ true (Some (ValueTypes.string_ 1 None))))
     = ValueTypes.Rejected ValueTypes.E0097.
Proof.
  split; [|reflexivity].
  apply (Process_group_lists ValueTypes.allFeatures ValueTypes.noTable
           ValueTypes.noRecordWithin).
  reflexivity.
Defined.

(** ** The traversal as a sequence of calls *)

Section TraversalCalls.
Variable featureSupported : Feature -> bool.
Variable ProcessFallback : LabelExpression -> Result unit.
Variable I : GraphPatternContext -> Prop.
Hypothesis member_calls :
  forall call c c',
    isMemberCall call = true ->
    I c -> perform featureSupported ProcessFallback call c = Ok c' -> I c'.

Lemma call_keeps (call : Call) c c' :
  isMemberCall call = true ->
  perform featureSupported ProcessFallback call c = Ok c' -> I c -> I c'.
Proof. intros Hm H Hc. apply (member_calls call c c' Hm Hc H). Qed.

Lemma ProcessElementPattern_preserves value c c' :
  I c -> ProcessElementPattern ProcessFallback value c = Ok c' -> I c'.
Proof.
  intros Hinv H. destruct value as [pos filler | pos dir filler];
    simpl in H.
  - bind_inv_as H c1 H1.
    apply (call_keeps CallEnterNodePattern c c1 eq_refl H1) in Hinv.
    bind_inv_as H c2 H2. bind_inv_as H u Hu. inversion H. subst c'.
    destruct (var filler) as [v|].
    + apply (call_keeps (CallDeclareNodeVariable v) c1 c2 eq_refl H2 Hinv).
    + inversion H2. subst c2. exact Hinv.
  - bind_inv_as H c1 H1.
    apply (call_keeps CallEnterEdgePattern c c1 eq_refl H1) in Hinv.
    bind_inv_as H c2 H2. bind_inv_as H u Hu. inversion H. subst c'.
    destruct (var filler) as [v|].
    + apply (call_keeps (CallDeclareEdgeVariable v) c1 c2 eq_refl H2 Hinv).
    + inversion H2. subst c2. exact Hinv.
Qed.

Lemma ProcessParenthesized_preserves P value :
  (forall c c', I c -> P (pppe_pattern value) c = Ok c' -> I c') ->
  forall c c',
    I c -> ProcessParenthesized featureSupported P value c = Ok c' -> I c'.
Proof.
  intros HP c c' Hinv H. unfold ProcessParenthesized in H.
  bind_inv_as H u1 F1. bind_inv_as H u2 F2. bind_inv_as H u3 F3.
  bind_inv_as H u4 F4. bind_inv_as H c1 H1. bind_inv_as H c2 H2.
  bind_inv_as H c3 H3. bind_inv_as H c4 H4. bind_inv_as H c5 H5.
  apply (call_keeps (CallExitParenthesizedPathPatternExpression _) c5 c'
           eq_refl H).
  apply (call_keeps CallExitPathMode c4 c5 eq_refl H5).
  assert (Hinv3 : I c3).
  { apply (HP c2 c3); [|exact H3].
    apply (call_keeps (CallEnterPathMode _) c1 c2 eq_refl H2).
    pose proof (call_keeps CallEnterParenthesizedPathPatternExpression c _
                  eq_refl eq_refl Hinv) as H0.
    destruct (pppe_var value) as [v|].
    - apply (call_keeps (CallDeclareSubpathVariable v) _ c1 eq_refl H1 H0).
    - inversion H1. subst c1. exact H0. }
  destruct (pppe_where value) as [w|].
  - apply (call_keeps (CallAddSearchCondition w) c3 c4 eq_refl H4 Hinv3).
  - inversion H4. subst c4. exact Hinv3.
Qed.

Lemma ProcessFactor_preserves P factor :
  (forall c c',
     I c ->
     ProcessPrimary featureSupported ProcessFallback P (pattern factor) c
     = Ok c' -> I c') ->
  forall c c',
    I c ->
    ProcessFactor featureSupported ProcessFallback P factor c = Ok c' -> I c'.
Proof.
  intros HP c c' Hinv H. unfold ProcessFactor in H.
  pose proof (call_keeps CallEnterVariableReferenceScope c _ eq_refl eq_refl
                Hinv) as H0.
  destruct (VariableReferenceScope_enter c) as [c0 parentScope].
  simpl in H0. bind_inv_as H r1 H1. destruct r1 as [c1 active].
  bind_inv_as H c2 H2. bind_inv_as H c3 H3. inversion H. subst c'.
  apply (call_keeps (CallExitVariableReferenceScope parentScope) c3 _
           eq_refl eq_refl).
  assert (Hinv1 : I c1).
  { destruct (quantifier factor) as [| |lower upper]; simpl in H1.
    - inversion H1. subst c1. exact H0.
    - inversion H1. subst c1.
      apply (call_keeps CallEnterQuestionedPathPrimary c0 _ eq_refl eq_refl
               H0).
    - bind_inv_as H1 u Hu. bind_inv_as H1 c1' He. inversion H1. subst c1'.
      apply (call_keeps (CallEnterQuantifiedPathPrimary _) c0 c1 eq_refl He
               H0). }
  apply (HP c1 c2 Hinv1) in H2.
  destruct (quantifier factor) as [| |lower upper]; simpl in H1.
  - inversion H1. subst active. simpl in H3. inversion H3. subst c3.
    exact H2.
  - inversion H1. subst active. simpl in H3.
    apply (call_keeps CallExitQuestionedPathPrimary c2 c3 eq_refl H3 H2).
  - bind_inv_as H1 u Hu. bind_inv_as H1 c1' He. inversion H1. subst active.
    simpl in H3.
    apply (call_keeps (CallExitQuantifiedPathPrimary _ _) c2 c3 eq_refl H3
             H2).
Qed.

Lemma ProcessTerm_preserves P unionActive term :
  Forall (fun factor : PathFactor =>
            forall c c',
              I c ->
              ProcessPrimary featureSupported ProcessFallback P
                (pattern factor) c = Ok c' -> I c') term ->
  forall c c',
    I c ->
    ProcessTerm featureSupported ProcessFallback P unionActive term c = Ok c' ->
    I c'.
Proof.
  intros HP c c' Hinv H. unfold ProcessTerm in H. bind_inv_as H c1 H1.
  assert (Hinv1 : I c1).
  { revert H1. apply (forEach_invariant I).
    - intros factor s s' Hin Hs Hf.
      refine (ProcessFactor_preserves P factor _ s s' Hs Hf).
      rewrite Forall_forall in HP. apply HP, Hin.
    - destruct unionActive; [|exact Hinv].
      apply (call_keeps CallEnterPathPatternUnionOperand c _ eq_refl eq_refl
               Hinv). }
  destruct unionActive.
  - apply (call_keeps CallExitPathPatternUnionOperand c1 c' eq_refl H Hinv1).
  - inversion H. subst c'. exact Hinv1.
Qed.

Lemma Process_preserves (pathPattern : PathPatternExpression) :
  forall c c',
    I c ->
    Process featureSupported ProcessFallback pathPattern c = Ok c' -> I c'.
Proof.
  revert pathPattern.
  apply (PathPatternExpression_mind
           (fun _ => True)
           (fun e => forall c c',
                I c ->
                Process featureSupported ProcessFallback e c = Ok c' -> I c')
           (fun p => forall c c',
                I c ->
                ProcessPrimary featureSupported ProcessFallback
                  (Process featureSupported ProcessFallback) p c = Ok c' ->
                I c'));
    try (intros; exact Logic.I).
  - intros op terms Hall c c' Hinv H. rewrite Process_unfold in H.
    bind_inv_as H u Hu.
    pose proof (call_keeps CallEnterVariableReferenceScope c _ eq_refl
                  eq_refl Hinv) as H0.
    destruct (VariableReferenceScope_enter c) as [c0 unionParent].
    simpl in H0. cbv zeta in H. bind_inv_as H c1 H1. bind_inv_as H c2 H2.
    inversion H. subst c'.
    apply (call_keeps (CallExitVariableReferenceScope unionParent) c2 _
             eq_refl eq_refl).
    assert (Hterms :
              Forall (Forall (fun factor : PathFactor =>
                                forall c c',
                                  I c ->
                                  ProcessPrimary featureSupported
                                    ProcessFallback
                                    (Process featureSupported ProcessFallback)
                                    (pattern factor) c = Ok c' -> I c'))
                terms).
    { refine (list_all_Forall _ _ terms _ Hall). intros term' Hterm'.
      refine (list_all_Forall _ _ term' _ Hterm').
      intros factor Hfactor. destruct Hfactor as [q p Hp]. exact Hp. }
    assert (Hinv1 : I c1).
    { revert H1. apply (forEach_invariant I).
      - intros term s s' Hin Hs Ht.
        refine (ProcessTerm_preserves _ _ term _ s s' Hs Ht).
        rewrite Forall_forall in Hterms. apply Hterms, Hin.
      - destruct (bool_decide (1 < length terms)%nat); [|exact H0].
        apply (call_keeps CallEnterPathPatternUnion c0 _ eq_refl eq_refl H0). }
    destruct (bool_decide (1 < length terms)%nat).
    + apply (call_keeps CallExitPathPatternUnion c1 c2 eq_refl H2 Hinv1).
    + inversion H2. subst c2. exact Hinv1.
  - intros e _ c c' Hinv H. simpl in H.
    apply (ProcessElementPattern_preserves e c c' Hinv H).
  - intros p Hall. destruct Hall as [pos v m e He w Hw]. simpl.
    apply ProcessParenthesized_preserves. simpl. exact He.
  - intros s c c' _ H. discriminate.
Qed.

(** A property of the new context that every call of a member function
    keeps holds in every state an analysis can be in. *)
Lemma Reachable_preserves c :
  (forall d, I (newGraphPatternContext d)) ->
  Reachable featureSupported ProcessFallback c -> I c.
Proof.
  intros Hnew (d & calls & H). revert H.
  apply (forEach_invariant I); [|apply Hnew].
  intros call s s' _ Hs H.
  destruct (isMemberCall call) eqn:Hm.
  - apply (member_calls call s s' Hm Hs H).
  - destruct call; try discriminate Hm. simpl in H.
    apply (Process_preserves _ s s' Hs H).
Qed.
End TraversalCalls.

(** ** The exposure of the declared variables *)

Lemma exposedNames_frames c F :
  exposedNames (set_exposedVariables_ F c) = ⋃ (dom <$> F).
Proof. reflexivity. Qed.

Lemma exposedNames_cons c frame rest :
  exposedVariables_ c = frame :: rest ->
  exposedNames c = dom frame ∪ ⋃ (dom <$> rest).
Proof. unfold exposedNames. intros ->. reflexivity. Qed.

Lemma elem_of_exposedNames c name :
  name ∈ exposedNames c <->
  exists frame, frame ∈ exposedVariables_ c /\ is_Some (frame !! name).
Proof.
  unfold exposedNames. rewrite elem_of_union_list. split.
  - intros (X & HX & Hn). apply list_elem_of_fmap in HX as (frame & -> & Hf).
    exists frame. split; [exact Hf|]. apply elem_of_dom. exact Hn.
  - intros (frame & Hf & Hn). exists (dom frame). split.
    + apply list_elem_of_fmap. exists frame. split; [reflexivity | exact Hf].
    + apply elem_of_dom. exact Hn.
Qed.

(** The operation exposes [names] and hides nothing. *)
Lemma ExposeVariable_exposed name v c c' :
  ExposeVariable name v c = Ok c' ->
  exposedNames c ∪ {[name]} ⊆ exposedNames c'.
Proof.
  intros H. apply ExposeVariable_Ok in H as (f & rest & Hc & Hcase).
  rewrite (exposedNames_cons c f rest Hc).
  destruct Hcase as [[_ ->] | (e & He & _ & ->)].
  - rewrite exposedNames_frames. simpl. rewrite dom_insert_L.
    intros x. rewrite !elem_of_union. tauto.
  - rewrite (exposedNames_cons c f rest Hc).
    intros x. rewrite !elem_of_union, elem_of_singleton.
    intros [[Hx|Hx]| ->]; [left; exact Hx | right; exact Hx | left].
    apply elem_of_dom. exists e. exact He.
Qed.

Lemma writeDeclaredVariable_exposed name v c c' :
  writeDeclaredVariable name v c = Ok c' -> exposedNames c' = exposedNames c.
Proof.
  unfold writeDeclaredVariable. intros H.
  destruct (currentVariableReferenceScope_ c) as [p|]; [|discriminate].
  destruct (auxStore c !! p); [|discriminate]. inversion H. reflexivity.
Qed.

Lemma ExposeNewVariable_exposed name v c c' :
  ExposeNewVariable name v c = Ok c' ->
  exposedNames c ∪ {[name]} ⊆ exposedNames c'.
Proof.
  unfold ExposeNewVariable. intros H. bind_inv_as H c1 H1.
  apply ExposeVariable_exposed in H1.
  destruct (isElementType (type (base v))).
  - apply writeDeclaredVariable_exposed in H. rewrite H. exact H1.
  - inversion H. subst c'. exact H1.
Qed.

(** A loop that exposes the entries of a frame one by one. *)
Lemma exposeEach_exposed
    (body : string * ExposedVariable -> GraphPatternContext ->
            Result GraphPatternContext)
    (l : list (string * ExposedVariable)) :
  (forall x s s', body x s = Ok s' ->
                  exposedNames s ∪ {[x.1]} ⊆ exposedNames s') ->
  forall c c',
    forEach body l c = Ok c' ->
    exposedNames c ∪ list_to_set l.*1 ⊆ exposedNames c'.
Proof.
  intros Hbody. induction l as [|x l IH]; intros c c' H.
  - inversion H. subst. simpl. rewrite union_empty_r_L. reflexivity.
  - rewrite forEach_cons in H. bind_inv_as H c1 H1.
    apply Hbody in H1. apply IH in H. simpl.
    intros n. rewrite !elem_of_union, elem_of_singleton.
    intros [Hn|[->|Hn]]; apply H; apply elem_of_union.
    + left. apply H1. apply elem_of_union. left. exact Hn.
    + left. apply H1. apply elem_of_union. right.
      apply elem_of_singleton. reflexivity.
    + right. exact Hn.
Qed.

Lemma dom_map_to_list (frame : ExposedVariables) :
  list_to_set (map_to_list frame).*1 = dom frame.
Proof.
  apply set_eq. intros n. rewrite elem_of_list_to_set, elem_of_dom.
  rewrite list_elem_of_fmap. split.
  - intros ([n' v] & -> & Hin). apply elem_of_map_to_list in Hin.
    exists v. exact Hin.
  - intros [v Hv]. exists (n, v). split; [reflexivity|].
    apply elem_of_map_to_list. exact Hv.
Qed.

(** The top frame is popped and its entries are exposed in the frame
    below. *)
Lemma popExpose_exposed
    (body : string * ExposedVariable -> GraphPatternContext ->
            Result GraphPatternContext) c c0 c' frame frames :
  (forall x s s', body x s = Ok s' ->
                  exposedNames s ∪ {[x.1]} ⊆ exposedNames s') ->
  top (exposedVariables_ c) = Ok frame ->
  pop (exposedVariables_ c) = Ok frames ->
  forEach body (map_to_list frame) (set_exposedVariables_ frames c0) = Ok c' ->
  exposedNames c ⊆ exposedNames c'.
Proof.
  intros Hbody Htop Hpop H.
  apply top_Ok in Htop as (rest & Hc). rewrite Hc in Hpop.
  inversion Hpop. subst frames.
  apply (exposeEach_exposed body _ Hbody) in H.
  rewrite dom_map_to_list, exposedNames_frames in H.
  rewrite (exposedNames_cons c frame rest Hc).
  intros n Hn. apply H. apply elem_of_union in Hn as [Hn|Hn];
    apply elem_of_union; [right | left]; exact Hn.
Qed.

Lemma AppendExposedVariables_exposed c c' :
  AppendExposedVariables c = Ok c' -> exposedNames c ⊆ exposedNames c'.
Proof.
  unfold AppendExposedVariables. intros H. bind_inv_as H frame Hframe.
  bind_inv_as H frames Hframes.
  apply (popExpose_exposed _ c _ c' frame frames
           (fun x s s' Hx => ExposeVariable_exposed _ _ _ _ Hx)
           Hframe Hframes H).
Qed.

Lemma ExitVariableScope_exposed c c' :
  ExitVariableScope c = Ok c' -> exposedNames c ⊆ exposedNames c'.
Proof.
  unfold ExitVariableScope. intros H. bind_inv_as H exposed Hexposed.
  bind_inv_as H addr Haddr. bind_inv_as H u Hu. bind_inv_as H stack Hstack.
  apply AppendExposedVariables_exposed in H. exact H.
Qed.

Lemma markStrictInterior_dom c frame marked :
  markStrictInterior c frame = Ok marked -> dom marked = dom frame.
Proof.
  intros H. apply set_eq. intros n. rewrite !elem_of_dom.
  destruct (markStrictInterior_Ok c frame marked H n) as [H1 H2]. split.
  - intros [v' Hv']. destruct (H1 v' Hv') as (v & Hv & _). exists v. exact Hv.
  - intros [v Hv]. destruct (H2 v Hv) as (v' & Hv' & _). exists v'. exact Hv'.
Qed.

Lemma ExitPathPattern_exposed c c' auxData :
  ExitPathPattern c = Ok (c', auxData) -> exposedNames c ⊆ exposedNames c'.
Proof.
  unfold ExitPathPattern. intros H. bind_inv_as H c1 H1.
  assert (Hc1 : exposedNames c ⊆ exposedNames c1).
  { destruct (isInsideSelectivePattern_ c);
      [|inversion H1; subst c1; reflexivity].
    bind_inv_as H1 frame Hframe. bind_inv_as H1 c0 H0.
    apply ExitVariableScope_exposed in H0.
    bind_inv_as H1 frame' Hframe'. bind_inv_as H1 marked Hmarked.
    bind_inv_as H1 frames Hframes. inversion H1. subst c1.
    etransitivity; [exact H0|].
    apply markStrictInterior_dom in Hmarked. simpl in *.
    apply top_Ok in Hframe' as (rest & Hc).
    rewrite Hc in Hframes. apply updTop_Ok in Hframes as (x & rest' & E & ->).
    inversion E. subst x rest'.
    unfold exposedNames. simpl. rewrite Hc. simpl. rewrite Hmarked.
    reflexivity. }
  etransitivity; [exact Hc1|].
  bind_inv_as H frame Hframe. bind_inv_as H frames Hframes.
  bind_inv_as H c2 H2.
  bind_inv_as H nonZero HnonZero. destruct (negb nonZero); [discriminate|].
  bind_inv_as H counts Hcounts. inversion H. subst c'.
  apply (popExpose_exposed _ c1 _ c2 frame frames
           (fun x s s' Hx => ExposeVariable_exposed _ _ _ _ Hx)
           Hframe Hframes H2).
Qed.

Lemma ExitParenthesizedPathPatternExpression_exposed b c c' :
  ExitParenthesizedPathPatternExpression b c = Ok c' ->
  exposedNames c ⊆ exposedNames c'.
Proof.
  unfold ExitParenthesizedPathPatternExpression. intros H.
  bind_inv_as H c1 H1. apply ExitVariableScope_exposed in H1.
  bind_inv_as H nonZero HnonZero.
  destruct (b && negb nonZero); [discriminate|].
  bind_inv_as H counts Hcounts. inversion H. subst c'. exact H1.
Qed.

Lemma ExitQuantifiedPathPrimary_exposed bounded lowerBound c c' :
  ExitQuantifiedPathPrimary bounded lowerBound c = Ok c' ->
  exposedNames c ⊆ exposedNames c'.
Proof.
  unfold ExitQuantifiedPathPrimary. intros H.
  bind_inv_as H frame Hframe. bind_inv_as H frames Hframes.
  bind_inv_as H c1 H1.
  bind_inv_as H minimumPathLength Hmin.
  destruct (bool_decide (minimumPathLength = 0)); [discriminate|].
  bind_inv_as H lengths Hlengths. bind_inv_as H counts Hcounts.
  inversion H. subst c'. clear H. simpl in *.
  change (exposedNames (set_isInsideQuantifiedPathPrimary_ false c)
          ⊆ exposedNames c1).
  refine (popExpose_exposed _ _ _ c1 frame frames _ Hframe Hframes H1).
  intros x s s' Hx. bind_inv_as Hx v' Hv'.
  apply (ExposeNewVariable_exposed _ _ _ _ Hx).
Qed.

Lemma ExitQuestionedPathPrimary_exposed c c' :
  ExitQuestionedPathPrimary c = Ok c' -> exposedNames c ⊆ exposedNames c'.
Proof.
  unfold ExitQuestionedPathPrimary. intros H.
  bind_inv_as H frame Hframe. bind_inv_as H frames Hframes.
  bind_inv_as H c1 H1.
  bind_inv_as H minimumPathLength Hmin.
  destruct (bool_decide (minimumPathLength = 0)); [discriminate|].
  bind_inv_as H lengths Hlengths. bind_inv_as H counts Hcounts.
  inversion H. subst c'. clear H. simpl in *.
  change (exposedNames c ⊆ exposedNames c1).
  refine (popExpose_exposed _ _ _ c1 frame frames _ Hframe Hframes H1).
  intros x s s' Hx. apply (ExposeNewVariable_exposed _ _ _ _ Hx).
Qed.

Lemma ExitPathPatternUnion_exposed c c' :
  ExitPathPatternUnion c = Ok c' -> exposedNames c ⊆ exposedNames c'.
Proof.
  unfold ExitPathPatternUnion. intros H. bind_inv_as H c1 H1.
  apply AppendExposedVariables_exposed in H1.
  bind_inv_as H lengths Hlengths. bind_inv_as H counts Hcounts.
  bind_inv_as H currentUnion Hunion. bind_inv_as H conds Hconds.
  bind_inv_as H unions Hunions. inversion H. subst c'. exact H1.
Qed.

Lemma mergeOperandVariable_dom unions v U U' :
  mergeOperandVariable unions v U = Ok U' -> dom U' = {[v.1]} ∪ dom U.
Proof.
  unfold mergeOperandVariable. intros H.
  destruct (U !! v.1) as [it|].
  - inversion H. apply dom_insert_L.
  - bind_inv_as H currentUnion Hu. inversion H. apply dom_insert_L.
Qed.

Lemma mergeLoop_dom unions (l : list (string * ExposedVariable)) :
  forall U U',
    forEach (mergeOperandVariable unions) l U = Ok U' ->
    dom U ∪ list_to_set l.*1 ⊆ dom U'.
Proof.
  induction l as [|x l IH]; intros U U' H.
  - inversion H. subst. simpl. rewrite union_empty_r_L. reflexivity.
  - rewrite forEach_cons in H. bind_inv_as H U1 H1.
    apply mergeOperandVariable_dom in H1. apply IH in H. simpl.
    intros n Hn. apply H. rewrite H1.
    rewrite !elem_of_union in Hn. rewrite !elem_of_union. tauto.
Qed.

Lemma demoteMissing_dom operand union :
  dom (demoteMissing operand union) = dom union.
Proof.
  apply set_eq. intros n. rewrite !elem_of_dom, demoteMissing_lookup.
  rewrite fmap_is_Some. reflexivity.
Qed.

Lemma ExitPathPatternUnionOperand_exposed c c' :
  ExitPathPatternUnionOperand c = Ok c' -> exposedNames c ⊆ exposedNames c'.
Proof.
  unfold ExitPathPatternUnionOperand. intros H.
  bind_inv_as H exposed Hexposed. bind_inv_as H frames Hframes.
  bind_inv_as H unionExposed Hunion. bind_inv_as H merged Hmerged.
  bind_inv_as H frames' Hframes'. bind_inv_as H lengths Hlengths.
  bind_inv_as H counts Hcounts. bind_inv_as H localVariables Hlocal.
  bind_inv_as H unions Hunions. bind_inv_as H counts' Hcounts'.
  inversion H. subst c'. clear H. simpl in *.
  apply top_Ok in Hexposed as (rest & Hc). rewrite Hc in Hframes.
  inversion Hframes. subst frames.
  apply top_Ok in Hunion as (rest' & ->).
  apply updTop_Ok in Hframes' as (x & r & E & ->). inversion E. subst x r.
  apply mergeLoop_dom in Hmerged.
  rewrite dom_map_to_list, demoteMissing_dom in Hmerged.
  unfold exposedNames. simpl. rewrite Hc. simpl.
  intros n Hn. rewrite !elem_of_union in Hn. rewrite elem_of_union.
  destruct Hn as [Hn|[Hn|Hn]].
  - left. apply Hmerged. apply elem_of_union. right. exact Hn.
  - left. apply Hmerged. apply elem_of_union. left. exact Hn.
  - right. exact Hn.
Qed.

Lemma Finalize_exposed c c' :
  Finalize c = Ok c' -> exposedNames c ⊆ exposedNames c'.
Proof.
  unfold Finalize. intros H. bind_inv_as H total Htotal.
  bind_inv_as H counts Hcounts. apply ExitVariableScope_exposed in H.
  exact H.
Qed.

Lemma DeclareVariable_exposed name pos ty isTemp c c' :
  DeclareVariable name pos ty isTemp c = Ok c' ->
  exposedNames c ∪ {[name]} ⊆ exposedNames c'.
Proof.
  unfold DeclareVariable. intros H. bind_inv_as H u Hu.
  bind_inv_as H c1 H1. bind_inv_as H c2 H2. bind_inv_as H counts Hcounts.
  inversion H. subst c'. clear H.
  apply ExposeNewVariable_exposed in H2.
  assert (Hc1 : exposedNames c1 = exposedNames c).
  { destruct (IsSet (lastVariableDeclarationPosition_ c)); simpl in H1;
      destruct (variableDeclarations_ c !! name) as [it|];
      try (destruct (negb (bool_decide (type_ it = ty))); [discriminate|];
           destruct ty; try discriminate);
      inversion H1; subst c1; reflexivity. }
  rewrite Hc1 in H2. exact H2.
Qed.

Lemma DeclaredAreExposed_keep c c' :
  SameDeclarations c c' -> exposedNames c ⊆ exposedNames c' ->
  DeclaredAreExposed c -> DeclaredAreExposed c'.
Proof.
  unfold DeclaredAreExposed. intros Hd He Hc.
  rewrite (SameDeclarations_declared c c' Hd).
  etransitivity; [exact Hc | exact He].
Qed.

Lemma DeclaredAreExposed_declare name pos ty isTemp c c' :
  DeclareVariable name pos ty isTemp c = Ok c' ->
  DeclaredAreExposed c -> DeclaredAreExposed c'.
Proof.
  unfold DeclaredAreExposed. intros H Hc.
  rewrite (DeclareVariable_declared _ _ _ _ _ _ H).
  apply DeclareVariable_exposed in H.
  intros n Hn. apply H. apply elem_of_union in Hn as [Hn|Hn];
    apply elem_of_union; [left; apply Hc; exact Hn | right; exact Hn].
Qed.

Lemma push_exposed c (F : list ExposedVariables) :
  exposedNames (set_exposedVariables_ (∅ :: exposedVariables_ c) c)
  = exposedNames c.
Proof.
  unfold exposedNames. simpl. rewrite dom_empty_L, union_empty_l_L.
  reflexivity.
Qed.

Lemma perform_DeclaredAreExposed fs pf call c c' :
  isMemberCall call = true ->
  DeclaredAreExposed c -> perform fs pf call c = Ok c' ->
  DeclaredAreExposed c'.
Proof.
  intros Hm Hc H. destruct call; try discriminate Hm; simpl in H;
    try (inversion H; subst c'; clear H).
  - apply (DeclaredAreExposed_declare _ _ _ _ c c' H Hc).
  - apply (DeclaredAreExposed_declare _ _ _ _ c c' H Hc).
  - unfold DeclareNodeVariable in H. bind_inv_as H c1 H1.
    apply (DeclaredAreExposed_declare _ _ _ _ c c1 H1) in Hc.
    inversion H. subst c'.
    destruct (expectingLeftBoundaryVariable_ c1 && negb (evd_isTemp v));
      exact Hc.
  - apply (DeclaredAreExposed_declare _ _ _ _ c c' H Hc).
  - revert Hc. apply DeclaredAreExposed_keep.
    + apply EnterPathPattern_declarations.
    + unfold EnterPathPattern, exposedNames.
      destruct isSelectivePattern; simpl;
        rewrite ?dom_empty_L, ?union_empty_l_L; reflexivity.
  - bind_inv_as H r Hr. inversion H. subst c'. destruct r as [c1 aux].
    revert Hc. apply DeclaredAreExposed_keep.
    + apply (ExitPathPattern_declarations _ _ _ Hr).
    + apply (ExitPathPattern_exposed _ _ _ Hr).
  - revert Hc. apply DeclaredAreExposed_keep; [reflexivity|].
    unfold exposedNames. simpl. rewrite dom_empty_L, union_empty_l_L.
    reflexivity.
  - revert Hc. apply DeclaredAreExposed_keep.
    + apply (ExitParenthesizedPathPatternExpression_declarations _ _ _ H).
    + apply (ExitParenthesizedPathPatternExpression_exposed _ _ _ H).
  - revert Hc. apply DeclaredAreExposed_keep; [reflexivity|].
    unfold exposedNames. simpl. rewrite dom_empty_L, union_empty_l_L.
    reflexivity.
  - revert Hc. apply DeclaredAreExposed_keep.
    + apply (ExitVariableScope_declarations _ _ H).
    + apply (ExitVariableScope_exposed _ _ H).
  - revert Hc. apply DeclaredAreExposed_keep.
    + apply (EnterPathMode_declarations _ _ _ H).
    + unfold EnterPathMode in H. bind_inv_as H outer Ho. inversion H.
      reflexivity.
  - revert Hc. apply DeclaredAreExposed_keep.
    + apply (ExitPathMode_declarations _ _ H).
    + unfold ExitPathMode in H. bind_inv_as H modes Ho. inversion H.
      reflexivity.
  - revert Hc. apply DeclaredAreExposed_keep; [reflexivity|].
    unfold exposedNames. simpl. rewrite dom_empty_L, union_empty_l_L.
    reflexivity.
  - revert Hc. apply DeclaredAreExposed_keep.
    + apply (ExitPathPatternUnion_declarations _ _ H).
    + apply (ExitPathPatternUnion_exposed _ _ H).
  - revert Hc. apply DeclaredAreExposed_keep; [reflexivity|].
    unfold exposedNames. simpl. rewrite dom_empty_L, union_empty_l_L.
    reflexivity.
  - revert Hc. apply DeclaredAreExposed_keep.
    + apply (ExitPathPatternUnionOperand_declarations _ _ H).
    + apply (ExitPathPatternUnionOperand_exposed _ _ H).
  - revert Hc. apply DeclaredAreExposed_keep.
    + apply (EnterQuantifiedPathPrimary_declarations _ _ _ H).
    + unfold EnterQuantifiedPathPrimary in H.
      destruct (isInsideQuantifiedPathPrimary_ c); [discriminate|].
      bind_inv_as H unboundedOutside Hu.
      destruct unboundedOutside; [discriminate|]. inversion H.
      unfold exposedNames. simpl. rewrite dom_empty_L, union_empty_l_L.
      reflexivity.
  - revert Hc. apply DeclaredAreExposed_keep.
    + apply (ExitQuantifiedPathPrimary_declarations _ _ _ _ H).
    + apply (ExitQuantifiedPathPrimary_exposed _ _ _ _ H).
  - revert Hc. apply DeclaredAreExposed_keep; [reflexivity|].
    unfold exposedNames. simpl. rewrite dom_empty_L, union_empty_l_L.
    reflexivity.
  - revert Hc. apply DeclaredAreExposed_keep.
    + apply (ExitQuestionedPathPrimary_declarations _ _ H).
    + apply (ExitQuestionedPathPrimary_exposed _ _ H).
  - revert Hc. apply DeclaredAreExposed_keep.
    + apply (EnterNodePattern_declarations _ _ H).
    + unfold EnterNodePattern in H. bind_inv_as H counts Ho. inversion H.
      reflexivity.
  - exact Hc.
  - revert Hc. apply DeclaredAreExposed_keep.
    + apply (EnterEdgePattern_declarations _ _ H).
    + unfold EnterEdgePattern in H. bind_inv_as H lengths Ho. inversion H.
      reflexivity.
  - exact Hc.
  - revert Hc. apply DeclaredAreExposed_keep.
    + apply (AddSearchCondition_declarations _ _ _ H).
    + unfold AddSearchCondition in H. bind_inv_as H current Ho. inversion H.
      reflexivity.
  - revert Hc. apply DeclaredAreExposed_keep.
    + apply (Finalize_declarations _ _ H).
    + apply (Finalize_exposed _ _ H).
  - exact Hc.
  - exact Hc.
Qed.

Lemma Reachable_DeclaredAreExposed fs pf c :
  Reachable fs pf c -> DeclaredAreExposed c.
Proof.
  apply (Reachable_preserves fs pf DeclaredAreExposed).
  - intros call s s'. apply perform_DeclaredAreExposed.
  - intros d. unfold DeclaredAreExposed, declared. simpl.
    rewrite dom_empty_L. apply empty_subseteq.
Qed.

(** The loop of [variables] returns normally when the frame holds every
    name it looks up. *)
Lemma variables_loop (frame : ExposedVariables)
    (l : list (string * VariableDeclaration)) :
  (forall d, d ∈ l -> is_Some (frame !! d.1)) ->
  forall result : gmap string Variable_,
  exists result',
    forEach
      (fun (d : string * VariableDeclaration) (result : gmap string Variable_) =>
         match frame !! d.1 with
         | None => Abort
         | Some varDef =>
             Ok (<[d.1 := {| type := type_ d.2;
                             declarationPosition_ :=
                               firstDeclarationPosition_ d.2;
                             isTemp := isTemp (base varDef);
                             degree := degree (base varDef) |}]> result)
         end) l result
    = Ok result'
    /\ dom result' = dom result ∪ list_to_set l.*1.
Proof.
  induction l as [|d l IH]; intros Hl result.
  - exists result. split; [reflexivity|]. simpl.
    rewrite union_empty_r_L. reflexivity.
  - rewrite forEach_cons.
    destruct (Hl d (list_elem_of_here _ _)) as [varDef Hd]. rewrite Hd.
    simpl.
    destruct (IH (fun d' Hd' => Hl d' (list_elem_of_further _ _ _ Hd'))
                (<[d.1 := {| type := type_ d.2;
                             declarationPosition_ :=
                               firstDeclarationPosition_ d.2;
                             isTemp := isTemp (base varDef);
                             degree := degree (base varDef) |}]> result))
      as (result' & Hr & Hdom).
    exists result'. split; [exact Hr|]. rewrite Hdom, dom_insert_L.
    apply set_eq. intros n. rewrite !elem_of_union. tauto.
Qed.

(** X23: [variables] is defined at the end of an analysis. In a state that
    an analysis can reach and in which [exposedVariables_] holds one frame,
    as the destructor asserts, the frame holds every declared variable:
    [variables] finds each of them and returns a result for exactly the
    declared names. *)
Theorem variables_defined fs pf (c : GraphPatternContext)
    (frame : ExposedVariables) :
  Reachable fs pf c ->
  exposedVariables_ c = [frame] ->
  exists result,
    variables c = Ok result
    /\ dom result = dom (variableDeclarations_ c).
Proof.
  intros Hr Hf. apply Reachable_DeclaredAreExposed in Hr.
  unfold DeclaredAreExposed, declared, exposedNames in Hr.
  rewrite Hf in Hr. simpl in Hr. rewrite union_empty_r_L in Hr.
  unfold variables. rewrite Hf. simpl.
  destruct (variables_loop frame (map_to_list (variableDeclarations_ c)))
    with (result := (∅ : gmap string Variable_)) as (result & H & Hdom).
  - intros [n d] Hd. apply elem_of_map_to_list in Hd. simpl.
    apply elem_of_dom. apply Hr. apply elem_of_dom. exists d. exact Hd.
  - exists result. split; [exact H|].
    rewrite Hdom, dom_empty_L, union_empty_l_L.
    apply set_eq. intros n. rewrite elem_of_list_to_set, elem_of_dom.
    rewrite list_elem_of_fmap. split.
    + intros ([n' v] & -> & Hin). apply elem_of_map_to_list in Hin.
      exists v. exact Hin.
    + intros [v Hv]. exists (n, v). split; [reflexivity|].
      apply elem_of_map_to_list. exact Hv.
Qed.

Lemma variables_defined_witness :
  exists result,
    variables (orElse (forEach (perform allFeatures acceptLabels)
                         (graphPatternCalls twoPathPatterns)
                         (newGraphPatternContext false))
                      (newGraphPatternContext false))
    = Ok result
    /\ dom result
       = dom (variableDeclarations_
                (orElse (forEach (perform allFeatures acceptLabels)
                           (graphPatternCalls twoPathPatterns)
                           (newGraphPatternContext false))
                        (newGraphPatternContext false))).
Proof.
  eapply (variables_defined allFeatures acceptLabels).
  - exists false, (graphPatternCalls twoPathPatterns).
    vm_compute. reflexivity.
  - vm_compute. reflexivity.
Defined.

(** ** The analysis of a rewritten element *)

Lemma wrapElement_G050 fs pf e where_ c c' :
  ProcessPrimary fs pf (Process fs pf) (wrapElement e where_) c = Ok c' ->
  fs G050 = true.
Proof.
  unfold wrapElement. simpl. unfold ProcessParenthesized. simpl. intros H.
  bind_inv_as H u1 F1.
  apply (ThrowIfFeatureNotSupported_Ok _ _ _ F1).
Qed.

Lemma ProcessPrimary_no_predicate fs pf e c c' :
  ProcessPrimary fs pf (Process fs pf) (Element e) c = Ok c' ->
  predicate (fillerOf e) = None.
Proof.
  intros H. simpl in H. apply ProcessElementPattern_rewritten in H.
  simpl in H. destruct e as [pos f|pos d f]; simpl in *;
    apply bool_decide_eq_true in H; exact H.
Qed.

(** X24: an element pattern with a predicate needs feature G050. Whatever
    [visitElementPatternWhereClause] or [visitElementPropertyPredicate]
    makes of an element pattern that has a WHERE clause or a property
    specification, the traversal accepts the result only under a feature
    gate that supports G050, the WHERE clause of a parenthesized path
    pattern. *)
Theorem rewritten_element_requires_G050 fs pf (e : ElementPattern)
    (node : PathPrimary) (id id' : Z) (c c' : GraphPatternContext) :
  is_Some (predicate (fillerOf e)) ->
  visitElementPatternWhereClause (Element e) tt = Some (node, tt)
  \/ visitElementPropertyPredicate (Element e) id = Some (node, id') ->
  ProcessPrimary fs pf (Process fs pf) node c = Ok c' ->
  fs G050 = true.
Proof.
  intros [p Hp] Hv H.
  destruct Hv as [Hv|Hv]; simpl in Hv; rewrite Hp in Hv.
  - destruct p as [wpos cond|props]; inversion Hv; subst node.
    + apply (wrapElement_G050 _ _ _ _ _ _ H).
    + apply ProcessPrimary_no_predicate in H. congruence.
  - destruct p as [wpos cond|props].
    + inversion Hv. subst node.
      apply ProcessPrimary_no_predicate in H. congruence.
    + destruct (var (fillerOf e)) as [v|]; inversion Hv; subst node;
        apply (wrapElement_G050 _ _ _ _ _ _ H).
Qed.

Lemma rewritten_element_requires_G050_witness :
  allFeatures G050 = true
  /\ (exists node,
        visitElementPatternWhereClause (Element nodeWhere) tt
        = Some (node, tt)
        /\ ProcessPrimary withoutParenthesizedWhere acceptLabels
             (Process withoutParenthesizedWhere acceptLabels) node
             (EnterPathPattern false (newGraphPatternContext true))
           = Throw FeatureNotSupported).
Proof.
  split.
  - eapply (rewritten_element_requires_G050 allFeatures acceptLabels
              nodeWhere _ 0 0
              (EnterPathPattern false (newGraphPatternContext true))).
    + eexists. reflexivity.
    + left. reflexivity.
    + vm_compute. reflexivity.
  - eexists. split; [reflexivity|]. vm_compute. reflexivity.
Defined.
